(** * NThread: a shallow embedding of the hijack orchestrator

    This development embeds the TypeScript sources of [@cheatron/nthread]
    (gadget registry, captured thread, orchestrator, read-only memory
    registry, zone heap and the heap-backed orchestrator) as Rocq
    functions, and states the properties of the specification over them.

    Conventions.
    - A [bigint] is a [Z]; a JavaScript [number] holding a size, an offset
      or a count is a [Z] or a [nat]; a [Buffer] is a [list byte].
    - An [async] method is a function in the state-and-exception monad
      [M S A]: it threads the mutable state [S] and either returns a value
      or throws.
    - Everything behind [@cheatron/native] (the OS thread, the remote
      process) is abstract: an interface whose operations transform an
      opaque world. *)

From Stdlib Require Import ZArith Lia Bool QArith Qround.
From Stdlib Require Import Init.Byte Strings.Byte.
From stdpp Require Import base option list gmap strings sorting.
From Equations Require Import Equations.

Open Scope Z_scope.

(** ** JavaScript outcomes: the state-and-exception monad *)

(** [Native.WaitReturn], the result codes of a Win32 wait. *)
Inductive WaitReturn :=
| OBJECT_0
| ABANDONED
| TIMEOUT
| FAILED.

#[global] Instance WaitReturn_eq_dec : EqDecision WaitReturn.
Proof. solve_decision. Defined.

(** The error classes of [errors.ts], plus the two kinds of foreign
    exception the model needs: a [RangeError] of the language itself and
    an error raised by code outside this repository. *)
Inductive Error :=
| NoSleepAddressError
| NoPushretAddressError
| InjectTimeoutError (waitResult : WaitReturn)
| CallTooManyArgsError (argCount : nat)
| CallRipMismatchError (target currentRip expectedRip : Z)
| CallTimeoutError (target : Z) (waitResult : WaitReturn)
| CallThreadDiedError (target : Z)
| RangeError
| TypeError
| PlainError (message : string)
| ForeignError (code : Z).

Inductive Outcome (A : Type) :=
| Returned (a : A)
| Thrown (e : Error).
Arguments Returned {A} a.
Arguments Thrown {A} e.

Definition M (S A : Type) : Type := S -> Outcome A * S.

Definition ret {S A} (a : A) : M S A := fun s => (Returned a, s).

Definition throw {S A} (e : Error) : M S A := fun s => (Thrown e, s).

Definition bind {S A B} (c : M S A) (k : A -> M S B) : M S B :=
  fun s =>
    match c s with
    | (Returned a, s') => k a s'
    | (Thrown e, s') => (Thrown e, s')
    end.

(** [try { c } catch (_) { h }]: the state changes made before the throw
    are kept. *)
Definition try_catch {S A} (c : M S A) (h : M S A) : M S A :=
  fun s =>
    match c s with
    | (Returned a, s') => (Returned a, s')
    | (Thrown _, s') => h s'
    end.

Definition get {S} : M S S := fun s => (Returned s, s).

Definition modify {S} (f : S -> S) : M S unit := fun s => (Returned tt, f s).

Notation "'let*' x ':=' c 'in' k" := (bind c (fun x => k))
  (at level 10, x pattern, c at level 100, k at level 200).
Notation "c ';;' k" := (bind c (fun _ => k))
  (at level 100, k at level 200, right associativity).

(** ** Register-compatible values *)

(** A JavaScript [number] as far as [BigInt(v)] can tell: an integer, or a
    value with no integer image (a fraction, NaN, an infinity), for which
    [BigInt] throws a [RangeError]. *)
Inductive JsNumber :=
| JsInt (z : Z)
| JsNonInt.

(** [type Arg = bigint | number | Native.NativePointer]. *)
Inductive Arg :=
| ArgBigInt (v : Z)
| ArgNumber (v : JsNumber)
| ArgPointer (address : Z).

(** The local [toBigInt] of [threadCall]. *)
Definition toBigInt {S} (v : Arg) : M S Z :=
  match v with
  | ArgPointer address => ret address
  | ArgBigInt z => ret z
  | ArgNumber (JsInt z) => ret z
  | ArgNumber JsNonInt => throw RangeError
  end.

(** ** The gadget registers and the thread context *)

Module Reg.

(** [GeneralPurposeRegs]: the keys of the sixteen general purpose
    registers of a [Native.ThreadContext]. *)
Inductive t :=
| Rax | Rcx | Rdx | Rbx | Rsp | Rbp | Rsi | Rdi
| R8 | R9 | R10 | R11 | R12 | R13 | R14 | R15.

#[global] Instance eq_dec : EqDecision t.
Proof. solve_decision. Defined.

End Reg.

(** [Native.ThreadContext]: the flags word, the general purpose registers
    (indexed by their key, as in [ctx[regKey]]) and the instruction
    pointer. *)
Record ThreadContext := {
  ContextFlags : Z;
  gpr : Reg.t -> Z;
  Rip : Z
}.

Definition Rax (c : ThreadContext) : Z := gpr c Reg.Rax.
Definition Rcx (c : ThreadContext) : Z := gpr c Reg.Rcx.
Definition Rdx (c : ThreadContext) : Z := gpr c Reg.Rdx.
Definition R8 (c : ThreadContext) : Z := gpr c Reg.R8.
Definition R9 (c : ThreadContext) : Z := gpr c Reg.R9.
Definition Rsp (c : ThreadContext) : Z := gpr c Reg.Rsp.

(** [ctx[key] = v]. *)
Definition set_reg (key : Reg.t) (v : Z) (c : ThreadContext) : ThreadContext :=
  {| ContextFlags := ContextFlags c;
     gpr := fun r => if decide (r = key) then v else gpr c r;
     Rip := Rip c |}.

(** [ctx.Rip = v]. *)
Definition set_Rip (v : Z) (c : ThreadContext) : ThreadContext :=
  {| ContextFlags := ContextFlags c; gpr := gpr c; Rip := v |}.

(** [ctx.ContextFlags = v]. *)
Definition set_ContextFlags (v : Z) (c : ThreadContext) : ThreadContext :=
  {| ContextFlags := v; gpr := gpr c; Rip := Rip c |}.

(** [Native.ContextFlags.INTEGER | Native.ContextFlags.CONTROL] on AMD64. *)
Definition CONTEXT_CONTROL : Z := 0x100001.
Definition CONTEXT_INTEGER : Z := 0x100002.

(** ** The operating system thread behind a captured thread *)

(** The methods of [Native.Thread] that [CapturedThread] reaches through
    [super], and the one-millisecond timer of its polling loop, acting on
    an opaque OS state.  Every native call may throw. *)
Class NativeThread (OS : Type) := {
  native_suspend : M OS Z;
  native_resume : M OS Z;
  native_getContext : M OS ThreadContext;
  native_setContext : ThreadContext -> M OS unit;
  native_wait : Z -> M OS WaitReturn;
  native_sleep : Z -> OS -> OS
}.

(** ** captured-thread.ts *)

Definition STACK_ADD : Z := -8192.

(** Modelled from the spec: [Native.stackAlign16] belongs to
    [@cheatron/native]; the specification names it [align_down_16], the
    address with its low four bits cleared. *)
Definition stackAlign16 (address : Z) : Z := Z.land address (Z.lnot 15).

Module CapturedThread.

(** The fields of a [CapturedThread].  A context is a mutable object: the
    thread holds references ([savedContext], [latestContext]) into
    [contexts], the objects handed out so far by the native [getContext]
    (each call yields a new object). *)
Record t := {
  suspendCount : Z;
  contexts : list ThreadContext;
  savedContext : option nat;
  latestContext : option nat;
  callRsp : Z;
  sleepAddress : Z;
  regKey : Reg.t
}.

Definition set_suspendCount (v : Z) (th : t) : t :=
  {| suspendCount := v; contexts := contexts th;
     savedContext := savedContext th; latestContext := latestContext th;
     callRsp := callRsp th; sleepAddress := sleepAddress th;
     regKey := regKey th |}.

Definition set_contexts (v : list ThreadContext) (th : t) : t :=
  {| suspendCount := suspendCount th; contexts := v;
     savedContext := savedContext th; latestContext := latestContext th;
     callRsp := callRsp th; sleepAddress := sleepAddress th;
     regKey := regKey th |}.

Definition set_savedContext (v : option nat) (th : t) : t :=
  {| suspendCount := suspendCount th; contexts := contexts th;
     savedContext := v; latestContext := latestContext th;
     callRsp := callRsp th; sleepAddress := sleepAddress th;
     regKey := regKey th |}.

Definition set_latestContext (v : option nat) (th : t) : t :=
  {| suspendCount := suspendCount th; contexts := contexts th;
     savedContext := savedContext th; latestContext := v;
     callRsp := callRsp th; sleepAddress := sleepAddress th;
     regKey := regKey th |}.

Definition set_callRsp (v : Z) (th : t) : t :=
  {| suspendCount := suspendCount th; contexts := contexts th;
     savedContext := savedContext th; latestContext := latestContext th;
     callRsp := v; sleepAddress := sleepAddress th;
     regKey := regKey th |}.

(** The constructor, once the native handle is adopted. *)
Definition create (regKey0 : Reg.t) (sleepAddress0 : Z) : t :=
  {| suspendCount := 0; contexts := [];
     savedContext := None; latestContext := None;
     callRsp := 0; sleepAddress := sleepAddress0; regKey := regKey0 |}.

Section Methods.

Context {OS : Type} `{NativeThread OS}.

(** The state a method runs in: the object and the OS thread it owns. *)
Record St := { self : t; os : OS }.

Definition on_self (f : t -> t) : M St unit :=
  modify (fun s => {| self := f (self s); os := os s |}).

Definition native {A} (c : M OS A) : M St A :=
  fun s =>
    let '(r, os') := c (os s) in (r, {| self := self s; os := os' |}).

(** Reading and writing through a context reference; a dangling one is a
    property access on [undefined]. *)
Definition deref (r : nat) : M St ThreadContext :=
  let* s := get in
  match contexts (self s) !! r with
  | Some c => ret c
  | None => throw TypeError
  end.

Definition mutate (r : nat) (f : ThreadContext -> ThreadContext) : M St unit :=
  on_self (fun th => set_contexts (alter f r (contexts th)) th).

(** [fetchContext()]: [this.latestContext = super.getContext()]. *)
Definition fetchContext : M St unit :=
  let* c := native native_getContext in
  on_self (fun th =>
    set_latestContext (Some (length (contexts th)))
      (set_contexts (contexts th ++ [c]) th)).

(** [getContext()]: the cache, filled on first use. *)
Definition getContext : M St nat :=
  let* s := get in
  match latestContext (self s) with
  | Some r => ret r
  | None =>
      fetchContext;;
      let* s' := get in
      match latestContext (self s') with
      | Some r => ret r
      | None => throw TypeError
      end
  end.

(** [setContext(ctx)]. *)
Definition setContext (r : nat) : M St unit :=
  on_self (set_latestContext (Some r)).

(** [applyContext()]: [super.setContext(this.latestContext)]. *)
Definition applyContext : M St unit :=
  let* s := get in
  match latestContext (self s) with
  | Some r => let* c := deref r in native (native_setContext c)
  | None => throw TypeError
  end.

(** [calcStackBegin(baseRsp)]. *)
Definition calcStackBegin (baseRsp : Z) : Z := stackAlign16 (baseRsp + STACK_ADD).

Definition setTargetReg (reg : Z) : M St unit :=
  let* r := getContext in
  let* s := get in
  mutate r (set_reg (regKey (self s)) reg);;
  setContext r.

Definition setRSP (rsp : Z) : M St unit :=
  let* r := getContext in
  mutate r (set_reg Reg.Rsp rsp);;
  setContext r.

Definition setRIP (rip : Z) : M St unit :=
  let* r := getContext in
  mutate r (set_Rip rip);;
  setContext r.

(** [suspend()] and [resume()]: the counter follows the truthiness of the
    native result. *)
Definition suspend : M St Z :=
  let* result := native native_suspend in
  (if decide (result = 0) then ret tt
   else on_self (fun th => set_suspendCount (suspendCount th + 1) th));;
  ret result.

Definition resume : M St Z :=
  let* result := native native_resume in
  (if decide (result = 0) then ret tt
   else on_self (fun th => set_suspendCount (suspendCount th - 1) th));;
  ret result.

(** [getTargetReg()], [getRSP()] and [getRIP()]: reads of the cached
    context. *)
Definition getTargetReg : M St Z :=
  let* r := getContext in
  let* c := deref r in
  let* s := get in
  ret (gpr c (regKey (self s))).

Definition getRSP : M St Z :=
  let* r := getContext in
  let* c := deref r in
  ret (Rsp c).

Definition getRIP : M St Z :=
  let* r := getContext in
  let* c := deref r in
  ret (Rip c).

(** [release()]: the saved context becomes the cached one and is applied
    between a [suspend] and a [resume].  Before [inject] has saved a
    context the cache is set to [undefined]. *)
Definition release : M St unit :=
  suspend;;
  let* s := get in
  on_self (set_latestContext (savedContext (self s)));;
  applyContext;;
  resume;;
  ret tt.

(** [wait(timeoutMs)]: the polling loop, one iteration per millisecond of
    budget.  [count] runs from [0] to [timeoutMs]; the recursion is on the
    iterations that remain. *)
Fixpoint wait_loop (remaining : nat) : M St WaitReturn :=
  match remaining with
  | O => ret TIMEOUT
  | S remaining' =>
      let* landed :=
        try_catch
          (fetchContext;;
           let* r := getContext in
           let* c := deref r in
           let* s := get in
           if decide (Rip c = sleepAddress (self s))
           then ret (Some OBJECT_0)
           else ret None)
          (let* res := native (native_wait 0) in
           if decide (res = OBJECT_0) then ret (Some FAILED)
           else ret (Some res)) in
      match landed with
      | Some res => ret res
      | None =>
          modify (fun s => {| self := self s; os := native_sleep 1 (os s) |});;
          wait_loop remaining'
      end
  end.

Definition wait (timeoutMs : Z) : M St WaitReturn :=
  wait_loop (Z.to_nat timeoutMs).

End Methods.

Arguments St OS : clear implicits.

End CapturedThread.

(** ** Buffers *)

(** The numeric value of a byte, as [buf[i]] reads it. *)
Definition byte_value (b : byte) : Z := Z.of_N (Byte.to_N b).

#[global] Instance byte_eq_dec : EqDecision byte := Byte.byte_eq_dec.

(** An index argument of [subarray], relative to the end when negative,
    clamped to the buffer. *)
Definition clamp_index (len i : Z) : Z :=
  if i <? 0 then Z.max (len + i) 0 else Z.min i len.

(** [buf.subarray(start, end)]. *)
Definition subarray (buf : list byte) (start end_ : Z) : list byte :=
  let len := Z.of_nat (length buf) in
  let b := clamp_index len start in
  let e := clamp_index len end_ in
  take (Z.to_nat (e - b)) (drop (Z.to_nat b) buf).

Lemma length_subarray buf start end_ :
  length (subarray buf start end_) =
  (Z.to_nat (clamp_index (Z.of_nat (length buf)) end_
             - clamp_index (Z.of_nat (length buf)) start)
   `min` (length buf
          - Z.to_nat (clamp_index (Z.of_nat (length buf)) start)))%nat.
Proof. unfold subarray. by rewrite length_take, length_drop. Qed.

(** [buf.subarray(start)]. *)
Definition subarray_from (buf : list byte) (start : Z) : list byte :=
  subarray buf start (Z.of_nat (length buf)).

(** [source.copy(target, targetStart, sourceStart, sourceEnd)] for indices
    inside the buffers: as many bytes as fit are copied; the result is the
    new content of [target]. *)
Definition buffer_copy (source target : list byte)
    (targetStart sourceStart sourceEnd : nat) : list byte :=
  let chunk := take (sourceEnd - sourceStart) (drop sourceStart source) in
  let n := (length chunk `min` (length target - targetStart))%nat in
  take targetStart target ++ take n chunk ++ drop (targetStart + n) target.

(** [Buffer.alloc(size, fill)] for a byte value [fill]. *)
Definition buffer_alloc (size : Z) (fill : Z) : list byte :=
  replicate (Z.to_nat size)
    (default Byte.x00 (Byte.of_N (Z.to_N (fill `mod` 256)))).

(** The length of the longest prefix whose elements satisfy [p]: where a
    loop [while (j < length && p(data[j])) j++] started at the head of
    [l] stops. *)
Fixpoint scan_while {A} (p : A -> bool) (l : list A) : nat :=
  match l with
  | x :: l' => if p x then S (scan_while p l') else O
  | [] => O
  end.

(** [while (j < length && data[j] === value) j++], as the final [j]. *)
Definition run_end (data : list byte) (value : byte) (j : nat) : nat :=
  (j + scan_while (fun b => bool_decide (b = value)) (drop j data))%nat.

(** The length of the common prefix of [source] and [last]; an index past
    the end of [last] reads [undefined], which equals no byte. *)
Fixpoint common_prefix (source last : list byte) : nat :=
  match source, last with
  | x :: source', y :: last' =>
      if bool_decide (x = y) then S (common_prefix source' last') else O
  | _, _ => O
  end.

(** [while (i < length && source[i] === last[i]) i++], as the final [i]. *)
Definition skip_end (source last : list byte) (i : nat) : nat :=
  (i + common_prefix (drop i source) (drop i last))%nat.

(** [source[i] === fillByte] for a [number]: a byte equals no number that
    is not an integer. *)
Definition is_fill (fillByte : JsNumber) (b : byte) : bool :=
  match fillByte with
  | JsInt z => bool_decide (byte_value b = z)
  | JsNonInt => false
  end.

(** [while (i < length && source[i] === fillByte) i++], as the final [i]. *)
Definition skip_fill (source : list byte) (fillByte : JsNumber) (i : nat) : nat :=
  (i + scan_while (is_fill fillByte) (drop i source))%nat.

(** A value together with the equation that it is the value of [a]: keeps
    the result of a test in scope where a recursive call depends on it. *)
Definition inspect {A} (a : A) : {b | a = b} := exist _ a eq_refl.

(** ** memory/romem.ts *)

Module Romem.

(** A registered region: the remote address and the local snapshot. *)
Record ReadOnlyMemory := {
  remote : Z;
  local : list byte
}.

(** The module keeps [regions], an array of region objects.  Here it is a
    list; a region object is referred to by its position, which is stable
    as registration appends. *)
Definition registerReadOnlyMemory (remote0 : Z) (local0 : list byte)
    (regions : list ReadOnlyMemory) : nat * list ReadOnlyMemory :=
  (length regions, regions ++ [{| remote := remote0; local := local0 |}]).

(** The test of [findOverlappingRegion]:
    [writeEnd > rStart && destAddr < rEnd]. *)
Definition overlaps (destAddr writeLen : Z) (r : ReadOnlyMemory) : Prop :=
  let writeEnd := destAddr + writeLen in
  let rStart := remote r in
  let rEnd := rStart + Z.of_nat (length (local r)) in
  rStart < writeEnd /\ destAddr < rEnd.

#[global] Instance overlaps_dec destAddr writeLen r :
  Decision (overlaps destAddr writeLen r).
Proof. unfold overlaps. apply _. Defined.

(** [findOverlappingRegion(destAddr, writeLen)]: the first region, in
    registration order, that the write range meets. *)
Definition findOverlappingRegion (regions : list ReadOnlyMemory)
    (destAddr writeLen : Z) : option (nat * ReadOnlyMemory) :=
  list_find (overlaps destAddr writeLen) regions.

Lemma find_overlaps regions destAddr writeLen idx r :
  findOverlappingRegion regions destAddr writeLen = Some (idx, r) ->
  regions !! idx = Some r /\ overlaps destAddr writeLen r.
Proof.
  unfold findOverlappingRegion. intros Hf.
  apply list_find_Some in Hf as (Hl & Ho & _). done.
Qed.

Record OverlapInfo := {
  writeOffset : Z;
  overlapLen : Z;
  snapshot : list byte
}.

(** [getOverlapInfo(destAddr, writeLen, romem)]. *)
Definition getOverlapInfo (destAddr writeLen : Z) (romem : ReadOnlyMemory)
  : OverlapInfo :=
  let writeEnd := destAddr + writeLen in
  let rStart := remote romem in
  let rEnd := rStart + Z.of_nat (length (local romem)) in
  let overlapStart := if rStart <? destAddr then destAddr else rStart in
  let overlapEnd := if writeEnd <? rEnd then writeEnd else rEnd in
  let overlapLen0 := overlapEnd - overlapStart in
  let writeOffset0 := overlapStart - destAddr in
  let romemOffset := overlapStart - rStart in
  {| writeOffset := writeOffset0;
     overlapLen := overlapLen0;
     snapshot := subarray (local romem) romemOffset (romemOffset + overlapLen0) |}.

(** [updateSnapshot(romem, source, destAddr)], as the new region. *)
Definition updateSnapshot (romem : ReadOnlyMemory) (source : list byte)
    (destAddr : Z) : ReadOnlyMemory :=
  let rStart := remote romem in
  let writeStart := destAddr in
  let writeEnd := writeStart + Z.of_nat (length source) in
  let rEnd := rStart + Z.of_nat (length (local romem)) in
  let overlapStart := if rStart <? writeStart then writeStart else rStart in
  let overlapEnd := if writeEnd <? rEnd then writeEnd else rEnd in
  if overlapEnd <=? overlapStart then romem
  else
    let srcOffset := Z.to_nat (overlapStart - writeStart) in
    let dstOffset := Z.to_nat (overlapStart - rStart) in
    let len := Z.to_nat (overlapEnd - overlapStart) in
    {| remote := remote romem;
       local := buffer_copy source (local romem) dstOffset srcOffset
                  (srcOffset + len) |}.

End Romem.

(** ** crt.ts and the proxy *)

(** [CRTFunctions]: the addresses resolved from [msvcrt.dll]. *)
Record CRTFunctions := {
  fopen : Z;
  memset : Z;
  malloc : Z;
  calloc : Z;
  realloc : Z;
  fwrite : Z;
  fflush : Z;
  fclose : Z;
  fread : Z;
  free : Z
}.

(** The delegates of a [ProxyThread] that the orchestrator reaches, acting
    on an opaque world [W] (the target process and the thread parked in
    it), next to the resolved [crt] table.  [proxy_call] is
    [proxy.call(target, ...args)], [proxy_read] is
    [proxy.read(address, size)] and [memory_read] is
    [Native.currentProcess.memory.read(address, size)]; each may throw. *)
Class ProxyThread (W : Type) := {
  crt : CRTFunctions;
  proxy_call : Z -> list Arg -> M W Z;
  proxy_read : Z -> Z -> M W (list byte);
  memory_read : Z -> Z -> M W (list byte)
}.

(** ** globals.ts: the gadget registry *)

(** What [Native.Module.scan] finds in the loaded modules: the addresses
    of [jmp .] and, for a register, of [push reg; ret]. *)
Class Scanner := {
  scan_sleep : list Z;
  scan_pushret : Reg.t -> list Z
}.

Module Globals.

(** [leastClobberedRegs]: the register priority sequence. *)
Definition leastClobberedRegs : list Reg.t :=
  [Reg.Rbx; Reg.Rbp; Reg.Rdi; Reg.Rsi].

(** A value of the [pushretAddresses] map. *)
Record PushretEntry := {
  pointer : Z;
  regKey : Reg.t
}.

(** The module state: the pool of sleep addresses, the [Map] of pushret
    gadgets (in insertion order, which is the order of its [values()]),
    and the flag of the one-time scan. *)
Record t := {
  sleepAddresses : list Z;
  pushretAddresses : list (Z * PushretEntry);
  isAutoDiscovered : bool
}.

Definition empty : t :=
  {| sleepAddresses := []; pushretAddresses := []; isAutoDiscovered := false |}.

(** [map.set(key, value)]: an existing key keeps its place. *)
Fixpoint map_set (key : Z) (value : PushretEntry)
    (m : list (Z * PushretEntry)) : list (Z * PushretEntry) :=
  match m with
  | [] => [(key, value)]
  | (k, v) :: m' =>
      if decide (k = key) then (k, value) :: m'
      else (k, v) :: map_set key value m'
  end.

(** [registerSleepAddress(address)]. *)
Definition registerSleepAddress (address0 : Z) (g : t) : t :=
  {| sleepAddresses := sleepAddresses g ++ [address0];
     pushretAddresses := pushretAddresses g;
     isAutoDiscovered := isAutoDiscovered g |}.

(** [registerPushretAddress(address, regKey)]. *)
Definition registerPushretAddress (address0 : Z) (regKey0 : Reg.t) (g : t) : t :=
  {| sleepAddresses := sleepAddresses g;
     pushretAddresses :=
       map_set address0 {| pointer := address0; regKey := regKey0 |}
         (pushretAddresses g);
     isAutoDiscovered := isAutoDiscovered g |}.

(** [Math.floor(Math.random() * n)] for the draw [rnd] of
    [Math.random()], a number in [0, 1). *)
Definition random_index (rnd : Q) (n : nat) : nat :=
  Z.to_nat (Qfloor (rnd * inject_Z (Z.of_nat n))).

Section Discovery.

Context `{Scanner}.

(** [autoDiscoverAddresses()]. *)
Definition autoDiscoverAddresses (g : t) : t :=
  if isAutoDiscovered g then g
  else
    let g1 := foldl (fun g a => registerSleepAddress a g) g scan_sleep in
    let g2 :=
      foldl (fun g regKey0 =>
               foldl (fun g a => registerPushretAddress a regKey0 g) g
                 (scan_pushret regKey0))
        g1 leastClobberedRegs in
    {| sleepAddresses := sleepAddresses g2;
       pushretAddresses := pushretAddresses g2;
       isAutoDiscovered := true |}.

(** [getRandomSleepAddress()]. *)
Definition getRandomSleepAddress (rnd : Q) (g : t) : option Z * t :=
  let g1 :=
    if decide (length (sleepAddresses g) = 0%nat)
    then autoDiscoverAddresses g else g in
  if decide (length (sleepAddresses g1) = 0%nat) then (None, g1)
  else
    (sleepAddresses g1 !! random_index rnd (length (sleepAddresses g1)), g1).

(** The loop over [leastClobberedRegs]: the entries of the first class
    that is not empty, or all of [validEntries] when every class is. *)
Fixpoint best_class (regs : list Reg.t) (validEntries : list PushretEntry)
  : list PushretEntry :=
  match regs with
  | [] => validEntries
  | bestReg :: regs' =>
      let bestEntries :=
        filter (fun e => regKey e = bestReg) validEntries in
      if decide (0 < length bestEntries)%nat then bestEntries
      else best_class regs' validEntries
  end.

(** [getRandomPushretAddress(regKey)]. *)
Definition getRandomPushretAddress (regKey0 : option Reg.t) (rnd : Q) (g : t)
  : option PushretEntry * t :=
  let g1 :=
    if decide (length (pushretAddresses g) = 0%nat)
    then autoDiscoverAddresses g else g in
  if decide (length (pushretAddresses g1) = 0%nat) then (None, g1)
  else
    let values := snd <$> pushretAddresses g1 in
    let validEntries :=
      match regKey0 with
      | Some key => filter (fun e => regKey e = key) values
      | None => best_class leastClobberedRegs values
      end in
    if decide (length validEntries = 0%nat) then (None, g1)
    else (validEntries !! random_index rnd (length validEntries), g1).

End Discovery.

End Globals.

(** ** nthread.ts: the hijack and the in-thread call *)

(** A short name for the captured thread. *)
Module CT := CapturedThread.

Module NThread.

(** The fields of an [NThread], as resolved by its constructor. *)
Record t := {
  sleepAddress : Z;
  pushretAddress : Z;
  regKey : Reg.t
}.

Section Constructor.

Context `{Scanner}.

(** [new NThread(processId, sleepAddress, pushretAddress, regKey)], with
    the two draws of [Math.random()] the gadget choices may consume. *)
Definition create (sleepAddress0 pushretAddress0 : option Z)
    (regKey0 : option Reg.t) (rndSleep rndPushret : Q) : M Globals.t t :=
  let* sleep :=
    match sleepAddress0 with
    | Some a => ret a
    | None =>
        fun g =>
          match Globals.getRandomSleepAddress rndSleep g with
          | (Some a, g') => (Returned a, g')
          | (None, g') => (Thrown NoSleepAddressError, g')
          end
    end in
  match pushretAddress0 with
  | Some a =>
      ret {| sleepAddress := sleep; pushretAddress := a;
             regKey := default Reg.Rbp regKey0 |}
  | None =>
      fun g =>
        match Globals.getRandomPushretAddress regKey0 rndPushret g with
        | (Some e, g') =>
            (Returned {| sleepAddress := sleep;
                         pushretAddress := Globals.pointer e;
                         regKey := Globals.regKey e |}, g')
        | (None, g') => (Thrown NoPushretAddressError, g')
        end
  end.

End Constructor.

Section Hijack.

Context {OS : Type} `{NativeThread OS}.

(** [inject(thread)], from the adopted handle to the parked thread.  The
    result is the captured thread (the state); the proxy returned next to
    it is a bundle of closures over it and has no state of its own. *)
Definition inject_body (nt : t) : M (CT.St OS) unit :=
  CT.suspend;;
  CT.fetchContext;;
  let* saved := CT.getContext in
  CT.on_self (CT.set_savedContext (Some saved));;
  let* c := CT.deref saved in
  let targetReg := gpr c (regKey nt) in
  let rip := Rip c in
  let rsp := Rsp c in
  let stackBegin := CT.calcStackBegin rsp in
  CT.on_self (CT.set_callRsp (stackBegin - 8));;
  CT.setRIP (pushretAddress nt);;
  CT.setRSP stackBegin;;
  CT.setTargetReg (sleepAddress nt);;
  CT.applyContext;;
  CT.resume;;
  let* res := CT.wait 5000 in
  if decide (res = OBJECT_0) then
    let* parked := CT.getContext in
    CT.on_self (CT.set_savedContext (Some parked));;
    CT.mutate parked (set_reg (regKey nt) targetReg);;
    CT.mutate parked (set_Rip rip);;
    CT.mutate parked (set_reg Reg.Rsp rsp);;
    let* latest := CT.getContext in
    CT.mutate latest
      (set_ContextFlags (Z.lor CONTEXT_INTEGER CONTEXT_CONTROL))
  else throw (InjectTimeoutError res).

Definition inject (nt : t) (thread : OS) : Outcome unit * CT.St OS :=
  inject_body nt
    {| CT.self := CT.create (regKey nt) (sleepAddress nt);
       CT.os := thread |}.

(** [ctx.R = toBigInt(args[i]!)], guarded by [args.length > i]. *)
Definition load_arg (r : nat) (key : Reg.t) (i : nat) (args : list Arg)
  : M (CT.St OS) unit :=
  match args !! i with
  | Some a => let* v := toBigInt a in CT.mutate r (set_reg key v)
  | None => ret tt
  end.

(** [threadCall(thread, target, args, timeoutMs)]. *)
Definition threadCall (nt : t) (target : Z) (args : list Arg) (timeoutMs : Z)
  : M (CT.St OS) Z :=
  if decide (4 < length args)%nat then
    throw (CallTooManyArgsError (length args))
  else
    CT.suspend;;
    CT.fetchContext;;
    let* r0 := CT.getContext in
    let* c0 := CT.deref r0 in
    let currentRip := Rip c0 in
    if decide (currentRip = sleepAddress nt) then
      let* ctx := CT.getContext in
      load_arg ctx Reg.Rcx 0 args;;
      load_arg ctx Reg.Rdx 1 args;;
      load_arg ctx Reg.R8 2 args;;
      load_arg ctx Reg.R9 3 args;;
      CT.mutate ctx (set_Rip target);;
      let* s := get in
      CT.mutate ctx (set_reg Reg.Rsp (CT.callRsp (CT.self s)));;
      CT.setContext ctx;;
      CT.applyContext;;
      CT.resume;;
      let* res := CT.wait timeoutMs in
      if decide (res = FAILED) then throw (CallThreadDiedError target)
      else if decide (res = OBJECT_0) then
        let* r := CT.getContext in
        let* c := CT.deref r in
        ret (Rax c)
      else throw (CallTimeoutError target res)
    else
      CT.resume;;
      throw (CallRipMismatchError target currentRip (sleepAddress nt)).

End Hijack.

(** *** The memset-decomposed writer *)

Section Writer.

Context {W : Type} `{ProxyThread W}.

(** The writer runs against the region registry of [romem.ts] and the
    world behind the proxy. *)
Record St := { regions : list Romem.ReadOnlyMemory; world : W }.

Definition in_world {A} (c : M W A) : M St A :=
  fun s =>
    let '(r, w') := c (world s) in (r, {| regions := regions s; world := w' |}).

(** [proxy.call(crt.memset, addr, value, runLen)]. *)
Definition call_memset (addr : Z) (value : byte) (runLen : nat) : M W Z :=
  proxy_call (memset crt)
    [ArgBigInt addr; ArgNumber (JsInt (byte_value value));
     ArgNumber (JsInt (Z.of_nat runLen))].

(** The loop of the non-overlap path of [writeMemory] (and of
    [writeMemoryWithPointer]), from offset [i] on. *)
Equations? plain_loop (destAddr : Z) (data : list byte) (i : nat) (w : W)
  : Outcome nat * W by wf (length data - i)%nat lt :=
plain_loop destAddr data i w with inspect (data !! i) := {
  | exist _ None _ => (Returned (length data), w)
  | exist _ (Some value) Hi =>
      (let j := run_end data value (i + 1) in
       let runLen := (j - i)%nat in
       let* addr := call_memset (destAddr + Z.of_nat i) value runLen in
       if decide (addr = 0) then ret i
       else fun w' => plain_loop destAddr data j w') w }.
Proof.
  apply lookup_lt_Some in Hi. subst j. unfold run_end. lia.
Qed.

(** [writeMemorySafeBuffer(proxy, dest, source, last)], its loop from
    offset [i] on. *)
Equations? safe_loop (destAddr : Z) (source last : list byte) (i : nat) (w : W)
  : Outcome nat * W by wf (length source - i)%nat lt :=
safe_loop destAddr source last i w
  with inspect (source !! skip_end source last i) := {
  | exist _ None _ => (Returned (length source), w)
  | exist _ (Some value) Hi =>
      (let i' := skip_end source last i in
       let j := run_end source value (i' + 1) in
       let runLen := (j - i')%nat in
       let* addr := call_memset (destAddr + Z.of_nat i') value runLen in
       if decide (addr = 0) then ret i'
       else fun w' => safe_loop destAddr source last j w') w }.
Proof.
  apply lookup_lt_Some in Hi. subst j i'. unfold run_end, skip_end in *. lia.
Qed.

Definition writeMemorySafeBuffer (dest : Z) (source last : list byte)
  : M W nat :=
  if decide (length source = 0%nat) then ret 0%nat
  else safe_loop dest source last 0.

(** [writeMemorySafeUniform(proxy, dest, source, fillByte)], its loop from
    offset [i] on. *)
Equations? uniform_loop (destAddr : Z) (source : list byte)
    (fillByte : JsNumber) (i : nat) (w : W)
  : Outcome nat * W by wf (length source - i)%nat lt :=
uniform_loop destAddr source fillByte i w
  with inspect (source !! skip_fill source fillByte i) := {
  | exist _ None _ => (Returned (length source), w)
  | exist _ (Some value) Hi =>
      (let i' := skip_fill source fillByte i in
       let j := run_end source value (i' + 1) in
       let runLen := (j - i')%nat in
       let* addr := call_memset (destAddr + Z.of_nat i') value runLen in
       if decide (addr = 0) then ret i'
       else fun w' => uniform_loop destAddr source fillByte j w') w }.
Proof.
  apply lookup_lt_Some in Hi. subst j i'. unfold run_end, skip_fill in *. lia.
Qed.

Definition writeMemorySafeUniform (dest : Z) (source : list byte)
    (fillByte : JsNumber) : M W nat :=
  if decide (length source = 0%nat) then ret 0%nat
  else uniform_loop dest source fillByte 0.

(** The [lastDest] argument of [writeMemorySafe]: a snapshot or a fill
    value. *)
Inductive LastDest :=
| LastBuffer (last : list byte)
| LastFill (fillByte : JsNumber).

(** [writeMemorySafe(proxy, dest, source, lastDest)]. *)
Definition writeMemorySafe (dest : Z) (source : list byte)
    (lastDest : LastDest) : M W nat :=
  match lastDest with
  | LastFill fillByte => writeMemorySafeUniform dest source fillByte
  | LastBuffer last => writeMemorySafeBuffer dest source last
  end.

(** [romem.local.subarray(..)] is a view of the region's buffer: the
    bytes of [snapshot] are those the region holds when they are read. *)
Definition snapshot_view (idx : nat) (destAddr writeLen : Z)
  : M St (list byte) :=
  let* s := get in
  match regions s !! idx with
  | Some romem => ret (Romem.snapshot (Romem.getOverlapInfo destAddr writeLen romem))
  | None => throw TypeError
  end.

(** [updateSnapshot(romem, ..)] on the region object [idx]. *)
Definition update_region (idx : nat) (source : list byte) (destAddr : Z)
  : M St unit :=
  modify (fun s =>
    {| regions :=
         alter (fun r => Romem.updateSnapshot r source destAddr) idx (regions s);
       world := world s |}).

(** [writeMemory(proxy, dest, source)]. *)
Equations? writeMemory (dest : Z) (source : list byte) (st : St)
  : Outcome nat * St by wf (length source) lt :=
writeMemory dest [] st := (Returned 0%nat, st);
writeMemory dest (b :: bs) st
  with inspect (Romem.findOverlappingRegion (regions st) dest
                  (Z.of_nat (length (b :: bs)))) := {
  | exist _ (Some (idx, romem)) Hfind =>
      (let data := b :: bs in
       let length_ := Z.of_nat (length data) in
       let info := Romem.getOverlapInfo dest length_ romem in
       let writeOffset := Romem.writeOffset info in
       let overlapLen := Romem.overlapLen info in
       let* written1 :=
         (if decide (0 < writeOffset)
          then fun st' => writeMemory dest (subarray data 0 writeOffset) st'
          else ret 0%nat) in
       let overlapDest := dest + writeOffset in
       let overlapData := subarray data writeOffset (writeOffset + overlapLen) in
       let* snapshot := snapshot_view idx dest length_ in
       let* written2 :=
         in_world (writeMemorySafeBuffer overlapDest overlapData snapshot) in
       update_region idx overlapData overlapDest;;
       let afterOffset := writeOffset + overlapLen in
       let* written3 :=
         (if decide (afterOffset < length_)
          then fun st' =>
            writeMemory (dest + afterOffset) (subarray_from data afterOffset) st'
          else ret 0%nat) in
       ret (written1 + written2 + written3)%nat) st
  | exist _ None _ => in_world (plain_loop dest (b :: bs) 0) st }.
Proof.
  - apply Romem.find_overlaps in Hfind as [_ [Hlo Hhi]].
    subst writeOffset data. rewrite length_subarray.
    unfold clamp_index. cbn [length] in *.
    repeat case_match; lia.
  - apply Romem.find_overlaps in Hfind as [_ [Hlo Hhi]].
    subst afterOffset overlapLen writeOffset length_ data.
    unfold subarray_from. rewrite length_subarray.
    unfold clamp_index. cbn [length] in *.
    repeat case_match; lia.
Qed.

(** [writeMemoryWithPointer(proxy, dest, source, size)]: the bytes are
    read from the local process, then written by the plain loop; the
    region registry is not consulted. *)
Definition writeMemoryWithPointer (dest : Z) (source : Z) (size : Z)
  : M St nat :=
  let* buf := in_world (memory_read source size) in
  if decide (length buf = 0%nat) then ret 0%nat
  else in_world (fun w => plain_loop dest buf 0 w).

(** The [data] argument of [proxy.write]. *)
Inductive WriteData :=
| DataBuffer (buf : list byte)
| DataPointer (address : Z).

(** [threadWrite(proxy, address, data, size)]. *)
Definition threadWrite (address : Z) (data : WriteData) (size : option Z)
  : M St Z :=
  match data with
  | DataPointer source =>
      match size with
      | Some size' =>
          if decide (size' = 0)
          then throw (PlainError "Size must be specified when writing a pointer.")
          else
            writeMemoryWithPointer address source size';;
            ret size'
      | None => throw (PlainError "Size must be specified when writing a pointer.")
      end
  | DataBuffer buf =>
      let writeSize := default (Z.of_nat (length buf)) size in
      (fun st => writeMemory address (subarray buf 0 writeSize) st);;
      ret writeSize
  end.

(** [AllocOptions]. *)
Record AllocOptions := {
  fill : option Z;
  readonly : option bool;
  address : option Z
}.

(** [opts?.field]. *)
Definition opt_field {A} (f : AllocOptions -> option A)
    (opts : option AllocOptions) : option A :=
  opts ≫= f.

(** The base hook [threadAlloc(proxy, size, opts)].  Modelled from the
    spec: [proxy.malloc], [proxy.calloc], [proxy.realloc] and
    [proxy.memset] are the auto-bound CRT methods of [proxy-thread.ts],
    each of which calls [proxy.call(crt.<name>, ...)]. *)
Definition threadAlloc (size : Z) (opts : option AllocOptions) : M St Z :=
  match opt_field address opts with
  | Some address0 =>
      let* ptr := in_world (proxy_call (realloc crt)
                              [ArgBigInt address0; ArgBigInt size]) in
      if decide (ptr = 0)
      then throw (PlainError "realloc returned NULL")
      else ret ptr
  | None =>
      match opt_field fill opts with
      | None => in_world (proxy_call (malloc crt) [ArgBigInt size])
      | Some fill0 =>
          if decide (fill0 = 0)
          then in_world (proxy_call (calloc crt) [ArgBigInt 1; ArgBigInt size])
          else
            let* ptr := in_world (proxy_call (malloc crt) [ArgBigInt size]) in
            in_world (proxy_call (memset crt)
                        [ArgBigInt ptr; ArgBigInt (Z.land fill0 255);
                         ArgBigInt size]);;
            ret ptr
      end
  end.

(** The base hook [threadFree(proxy, ptr)]. *)
Definition threadFree (ptr : Z) : M St unit :=
  in_world (proxy_call (free crt) [ArgBigInt ptr]);;
  ret tt.

End Writer.

Arguments St W : clear implicits.

End NThread.

(** ** memory/heap.ts *)

Module HeapAlloc.

(** The result of a heap allocation. *)
Record t := {
  remote : Z;
  size : Z
}.

End HeapAlloc.

Module FreeBlock.

(** A block of a free list: its offset from the zone start and its size. *)
Record t := {
  offset : Z;
  size : Z
}.

End FreeBlock.

Module Heap.

Definition DEFAULT_HEAP_SIZE : Z := 16384.

(** The fields of a [Heap]; [romem] refers to the region registered for
    the readonly zone. *)
Record t := {
  base : Z;
  totalSize : Z;
  roSize : Z;
  rwSize : Z;
  romem : nat;
  roOffset : Z;
  rwOffset : Z;
  roFreeList : list FreeBlock.t;
  rwFreeList : list FreeBlock.t
}.

(** The private constructor: both zones empty. *)
Definition make (base0 totalSize0 roSize0 rwSize0 : Z) (romem0 : nat) : t :=
  {| base := base0; totalSize := totalSize0; roSize := roSize0;
     rwSize := rwSize0; romem := romem0; roOffset := 0; rwOffset := 0;
     roFreeList := []; rwFreeList := [] |}.

Definition set_ro (offset : Z) (freeList : list FreeBlock.t) (h : t) : t :=
  {| base := base h; totalSize := totalSize h; roSize := roSize h;
     rwSize := rwSize h; romem := romem h; roOffset := offset;
     rwOffset := rwOffset h; roFreeList := freeList;
     rwFreeList := rwFreeList h |}.

Definition set_rw (offset : Z) (freeList : list FreeBlock.t) (h : t) : t :=
  {| base := base h; totalSize := totalSize h; roSize := roSize h;
     rwSize := rwSize h; romem := romem h; roOffset := roOffset h;
     rwOffset := offset; roFreeList := roFreeList h;
     rwFreeList := freeList |}.

(** [get rwBase()]. *)
Definition rwBase (h : t) : Z := base h + roSize h.

Definition roRemaining (h : t) : Z := roSize h - roOffset h.

Definition rwRemaining (h : t) : Z := rwSize h - rwOffset h.

Definition roAvailable (h : t) : Z :=
  roRemaining h + foldl (fun sum b => sum + FreeBlock.size b) 0 (roFreeList h).

Definition rwAvailable (h : t) : Z :=
  rwRemaining h + foldl (fun sum b => sum + FreeBlock.size b) 0 (rwFreeList h).

(** [findFreeBlock(freeList, size)]: the index of the first block that is
    large enough; [None] stands for [-1]. *)
Definition findFreeBlock (freeList : list FreeBlock.t) (size : Z) : option nat :=
  fst <$> list_find (fun b => size <= FreeBlock.size b) freeList.

(** [splitFreeBlock(freeList, index, size)]: the offset handed out and the
    free list it leaves. *)
Definition splitFreeBlock (freeList : list FreeBlock.t) (index : nat) (size : Z)
  : option (Z * list FreeBlock.t) :=
  match freeList !! index with
  | Some block =>
      let offset := FreeBlock.offset block in
      let remainder := FreeBlock.size block - size in
      if decide (0 < remainder)
      then Some (offset,
                 <[index := {| FreeBlock.offset := FreeBlock.offset block + size;
                               FreeBlock.size := remainder |}]> freeList)
      else Some (offset, delete index freeList)
  | None => None
  end.

(** [freeList.splice(index, 0, block)]. *)
Definition splice_in (index : nat) (block : FreeBlock.t)
    (freeList : list FreeBlock.t) : list FreeBlock.t :=
  take index freeList ++ block :: drop index freeList.

(** The two merge steps of [insertAndCoalesce]: the block at [index]
    absorbs its successor when they touch. *)
Definition merge_at (index : nat) (freeList : list FreeBlock.t)
  : list FreeBlock.t :=
  match freeList !! index, freeList !! S index with
  | Some curr, Some next =>
      if decide (FreeBlock.offset curr + FreeBlock.size curr
                 = FreeBlock.offset next)
      then delete (S index)
             (<[index := {| FreeBlock.offset := FreeBlock.offset curr;
                            FreeBlock.size :=
                              FreeBlock.size curr + FreeBlock.size next |}]>
                freeList)
      else freeList
  | _, _ => freeList
  end.

(** [insertAndCoalesce(freeList, offset, size)]. *)
Definition insertAndCoalesce (freeList : list FreeBlock.t) (offset size : Z)
  : list FreeBlock.t :=
  let insertIdx :=
    scan_while (fun b => bool_decide (FreeBlock.offset b < offset)) freeList in
  let inserted :=
    splice_in insertIdx
      {| FreeBlock.offset := offset; FreeBlock.size := size |} freeList in
  let mergedNext := merge_at insertIdx inserted in
  match insertIdx with
  | O => mergedNext
  | S prevIdx => merge_at prevIdx mergedNext
  end.

(** [allocReadonly(size)]. *)
Definition allocReadonly (size : Z) : M t HeapAlloc.t :=
  fun h =>
    if decide (size <= 0) then (Thrown (PlainError "Invalid alloc size"), h)
    else
      match findFreeBlock (roFreeList h) size with
      | Some freeIdx =>
          match splitFreeBlock (roFreeList h) freeIdx size with
          | Some (offset, freeList') =>
              (Returned {| HeapAlloc.remote := base h + offset;
                           HeapAlloc.size := size |},
               set_ro (roOffset h) freeList' h)
          | None => (Thrown TypeError, h)
          end
      | None =>
          if decide (roSize h < roOffset h + size)
          then (Thrown (PlainError "Readonly zone exhausted"), h)
          else
            (Returned {| HeapAlloc.remote := base h + roOffset h;
                         HeapAlloc.size := size |},
             set_ro (roOffset h + size) (roFreeList h) h)
      end.

(** [alloc(size)]. *)
Definition alloc (size : Z) : M t HeapAlloc.t :=
  fun h =>
    if decide (size <= 0) then (Thrown (PlainError "Invalid alloc size"), h)
    else
      match findFreeBlock (rwFreeList h) size with
      | Some freeIdx =>
          match splitFreeBlock (rwFreeList h) freeIdx size with
          | Some (offset, freeList') =>
              (Returned {| HeapAlloc.remote := base h + roSize h + offset;
                           HeapAlloc.size := size |},
               set_rw (rwOffset h) freeList' h)
          | None => (Thrown TypeError, h)
          end
      | None =>
          if decide (rwSize h < rwOffset h + size)
          then (Thrown (PlainError "ReadWrite zone exhausted"), h)
          else
            (Returned {| HeapAlloc.remote := base h + (roSize h + rwOffset h);
                         HeapAlloc.size := size |},
             set_rw (rwOffset h + size) (rwFreeList h) h)
      end.

(** [free(alloc)]. *)
Definition free (a : HeapAlloc.t) : M t unit :=
  fun h =>
    let addr := HeapAlloc.remote a in
    let baseAddr := base h in
    let roEnd := baseAddr + roSize h in
    let rwEnd := roEnd + rwSize h in
    if decide (baseAddr <= addr /\ addr < roEnd) then
      let offset := addr - baseAddr in
      (Returned tt,
       set_ro (roOffset h)
         (insertAndCoalesce (roFreeList h) offset (HeapAlloc.size a)) h)
    else if decide (roEnd <= addr /\ addr < rwEnd) then
      let offset := addr - roEnd in
      (Returned tt,
       set_rw (rwOffset h)
         (insertAndCoalesce (rwFreeList h) offset (HeapAlloc.size a)) h)
    else (Thrown (PlainError "Address does not belong to this heap"), h).

Section Create.

Context {W : Type} `{ProxyThread W}.

(** [Heap.create(proxy, totalSize, roSize)]: one [calloc] in the target,
    the readonly zone registered with an all-zero snapshot. *)
Definition create (totalSize0 : Z) (roSize0 : option Z) : M (NThread.St W) t :=
  let actualRoSize := default (totalSize0 `div` 2) roSize0 in
  let rwSize0 := totalSize0 - actualRoSize in
  if decide (actualRoSize < 0 \/ rwSize0 < 0)
  then throw (PlainError "Invalid heap sizes")
  else
    let* base0 := NThread.in_world
                    (proxy_call (calloc crt)
                       [ArgNumber (JsInt 1); ArgNumber (JsInt totalSize0)]) in
    if decide (base0 = 0) then throw (PlainError "calloc returned NULL")
    else
      let* s := get in
      let '(romem0, regions') :=
        Romem.registerReadOnlyMemory base0 (buffer_alloc actualRoSize 0)
          (NThread.regions s) in
      modify (fun s => {| NThread.regions := regions';
                          NThread.world := NThread.world s |});;
      ret (make base0 totalSize0 actualRoSize rwSize0 romem0).

End Create.

End Heap.

(** ** nthread-heap.ts *)

Module NThreadHeap.

Definition DEFAULT_NTHREAD_HEAP_SIZE : Z := 65536.

Definition DEFAULT_NTHREAD_HEAP_MAX_SIZE : Z := DEFAULT_NTHREAD_HEAP_SIZE * 8.

(** [AllocRecord]: heap-backed, with the [Heap] object it came from, or
    ['super']. *)
Inductive AllocRecord :=
| HeapBacked (alloc : HeapAlloc.t) (heap : nat)
| Super.

(** [ProxyState].  A [Heap] is a mutable object shared between the state
    and the allocation records: it is referred to by its position in the
    store of heap objects. *)
Record ProxyState := {
  heap : option nat;
  prevHeaps : list nat;
  allocations : gmap Z AllocRecord
}.

(** The configuration of an [NThreadHeap]. *)
Record t := {
  heapSize : Z;
  maxSize : Z
}.

(** [new NThreadHeap(heapSize, maxSize)]. *)
Definition create (heapSize0 maxSize0 : option Z) : t :=
  {| heapSize := default DEFAULT_NTHREAD_HEAP_SIZE heapSize0;
     maxSize := default DEFAULT_NTHREAD_HEAP_MAX_SIZE maxSize0 |}.

Section Hooks.

Context {W : Type} `{ProxyThread W}.

(** The state the hooks of one proxy run in: the entry of [this.state] for
    that proxy (absent until first use), the [Heap] objects created so
    far, and the registry and world of the base orchestrator. *)
Record St := {
  state : option ProxyState;
  heaps : list Heap.t;
  process : NThread.St W
}.

Definition in_process {A} (c : M (NThread.St W) A) : M St A :=
  fun s =>
    let '(r, p') := c (process s) in
    (r, {| state := state s; heaps := heaps s; process := p' |}).

Definition set_state (ps : ProxyState) : M St unit :=
  modify (fun s =>
    {| state := Some ps; heaps := heaps s; process := process s |}).

(** [getState(proxy)]. *)
Definition getState : M St ProxyState :=
  let* s := get in
  match state s with
  | Some ps => ret ps
  | None =>
      let ps := {| heap := None; prevHeaps := []; allocations := ∅ |} in
      set_state ps;;
      ret ps
  end.

(** An update of the [ProxyState] object obtained from [getState]. *)
Definition on_state (f : ProxyState -> ProxyState) : M St unit :=
  modify (fun s =>
    {| state := f <$> state s; heaps := heaps s; process := process s |}).

Definition set_allocation (address : Z) (record : AllocRecord)
  : ProxyState -> ProxyState :=
  fun ps =>
    {| heap := heap ps; prevHeaps := prevHeaps ps;
       allocations := <[address := record]> (allocations ps) |}.

Definition delete_allocation (address : Z) : ProxyState -> ProxyState :=
  fun ps =>
    {| heap := heap ps; prevHeaps := prevHeaps ps;
       allocations := delete address (allocations ps) |}.

Definition push_prevHeap (h : nat) : ProxyState -> ProxyState :=
  fun ps =>
    {| heap := heap ps; prevHeaps := prevHeaps ps ++ [h];
       allocations := allocations ps |}.

Definition set_heap (h : nat) : ProxyState -> ProxyState :=
  fun ps =>
    {| heap := Some h; prevHeaps := prevHeaps ps;
       allocations := allocations ps |}.

(** A method call on the heap object [h]. *)
Definition on_heap {A} (h : nat) (c : M Heap.t A) : M St A :=
  fun s =>
    match heaps s !! h with
    | Some obj =>
        let '(r, obj') := c obj in
        (r, {| state := state s; heaps := <[h := obj']> (heaps s);
               process := process s |})
    | None => (Thrown TypeError, s)
    end.

(** [await Heap.create(proxy, totalSize, roSize)], the new object added to
    the store. *)
Definition new_heap (totalSize roSize : Z) : M St nat :=
  let* obj := in_process (Heap.create totalSize (Some roSize)) in
  let* s := get in
  modify (fun s =>
    {| state := state s; heaps := heaps s ++ [obj]; process := process s |});;
  ret (length (heaps s)).

(** [tryAlloc(heap, size, ro)]: [None] stands for [null]. *)
Definition tryAlloc (h : nat) (size : Z) (ro : bool)
  : M St (option HeapAlloc.t) :=
  try_catch
    (let* a := on_heap h (if ro then Heap.allocReadonly size
                          else Heap.alloc size) in
     ret (Some a))
    (ret None).

(** [calcRoSize(totalSize, ro)]. *)
Definition calcRoSize (totalSize : Z) (ro : bool) : Z :=
  if ro then (totalSize * 3) `div` 4 else totalSize `div` 4.

(** The tail of [allocFromHeap]: allocate from the heap just created. *)
Definition allocFromFresh (h : nat) (size : Z) (ro : bool)
  : M St (option Z) :=
  let* result := tryAlloc h size ro in
  match result with
  | None => ret None
  | Some a =>
      on_state (set_allocation (HeapAlloc.remote a) (HeapBacked a h));;
      ret (Some (HeapAlloc.remote a))
  end.

(** [allocFromHeap(proxy, size, ro)]: [None] stands for [null]. *)
Definition allocFromHeap (nt : t) (size : Z) (ro : bool) : M St (option Z) :=
  let* s := getState in
  match heap s with
  | Some h =>
      let* result := tryAlloc h size ro in
      match result with
      | Some a =>
          on_state (set_allocation (HeapAlloc.remote a) (HeapBacked a h));;
          ret (Some (HeapAlloc.remote a))
      | None =>
          let* obj := on_heap h get in
          if decide (maxSize nt <= Heap.totalSize obj) then ret None
          else
            let newSize := Z.min (Heap.totalSize obj * 2) (maxSize nt) in
            if decide (newSize < size) then ret None
            else
              on_state (push_prevHeap h);;
              let* h' := new_heap newSize (calcRoSize newSize ro) in
              on_state (set_heap h');;
              allocFromFresh h' size ro
      end
  | None =>
      if decide (maxSize nt < size) then ret None
      else
        let initSize := Z.max (Z.min (heapSize nt) (maxSize nt)) size in
        let* h' := new_heap initSize (calcRoSize initSize ro) in
        on_state (set_heap h');;
        allocFromFresh h' size ro
  end.

(** Modelled from the spec: [proxy.write(dest, data)] of
    [proxy-thread.ts] runs the writer delegate, which [inject] binds to
    the orchestrator's [threadWrite]. *)
Definition proxy_write (dest : Z) (data : list byte) : M St Z :=
  in_process (NThread.threadWrite dest (NThread.DataBuffer data) None).

(** [reallocInternal(proxy, address, newSize, opts)]. *)
Definition reallocInternal (nt : t) (address0 : Z) (newSize : Z)
    (opts : option NThread.AllocOptions) : M St Z :=
  let* s := getState in
  match allocations s !! address0 with
  | None =>
      let* newPtr := in_process (NThread.threadAlloc newSize opts) in
      on_state (set_allocation newPtr Super);;
      ret newPtr
  | Some Super =>
      on_state (delete_allocation address0);;
      let* newPtr := in_process (NThread.threadAlloc newSize opts) in
      on_state (set_allocation newPtr Super);;
      ret newPtr
  | Some (HeapBacked a h) =>
      let* obj := on_heap h get in
      let oldRo :=
        bool_decide (HeapAlloc.remote a < Heap.base obj + Heap.roSize obj) in
      let ro := default oldRo (NThread.opt_field NThread.readonly opts) in
      let* newRaw := allocFromHeap nt newSize ro in
      let* newPtr :=
        match newRaw with
        | Some p => ret p
        | None =>
            let* p :=
              in_process
                (NThread.threadAlloc newSize
                   ((fun o => {| NThread.fill := NThread.fill o;
                                 NThread.readonly := NThread.readonly o;
                                 NThread.address := None |}) <$> opts)) in
            on_state (set_allocation p Super);;
            ret p
        end in
      let copyLen := Z.min (HeapAlloc.size a) newSize in
      (if decide (0 < copyLen) then
         let* oldData := in_process (NThread.in_world (proxy_read address0 copyLen)) in
         proxy_write newPtr oldData;;
         ret tt
       else ret tt);;
      match NThread.opt_field NThread.fill opts with
      | Some fill0 =>
          if decide (copyLen < newSize) then
            proxy_write (newPtr + copyLen)
              (buffer_alloc (newSize - copyLen) (Z.land fill0 255));;
            ret tt
          else ret tt
      | None => ret tt
      end;;
      on_heap h (Heap.free a);;
      on_state (delete_allocation address0);;
      ret newPtr
  end.

(** The override [threadAlloc(proxy, size, opts)]. *)
Definition threadAlloc (nt : t) (size : Z) (opts : option NThread.AllocOptions)
  : M St Z :=
  match NThread.opt_field NThread.address opts with
  | Some address0 => reallocInternal nt address0 size opts
  | None =>
      let ro := default false (NThread.opt_field NThread.readonly opts) in
      let* ptr := allocFromHeap nt size ro in
      match ptr with
      | None => in_process (NThread.threadAlloc size opts)
      | Some p =>
          match NThread.opt_field NThread.fill opts with
          | Some fill0 =>
              proxy_write p (buffer_alloc size (Z.land fill0 255));;
              ret p
          | None => ret p
          end
      end
  end.

(** The override [threadFree(proxy, ptr)]. *)
Definition threadFree (ptr : Z) : M St unit :=
  let* s := get in
  let entry := state s ≫= fun ps => allocations ps !! ptr in
  on_state (delete_allocation ptr);;
  match entry with
  | None | Some Super => in_process (NThread.threadFree ptr)
  | Some (HeapBacked a h) => on_heap h (Heap.free a)
  end.

End Hooks.

Arguments St W : clear implicits.

End NThreadHeap.

(** ** Observing the in-thread calls *)

(** One [proxy.call]: the target, the arguments and the outcome. *)
Record CallEvent := {
  called : Z;
  passed : list Arg;
  outcome : Outcome Z
}.

(** A proxy that behaves as [P] and records each [proxy.call] it makes at
    the end of a log kept next to the world. *)
Definition traced {W : Type} (P : ProxyThread W)
  : ProxyThread (W * list CallEvent) :=
  {| crt := @crt W P;
     proxy_call := fun target args s =>
       let '(r, w') := @proxy_call W P target args (fst s) in
       (r, (w', snd s ++ [{| called := target; passed := args; outcome := r |}]));
     proxy_read := fun address0 size s =>
       let '(r, w') := @proxy_read W P address0 size (fst s) in (r, (w', snd s));
     memory_read := fun address0 size s =>
       let '(r, w') := @memory_read W P address0 size (fst s) in (r, (w', snd s)) |}.

(** ** Runs of equal bytes *)

(** A run: [length] bytes equal to [value] from offset [offset] on. *)
Record Run := {
  run_offset : nat;
  run_value : byte;
  run_length : nat
}.

(** The run-length encoding of a buffer: its maximal runs of equal bytes,
    in order. *)
Fixpoint group (data : list byte) : list (byte * nat) :=
  match data with
  | [] => []
  | b :: data' =>
      match group data' with
      | (v, n) :: rest =>
          if decide (v = b) then (v, S n) :: rest else (b, 1%nat) :: (v, n) :: rest
      | [] => [(b, 1%nat)]
      end
  end.

(** The runs of an encoding laid out from offset [i] on. *)
Fixpoint with_offsets (i : nat) (encoding : list (byte * nat)) : list Run :=
  match encoding with
  | [] => []
  | (v, n) :: rest =>
      {| run_offset := i; run_value := v; run_length := n |}
      :: with_offsets (i + n) rest
  end.

(** The maximal runs of equal bytes of a buffer. *)
Definition maximal_runs (data : list byte) : list Run :=
  with_offsets 0 (group data).

(** The non-overlap path as the specification words it: one
    [memset(dest + i, value, runLen)] for each run in turn; a null result
    stops the writes and the offset of that run is returned; after the
    last run the length of the buffer is. *)
Fixpoint issue_runs {W : Type} `{ProxyThread W} (dest : Z) (total : nat)
    (runs : list Run) : M W nat :=
  match runs with
  | [] => ret total
  | r :: runs' =>
      let* addr :=
        NThread.call_memset (dest + Z.of_nat (run_offset r)) (run_value r)
          (run_length r) in
      if decide (addr = 0) then ret (run_offset r)
      else issue_runs dest total runs'
  end.

(** *** Sequences of heap operations *)

Module HeapRun.

(** An operation on a heap: an allocation in either zone, or the release
    of the [k]-th outstanding allocation. *)
Inductive Op :=
| OpAlloc (size : Z)
| OpAllocReadonly (size : Z)
| OpFree (k : nat).

(** One operation on the heap and the list of outstanding allocations: a
    successful allocation joins the list; the block released is one of
    the list and leaves it, so that only blocks returned by this heap are
    freed, each at most once. *)
Definition step (op : Op) (st : Heap.t * list HeapAlloc.t)
  : Heap.t * list HeapAlloc.t :=
  let '(h, live) := st in
  match op with
  | OpAlloc size =>
      match Heap.alloc size h with
      | (Returned a, h') => (h', a :: live)
      | (Thrown _, h') => (h', live)
      end
  | OpAllocReadonly size =>
      match Heap.allocReadonly size h with
      | (Returned a, h') => (h', a :: live)
      | (Thrown _, h') => (h', live)
      end
  | OpFree k =>
      match live !! k with
      | Some a => (snd (Heap.free a h), delete k live)
      | None => (h, live)
      end
  end.

Definition run (ops : list Op) (st : Heap.t * list HeapAlloc.t)
  : Heap.t * list HeapAlloc.t :=
  foldl (fun st op => step op st) st ops.

End HeapRun.

(** *** Sequences of calls *)

(** The calls made through a proxy, one after the other: the target, the
    arguments and the timeout of each; a call that fails leaves the state
    it reached. *)
Fixpoint calls {OS : Type} `{NativeThread OS} (nt : NThread.t)
    (cs : list (Z * list Arg * Z)) (s : CT.St OS) : CT.St OS :=
  match cs with
  | [] => s
  | (target, args, timeoutMs) :: cs' =>
      calls nt cs' (snd (NThread.threadCall nt target args timeoutMs s))
  end.

(** * Simulated targets *)

(** A target thread and a target process small enough to run the
    orchestrator on; the examples below are stated on them. *)
Module Sim.

(** ** A thread *)

(** Code addresses of the simulated module: the [jmp .] gadget, the
    [push rbx; ret] gadget, a function that returns the sum of its four
    register arguments, and [ExitThread]. *)
Definition SLEEP : Z := 0x3000.
Definition PUSHRET : Z := 0x2000.
Definition ADD4 : Z := 0x4000.
Definition EXIT : Z := 0x5000.

Record Thread := {
  context : ThreadContext;
  exited : bool
}.

(** The thread runs until it spins or ends: the pivot jumps to the
    address held in [Rbx]; the function leaves its result in [Rax] and
    returns to the sleep gadget, whose address the pivot left on the
    stack; [ExitThread] ends the thread; elsewhere the thread stays where
    it is. *)
Definition run (th : Thread) : Thread :=
  let c := context th in
  if decide (Rip c = PUSHRET)
  then {| context := set_Rip (gpr c Reg.Rbx) c; exited := exited th |}
  else if decide (Rip c = ADD4)
  then {| context := set_Rip SLEEP (set_reg Reg.Rax (Rcx c + Rdx c + R8 c + R9 c) c);
          exited := exited th |}
  else if decide (Rip c = EXIT)
  then {| context := c; exited := true |}
  else th.

#[global] Instance thread : NativeThread Thread := {|
  native_suspend := fun th => (Returned 1, th);
  native_resume := fun th => (Returned 1, run th);
  native_getContext := fun th =>
    if exited th then (Thrown (ForeignError 5), th)
    else (Returned (context th), th);
  native_setContext := fun c th =>
    (Returned tt, {| context := c; exited := exited th |});
  native_wait := fun _ th =>
    (Returned (if exited th then OBJECT_0 else TIMEOUT), th);
  native_sleep := fun _ th => th
|}.

(** A thread somewhere in its own code. *)
Definition busy : Thread :=
  {| context :=
       {| ContextFlags := 0;
          gpr := fun r => match r with Reg.Rsp => 0x7ffe1004 | _ => 0 end;
          Rip := 0x1234 |};
     exited := false |}.

Definition orchestrator : NThread.t :=
  {| NThread.sleepAddress := SLEEP;
     NThread.pushretAddress := PUSHRET;
     NThread.regKey := Reg.Rbx |}.

(** The captured thread after [inject]. *)
Definition parked : CT.St Thread := snd (NThread.inject orchestrator busy).

(** ** A process *)

(** The memory of the process, the addresses at which [memset] gives up
    and returns null, and the address the next [malloc] or [calloc]
    returns. *)
Record Process := {
  memory : Z -> byte;
  refused : list Z;
  brk : Z
}.

Definition table : CRTFunctions :=
  {| fopen := 0x7000; memset := 0x7010; malloc := 0x7020; calloc := 0x7030;
     realloc := 0x7040; fwrite := 0x7050; fflush := 0x7060; fclose := 0x7070;
     fread := 0x7080; free := 0x7090 |}.

Definition byte_of (v : Z) : byte := default x00 (Byte.of_N (Z.to_N v)).

Definition fill (addr : Z) (v : byte) (n : Z) (m : Z -> byte) : Z -> byte :=
  fun x => if decide (addr <= x < addr + n) then v else m x.

Definition grow (size : Z) (p : Process) : Outcome Z * Process :=
  (Returned (brk p),
   {| memory := memory p; refused := refused p; brk := brk p + size |}).

Definition call (target : Z) (args : list Arg) : M Process Z :=
  fun p =>
    if decide (target = memset table) then
      match args with
      | [ArgBigInt addr; ArgNumber (JsInt v); ArgNumber (JsInt n)] =>
          if decide (addr ∈ refused p) then (Returned 0, p)
          else (Returned addr,
                {| memory := fill addr (byte_of v) n (memory p);
                   refused := refused p; brk := brk p |})
      | _ => (Returned 0, p)
      end
    else if decide (target = malloc table) then
      match args with
      | [ArgBigInt size] => grow size p
      | _ => (Returned 0, p)
      end
    else if decide (target = calloc table) then
      match args with
      | [ArgBigInt _; ArgBigInt size] => grow size p
      | _ => (Returned 0, p)
      end
    else (Returned 0, p).

Definition read (address0 size : Z) : M Process (list byte) :=
  fun p =>
    (Returned ((fun k => memory p (address0 + Z.of_nat k))
               <$> seq 0 (Z.to_nat size)), p).

#[global] Instance proxy : ProxyThread Process := {|
  crt := table;
  proxy_call := call;
  proxy_read := read;
  memory_read := read
|}.

(** A process with zeroed memory in which [memset] gives up at the
    addresses [refused0]. *)
Definition blank (refused0 : list Z) : Process :=
  {| memory := fun _ => x00; refused := refused0; brk := 0x100000 |}.

#[global] Instance scanner : Scanner := {|
  scan_sleep := [SLEEP];
  scan_pushret := fun r => if decide (r = Reg.Rbx) then [PUSHRET] else []
|}.

End Sim.

(** A region of six zero bytes at address 100. *)
Definition six_zeros : Romem.ReadOnlyMemory :=
  {| Romem.remote := 100; Romem.local := replicate 6 x00 |}.

(** An orchestrator whose heap blocks hold at most 16 bytes, and a proxy
    that has not allocated yet. *)
Definition small_heap : NThreadHeap.t := NThreadHeap.create (Some 16) (Some 16).

Definition untouched : NThreadHeap.St Sim.Process :=
  {| NThreadHeap.state := None;
     NThreadHeap.heaps := [];
     NThreadHeap.process :=
       {| NThread.regions := []; NThread.world := Sim.blank [] |} |}.

(** A process whose [calloc] also takes its arguments as numbers, the way
    [Heap.create] passes them. *)
Definition widened (a : Arg) : Arg :=
  match a with
  | ArgNumber (JsInt z) => ArgBigInt z
  | _ => a
  end.

Definition heap_proxy : ProxyThread Sim.Process :=
  {| crt := Sim.table;
     proxy_call := fun target args =>
       if decide (target = calloc Sim.table)
       then Sim.call target (widened <$> args)
       else Sim.call target args;
     proxy_read := Sim.read;
     memory_read := Sim.read |}.

(** ** Sequences of requests to the allocator hooks *)

Module HeapRequests.

(** A request to the hooks of a proxy: [proxy.alloc(size, opts)] or
    [proxy.free(ptr)]. *)
Inductive Request :=
| ReqAlloc (size : Z) (opts : option NThread.AllocOptions)
| ReqFree (ptr : Z).

Section Serve.

Context {W : Type} `{ProxyThread W}.

(** The state a request leaves, whatever its outcome. *)
Definition serve (nt : NThreadHeap.t) (rq : Request)
    (s : NThreadHeap.St W) : NThreadHeap.St W :=
  match rq with
  | ReqAlloc size opts => snd (NThreadHeap.threadAlloc nt size opts s)
  | ReqFree ptr => snd (NThreadHeap.threadFree ptr s)
  end.

Definition serve_all (nt : NThreadHeap.t) (rqs : list Request)
    (s : NThreadHeap.St W) : NThreadHeap.St W :=
  foldl (fun s rq => serve nt rq s) s rqs.

(** A proxy that has not allocated yet, over the process [p]. *)
Definition fresh (p : NThread.St W) : NThreadHeap.St W :=
  {| NThreadHeap.state := None; NThreadHeap.heaps := [];
     NThreadHeap.process := p |}.

End Serve.

End HeapRequests.

(** An orchestrator with heap blocks of 64 to 128 bytes, and two requests
    on the process whose [calloc] takes numbers. *)
Definition two_blocks : NThreadHeap.St Sim.Process :=
  @HeapRequests.serve_all _ heap_proxy
    (NThreadHeap.create (Some 64) (Some 128))
    [HeapRequests.ReqAlloc 16 None; HeapRequests.ReqAlloc 24 None]
    (HeapRequests.fresh {| NThread.regions := []; NThread.world := Sim.blank [] |}).

(** An orchestrator with heap blocks of 64 to 128 bytes, after one request
    of 16 bytes: the active heap is 64 bytes at [0x100000]. *)
Definition one_block : NThreadHeap.St Sim.Process :=
  @HeapRequests.serve_all _ heap_proxy
    (NThreadHeap.create (Some 64) (Some 128))
    [HeapRequests.ReqAlloc 16 None]
    (HeapRequests.fresh {| NThread.regions := []; NThread.world := Sim.blank [] |}).

Definition first_heap : Heap.t :=
  Heap.set_rw 16 [] (Heap.make 0x100000 64 16 48 0).

Definition one_block_state : NThreadHeap.ProxyState :=
  {| NThreadHeap.heap := Some 0%nat; NThreadHeap.prevHeaps := [];
     NThreadHeap.allocations :=
       {[ 0x100010 :=
            NThreadHeap.HeapBacked
              {| HeapAlloc.remote := 0x100010; HeapAlloc.size := 16 |} 0 ]} |}.

(** * Properties *)

(** ** The monad *)

Lemma bind_inv {S A B} (c : M S A) (k : A -> M S B) s r s' :
  bind c k s = (r, s') ->
  (exists a s1, c s = (Returned a, s1) /\ k a s1 = (r, s'))
  \/ (exists e, c s = (Thrown e, s') /\ r = Thrown e).
Proof.
  unfold bind. destruct (c s) as [[a|e] s1]; intros Hk.
  - left. eauto.
  - right. inversion Hk; subst. eauto.
Qed.

Lemma bind_Returned {S A B} (c : M S A) (k : A -> M S B) s b s' :
  bind c k s = (Returned b, s') ->
  exists a s1, c s = (Returned a, s1) /\ k a s1 = (Returned b, s').
Proof.
  intros Hb. apply bind_inv in Hb as [Hb | (e & _ & He)]; [done | discriminate].
Qed.

Lemma bind_run {S A B} (c : M S A) (k : A -> M S B) s a s1 :
  c s = (Returned a, s1) -> bind c k s = k a s1.
Proof. unfold bind. by intros ->. Qed.

Lemma bind_run_thrown {S A B} (c : M S A) (k : A -> M S B) s e s1 :
  c s = (Thrown e, s1) -> bind c k s = (Thrown e, s1).
Proof. unfold bind. by intros ->. Qed.

(** ** Stack safety (captured-thread.ts, inject) *)

Lemma stackAlign16_div address : stackAlign16 address = 16 * (address `div` 16).
Proof.
  unfold stackAlign16. rewrite <- Z.ldiff_land.
  change 15 with (Z.ones 4). rewrite Z.ldiff_ones_r by lia.
  rewrite Z.shiftr_div_pow2, Z.shiftl_mul_pow2 by lia.
  change (2 ^ 4) with 16. lia.
Qed.

Lemma calcStackBegin_facts baseRsp :
  let stackBegin := CT.calcStackBegin baseRsp in
  stackBegin = 16 * ((baseRsp - 8192) `div` 16)
  /\ stackBegin `mod` 16 = 0
  /\ stackBegin <= baseRsp - 8192
  /\ baseRsp - 8192 - 16 < stackBegin
  /\ (stackBegin - 8) `mod` 16 = 8.
Proof.
  unfold CT.calcStackBegin, STACK_ADD. cbn zeta.
  rewrite stackAlign16_div.
  replace (baseRsp + -8192) with (baseRsp - 8192) by lia.
  pose proof (Z.mod_pos_bound (baseRsp - 8192) 16 ltac:(lia)) as Hm.
  pose proof (Z.div_mod (baseRsp - 8192) 16 ltac:(lia)) as Hd.
  repeat split; try lia.
  - rewrite Z.mul_comm. apply Z.mod_mul. lia.
  - replace (16 * ((baseRsp - 8192) `div` 16) - 8)
      with (8 + ((baseRsp - 8192) `div` 16 - 1) * 16) by lia.
    rewrite Z.mod_add by lia. done.
Qed.

(** *** What the methods of a captured thread leave alone *)

Section Preservation.

Context {OS : Type} `{NativeThread OS}.

(** [c] never changes the field (or any function of the object) [f]. *)
Definition preserves {X A} (f : CT.t -> X) (c : M (CT.St OS) A) : Prop :=
  forall s r s', c s = (r, s') -> f (CT.self s') = f (CT.self s).

Lemma preserves_ret {X A} (f : CT.t -> X) (a : A) : preserves f (ret a).
Proof. intros s r s' [= _ <-]. done. Qed.

Lemma preserves_throw {X A} (f : CT.t -> X) e : preserves f (@throw _ A e).
Proof. intros s r s' [= _ <-]. done. Qed.

Lemma preserves_get {X} (f : CT.t -> X) : preserves f get.
Proof. intros s r s' [= _ <-]. done. Qed.

Lemma preserves_bind {X A B} (f : CT.t -> X) (c : M _ A) (k : A -> M _ B) :
  preserves f c -> (forall a, preserves f (k a)) -> preserves f (bind c k).
Proof.
  intros Hc Hk s r s' Hb.
  apply bind_inv in Hb as [(a & s1 & Hc1 & Hk1) | (e & Hc1 & _)].
  - rewrite (Hk _ _ _ _ Hk1). eauto.
  - eauto.
Qed.

Lemma preserves_try_catch {X A} (f : CT.t -> X) (c h : M _ A) :
  preserves f c -> preserves f h -> preserves f (try_catch c h).
Proof.
  intros Hc Hh s r s'. unfold try_catch.
  destruct (c s) as [[a|e] s1] eqn:Hcs.
  - intros [= _ <-]. eauto.
  - intros Hhs. rewrite (Hh _ _ _ Hhs). eauto.
Qed.

Lemma preserves_native {X A} (f : CT.t -> X) (c : M OS A) :
  preserves f (CT.native c).
Proof.
  intros s r s'. unfold CT.native.
  destruct (c (CT.os s)) as [r1 os1]. by intros [= _ <-].
Qed.

Lemma preserves_on_self {X} (f : CT.t -> X) (g : CT.t -> CT.t) :
  (forall th, f (g th) = f th) -> preserves f (CT.on_self g).
Proof. intros Hg s r s' [= _ <-]. apply Hg. Qed.

Lemma preserves_sleep {X} (f : CT.t -> X) :
  preserves f
    (modify (fun s : CT.St OS =>
               {| CT.self := CT.self s; CT.os := native_sleep 1 (CT.os s) |})).
Proof. intros s r s' [= _ <-]. done. Qed.

Lemma preserves_if {X A} (f : CT.t -> X) (b : bool) (c1 c2 : M _ A) :
  preserves f c1 -> preserves f c2 -> preserves f (if b then c1 else c2).
Proof. by destruct b. Qed.

Lemma preserves_decide {X A} (f : CT.t -> X) P `{Decision P} (c1 c2 : M _ A) :
  preserves f c1 -> preserves f c2 ->
  preserves f (if decide P then c1 else c2).
Proof. by destruct (decide P). Qed.

(** A field that no setter used by the polling and context methods
    touches: [callRsp], [sleepAddress], [regKey]. *)
Class Untouched {X} (f : CT.t -> X) : Prop := {
  untouched_suspendCount v th : f (CT.set_suspendCount v th) = f th;
  untouched_contexts v th : f (CT.set_contexts v th) = f th;
  untouched_savedContext v th : f (CT.set_savedContext v th) = f th;
  untouched_latestContext v th : f (CT.set_latestContext v th) = f th
}.

#[global] Instance callRsp_untouched : Untouched CT.callRsp.
Proof. by split. Qed.

#[global] Instance sleepAddress_untouched : Untouched CT.sleepAddress.
Proof. by split. Qed.

#[global] Instance regKey_untouched : Untouched CT.regKey.
Proof. by split. Qed.

Ltac preserves_step :=
  first
    [ apply preserves_ret | apply preserves_throw | apply preserves_get
    | apply preserves_native | apply preserves_sleep
    | apply preserves_on_self; intros; cbv beta;
      repeat first
        [ rewrite untouched_suspendCount | rewrite untouched_contexts
        | rewrite untouched_savedContext | rewrite untouched_latestContext ];
      reflexivity
    | apply preserves_try_catch
    | apply preserves_decide
    | apply preserves_bind; [| intros ? ] ].

Section Fields.

Context {X : Type} (f : CT.t -> X) `{!Untouched f}.

Lemma preserves_deref r : preserves f (CT.deref r).
Proof.
  unfold CT.deref. apply preserves_bind; [apply preserves_get | intros s0].
  destruct (_ !! _); preserves_step.
Qed.

Lemma preserves_mutate r g : preserves f (CT.mutate r g).
Proof. unfold CT.mutate. preserves_step. Qed.

Lemma preserves_fetchContext : preserves f CT.fetchContext.
Proof. unfold CT.fetchContext. repeat preserves_step. Qed.

Lemma preserves_getContext : preserves f CT.getContext.
Proof.
  unfold CT.getContext. apply preserves_bind; [apply preserves_get | intros s0].
  destruct (CT.latestContext _); [preserves_step |].
  apply preserves_bind; [apply preserves_fetchContext | intros _].
  apply preserves_bind; [apply preserves_get | intros s1].
  destruct (CT.latestContext _); preserves_step.
Qed.

Lemma preserves_setContext r : preserves f (CT.setContext r).
Proof. unfold CT.setContext. preserves_step. Qed.

Lemma preserves_applyContext : preserves f CT.applyContext.
Proof.
  unfold CT.applyContext. apply preserves_bind; [apply preserves_get | intros s0].
  destruct (CT.latestContext _); [| preserves_step].
  apply preserves_bind; [apply preserves_deref | intros c]. preserves_step.
Qed.

Lemma preserves_suspend : preserves f CT.suspend.
Proof. unfold CT.suspend. repeat preserves_step. Qed.

Lemma preserves_resume : preserves f CT.resume.
Proof. unfold CT.resume. repeat preserves_step. Qed.

Lemma preserves_setRIP v : preserves f (CT.setRIP v).
Proof.
  unfold CT.setRIP.
  apply preserves_bind; [apply preserves_getContext | intros r].
  apply preserves_bind; [apply preserves_mutate | intros _].
  apply preserves_setContext.
Qed.

Lemma preserves_setRSP v : preserves f (CT.setRSP v).
Proof.
  unfold CT.setRSP.
  apply preserves_bind; [apply preserves_getContext | intros r].
  apply preserves_bind; [apply preserves_mutate | intros _].
  apply preserves_setContext.
Qed.

Lemma preserves_setTargetReg v : preserves f (CT.setTargetReg v).
Proof.
  unfold CT.setTargetReg.
  apply preserves_bind; [apply preserves_getContext | intros r].
  apply preserves_bind; [apply preserves_get | intros s0].
  apply preserves_bind; [apply preserves_mutate | intros _].
  apply preserves_setContext.
Qed.

Lemma preserves_wait_loop n : preserves f (CT.wait_loop n).
Proof.
  induction n as [|n IH]; cbn [CT.wait_loop]; [preserves_step |].
  apply preserves_bind.
  - apply preserves_try_catch.
    + apply preserves_bind; [apply preserves_fetchContext | intros _].
      apply preserves_bind; [apply preserves_getContext | intros r].
      apply preserves_bind; [apply preserves_deref | intros c].
      apply preserves_bind; [apply preserves_get | intros s0].
      apply preserves_decide; preserves_step.
    + apply preserves_bind; [apply preserves_native | intros res].
      apply preserves_decide; preserves_step.
  - intros [res|]; [preserves_step |].
    apply preserves_bind; [apply preserves_sleep | intros _]. apply IH.
Qed.

Lemma preserves_wait timeoutMs : preserves f (CT.wait timeoutMs).
Proof. apply preserves_wait_loop. Qed.

End Fields.

End Preservation.

(** *** The steps of the captured thread, inverted *)

Section ThreadSteps.

Context {OS : Type} `{NativeThread OS}.

Lemma native_Returned {A} (c : M OS A) s a s' :
  CT.native c s = (Returned a, s') ->
  c (CT.os s) = (Returned a, CT.os s') /\ CT.self s' = CT.self s.
Proof.
  unfold CT.native. destruct (c (CT.os s)) as [r os1]. by intros [= -> <-].
Qed.

Lemma suspend_Returned s r s' :
  CT.suspend s = (Returned r, s') ->
  native_suspend (CT.os s) = (Returned r, CT.os s')
  /\ CT.contexts (CT.self s') = CT.contexts (CT.self s)
  /\ CT.latestContext (CT.self s') = CT.latestContext (CT.self s)
  /\ CT.savedContext (CT.self s') = CT.savedContext (CT.self s).
Proof.
  unfold CT.suspend. intros Hb.
  apply bind_Returned in Hb as (r1 & s1 & Hn & Hb).
  apply native_Returned in Hn as [Hn Hs1].
  apply bind_Returned in Hb as ([] & s2 & Hc & [= <- <-]).
  destruct (decide (r1 = 0)).
  - injection Hc as <-. by rewrite Hs1.
  - injection Hc as <-. cbn. by rewrite Hs1.
Qed.

Lemma resume_Returned s r s' :
  CT.resume s = (Returned r, s') ->
  native_resume (CT.os s) = (Returned r, CT.os s')
  /\ CT.contexts (CT.self s') = CT.contexts (CT.self s)
  /\ CT.latestContext (CT.self s') = CT.latestContext (CT.self s)
  /\ CT.savedContext (CT.self s') = CT.savedContext (CT.self s).
Proof.
  unfold CT.resume. intros Hb.
  apply bind_Returned in Hb as (r1 & s1 & Hn & Hb).
  apply native_Returned in Hn as [Hn Hs1].
  apply bind_Returned in Hb as ([] & s2 & Hc & [= <- <-]).
  destruct (decide (r1 = 0)).
  - injection Hc as <-. by rewrite Hs1.
  - injection Hc as <-. cbn. by rewrite Hs1.
Qed.

Lemma fetchContext_Returned s u s' :
  CT.fetchContext s = (Returned u, s') ->
  exists c,
    native_getContext (CT.os s) = (Returned c, CT.os s')
    /\ CT.contexts (CT.self s') = CT.contexts (CT.self s) ++ [c]
    /\ CT.latestContext (CT.self s') = Some (length (CT.contexts (CT.self s)))
    /\ CT.savedContext (CT.self s') = CT.savedContext (CT.self s).
Proof.
  unfold CT.fetchContext. intros Hb.
  apply bind_Returned in Hb as (c & s1 & Hn & Hb).
  apply native_Returned in Hn as [Hn Hs1].
  injection Hb as _ <-. exists c. cbn. by rewrite Hs1.
Qed.

(** With the cache filled, [getContext] is a read. *)
Lemma getContext_cached (s : CT.St OS) r :
  CT.latestContext (CT.self s) = Some r ->
  CT.getContext s = (Returned r, s).
Proof. unfold CT.getContext, bind, get. cbn. by intros ->. Qed.

Lemma deref_lookup (s : CT.St OS) r c :
  CT.contexts (CT.self s) !! r = Some c -> CT.deref r s = (Returned c, s).
Proof. unfold CT.deref, bind, get. cbn. by intros ->. Qed.

Lemma deref_Returned (s : CT.St OS) r c s' :
  CT.deref r s = (Returned c, s') ->
  CT.contexts (CT.self s) !! r = Some c /\ s' = s.
Proof.
  unfold CT.deref, bind, get. cbn.
  destruct (_ !! _); [by intros [= -> <-] | discriminate].
Qed.

Lemma applyContext_Returned s u s' :
  CT.applyContext s = (Returned u, s') ->
  exists r c,
    CT.latestContext (CT.self s) = Some r
    /\ CT.contexts (CT.self s) !! r = Some c
    /\ native_setContext c (CT.os s) = (Returned tt, CT.os s')
    /\ CT.self s' = CT.self s.
Proof.
  unfold CT.applyContext. intros Hb.
  apply bind_Returned in Hb as (s0 & s1 & [= <- <-] & Hb).
  destruct (CT.latestContext (CT.self s)) as [r|] eqn:Hl; [| discriminate].
  apply bind_Returned in Hb as (c & s1 & Hd & Hn).
  apply deref_Returned in Hd as [Hd ->].
  destruct u. apply native_Returned in Hn as [Hn Hs]. eauto 10.
Qed.

End ThreadSteps.

(** *** C6 *)

Section InjectStack.

Context {OS : Type} `{NativeThread OS}.

(** What [inject] does once [callRsp] is stored leaves it alone. *)
Lemma inject_callRsp nt thread st' :
  NThread.inject nt thread = (Returned tt, st') ->
  exists r orig os1 os2,
    native_suspend thread = (Returned r, os1)
    /\ native_getContext os1 = (Returned orig, os2)
    /\ CT.callRsp (CT.self st') = CT.calcStackBegin (Rsp orig) - 8.
Proof.
  unfold NThread.inject, NThread.inject_body. intros Hb.
  apply bind_Returned in Hb as (r & s1 & Hsus & Hb).
  apply suspend_Returned in Hsus as (Hsus & Hc1 & Hl1 & _).
  apply bind_Returned in Hb as (u & s2 & Hfetch & Hb).
  apply fetchContext_Returned in Hfetch as (orig & Hget & Hc2 & Hl2 & _).
  rewrite (bind_run _ _ _ _ _ (getContext_cached _ _ Hl2)) in Hb.
  apply bind_Returned in Hb as (u1 & s3 & [= _ <-] & Hb).
  assert (Hd : CT.contexts (CT.self s2) !! length (CT.contexts (CT.self s1))
               = Some orig).
  { rewrite Hc2, lookup_app_r, Nat.sub_diag by lia. done. }
  rewrite (bind_run _ _ _ orig _) in Hb by (by apply deref_lookup).
  apply bind_Returned in Hb as (u2 & s4 & [= _ <-] & Hb).
  exists r, orig, (CT.os s1), (CT.os s2). split_and!; [done..|].
  match type of Hb with ?rest ?s = _ =>
    assert (Hp : preserves CT.callRsp rest) end.
  { apply preserves_bind; [apply preserves_setRIP; apply _ | intros _].
    apply preserves_bind; [apply preserves_setRSP; apply _ | intros _].
    apply preserves_bind; [apply preserves_setTargetReg; apply _ | intros _].
    apply preserves_bind; [apply preserves_applyContext; apply _ | intros _].
    apply preserves_bind; [apply preserves_resume; apply _ | intros _].
    apply preserves_bind; [apply preserves_wait; apply _ | intros res].
    apply preserves_decide; [| apply preserves_throw].
    apply preserves_bind; [apply preserves_getContext; apply _ | intros parked].
    apply preserves_bind; [by apply preserves_on_self | intros _].
    apply preserves_bind; [apply preserves_mutate; apply _ | intros _].
    apply preserves_bind; [apply preserves_mutate; apply _ | intros _].
    apply preserves_bind; [apply preserves_mutate; apply _ | intros _].
    apply preserves_bind; [apply preserves_getContext; apply _ | intros latest].
    apply preserves_mutate; apply _. }
  rewrite (Hp _ _ _ Hb). done.
Qed.

End InjectStack.

(** C6.  Stack safety: [calcStackBegin(baseRsp)] is [baseRsp - 8192]
    aligned down to a multiple of 16, for every [baseRsp]; hence the
    [stackBegin] that a successful [inject] computes from the original
    [Rsp] is 16-aligned and at most [Rsp - 8192], and the [callRsp] it
    stores is [stackBegin - 8], congruent to 8 modulo 16. *)
Theorem C6_stack_safety :
  (forall baseRsp,
     CT.calcStackBegin baseRsp = 16 * ((baseRsp - 8192) `div` 16)
     /\ CT.calcStackBegin baseRsp `mod` 16 = 0
     /\ CT.calcStackBegin baseRsp <= baseRsp - 8192)
  /\ (forall OS (N : NativeThread OS) (nt : NThread.t) (thread : OS) st',
        NThread.inject nt thread = (Returned tt, st') ->
        exists r orig os1 os2,
          native_suspend thread = (Returned r, os1)
          /\ native_getContext os1 = (Returned orig, os2)
          /\ CT.callRsp (CT.self st') = CT.calcStackBegin (Rsp orig) - 8
          /\ CT.calcStackBegin (Rsp orig) `mod` 16 = 0
          /\ CT.calcStackBegin (Rsp orig) <= Rsp orig - 8192
          /\ CT.callRsp (CT.self st') `mod` 16 = 8).
Proof.
  split.
  - intros baseRsp.
    destruct (calcStackBegin_facts baseRsp) as (? & ? & ? & ? & ?). done.
  - intros OS N nt thread st' Hinj.
    destruct (inject_callRsp _ _ _ Hinj) as (r & orig & os1 & os2 & ? & ? & Hc).
    exists r, orig, os1, os2.
    destruct (calcStackBegin_facts (Rsp orig)) as (? & ? & ? & ? & ?).
    rewrite Hc. done.
Qed.

(** ** The in-thread call (nthread.ts, threadCall) *)

(** The integer an argument is widened to, when it has one. *)
Definition arg_value (a : Arg) : option Z :=
  match a with
  | ArgPointer address => Some address
  | ArgBigInt z => Some z
  | ArgNumber (JsInt z) => Some z
  | ArgNumber JsNonInt => None
  end.

(** Register [key] of [applied] holds argument [i] when there is one, and
    what [fetched] held otherwise. *)
Definition reg_loaded (args : list Arg) (i : nat) (key : Reg.t)
    (fetched applied : ThreadContext) : Prop :=
  match args !! i with
  | Some a => arg_value a = Some (gpr applied key)
  | None => gpr applied key = gpr fetched key
  end.

(** The effect of [load_arg] on the context object. *)
Definition loaded (key : Reg.t) (i : nat) (args : list Arg)
    (c : ThreadContext) : ThreadContext :=
  match args !! i ≫= arg_value with
  | Some v => set_reg key v c
  | None => c
  end.

Lemma toBigInt_arg_value {S} (a : Arg) (s : S) :
  toBigInt a s =
  match arg_value a with
  | Some v => (Returned v, s)
  | None => (Thrown RangeError, s)
  end.
Proof. by destruct a as [| [|] |]. Qed.

Lemma try_catch_inv {S A} (c h : M S A) s r s' :
  try_catch c h s = (r, s') ->
  (exists a, c s = (Returned a, s') /\ r = Returned a)
  \/ (exists e s1, c s = (Thrown e, s1) /\ h s1 = (r, s')).
Proof.
  unfold try_catch. destruct (c s) as [[a|e] s1].
  - intros [= <- <-]. left. eauto.
  - intros Hh. right. eauto.
Qed.

Section ThreadCall.

Context {OS : Type} `{NativeThread OS}.

Lemma mutate_run (s : CT.St OS) r f :
  CT.mutate r f s =
  (Returned tt,
   {| CT.self := CT.set_contexts (alter f r (CT.contexts (CT.self s))) (CT.self s);
      CT.os := CT.os s |}).
Proof. done. Qed.

Lemma load_arg_Returned r key i args (s : CT.St OS) u s' :
  NThread.load_arg r key i args s = (Returned u, s') ->
  CT.os s' = CT.os s
  /\ CT.contexts (CT.self s')
     = alter (loaded key i args) r (CT.contexts (CT.self s))
  /\ CT.latestContext (CT.self s') = CT.latestContext (CT.self s)
  /\ CT.callRsp (CT.self s') = CT.callRsp (CT.self s)
  /\ CT.sleepAddress (CT.self s') = CT.sleepAddress (CT.self s)
  /\ (forall a, args !! i = Some a -> is_Some (arg_value a)).
Proof.
  unfold NThread.load_arg, loaded.
  destruct (args !! i) as [a|] eqn:Ha; cbn.
  - unfold bind. rewrite toBigInt_arg_value.
    destruct (arg_value a) as [v|] eqn:Hv; [| discriminate].
    rewrite mutate_run. intros [= _ <-]. cbn.
    split_and!; try done. intros a' [= <-]. rewrite Hv. eauto.
  - intros [= _ <-]. split_and!; try done.
    symmetry. by apply list_alter_id.
Qed.

(** A wait that reports [OBJECT_0] has just fetched a context whose [Rip]
    is the sleep address, and left it in the cache. *)
Lemma wait_loop_OBJECT_0 n (s s' : CT.St OS) :
  CT.wait_loop n s = (Returned OBJECT_0, s') ->
  exists r final os_before,
    CT.latestContext (CT.self s') = Some r
    /\ CT.contexts (CT.self s') !! r = Some final
    /\ native_getContext os_before = (Returned final, CT.os s')
    /\ Rip final = CT.sleepAddress (CT.self s).
Proof.
  revert s. induction n as [|n IH]; intros s; cbn [CT.wait_loop].
  - discriminate.
  - intros Hb. apply bind_Returned in Hb as (landed & s1 & Htry & Hk).
    apply try_catch_inv in Htry
      as [(a & Hc & [= <-]) | (e & s0 & Hc & Hh)].
    + apply bind_Returned in Hc as (u & s2 & Hfetch & Hc).
      pose proof (preserves_fetchContext CT.sleepAddress _ _ _ Hfetch) as Hp.
      apply fetchContext_Returned in Hfetch as (c & Hget & Hc2 & Hl2 & _).
      rewrite (bind_run _ _ _ _ _ (getContext_cached _ _ Hl2)) in Hc.
      assert (Hd : CT.contexts (CT.self s2) !! length (CT.contexts (CT.self s))
                   = Some c).
      { rewrite Hc2, lookup_app_r, Nat.sub_diag by lia. done. }
      rewrite (bind_run _ _ _ c _) in Hc by (by apply deref_lookup).
      unfold bind, get in Hc.
      destruct (decide (Rip c = CT.sleepAddress (CT.self s2))) as [Hrip|Hrip].
      * injection Hc as <- <-. injection Hk as <-.
        exists (length (CT.contexts (CT.self s))), c, (CT.os s).
        split_and!; try done. by rewrite Hrip.
      * injection Hc as <- <-.
        apply bind_Returned in Hk as ([] & s3 & [= <-] & Hk).
        apply IH in Hk as (r & final & osb & ? & ? & ? & Hrf).
        exists r, final, osb. split_and!; try done.
        rewrite Hrf. cbn. done.
    + apply bind_Returned in Hh as (res & s2 & _ & Hh).
      destruct (decide (res = OBJECT_0)); injection Hh as <- <-;
        injection Hk as Hk; congruence.
Qed.

(** The statements of [threadCall] from [thread.suspend()] to
    [thread.resume()]: the call is dispatched when this prefix returns. *)
Definition dispatch (nt : NThread.t) (target : Z) (args : list Arg)
  : M (CT.St OS) unit :=
  CT.suspend;;
  CT.fetchContext;;
  let* r0 := CT.getContext in
  let* c0 := CT.deref r0 in
  if decide (Rip c0 = NThread.sleepAddress nt) then
    let* ctx := CT.getContext in
    NThread.load_arg ctx Reg.Rcx 0 args;;
    NThread.load_arg ctx Reg.Rdx 1 args;;
    NThread.load_arg ctx Reg.R8 2 args;;
    NThread.load_arg ctx Reg.R9 3 args;;
    CT.mutate ctx (set_Rip target);;
    let* s := get in
    CT.mutate ctx (set_reg Reg.Rsp (CT.callRsp (CT.self s)));;
    CT.setContext ctx;;
    CT.applyContext;;
    CT.resume;;
    ret tt
  else
    CT.resume;;
    throw (CallRipMismatchError target (Rip c0) (NThread.sleepAddress nt)).

(** What [threadCall] does with the outcome of the wait. *)
Definition conclude (target : Z) (res : WaitReturn) : M (CT.St OS) Z :=
  if decide (res = FAILED) then throw (CallThreadDiedError target)
  else if decide (res = OBJECT_0) then
    let* r := CT.getContext in
    let* c := CT.deref r in
    ret (Rax c)
  else throw (CallTimeoutError target res).

Lemma bind_assoc {S A B C} (c : M S A) (k : A -> M S B) (k' : B -> M S C) s :
  bind (bind c k) k' s = bind c (fun a => bind (k a) k') s.
Proof. unfold bind. by destruct (c s) as [[a|e] s1]. Qed.

Lemma bind_ext {S A B} (c : M S A) (k k' : A -> M S B) s :
  (forall a s1, k a s1 = k' a s1) -> bind c k s = bind c k' s.
Proof. intros Hk. unfold bind. by destruct (c s) as [[a|e] s1]. Qed.

(** [threadCall] is the argument check, then the dispatch, the wait and
    the conclusion. *)
Lemma threadCall_phases nt target args timeoutMs s :
  NThread.threadCall nt target args timeoutMs s =
  if decide (4 < length args)%nat
  then (Thrown (CallTooManyArgsError (length args)), s)
  else (dispatch nt target args;;
        let* res := CT.wait timeoutMs in conclude target res) s.
Proof.
  unfold NThread.threadCall, dispatch, conclude.
  destruct (decide (4 < length args)%nat); [done |].
  rewrite !bind_assoc. apply bind_ext; intros _ s1.
  rewrite !bind_assoc. apply bind_ext; intros _ s2.
  rewrite !bind_assoc. apply bind_ext; intros r0 s3.
  rewrite !bind_assoc. apply bind_ext; intros c0 s4.
  destruct (decide (Rip c0 = NThread.sleepAddress nt)).
  - rewrite !bind_assoc. apply bind_ext; intros ctx s5.
    rewrite !bind_assoc. apply bind_ext; intros _ s6.
    rewrite !bind_assoc. apply bind_ext; intros _ s7.
    rewrite !bind_assoc. apply bind_ext; intros _ s8.
    rewrite !bind_assoc. apply bind_ext; intros _ s9.
    rewrite !bind_assoc. apply bind_ext; intros _ s10.
    rewrite !bind_assoc. apply bind_ext; intros s11 s12.
    rewrite !bind_assoc. apply bind_ext; intros _ s13.
    rewrite !bind_assoc. apply bind_ext; intros _ s14.
    rewrite !bind_assoc. apply bind_ext; intros _ s15.
    rewrite !bind_assoc. apply bind_ext; intros _ s16.
    done.
  - rewrite !bind_assoc. apply bind_ext; intros _ s5. done.
Qed.

(** The context that a dispatched call has applied. *)
Definition call_context (target callRsp0 : Z) (args : list Arg)
    (fetched : ThreadContext) : ThreadContext :=
  set_reg Reg.Rsp callRsp0
    (set_Rip target
       (loaded Reg.R9 3 args
          (loaded Reg.R8 2 args
             (loaded Reg.Rdx 1 args (loaded Reg.Rcx 0 args fetched))))).

Lemma dispatch_Returned nt target args s u s_d :
  dispatch nt target args s = (Returned u, s_d) ->
  exists r1 os1 fetched os2 os3 r2,
    native_suspend (CT.os s) = (Returned r1, os1)
    /\ native_getContext os1 = (Returned fetched, os2)
    /\ Rip fetched = NThread.sleepAddress nt
    /\ native_setContext
         (call_context target (CT.callRsp (CT.self s)) args fetched) os2
       = (Returned tt, os3)
    /\ native_resume os3 = (Returned r2, CT.os s_d)
    /\ (forall i a, (i < 4)%nat -> args !! i = Some a -> is_Some (arg_value a))
    /\ CT.sleepAddress (CT.self s_d) = CT.sleepAddress (CT.self s).
Proof.
  unfold dispatch. intros Hb.
  match type of Hb with ?c s = _ =>
    assert (Hsleep : preserves CT.sleepAddress c) end.
  { apply preserves_bind; [apply preserves_suspend; apply _ | intros _].
    apply preserves_bind; [apply preserves_fetchContext; apply _ | intros _].
    apply preserves_bind; [apply preserves_getContext; apply _ | intros r0].
    apply preserves_bind; [apply preserves_deref; apply _ | intros c0].
    apply preserves_decide.
    - apply preserves_bind; [apply preserves_getContext; apply _ | intros ctx].
      assert (Hload : forall key i,
                preserves (OS:=OS) CT.sleepAddress
                  (NThread.load_arg ctx key i args)).
      { intros key i. unfold NThread.load_arg. destruct (args !! i).
        - apply preserves_bind.
          + intros s0 r s0'. rewrite toBigInt_arg_value.
            destruct (arg_value a); by intros [= _ <-].
          + intros v. apply preserves_mutate; apply _.
        - apply preserves_ret. }
      repeat (apply preserves_bind; [apply Hload | intros _]).
      apply preserves_bind; [apply preserves_mutate; apply _ | intros _].
      apply preserves_bind; [apply preserves_get | intros s0].
      apply preserves_bind; [apply preserves_mutate; apply _ | intros _].
      apply preserves_bind; [apply preserves_setContext; apply _ | intros _].
      apply preserves_bind; [apply preserves_applyContext; apply _ | intros _].
      apply preserves_bind; [apply preserves_resume; apply _ | intros _].
      apply preserves_ret.
    - apply preserves_bind; [apply preserves_resume; apply _ | intros _].
      apply preserves_throw. }
  specialize (Hsleep _ _ _ Hb).
  apply bind_Returned in Hb as (r1 & s1 & Hsus & Hb).
  pose proof (preserves_suspend CT.callRsp _ _ _ Hsus) as Hrsp1.
  apply suspend_Returned in Hsus as (Hsus & Hc1 & Hl1 & _).
  apply bind_Returned in Hb as (u1 & s2 & Hfetch & Hb).
  pose proof (preserves_fetchContext CT.callRsp _ _ _ Hfetch) as Hrsp2.
  apply fetchContext_Returned in Hfetch as (fetched & Hget & Hc2 & Hl2 & _).
  rewrite (bind_run _ _ _ _ _ (getContext_cached _ _ Hl2)) in Hb.
  set (r0 := length (CT.contexts (CT.self s1))) in *.
  assert (Hd : CT.contexts (CT.self s2) !! r0 = Some fetched).
  { rewrite Hc2. subst r0. rewrite lookup_app_r, Nat.sub_diag by lia. done. }
  rewrite (bind_run _ _ _ fetched _) in Hb by (by apply deref_lookup).
  destruct (decide (Rip fetched = NThread.sleepAddress nt)) as [Hrip|Hrip].
  2: { apply bind_Returned in Hb as (? & ? & _ & [=]). }
  rewrite (bind_run _ _ _ _ _ (getContext_cached _ _ Hl2)) in Hb.
  apply bind_Returned in Hb as (u3 & s3 & Hl & Hb).
  apply load_arg_Returned in Hl as (Ho3 & Hc3 & Hl3 & Hr3 & _ & Ha0).
  apply bind_Returned in Hb as (u4 & s4 & Hl & Hb).
  apply load_arg_Returned in Hl as (Ho4 & Hc4 & Hl4 & Hr4 & _ & Ha1).
  apply bind_Returned in Hb as (u5 & s5 & Hl & Hb).
  apply load_arg_Returned in Hl as (Ho5 & Hc5 & Hl5 & Hr5 & _ & Ha2).
  apply bind_Returned in Hb as (u6 & s6 & Hl & Hb).
  apply load_arg_Returned in Hl as (Ho6 & Hc6 & Hl6 & Hr6 & _ & Ha3).
  rewrite (bind_run _ _ _ _ _ (mutate_run _ _ _)) in Hb.
  unfold bind at 1, get at 1 in Hb.
  rewrite (bind_run _ _ _ _ _ (mutate_run _ _ _)) in Hb.
  unfold CT.setContext in Hb.
  apply bind_Returned in Hb as (u7 & s7 & [= _ <-] & Hb).
  apply bind_Returned in Hb as (u8 & s8 & Happly & Hb).
  apply applyContext_Returned in Happly as (r & c & Hlr & Hcr & Hset & Hs8).
  apply bind_Returned in Hb as (r2 & s9 & Hres & [= _ <-]).
  apply resume_Returned in Hres as (Hres & _).
  cbn in Hlr, Hcr, Hset.
  assert (Hr : r = r0) by congruence. subst r.
  rewrite Hc6, Hc5, Hc4, Hc3 in Hcr.
  rewrite !list_lookup_alter_eq, Hd in Hcr. cbn in Hcr. injection Hcr as <-.
  exists r1, (CT.os s1), fetched, (CT.os s2), (CT.os s8), r2.
  split_and!; try done.
  - rewrite Ho6, Ho5, Ho4, Ho3 in Hset.
    rewrite Hr6, Hr5, Hr4, Hr3, Hrsp2, Hrsp1 in Hset. exact Hset.
  - intros i a Hi Ha.
    destruct i as [|[|[|[|i]]]]; [eauto.. | lia].
Qed.

Lemma call_context_regs target callRsp0 args fetched :
  (forall i a, (i < 4)%nat -> args !! i = Some a -> is_Some (arg_value a)) ->
  let applied := call_context target callRsp0 args fetched in
  reg_loaded args 0 Reg.Rcx fetched applied
  /\ reg_loaded args 1 Reg.Rdx fetched applied
  /\ reg_loaded args 2 Reg.R8 fetched applied
  /\ reg_loaded args 3 Reg.R9 fetched applied
  /\ Rip applied = target
  /\ Rsp applied = callRsp0.
Proof.
  intros Hargs. unfold call_context, reg_loaded, loaded, Rsp.
  assert (Hv : forall i, (i < 4)%nat ->
            args !! i ≫= arg_value = None -> args !! i = None).
  { intros i Hi Hn. destruct (args !! i) as [a|] eqn:Ha; [| done].
    destruct (Hargs i a Hi Ha) as [v Hv]. cbn in Hn. congruence. }
  destruct (args !! 0%nat ≫= arg_value) as [v0|] eqn:H0;
    [apply bind_Some in H0 as (a0 & -> & H0) | rewrite (Hv 0%nat) by (lia || done)];
  (destruct (args !! 1%nat ≫= arg_value) as [v1|] eqn:H1;
    [apply bind_Some in H1 as (a1 & -> & H1) | rewrite (Hv 1%nat) by (lia || done)]);
  (destruct (args !! 2%nat ≫= arg_value) as [v2|] eqn:H2;
    [apply bind_Some in H2 as (a2 & -> & H2) | rewrite (Hv 2%nat) by (lia || done)]);
  (destruct (args !! 3%nat ≫= arg_value) as [v3|] eqn:H3;
    [apply bind_Some in H3 as (a3 & -> & H3) | rewrite (Hv 3%nat) by (lia || done)]);
  cbn; split_and!; done.
Qed.

End ThreadCall.

(** C3.  A [threadCall] with at most four arguments that returns normally
    has suspended the thread, fetched its context, and applied (before
    resuming) the fetched context with [Rcx], [Rdx], [R8], [R9] set to the
    integer values of the arguments present (a pointer contributes its
    address; a register without an argument keeps its fetched value),
    [Rip] set to the target and [Rsp] set to the thread's [callRsp]; the
    value returned is the [Rax] of the context that the wait fetched last,
    the one whose [Rip] is the sleep address. *)
Theorem C3_threadCall_registers :
  forall OS (N : NativeThread OS) (nt : NThread.t) (target : Z)
         (args : list Arg) (timeoutMs : Z) (s s' : CT.St OS) (rax : Z),
    (length args <= 4)%nat ->
    NThread.threadCall nt target args timeoutMs s = (Returned rax, s') ->
    exists r1 os1 fetched os2 applied os3 r2 os4 final os5,
      native_suspend (CT.os s) = (Returned r1, os1)
      /\ native_getContext os1 = (Returned fetched, os2)
      /\ native_setContext applied os2 = (Returned tt, os3)
      /\ native_resume os3 = (Returned r2, os4)
      /\ reg_loaded args 0 Reg.Rcx fetched applied
      /\ reg_loaded args 1 Reg.Rdx fetched applied
      /\ reg_loaded args 2 Reg.R8 fetched applied
      /\ reg_loaded args 3 Reg.R9 fetched applied
      /\ Rip applied = target
      /\ Rsp applied = CT.callRsp (CT.self s)
      /\ native_getContext os5 = (Returned final, CT.os s')
      /\ Rip final = CT.sleepAddress (CT.self s)
      /\ rax = Rax final.
Proof.
  intros OS N nt target args timeoutMs s s' rax Hlen Hcall.
  rewrite threadCall_phases in Hcall.
  destruct (decide (4 < length args)%nat); [lia |].
  apply bind_Returned in Hcall as (u & s_d & Hd & Hcall).
  apply dispatch_Returned in Hd
    as (r1 & os1 & fetched & os2 & os3 & r2 & Hsus & Hget & _ & Hset & Hres
        & Hargs & Hsleep).
  apply bind_Returned in Hcall as (res & s_w & Hwait & Hcall).
  unfold conclude in Hcall.
  destruct (decide (res = FAILED)); [discriminate |].
  destruct (decide (res = OBJECT_0)) as [-> |]; [| discriminate].
  apply wait_loop_OBJECT_0 in Hwait as (r & final & os5 & Hl & Hc & Hf & Hrip).
  rewrite (bind_run _ _ _ _ _ (getContext_cached _ _ Hl)) in Hcall.
  rewrite (bind_run _ _ _ final _) in Hcall by (by apply deref_lookup).
  injection Hcall as <- <-.
  destruct (call_context_regs target (CT.callRsp (CT.self s)) args fetched Hargs)
    as (? & ? & ? & ? & ? & ?).
  exists r1, os1, fetched, os2,
    (call_context target (CT.callRsp (CT.self s)) args fetched),
    os3, r2, (CT.os s_d), final, os5.
  split_and!; try done. by rewrite Hrip.
Qed.

Section ThreadRuns.

Context {OS : Type} `{NativeThread OS}.

Lemma suspend_run (s : CT.St OS) r os1 :
  native_suspend (CT.os s) = (Returned r, os1) ->
  exists s1,
    CT.suspend s = (Returned r, s1)
    /\ CT.os s1 = os1
    /\ CT.contexts (CT.self s1) = CT.contexts (CT.self s)
    /\ CT.latestContext (CT.self s1) = CT.latestContext (CT.self s).
Proof.
  intros Hn. unfold CT.suspend, CT.native, bind. rewrite Hn.
  destruct (decide (r = 0)); cbn; eauto.
Qed.

Lemma resume_run (s : CT.St OS) r os1 :
  native_resume (CT.os s) = (Returned r, os1) ->
  exists s1,
    CT.resume s = (Returned r, s1)
    /\ CT.os s1 = os1
    /\ CT.contexts (CT.self s1) = CT.contexts (CT.self s)
    /\ CT.latestContext (CT.self s1) = CT.latestContext (CT.self s).
Proof.
  intros Hn. unfold CT.resume, CT.native, bind. rewrite Hn.
  destruct (decide (r = 0)); cbn; eauto.
Qed.

Lemma fetchContext_run (s : CT.St OS) c os1 :
  native_getContext (CT.os s) = (Returned c, os1) ->
  exists s1,
    CT.fetchContext s = (Returned tt, s1)
    /\ CT.os s1 = os1
    /\ CT.contexts (CT.self s1) = CT.contexts (CT.self s) ++ [c]
    /\ CT.latestContext (CT.self s1) = Some (length (CT.contexts (CT.self s))).
Proof.
  intros Hn. unfold CT.fetchContext, CT.native, bind. rewrite Hn.
  cbn. eauto.
Qed.

End ThreadRuns.

(** C4.  [threadCall] rejects more than four arguments with
    [TooManyArgs] before it touches the thread (the state is unchanged);
    when the context fetched after the suspend has a [Rip] other than the
    sleep address it resumes the thread and fails with [RipMismatch],
    having called nothing but suspend, getContext and resume on the OS
    thread and leaving the fetched context unmodified in the cache; and
    once the call is dispatched, a wait outcome [FAILED] yields
    [ThreadDied] and any other outcome but [OBJECT_0] yields
    [CallTimeout]. *)
Theorem C4_threadCall_errors :
  forall OS (N : NativeThread OS) (nt : NThread.t) (target : Z)
         (args : list Arg) (timeoutMs : Z) (s : CT.St OS),
    ((4 < length args)%nat ->
     NThread.threadCall nt target args timeoutMs s
     = (Thrown (CallTooManyArgsError (length args)), s))
    /\ (forall r1 os1 fetched os2 r2 os3,
          (length args <= 4)%nat ->
          native_suspend (CT.os s) = (Returned r1, os1) ->
          native_getContext os1 = (Returned fetched, os2) ->
          Rip fetched <> NThread.sleepAddress nt ->
          native_resume os2 = (Returned r2, os3) ->
          exists s',
            NThread.threadCall nt target args timeoutMs s
            = (Thrown (CallRipMismatchError target (Rip fetched)
                         (NThread.sleepAddress nt)), s')
            /\ CT.os s' = os3
            /\ (CT.latestContext (CT.self s')
                  ≫= fun r => CT.contexts (CT.self s') !! r) = Some fetched)
    /\ (forall s_d res s_w,
          (length args <= 4)%nat ->
          dispatch nt target args s = (Returned tt, s_d) ->
          CT.wait timeoutMs s_d = (Returned res, s_w) ->
          res <> OBJECT_0 ->
          NThread.threadCall nt target args timeoutMs s
          = (Thrown (if decide (res = FAILED)
                     then CallThreadDiedError target
                     else CallTimeoutError target res), s_w)).
Proof.
  intros OS N nt target args timeoutMs s. split_and!.
  - intros Hlen. rewrite threadCall_phases.
    destruct (decide (4 < length args)%nat); [done | lia].
  - intros r1 os1 fetched os2 r2 os3 Hlen Hsus Hget Hrip Hres.
    rewrite threadCall_phases.
    destruct (decide (4 < length args)%nat); [lia |].
    destruct (suspend_run s _ _ Hsus) as (s1 & Hs1 & <- & Hc1 & Hl1).
    destruct (fetchContext_run s1 _ _ Hget) as (s2 & Hs2 & <- & Hc2 & Hl2).
    destruct (resume_run s2 _ _ Hres) as (s3 & Hs3 & <- & Hc3 & Hl3).
    assert (Hd : CT.contexts (CT.self s2) !! length (CT.contexts (CT.self s1))
                 = Some fetched).
    { rewrite Hc2, lookup_app_r, Nat.sub_diag by lia. done. }
    exists s3. split_and!; [| done |].
    + unfold dispatch.
      rewrite !bind_assoc, (bind_run _ _ _ _ _ Hs1).
      rewrite !bind_assoc, (bind_run _ _ _ _ _ Hs2).
      rewrite !bind_assoc, (bind_run _ _ _ _ _ (getContext_cached _ _ Hl2)).
      rewrite !bind_assoc, (bind_run _ _ _ fetched _) by (by apply deref_lookup).
      destruct (decide (Rip fetched = NThread.sleepAddress nt)); [done |].
      rewrite !bind_assoc, (bind_run _ _ _ _ _ Hs3). done.
    + rewrite Hl3, Hl2. cbn. by rewrite Hc3.
  - intros s_d res s_w Hlen Hd Hwait Hres. rewrite threadCall_phases.
    destruct (decide (4 < length args)%nat); [lia |].
    rewrite (bind_run _ _ _ _ _ Hd), (bind_run _ _ _ _ _ Hwait).
    unfold conclude.
    destruct (decide (res = FAILED)); [done |].
    destruct (decide (res = OBJECT_0)); done.
Qed.

(** ** The saved context (nthread.ts, inject; captured-thread.ts, release) *)

Section Saved.

Context {OS : Type} `{NativeThread OS}.

(** The context object that [inject] leaves as [savedContext]. *)
Lemma inject_saved nt thread st' :
  NThread.inject nt thread = (Returned tt, st') ->
  exists r orig os1 os2 k c,
    native_suspend thread = (Returned r, os1)
    /\ native_getContext os1 = (Returned orig, os2)
    /\ CT.savedContext (CT.self st') = Some k
    /\ CT.latestContext (CT.self st') = Some k
    /\ CT.contexts (CT.self st') !! k = Some c
    /\ Rip c = Rip orig
    /\ Rsp c = Rsp orig
    /\ gpr c (NThread.regKey nt) = gpr orig (NThread.regKey nt)
    /\ ContextFlags c = Z.lor CONTEXT_INTEGER CONTEXT_CONTROL.
Proof.
  unfold NThread.inject, NThread.inject_body. intros Hb.
  apply bind_Returned in Hb as (r & s1 & Hsus & Hb).
  apply suspend_Returned in Hsus as (Hsus & Hc1 & Hl1 & _).
  apply bind_Returned in Hb as (u & s2 & Hfetch & Hb).
  apply fetchContext_Returned in Hfetch as (orig & Hget & Hc2 & Hl2 & _).
  rewrite (bind_run _ _ _ _ _ (getContext_cached _ _ Hl2)) in Hb.
  apply bind_Returned in Hb as (u1 & s3 & [= _ <-] & Hb).
  assert (Hd : CT.contexts (CT.self s2) !! length (CT.contexts (CT.self s1))
               = Some orig).
  { rewrite Hc2, lookup_app_r, Nat.sub_diag by lia. done. }
  rewrite (bind_run _ _ _ orig _) in Hb by (by apply deref_lookup).
  apply bind_Returned in Hb as (u2 & s4 & [= _ <-] & Hb).
  exists r, orig, (CT.os s1), (CT.os s2).
  apply bind_Returned in Hb as (u3 & s5 & _ & Hb).
  apply bind_Returned in Hb as (u4 & s6 & _ & Hb).
  apply bind_Returned in Hb as (u5 & s7 & _ & Hb).
  apply bind_Returned in Hb as (u6 & s8 & _ & Hb).
  apply bind_Returned in Hb as (u7 & s9 & _ & Hb).
  apply bind_Returned in Hb as (res & sw & Hwait & Hb).
  destruct (decide (res = OBJECT_0)) as [-> |]; [| discriminate].
  apply wait_loop_OBJECT_0 in Hwait as (k & final & osb & Hl & Hc & _ & _).
  rewrite (bind_run _ _ _ _ _ (getContext_cached _ _ Hl)) in Hb.
  unfold bind, CT.on_self, CT.mutate, CT.getContext, modify, get in Hb.
  cbn in Hb. rewrite Hl in Hb. cbn in Hb. injection Hb as <-.
  exists k. eexists. cbn.
  split; [done |]. split; [done |]. split; [done |]. split; [done |].
  split; [by rewrite !list_lookup_alter_eq, Hc |].
  cbn. unfold Rsp, set_reg. cbn.
  split; [done |]. split; [by rewrite decide_True by done |].
  split; [| done].
  destruct (decide (NThread.regKey nt = Reg.Rsp)) as [-> |]; [done |].
  by rewrite decide_True by done.
Qed.

End Saved.

(** ** An argument with no integer value (nthread.ts, threadCall) *)

Section BadArgument.

Context {OS : Type} `{NativeThread OS}.

Lemma load_arg_throws r key i args a (s : CT.St OS) :
  args !! i = Some a -> arg_value a = None ->
  NThread.load_arg r key i args s = (Thrown RangeError, s).
Proof.
  intros Ha Hv. unfold NThread.load_arg, bind.
  by rewrite Ha, toBigInt_arg_value, Hv.
Qed.

Lemma load_arg_returns r key i args (s : CT.St OS) :
  (forall a, args !! i = Some a -> is_Some (arg_value a)) ->
  exists s',
    NThread.load_arg r key i args s = (Returned tt, s')
    /\ CT.os s' = CT.os s
    /\ CT.suspendCount (CT.self s') = CT.suspendCount (CT.self s).
Proof.
  intros Hv. unfold NThread.load_arg, bind.
  destruct (args !! i) as [a|]; [| by eauto].
  destruct (Hv a eq_refl) as [v Ha].
  rewrite toBigInt_arg_value, Ha, mutate_run. eauto.
Qed.

(** The four loads stop at the first argument that has no integer value. *)
Lemma loads_throw {A} r args (rest : M (CT.St OS) A) (s : CT.St OS) :
  (length args <= 4)%nat ->
  ArgNumber JsNonInt ∈ args ->
  exists s',
    (NThread.load_arg r Reg.Rcx 0 args;;
     NThread.load_arg r Reg.Rdx 1 args;;
     NThread.load_arg r Reg.R8 2 args;;
     NThread.load_arg r Reg.R9 3 args;;
     rest) s = (Thrown RangeError, s')
    /\ CT.os s' = CT.os s
    /\ CT.suspendCount (CT.self s') = CT.suspendCount (CT.self s).
Proof.
  intros Hlen Hin. apply list_elem_of_lookup in Hin as [i Hi].
  pose proof (lookup_lt_Some _ _ _ Hi) as Hlt.
  assert (Hone : forall key j (s0 : CT.St OS),
             (exists a, args !! j = Some a /\ arg_value a = None
                        /\ NThread.load_arg r key j args s0
                           = (Thrown RangeError, s0))
             \/ ((forall a, args !! j = Some a -> is_Some (arg_value a))
                 /\ exists s', NThread.load_arg r key j args s0
                               = (Returned tt, s')
                               /\ CT.os s' = CT.os s0
                               /\ CT.suspendCount (CT.self s')
                                  = CT.suspendCount (CT.self s0))).
  { intros key j s0. destruct (args !! j) as [a|] eqn:Ha; rewrite <- Ha.
    - destruct (arg_value a) as [v|] eqn:Hv.
      + right. assert (Hs : forall a', args !! j = Some a' ->
                                       is_Some (arg_value a')).
        { intros a' Ha'. rewrite Ha in Ha'. injection Ha' as <-. eauto. }
        split; [exact Hs |]. by apply load_arg_returns.
      + left. exists a. split_and!; [done.. |]. by eapply load_arg_throws.
    - right. assert (Hs : forall a', args !! j = Some a' ->
                                     is_Some (arg_value a')).
      { intros a' Ha'. by rewrite Ha in Ha'. }
      split; [exact Hs |]. by apply load_arg_returns. }
  destruct (Hone Reg.Rcx 0%nat s) as [(a & _ & _ & Ht) | (H0 & s1 & Hr1 & Ho1 & Hc1)].
  { rewrite (bind_run_thrown _ _ _ _ _ Ht). eauto. }
  rewrite (bind_run _ _ _ _ _ Hr1).
  destruct (Hone Reg.Rdx 1%nat s1) as [(a & _ & _ & Ht) | (H1 & s2 & Hr2 & Ho2 & Hc2)].
  { rewrite (bind_run_thrown _ _ _ _ _ Ht). exists s1. by rewrite Ho1, Hc1. }
  rewrite (bind_run _ _ _ _ _ Hr2).
  destruct (Hone Reg.R8 2%nat s2) as [(a & _ & _ & Ht) | (H2 & s3 & Hr3 & Ho3 & Hc3)].
  { rewrite (bind_run_thrown _ _ _ _ _ Ht). exists s2.
    by rewrite Ho2, Hc2, Ho1, Hc1. }
  rewrite (bind_run _ _ _ _ _ Hr3).
  destruct (Hone Reg.R9 3%nat s3) as [(a & _ & _ & Ht) | (H3 & s4 & Hr4 & Ho4 & Hc4)].
  { rewrite (bind_run_thrown _ _ _ _ _ Ht). exists s3.
    by rewrite Ho3, Hc3, Ho2, Hc2, Ho1, Hc1. }
  assert (Hv : is_Some (arg_value (ArgNumber JsNonInt))).
  { destruct i as [|[|[|[|i]]]]; [by apply H0 | by apply H1 | by apply H2
                                  | by apply H3 | lia]. }
  by destruct Hv.
Qed.

End BadArgument.

(** X3.  An argument that is a number with no integer value: when the
    thread is parked, [threadCall] with at most four arguments one of which
    [BigInt] rejects fails with a [RangeError] after it has suspended the
    thread; nothing is applied and the thread is not resumed (the OS
    thread is as the suspend and the fetch left it, and the suspend stays
    counted). *)
Theorem threadCall_non_integer_argument :
  forall OS (N : NativeThread OS) (nt : NThread.t) (target : Z)
         (args : list Arg) (timeoutMs : Z) (s : CT.St OS)
         r1 os1 fetched os2,
    (length args <= 4)%nat ->
    ArgNumber JsNonInt ∈ args ->
    native_suspend (CT.os s) = (Returned r1, os1) ->
    native_getContext os1 = (Returned fetched, os2) ->
    Rip fetched = NThread.sleepAddress nt ->
    exists s',
      NThread.threadCall nt target args timeoutMs s = (Thrown RangeError, s')
      /\ CT.os s' = os2
      /\ CT.suspendCount (CT.self s')
         = CT.suspendCount (CT.self s) + (if decide (r1 = 0) then 0 else 1).
Proof.
  intros OS N nt target args timeoutMs s r1 os1 fetched os2
    Hlen Hin Hsus Hget Hrip.
  unfold NThread.threadCall.
  destruct (decide (4 < length args)%nat); [lia |].
  assert (Hs1 : exists s1,
             CT.suspend s = (Returned r1, s1) /\ CT.os s1 = os1
             /\ CT.contexts (CT.self s1) = CT.contexts (CT.self s)
             /\ CT.suspendCount (CT.self s1)
                = CT.suspendCount (CT.self s) + (if decide (r1 = 0) then 0 else 1)).
  { unfold CT.suspend, CT.native, bind. rewrite Hsus.
    destruct (decide (r1 = 0)); unfold ret, CT.on_self, modify;
      (eexists; split; [reflexivity |]);
      cbn [CT.os CT.self CT.contexts CT.suspendCount CT.set_suspendCount];
      split_and!; try reflexivity; lia. }
  destruct Hs1 as (s1 & Hs1 & <- & Hc1 & Hn1).
  assert (Hs2 : exists s2,
             CT.fetchContext s1 = (Returned tt, s2) /\ CT.os s2 = os2
             /\ CT.contexts (CT.self s2) = CT.contexts (CT.self s1) ++ [fetched]
             /\ CT.latestContext (CT.self s2)
                = Some (length (CT.contexts (CT.self s1)))
             /\ CT.suspendCount (CT.self s2) = CT.suspendCount (CT.self s1)).
  { unfold CT.fetchContext, CT.native, bind. rewrite Hget. cbn. eauto 10. }
  destruct Hs2 as (s2 & Hs2 & <- & Hc2 & Hl2 & Hn2).
  rewrite (bind_run _ _ _ _ _ Hs1), (bind_run _ _ _ _ _ Hs2).
  rewrite (bind_run _ _ _ _ _ (getContext_cached _ _ Hl2)).
  assert (Hd : CT.contexts (CT.self s2) !! length (CT.contexts (CT.self s1))
               = Some fetched).
  { rewrite Hc2, lookup_app_r, Nat.sub_diag by lia. done. }
  rewrite (bind_run _ _ _ fetched _) by (by apply deref_lookup).
  rewrite decide_True by done.
  rewrite (bind_run _ _ _ _ _ (getContext_cached _ _ Hl2)).
  match goal with
  | |- context [bind (NThread.load_arg ?r Reg.Rcx 0 args)
                  (fun _ => bind _ (fun _ => bind _ (fun _ => bind _ (fun _ => ?rest))))] =>
      destruct (loads_throw r args rest s2 Hlen Hin) as (s' & Hthrow & Ho & Hn)
  end.
  exists s'. split; [exact Hthrow |]. split; [done |]. by rewrite Hn, Hn2.
Qed.

(** ** The saved context across calls *)

Section SavedInvariant.

Context {OS : Type} `{NativeThread OS}.

Variables (k : nat) (c : ThreadContext).

(** The saved context is the object [k], and it holds [c]. *)
Definition saved_ok (th : CT.t) : Prop :=
  CT.savedContext th = Some k /\ CT.contexts th !! k = Some c.

(** Moreover the cache refers to another object. *)
Definition away (th : CT.t) : Prop :=
  saved_ok th /\ exists r, CT.latestContext th = Some r /\ r <> k.

(** [m] keeps the saved context while the cache is away from it, and
    returns values that satisfy [Q]. *)
Definition steady {A} (m : M (CT.St OS) A) (Q : A -> Prop) : Prop :=
  forall s r s',
    away (CT.self s) -> m s = (r, s') ->
    away (CT.self s') /\ forall a, r = Returned a -> Q a.

Definition any {A} : A -> Prop := fun _ => True.

Lemma steady_weaken {A} (m : M _ A) (Q Q' : A -> Prop) :
  steady m Q -> (forall a, Q a -> Q' a) -> steady m Q'.
Proof.
  intros Hm HQ s r s' Ha Hr. destruct (Hm _ _ _ Ha Hr) as [? Hq].
  split; [done |]. intros a ->. by apply HQ, Hq.
Qed.

Lemma steady_ret {A} (a : A) (Q : A -> Prop) : Q a -> steady (ret a) Q.
Proof. intros Hq s r s' Ha [= <- <-]. split; [done |]. by intros a' [= <-]. Qed.

Lemma steady_throw {A} e (Q : A -> Prop) : steady (throw e) Q.
Proof. intros s r s' Ha [= <- <-]. split; [done |]. by intros a'. Qed.

Lemma steady_get : steady get any.
Proof. intros s r s' Ha [= <- <-]. done. Qed.

Lemma steady_bind {A B} (m : M _ A) (f : A -> M _ B) (Q : A -> Prop)
    (Q' : B -> Prop) :
  steady m Q -> (forall a, Q a -> steady (f a) Q') -> steady (bind m f) Q'.
Proof.
  intros Hm Hf s r s' Ha Hb.
  apply bind_inv in Hb as [(a & s1 & Hm1 & Hf1) | (e & Hm1 & ->)].
  - destruct (Hm _ _ _ Ha Hm1) as [Ha1 Hq].
    exact (Hf a (Hq a eq_refl) _ _ _ Ha1 Hf1).
  - destruct (Hm _ _ _ Ha Hm1) as [Ha1 _]. split; [done |]. by intros a.
Qed.

Lemma steady_try_catch {A} (m h : M _ A) (Q : A -> Prop) :
  steady m Q -> steady h Q -> steady (try_catch m h) Q.
Proof.
  intros Hm Hh s r s' Ha. unfold try_catch.
  destruct (m s) as [[a|e] s1] eqn:Hms.
  - intros [= <- <-]. exact (Hm _ _ _ Ha Hms).
  - intros Hhs. destruct (Hm _ _ _ Ha Hms) as [Ha1 _].
    exact (Hh _ _ _ Ha1 Hhs).
Qed.

Lemma steady_decide {A} P `{Decision P} (m1 m2 : M _ A) (Q : A -> Prop) :
  steady m1 Q -> steady m2 Q -> steady (if decide P then m1 else m2) Q.
Proof. by destruct (decide P). Qed.

Lemma steady_native {A} (m : M OS A) : steady (CT.native m) any.
Proof.
  intros s r s' Ha. unfold CT.native.
  destruct (m (CT.os s)) as [r1 os1]. by intros [= <- <-].
Qed.

Lemma steady_on_self (g : CT.t -> CT.t) :
  (forall th, away th -> away (g th)) -> steady (CT.on_self g) any.
Proof. intros Hg s r s' Ha [= <- <-]. split; [by apply Hg | done]. Qed.

Lemma steady_sleep :
  steady
    (modify (fun s : CT.St OS =>
               {| CT.self := CT.self s; CT.os := native_sleep 1 (CT.os s) |}))
    any.
Proof. intros s r s' Ha [= <- <-]. done. Qed.

Lemma steady_mutate r f : r <> k -> steady (CT.mutate r f) any.
Proof.
  intros Hr. apply steady_on_self.
  intros th [[Hs Hc] Hl]. split; [split |]; cbn; [done | | done].
  by rewrite list_lookup_alter_ne.
Qed.

Lemma steady_deref r : steady (CT.deref r) any.
Proof.
  unfold CT.deref. eapply steady_bind; [apply steady_get | intros s _].
  destruct (_ !! _); [by apply steady_ret | apply steady_throw].
Qed.

Lemma steady_fetchContext : steady CT.fetchContext any.
Proof.
  unfold CT.fetchContext.
  eapply steady_bind; [apply steady_native | intros c' _].
  apply steady_on_self. intros th [[Hs Hc] Hl].
  pose proof (lookup_lt_Some _ _ _ Hc) as Hlt.
  split; [split |]; cbn; [done | by rewrite lookup_app_l | ].
  eexists. split; [done | lia].
Qed.

Lemma steady_getContext : steady CT.getContext (fun r => r <> k).
Proof.
  intros s r s' Ha. pose proof Ha as [_ (r0 & Hl & Hr0)].
  rewrite (getContext_cached _ _ Hl). intros [= <- <-].
  split; [done |]. by intros a [= <-].
Qed.

Lemma steady_setContext r : r <> k -> steady (CT.setContext r) any.
Proof.
  intros Hr. apply steady_on_self. intros th [Hok _]. split; [done |].
  cbn. eauto.
Qed.

Lemma steady_applyContext : steady CT.applyContext any.
Proof.
  unfold CT.applyContext. eapply steady_bind; [apply steady_get | intros s _].
  destruct (CT.latestContext _); [| apply steady_throw].
  eapply steady_bind; [apply steady_deref | intros c' _]. apply steady_native.
Qed.

Lemma steady_count (m : M OS Z) (g : CT.t -> CT.t) :
  (forall th, CT.savedContext (g th) = CT.savedContext th
              /\ CT.contexts (g th) = CT.contexts th
              /\ CT.latestContext (g th) = CT.latestContext th) ->
  steady
    (let* result := CT.native m in
     (if decide (result = 0) then ret tt else CT.on_self g);;
     ret result) any.
Proof.
  intros Hg. eapply steady_bind; [apply steady_native | intros result _].
  eapply steady_bind; [| intros _ _; by apply steady_ret].
  apply steady_decide; [by apply (steady_ret tt any) |].
  apply steady_on_self. intros th [[Hs Hc] Hl].
  destruct (Hg th) as (E1 & E2 & E3). unfold away, saved_ok.
  by rewrite E1, E2, E3.
Qed.

Lemma steady_suspend : steady CT.suspend any.
Proof. by apply steady_count. Qed.

Lemma steady_resume : steady CT.resume any.
Proof. by apply steady_count. Qed.

Lemma steady_load_arg r key i args :
  r <> k -> steady (NThread.load_arg r key i args) any.
Proof.
  intros Hr. unfold NThread.load_arg.
  destruct (args !! i) as [a|]; [| by apply steady_ret].
  eapply steady_bind with (Q := any); [| intros v _; by apply steady_mutate].
  intros s r0 s' Ha. rewrite toBigInt_arg_value.
  destruct (arg_value a); by intros [= <- <-].
Qed.

Lemma steady_wait_loop n : steady (CT.wait_loop n) any.
Proof.
  induction n as [|n IH]; cbn [CT.wait_loop]; [by apply steady_ret |].
  eapply steady_bind with (Q := any).
  - apply steady_try_catch.
    + eapply steady_bind; [apply steady_fetchContext | intros _ _].
      eapply steady_bind; [apply steady_getContext | intros r _].
      eapply steady_bind; [apply steady_deref | intros c' _].
      eapply steady_bind; [apply steady_get | intros s _].
      apply steady_decide; by apply steady_ret.
    + eapply steady_bind; [apply steady_native | intros res _].
      apply steady_decide; by apply steady_ret.
  - intros [res|] _; [by apply steady_ret |].
    eapply steady_bind; [apply steady_sleep | intros _ _]. exact IH.
Qed.

End SavedInvariant.

Section SavedAcrossCalls.

Context {OS : Type} `{NativeThread OS}.

(** Whatever its outcome, the native part of a method leaves the object
    alone. *)
Lemma native_self {A} (m : M OS A) s r s' :
  CT.native m s = (r, s') -> CT.self s' = CT.self s.
Proof.
  unfold CT.native. destruct (m (CT.os s)) as [r1 os1]. by intros [= _ <-].
Qed.

Lemma suspend_saved k c s r s' :
  saved_ok k c (CT.self s) -> CT.suspend s = (r, s') ->
  saved_ok k c (CT.self s').
Proof.
  intros Hok. unfold CT.suspend. intros Hb.
  apply bind_inv in Hb as [(r1 & s1 & Hn & Hb) | (e & Hn & _)];
    apply native_self in Hn; [| by rewrite Hn].
  rewrite <- Hn in Hok. clear Hn.
  apply bind_inv in Hb as [([] & s2 & Hm & [= _ <-]) | (e & Hm & _)].
  - destruct (decide (r1 = 0)); by injection Hm as <-.
  - destruct (decide (r1 = 0)); discriminate.
Qed.

Lemma fetchContext_saved k c s r s' :
  saved_ok k c (CT.self s) -> CT.fetchContext s = (r, s') ->
  match r with
  | Returned _ => away k c (CT.self s')
  | Thrown _ => saved_ok k c (CT.self s')
  end.
Proof.
  intros [Hs Hc]. unfold CT.fetchContext. intros Hb.
  apply bind_inv in Hb as [(c' & s1 & Hn & Hb) | (e & Hn & ->)];
    apply native_self in Hn; [| by rewrite Hn].
  injection Hb as <- <-. rewrite Hn.
  pose proof (lookup_lt_Some _ _ _ Hc) as Hlt.
  split; [split |]; cbn; [done | by rewrite lookup_app_l |].
  eexists. split; [done | lia].
Qed.

(** A call leaves the saved context as it is, whatever its outcome. *)
Lemma threadCall_saved k c nt target args timeoutMs s r s' :
  saved_ok k c (CT.self s) ->
  NThread.threadCall nt target args timeoutMs s = (r, s') ->
  saved_ok k c (CT.self s').
Proof.
  intros Hok. unfold NThread.threadCall.
  destruct (decide (4 < length args)%nat); [by intros [= _ <-] |].
  intros Hb.
  apply bind_inv in Hb as [(r1 & s1 & Hsus & Hb) | (e & Hsus & _)];
    [| by eapply suspend_saved].
  apply (suspend_saved _ _ _ _ _ Hok) in Hsus.
  apply bind_inv in Hb as [(u & s2 & Hfetch & Hb) | (e & Hfetch & _)];
    [| exact (fetchContext_saved _ _ _ _ _ Hsus Hfetch)].
  pose proof (fetchContext_saved _ _ _ _ _ Hsus Hfetch) as Haway.
  cbn in Haway. revert Hb.
  match goal with
  | |- ?rest s2 = _ -> _ =>
      assert (Hst : steady k c rest any); [| intros Hb; by apply (Hst _ _ _ Haway Hb)]
  end.
  eapply steady_bind; [apply steady_getContext | intros r0 Hr0].
  eapply steady_bind; [apply steady_deref | intros c0 _].
  apply steady_decide.
  - eapply steady_bind; [apply steady_getContext | intros ctx Hctx].
    eapply steady_bind; [by apply steady_load_arg | intros _ _].
    eapply steady_bind; [by apply steady_load_arg | intros _ _].
    eapply steady_bind; [by apply steady_load_arg | intros _ _].
    eapply steady_bind; [by apply steady_load_arg | intros _ _].
    eapply steady_bind; [by apply steady_mutate | intros _ _].
    eapply steady_bind; [apply steady_get | intros s0 _].
    eapply steady_bind; [by apply steady_mutate | intros _ _].
    eapply steady_bind; [by apply steady_setContext | intros _ _].
    eapply steady_bind; [apply steady_applyContext | intros _ _].
    eapply steady_bind; [apply steady_resume | intros _ _].
    eapply steady_bind; [apply steady_wait_loop | intros res _].
    apply steady_decide; [apply steady_throw |].
    apply steady_decide; [| apply steady_throw].
    eapply steady_bind; [apply steady_getContext | intros r2 _].
    eapply steady_bind; [apply steady_deref | intros c1 _].
    by apply steady_ret.
  - eapply steady_bind; [apply steady_resume | intros _ _].
    apply steady_throw.
Qed.

Lemma calls_saved k c nt cs s :
  saved_ok k c (CT.self s) -> saved_ok k c (CT.self (calls nt cs s)).
Proof.
  revert s. induction cs as [|[[target args] timeoutMs] cs IH]; intros s Hok;
    [done |].
  cbn [calls]. apply IH.
  destruct (NThread.threadCall nt target args timeoutMs s) as [r s1] eqn:Hc.
  by eapply threadCall_saved.
Qed.

(** What [release] does when it returns. *)
Lemma release_Returned s u s' :
  CT.release s = (Returned u, s') ->
  exists k c r1 os1 os2 r2,
    CT.savedContext (CT.self s) = Some k
    /\ CT.contexts (CT.self s) !! k = Some c
    /\ native_suspend (CT.os s) = (Returned r1, os1)
    /\ native_setContext c os1 = (Returned tt, os2)
    /\ native_resume os2 = (Returned r2, CT.os s').
Proof.
  unfold CT.release. intros Hb.
  apply bind_Returned in Hb as (r1 & s1 & Hsus & Hb).
  apply suspend_Returned in Hsus as (Hsus & Hc1 & _ & Hs1).
  apply bind_Returned in Hb as (s0 & s2 & [= <- <-] & Hb).
  apply bind_Returned in Hb as ([] & s3 & [= <-] & Hb).
  apply bind_Returned in Hb as ([] & s4 & Happly & Hb).
  apply applyContext_Returned in Happly as (k & c & Hl & Hc & Hset & _).
  apply bind_Returned in Hb as (r2 & s5 & Hres & [= _ <-]).
  apply resume_Returned in Hres as (Hres & _).
  cbn in Hl, Hc, Hset. rewrite Hs1 in Hl. rewrite Hc1 in Hc.
  exists k, c, r1, (CT.os s1), (CT.os s4), r2. done.
Qed.

End SavedAcrossCalls.

(** X1.  What [inject] saves: after a successful [inject] the saved
    context and the cached context are one object, which holds the [Rip],
    the [Rsp] and the pivot register of the context fetched right after
    the suspend, and the flags [INTEGER | CONTROL]. *)
Theorem inject_saves_original_context :
  forall OS (N : NativeThread OS) (nt : NThread.t) (thread : OS) st,
    NThread.inject nt thread = (Returned tt, st) ->
    exists r orig os1 os2 k c,
      native_suspend thread = (Returned r, os1)
      /\ native_getContext os1 = (Returned orig, os2)
      /\ CT.savedContext (CT.self st) = Some k
      /\ CT.latestContext (CT.self st) = Some k
      /\ CT.contexts (CT.self st) !! k = Some c
      /\ Rip c = Rip orig
      /\ Rsp c = Rsp orig
      /\ gpr c (NThread.regKey nt) = gpr orig (NThread.regKey nt)
      /\ ContextFlags c = Z.lor CONTEXT_INTEGER CONTEXT_CONTROL.
Proof. intros OS N nt thread st. apply inject_saved. Qed.

(** X2.  [release] hands the thread back where it was taken: after a
    successful [inject] and any calls made on the captured thread,
    whatever their outcomes, a [release] that returns has suspended the
    thread, applied a context with the original [Rip], [Rsp] and pivot
    register, and resumed it. *)
Theorem release_restores_original :
  forall OS (N : NativeThread OS) (nt : NThread.t) (thread : OS)
         (cs : list (Z * list Arg * Z)) st st',
    NThread.inject nt thread = (Returned tt, st) ->
    CT.release (calls nt cs st) = (Returned tt, st') ->
    exists r orig os1 os2 applied r1 os3 os4 r2,
      native_suspend thread = (Returned r, os1)
      /\ native_getContext os1 = (Returned orig, os2)
      /\ native_suspend (CT.os (calls nt cs st)) = (Returned r1, os3)
      /\ native_setContext applied os3 = (Returned tt, os4)
      /\ native_resume os4 = (Returned r2, CT.os st')
      /\ Rip applied = Rip orig
      /\ Rsp applied = Rsp orig
      /\ gpr applied (NThread.regKey nt) = gpr orig (NThread.regKey nt)
      /\ ContextFlags applied = Z.lor CONTEXT_INTEGER CONTEXT_CONTROL.
Proof.
  intros OS N nt thread cs st st' Hinj Hrel.
  destruct (inject_saved _ _ _ Hinj)
    as (r & orig & os1 & os2 & k & c & Hsus & Hget & Hs & _ & Hc & Hsame).
  pose proof (calls_saved k c nt cs st (conj Hs Hc)) as [Hs' Hc'].
  destruct (release_Returned _ _ _ Hrel)
    as (k' & c' & r1 & os3 & os4 & r2 & Hk' & Hck' & Hsus' & Hset & Hres).
  rewrite Hs' in Hk'. injection Hk' as <-.
  rewrite Hc' in Hck'. injection Hck' as <-.
  exists r, orig, os1, os2, c, r1, os3, os4, r2. done.
Qed.


(** ** The polling wait (captured-thread.ts, wait) *)

Section Wait.

Context {OS : Type} `{NativeThread OS}.

(** One poll: the context is fetched and its [Rip] compared; the poll
    throws only when the native [getContext] does. *)
Lemma poll_inv (s : CT.St OS) r s' :
  (CT.fetchContext;;
   let* k := CT.getContext in
   let* c := CT.deref k in
   let* s0 := get in
   if decide (Rip c = CT.sleepAddress (CT.self s0))
   then ret (Some OBJECT_0)
   else ret None) s = (r, s') ->
  match r with
  | Returned landed =>
      exists c,
        native_getContext (CT.os s) = (Returned c, CT.os s')
        /\ CT.sleepAddress (CT.self s') = CT.sleepAddress (CT.self s)
        /\ landed = (if decide (Rip c = CT.sleepAddress (CT.self s))
                     then Some OBJECT_0 else None)
  | Thrown e =>
      native_getContext (CT.os s) = (Thrown e, CT.os s')
      /\ CT.self s' = CT.self s
  end.
Proof.
  intros Hb.
  apply bind_inv in Hb as [(u & s1 & Hfetch & Hb) | (e & Hfetch & ->)].
  - pose proof (preserves_fetchContext CT.sleepAddress _ _ _ Hfetch) as Hp.
    apply fetchContext_Returned in Hfetch as (c & Hget & Hc & Hl & _).
    rewrite (bind_run _ _ _ _ _ (getContext_cached _ _ Hl)) in Hb.
    assert (Hd : CT.contexts (CT.self s1) !! length (CT.contexts (CT.self s))
                 = Some c).
    { rewrite Hc, lookup_app_r, Nat.sub_diag by lia. done. }
    rewrite (bind_run _ _ _ c _) in Hb by (by apply deref_lookup).
    unfold bind, get in Hb. rewrite Hp in Hb.
    destruct (decide (Rip c = CT.sleepAddress (CT.self s)));
      injection Hb as <- <-; exists c; (split; [exact Hget |]);
      (split; [exact Hp |]).
    + by rewrite decide_True.
    + by rewrite decide_False.
  - unfold CT.fetchContext in Hfetch.
    apply bind_inv in Hfetch as [(c & s1 & Hn & Hm) | (e' & Hn & [= <-])];
      [discriminate |].
    unfold CT.native in Hn.
    destruct (native_getContext (CT.os s)) as [r1 os1].
    by injection Hn as -> <-.
Qed.

(** How a wait ends. *)
Lemma wait_loop_ends n (s : CT.St OS) res s' :
  CT.wait_loop n s = (Returned res, s') ->
  match res with
  | OBJECT_0 =>
      exists os_before c,
        native_getContext os_before = (Returned c, CT.os s')
        /\ Rip c = CT.sleepAddress (CT.self s)
  | TIMEOUT => True
  | _ =>
      exists os_before e os_gone w,
        native_getContext os_before = (Thrown e, os_gone)
        /\ native_wait 0 os_gone = (Returned w, CT.os s')
        /\ res = (if decide (w = OBJECT_0) then FAILED else w)
  end.
Proof.
  revert s. induction n as [|n IH]; intros s; cbn [CT.wait_loop].
  - by intros [= <- <-].
  - intros Hb. apply bind_Returned in Hb as (landed & s1 & Htry & Hk).
    apply try_catch_inv in Htry
      as [(a & Hc & [= <-]) | (e & s0 & Hc & Hh)].
    + apply poll_inv in Hc as (c & Hget & Hsl & ->).
      destruct (decide (Rip c = CT.sleepAddress (CT.self s))) as [Hrip|Hrip].
      * injection Hk as <- <-. eauto.
      * apply bind_Returned in Hk as ([] & s2 & [= <-] & Hk).
        apply IH in Hk. cbn [CT.self CT.os] in Hk. rewrite Hsl in Hk.
        exact Hk.
    + apply poll_inv in Hc as [Hget Hself].
      apply bind_Returned in Hh as (w & s2 & Hw & Hh).
      apply native_Returned in Hw as [Hw _].
      assert (Hres : landed = Some (if decide (w = OBJECT_0) then FAILED else w)
                     /\ s1 = s2).
      { destruct (decide (w = OBJECT_0)); by injection Hh as <- <-. }
      destruct Hres as [-> ->]. injection Hk as <- <-.
      destruct (decide (w = OBJECT_0)) as [-> | Hw0].
      * exists (CT.os s), e, (CT.os s0), OBJECT_0. by rewrite decide_True.
      * destruct w; try done;
          exists (CT.os s), e, (CT.os s0); eexists;
          (split; [exact Hget |]); (split; [exact Hw |]); by rewrite decide_False.
Qed.

End Wait.

(** X19.  How the polling wait ends.  With a budget of zero or less it
    reports [TIMEOUT] without touching the thread.  It reports [OBJECT_0]
    only when the context it fetched last has its [Rip] at the sleep
    address, and does so at the first poll when the thread is there
    already.  It reports [FAILED] or [ABANDONED] only when the native
    [getContext] threw and the native wait that followed returned: an
    [OBJECT_0] of the native wait (the thread has ended) is reported as
    [FAILED], any other result as it is.  The sleep address, the pivot
    register and [callRsp] are left as they are. *)
Theorem wait_outcomes :
  forall OS (N : NativeThread OS) (timeoutMs : Z) (s : CT.St OS)
         (res : WaitReturn) (s' : CT.St OS),
    CT.wait timeoutMs s = (Returned res, s') ->
    (timeoutMs <= 0 -> res = TIMEOUT /\ s' = s)
    /\ (forall c os1,
          0 < timeoutMs ->
          native_getContext (CT.os s) = (Returned c, os1) ->
          Rip c = CT.sleepAddress (CT.self s) ->
          res = OBJECT_0 /\ CT.os s' = os1)
    /\ match res with
       | OBJECT_0 =>
           exists os_before c,
             native_getContext os_before = (Returned c, CT.os s')
             /\ Rip c = CT.sleepAddress (CT.self s)
       | TIMEOUT => True
       | _ =>
           exists os_before e os_gone w,
             native_getContext os_before = (Thrown e, os_gone)
             /\ native_wait 0 os_gone = (Returned w, CT.os s')
             /\ res = (if decide (w = OBJECT_0) then FAILED else w)
       end
    /\ CT.sleepAddress (CT.self s') = CT.sleepAddress (CT.self s)
    /\ CT.regKey (CT.self s') = CT.regKey (CT.self s)
    /\ CT.callRsp (CT.self s') = CT.callRsp (CT.self s).
Proof.
  intros OS N timeoutMs s res s' Hwait. split; [| split; [| split]].
  - intros Hle. unfold CT.wait in Hwait.
    replace (Z.to_nat timeoutMs) with 0%nat in Hwait by lia.
    by injection Hwait as <- <-.
  - intros c os1 Hpos Hget Hrip. unfold CT.wait in Hwait.
    destruct (Z.to_nat timeoutMs) as [|n] eqn:Hn; [lia |].
    cbn [CT.wait_loop] in Hwait.
    destruct (fetchContext_run s c os1 Hget) as (s1 & Hfetch & Hos & Hc & Hl).
    pose proof (preserves_fetchContext CT.sleepAddress _ _ _ Hfetch) as Hp.
    assert (Hd : CT.contexts (CT.self s1) !! length (CT.contexts (CT.self s))
                 = Some c).
    { rewrite Hc, lookup_app_r, Nat.sub_diag by lia. done. }
    unfold try_catch in Hwait. unfold bind at 1 in Hwait.
    rewrite (bind_run _ _ _ _ _ Hfetch) in Hwait.
    rewrite (bind_run _ _ _ _ _ (getContext_cached _ _ Hl)) in Hwait.
    rewrite (bind_run _ _ _ c _) in Hwait by (by apply deref_lookup).
    unfold bind, get in Hwait. rewrite Hp, decide_True in Hwait by done.
    injection Hwait as <- <-. done.
  - by apply (wait_loop_ends _ _ _ _ Hwait).
  - split; [| split].
    + exact (preserves_wait CT.sleepAddress _ _ _ _ Hwait).
    + exact (preserves_wait CT.regKey _ _ _ _ Hwait).
    + exact (preserves_wait CT.callRsp _ _ _ _ Hwait).
Qed.

(** ** The zone heap (memory/heap.ts) *)

Module HeapFacts.

Abbreviation off := FreeBlock.offset.
Abbreviation sz := FreeBlock.size.

(** The end of a block. *)
Definition fin (b : FreeBlock.t) : Z := off b + sz b.

(** A free list above [bound]: every block is non-empty, starts strictly
    after the end of the one before it (after [bound] for the first), so
    that the list is sorted and no two neighbours touch. *)
Fixpoint chain (bound : Z) (freeList : list FreeBlock.t) : Prop :=
  match freeList with
  | [] => True
  | b :: freeList' => bound < off b /\ 0 < sz b /\ chain (fin b) freeList'
  end.

(** The end of the last block, [bound] for the empty list. *)
Definition last_end (bound : Z) (freeList : list FreeBlock.t) : Z :=
  foldl (fun _ b => fin b) bound freeList.

(** The offsets a free list covers. *)
Definition covered (freeList : list FreeBlock.t) (x : Z) : Prop :=
  Exists (fun b => off b <= x < fin b) freeList.

Lemma chain_app bound l1 l2 :
  chain bound (l1 ++ l2) <-> chain bound l1 /\ chain (last_end bound l1) l2.
Proof.
  revert bound. induction l1 as [|b l1 IH]; intros bound; cbn.
  - tauto.
  - unfold last_end in *. cbn. rewrite IH. tauto.
Qed.

Lemma chain_weaken bound bound' l :
  bound' <= bound -> chain bound l -> chain bound' l.
Proof. destruct l; cbn; [done |]. intros ? (? & ? & ?). split_and!; [lia | done..]. Qed.

Lemma last_end_snoc bound l b : last_end bound (l ++ [b]) = fin b.
Proof. unfold last_end. by rewrite foldl_app. Qed.

Lemma chain_last_end_le bound l : chain bound l -> bound <= last_end bound l.
Proof.
  revert bound. induction l as [|b l IH]; intros bound; cbn; [done |].
  intros (? & ? & Hc). apply IH in Hc. unfold last_end, fin in *. cbn. lia.
Qed.

(** In a chain every block lies between the bound and the last end. *)
Lemma chain_bounds bound l b :
  chain bound l -> b ∈ l -> bound < off b /\ 0 < sz b /\ fin b <= last_end bound l.
Proof.
  revert bound. induction l as [|c l IH]; intros bound Hc Hb.
  - by apply elem_of_nil in Hb.
  - cbn in Hc. destruct Hc as (Hlo & Hsz & Hc).
    unfold last_end. cbn. fold (last_end (fin c) l).
    pose proof (chain_last_end_le _ _ Hc).
    apply elem_of_cons in Hb as [-> | Hb]; [done |].
    destruct (IH _ Hc Hb) as (? & ? & ?). unfold fin in *. lia.
Qed.

Lemma covered_app l1 l2 x : covered (l1 ++ l2) x <-> covered l1 x \/ covered l2 x.
Proof. unfold covered. apply Exists_app. Qed.

Lemma covered_cons b l x : covered (b :: l) x <-> off b <= x < fin b \/ covered l x.
Proof. unfold covered. apply Exists_cons. Qed.

Lemma covered_nil x : covered [] x <-> False.
Proof. unfold covered. rewrite Exists_nil. done. Qed.

(** *** The index operations on a list split at the index *)

Lemma scan_while_split {A} (p : A -> bool) (l : list A) :
  exists l1 l2,
    l = l1 ++ l2 /\ scan_while p l = length l1
    /\ Forall (fun x => p x = true) l1
    /\ match l2 with [] => True | x :: _ => p x = false end.
Proof.
  induction l as [|x l (l1 & l2 & -> & Hn & Hall & Hhd)]; cbn.
  - by exists [], [].
  - destruct (p x) eqn:Hp.
    + exists (x :: l1), l2. cbn. rewrite Hn. split_and!; try done.
      by constructor.
    + exists [], (x :: l1 ++ l2). done.
Qed.

Lemma splice_in_app l1 l2 b :
  Heap.splice_in (length l1) b (l1 ++ l2) = l1 ++ b :: l2.
Proof. unfold Heap.splice_in. by rewrite take_app_length, drop_app_length. Qed.

Definition merged (b c : FreeBlock.t) : FreeBlock.t :=
  {| FreeBlock.offset := off b; FreeBlock.size := sz b + sz c |}.

Lemma merge_at_pair l1 b c l2 :
  Heap.merge_at (length l1) (l1 ++ b :: c :: l2) =
  if decide (fin b = off c) then l1 ++ merged b c :: l2
  else l1 ++ b :: c :: l2.
Proof.
  unfold Heap.merge_at.
  rewrite list_lookup_middle by done.
  replace (S (length l1)) with (length (l1 ++ [b])) by (rewrite length_app; cbn; lia).
  replace (l1 ++ b :: c :: l2) with ((l1 ++ [b]) ++ c :: l2) by (by rewrite <- app_assoc).
  rewrite list_lookup_middle by done.
  unfold fin. destruct (decide _); [| done].
  rewrite <- app_assoc. cbn [app].
  rewrite insert_app_r_alt, Nat.sub_diag by lia. cbn [insert list_insert].
  fold (merged b c).
  replace (l1 ++ merged b c :: c :: l2) with ((l1 ++ [merged b c]) ++ c :: l2)
    by (by rewrite <- app_assoc).
  replace (length (l1 ++ [b])) with (length (l1 ++ [merged b c]))
    by (rewrite !length_app; done).
  rewrite delete_middle. by rewrite <- app_assoc.
Qed.

Lemma merge_at_end l1 b :
  Heap.merge_at (length l1) (l1 ++ [b]) = l1 ++ [b].
Proof.
  unfold Heap.merge_at. rewrite list_lookup_middle by done.
  rewrite lookup_ge_None_2; [done |]. rewrite length_app. cbn. lia.
Qed.


(** The block at the head of [l] absorbs the next one when they touch. *)
Definition next_merge (b : FreeBlock.t) (l : list FreeBlock.t)
  : list FreeBlock.t :=
  match l with
  | c :: l' => if decide (fin b = off c) then merged b c :: l' else b :: l
  | [] => [b]
  end.

Lemma merge_at_next l1 b l2 :
  Heap.merge_at (length l1) (l1 ++ b :: l2) = l1 ++ next_merge b l2.
Proof.
  destruct l2 as [|c l2]; cbn.
  - apply merge_at_end.
  - rewrite merge_at_pair. by destruct (decide _).
Qed.

(** [insertAndCoalesce] on a list split where the new block goes. *)
Lemma insertAndCoalesce_split l1 l2 offset size :
  Forall (fun b => off b < offset) l1 ->
  match l2 with [] => True | c :: _ => ¬ off c < offset end ->
  Heap.insertAndCoalesce (l1 ++ l2) offset size =
  match reverse l1 with
  | [] => next_merge {| FreeBlock.offset := offset; FreeBlock.size := size |} l2
  | p :: l1' =>
      reverse l1' ++
      next_merge p
        (next_merge {| FreeBlock.offset := offset; FreeBlock.size := size |} l2)
  end.
Proof.
  intros Hl1 Hl2. unfold Heap.insertAndCoalesce.
  assert (Hscan : scan_while (fun b => bool_decide (off b < offset)) (l1 ++ l2)
                  = length l1).
  { clear -Hl1 Hl2. induction Hl1 as [|b l1 Hb _ IH]; cbn.
    - destruct l2 as [|c l2]; cbn; [done |]. by rewrite bool_decide_eq_false_2.
    - rewrite bool_decide_eq_true_2 by done. by rewrite IH. }
  rewrite Hscan, splice_in_app, merge_at_next.
  destruct l1 as [|p l1 _] using rev_ind.
  - done.
  - rewrite reverse_snoc, reverse_involutive, length_app. cbn.
    rewrite Nat.add_1_r, <- app_assoc. cbn [app].
    apply merge_at_next.
Qed.

Lemma Forall_scan_prefix (freeList : list FreeBlock.t) offset :
  exists l1 l2,
    freeList = l1 ++ l2
    /\ Forall (fun b => off b < offset) l1
    /\ match l2 with [] => True | c :: _ => ¬ off c < offset end.
Proof.
  destruct (scan_while_split (fun b => bool_decide (off b < offset)) freeList)
    as (l1 & l2 & -> & _ & Hall & Hhd).
  exists l1, l2. split_and!; [done | |].
  - eapply Forall_impl; [exact Hall |]. intros b Hb. by apply bool_decide_eq_true in Hb.
  - destruct l2; [done |]. by apply bool_decide_eq_false in Hhd.
Qed.

(** Freeing a block that meets no free block keeps the list a chain and
    adds exactly the block to what the list covers. *)
Lemma insertAndCoalesce_chain bound freeList offset size :
  chain bound freeList ->
  bound < offset -> 0 < size ->
  (forall x, offset <= x < offset + size -> ¬ covered freeList x) ->
  chain bound (Heap.insertAndCoalesce freeList offset size)
  /\ (forall x, covered (Heap.insertAndCoalesce freeList offset size) x
               <-> covered freeList x \/ offset <= x < offset + size).
Proof.
  intros Hchain Hlo Hsz Hfree.
  destruct (Forall_scan_prefix freeList offset) as (l1 & l2 & -> & Hl1 & Hl2).
  rewrite insertAndCoalesce_split by done.
  apply chain_app in Hchain as [Hc1 Hc2].
  set (N := {| FreeBlock.offset := offset; FreeBlock.size := size |}).
  (* the successor, if any, starts at or after the end of the new block *)
  assert (Hnext : match l2 with [] => True | c :: _ => fin N <= off c end).
  { destruct l2 as [|c l2]; [done |]. cbn in Hc2. destruct Hc2 as (_ & Hcs & _).
    destruct (decide (fin N <= off c)) as [|Hlt]; [done |]. exfalso.
    apply (Hfree (off c)); [unfold fin in *; cbn in *; lia |].
    apply covered_app. right. apply covered_cons. left. unfold fin. lia. }
  (* the chain and the cover of the new block merged with its successor *)
  assert (Hnm : forall bd, bd < offset ->
            (match l2 with [] => True | c :: _ => bd <= last_end bound l1 end) ->
            chain bd (next_merge N l2)
            /\ (forall x, covered (next_merge N l2) x
                         <-> covered l2 x \/ offset <= x < offset + size)
            /\ exists C G, next_merge N l2 = C :: G /\ off C = offset).
  { intros bd Hbd Hbd'. destruct l2 as [|c l2]; cbn.
    - split; [done | split; [| by eauto]].
      intros x. rewrite covered_cons, !covered_nil. unfold fin. cbn. tauto.
    - cbn in Hc2. destruct Hc2 as (Hc & Hcs & Hc2).
      destruct (decide (fin N = off c)) as [Heq|Hne].
      + split; [| split; [| by eauto]].
        * cbn. split_and!; [done | lia |].
          replace (fin (merged N c)) with (fin c); [done |].
          unfold fin in *. cbn in *. lia.
        * intros x. rewrite !covered_cons. unfold fin in *. cbn in *.
          intuition lia.
      + split; [| split; [| by eauto]].
        * cbn. split_and!; try done. lia.
        * intros x. rewrite !covered_cons. unfold fin in *. cbn in *. tauto. }
  destruct l1 as [|p l1 _] using rev_ind.
  - cbn. destruct (Hnm bound Hlo) as (? & Hcov & _); [by destruct l2 |].
    split; [done | exact Hcov].
  - rewrite reverse_snoc.
    apply chain_app in Hc1 as [Hc1 Hp]. cbn in Hp. destruct Hp as (Hp & Hps & _).
    apply Forall_app in Hl1 as [_ Hpo]. rewrite Forall_singleton in Hpo.
    rewrite last_end_snoc in Hc2.
    (* the predecessor ends at or before the new block *)
    assert (Hprev : fin p <= offset).
    { destruct (decide (fin p <= offset)) as [|Hlt]; [done |]. exfalso.
      apply (Hfree offset); [lia |].
      rewrite !covered_app. left. right. apply covered_cons. left. lia. }
    destruct (decide (fin p = offset)) as [Htouch|Hgap].
    + destruct (Hnm (off p)) as (HcN & Hcov & C & G & HCG & HC);
        [lia | destruct l2; [done | rewrite last_end_snoc; unfold fin; lia] |].
      rewrite HCG in *. cbn [next_merge].
      rewrite decide_True by lia.
      cbn in HcN. destruct HcN as (_ & HCs & HcG).
      split.
      * apply chain_app. rewrite reverse_involutive. split; [done |].
        cbn. split_and!; [done | lia |].
        replace (fin (merged p C)) with (fin C); [done |].
        unfold fin in *. cbn. lia.
      * intros x. rewrite reverse_involutive.
        rewrite !covered_app, !covered_cons in *.
        specialize (Hcov x). rewrite covered_cons in Hcov.
        rewrite covered_nil. unfold fin in *. cbn in *.
        destruct (decide (off p <= x < off p + sz p));
          destruct (decide (off C <= x < off C + sz C)); intuition lia.
    + destruct (Hnm (fin p)) as (HcN & Hcov & C & G & HCG & HC);
        [lia | destruct l2; [done | rewrite last_end_snoc; lia] |].
      rewrite HCG in *. cbn [next_merge].
      rewrite decide_False by lia.
      split.
      * apply chain_app. rewrite reverse_involutive. split; [done |].
        cbn. split; [done |]. split; [done |]. exact HcN.
      * intros x. rewrite reverse_involutive.
        rewrite !covered_app, !covered_cons in *.
        specialize (Hcov x). rewrite covered_cons in Hcov.
        rewrite covered_nil. tauto.
Qed.


Lemma covered_chain_bounds bound l x :
  chain bound l -> covered l x -> bound < x < last_end bound l.
Proof.
  intros Hc Hx. apply Exists_exists in Hx as (b & Hb & Hx).
  destruct (chain_bounds _ _ _ Hc Hb) as (? & ? & ?). unfold fin in *. lia.
Qed.

(** *** Allocation from the free list *)

Lemma splitFreeBlock_chain bound freeList size i b :
  chain bound freeList ->
  list_find (fun b => size <= sz b) freeList = Some (i, b) ->
  0 < size ->
  exists freeList',
    Heap.splitFreeBlock freeList i size = Some (off b, freeList')
    /\ chain bound freeList'
    /\ bound < off b /\ off b + size <= fin b
    /\ (forall x, covered freeList' x
                 <-> covered freeList x /\ ¬ off b <= x < off b + size)
    /\ (forall x, off b <= x < off b + size -> covered freeList x).
Proof.
  intros Hchain Hfind Hsize.
  apply list_find_Some in Hfind as (Hlook & Hfit & _).
  unfold Heap.splitFreeBlock. rewrite Hlook.
  pose proof (take_drop_middle _ _ _ Hlook) as Hsplit.
  assert (Hi : length (take i freeList) = i).
  { apply length_take_le. apply lookup_lt_Some in Hlook. lia. }
  set (l1 := take i freeList) in *. set (l2 := drop (S i) freeList) in *.
  rewrite <- Hsplit in Hchain |- *. clear Hsplit Hlook.
  apply chain_app in Hchain as [Hc1 Hc2]. cbn in Hc2.
  destruct Hc2 as (Hlo & Hsz & Hc2).
  pose proof (chain_last_end_le _ _ Hc1) as Hle.
  assert (Hcov1 : forall x, covered l1 x -> x < off b).
  { intros x Hx. apply (covered_chain_bounds _ _ _ Hc1) in Hx. lia. }
  assert (Hcov2 : forall x, covered l2 x -> fin b < x).
  { intros x Hx. apply (covered_chain_bounds _ _ _ Hc2) in Hx. lia. }
  destruct (decide (0 < sz b - size)) as [Hrem|Hrem].
  - set (b' := {| FreeBlock.offset := off b + size;
                   FreeBlock.size := sz b - size |}).
    assert (Heq : <[i := b']> (l1 ++ b :: l2) = l1 ++ b' :: l2).
    { rewrite <- Hi at 1.
      by rewrite insert_app_r_alt, Nat.sub_diag by lia. }
    exists (l1 ++ b' :: l2). rewrite Heq. split; [done |].
    split_and!.
    + apply chain_app. split; [done |]. cbn. unfold fin in *. cbn.
      split_and!; [lia | lia |].
      replace (off b + size + (sz b - size)) with (off b + sz b) by lia. done.
    + lia.
    + unfold fin. lia.
    + intros x. rewrite !covered_app, !covered_cons. unfold fin in *. cbn.
      specialize (Hcov1 x). specialize (Hcov2 x). split.
      * intros [Hx | [Hx | Hx]];
          [specialize (Hcov1 Hx) | | specialize (Hcov2 Hx)];
          (split; [tauto || (right; left; lia) | lia]).
      * intros [[Hx | [Hx | Hx]] Hn];
          [by left | right; left; lia | by right; right].
    + intros x Hx. rewrite covered_app, covered_cons. unfold fin. right. left. lia.
  - assert (Heq : delete i (l1 ++ b :: l2) = l1 ++ l2).
    { rewrite <- Hi at 1. apply delete_middle. }
    exists (l1 ++ l2). rewrite Heq. split; [done |].
    split_and!.
    + apply chain_app. split; [done |].
      eapply chain_weaken; [| exact Hc2]. unfold fin. lia.
    + lia.
    + unfold fin. lia.
    + intros x. rewrite !covered_app, !covered_cons. unfold fin in *.
      specialize (Hcov1 x). specialize (Hcov2 x). split.
      * intros [Hx | Hx];
          [specialize (Hcov1 Hx) | specialize (Hcov2 Hx)];
          (split; [tauto | lia]).
      * intros [[Hx | [Hx | Hx]] Hn];
          [by left | lia | by right].
    + intros x Hx. rewrite covered_app, covered_cons. unfold fin. right. left. lia.
Qed.

(** *** Outstanding allocations *)

(** The addresses of an allocation. *)
Definition within (a : HeapAlloc.t) (x : Z) : Prop :=
  HeapAlloc.remote a <= x < HeapAlloc.remote a + HeapAlloc.size a.

Definition live_at (live : list HeapAlloc.t) (x : Z) : Prop :=
  Exists (fun a => within a x) live.

Fixpoint disjoint_list (live : list HeapAlloc.t) : Prop :=
  match live with
  | [] => True
  | a :: live' =>
      (forall x, within a x -> ¬ live_at live' x) /\ disjoint_list live'
  end.

Lemma live_at_delete live k x : live_at (delete k live) x -> live_at live x.
Proof.
  unfold live_at. rewrite !Exists_exists. intros (a & Ha & Hx).
  exists a. split; [| done].
  apply list_elem_of_lookup in Ha as [j Hj].
  apply list_elem_of_lookup.
  destruct (decide (j < k)%nat).
  - exists j. by rewrite list_lookup_delete_lt in Hj.
  - exists (S j). by rewrite list_lookup_delete_ge in Hj by lia.
Qed.

Lemma disjoint_list_delete live k a :
  disjoint_list live -> live !! k = Some a ->
  disjoint_list (delete k live)
  /\ (forall x, within a x -> ¬ live_at (delete k live) x).
Proof.
  revert k. induction live as [|b live IH]; intros k Hd Hk; [done |].
  cbn in Hd. destruct Hd as [Hb Hd]. destruct k as [|k]; cbn in *.
  - injection Hk as ->. done.
  - destruct (IH _ Hd Hk) as [IH1 IH2]. split_and!.
    + intros x Hx Hl. apply (Hb x Hx). by eapply live_at_delete.
    + done.
    + intros x Hx Hl. apply Exists_cons in Hl as [Hl | Hl].
      * apply (Hb x Hl). apply Exists_exists. exists a. split; [| done].
        apply list_elem_of_lookup. eauto.
      * by apply (IH2 x).
Qed.


(** *** The invariant of a zone and of a heap *)

(** A zone starting at address [start], with free list [freeList], bump
    offset [bump] and capacity [cap], against the outstanding allocations
    [live]: the free list is a chain of blocks below the bump offset, none
    of which meets an outstanding allocation. *)
Definition zone_inv (start : Z) (freeList : list FreeBlock.t) (bump cap : Z)
    (live : list HeapAlloc.t) : Prop :=
  chain (-1) freeList
  /\ 0 <= bump <= cap
  /\ (forall x, covered freeList x -> x < bump)
  /\ (forall x, covered freeList x -> ¬ live_at live (start + x)).

(** The allocation lies in the used part of the zone. *)
Definition in_zone (start bump : Z) (a : HeapAlloc.t) : Prop :=
  start <= HeapAlloc.remote a
  /\ HeapAlloc.remote a + HeapAlloc.size a <= start + bump.

Definition heap_inv (h : Heap.t) (live : list HeapAlloc.t) : Prop :=
  zone_inv (Heap.base h) (Heap.roFreeList h) (Heap.roOffset h) (Heap.roSize h) live
  /\ zone_inv (Heap.base h + Heap.roSize h) (Heap.rwFreeList h)
       (Heap.rwOffset h) (Heap.rwSize h) live
  /\ Forall (fun a => 0 < HeapAlloc.size a
                     /\ (in_zone (Heap.base h) (Heap.roOffset h) a
                         \/ in_zone (Heap.base h + Heap.roSize h)
                              (Heap.rwOffset h) a)) live
  /\ disjoint_list live.

Lemma covered_nonneg l x : chain (-1) l -> covered l x -> 0 <= x.
Proof. intros Hc Hx. apply (covered_chain_bounds _ _ _ Hc) in Hx. lia. Qed.

Lemma live_at_cons a live x : live_at (a :: live) x <-> within a x \/ live_at live x.
Proof. unfold live_at. apply Exists_cons. Qed.

(** An allocation outside the used part of a zone does not disturb it. *)
Lemma zone_inv_other start freeList bump cap live a :
  zone_inv start freeList bump cap live ->
  (forall x, within a x -> ¬ start <= x < start + bump) ->
  zone_inv start freeList bump cap (a :: live).
Proof.
  intros (Hc & Hb & Hlt & Hl) Ha. split; [done |]. split; [done |].
  split; [done |]. intros x Hx. rewrite live_at_cons. intros [Hw | Hw].
  - apply (Ha _ Hw). pose proof (covered_nonneg _ _ Hc Hx).
    specialize (Hlt _ Hx). lia.
  - by apply (Hl x).
Qed.

Lemma zone_inv_delete start freeList bump cap live k :
  zone_inv start freeList bump cap live ->
  zone_inv start freeList bump cap (delete k live).
Proof.
  intros (Hc & Hb & Hlt & Hl). split; [done |]. split; [done |].
  split; [done |]. intros x Hx Hw. apply (Hl x Hx). by eapply live_at_delete.
Qed.

Lemma zone_inv_split start freeList bump cap live size i b :
  zone_inv start freeList bump cap live ->
  list_find (fun b => size <= sz b) freeList = Some (i, b) ->
  0 < size ->
  let a := {| HeapAlloc.remote := start + off b; HeapAlloc.size := size |} in
  exists freeList',
    Heap.splitFreeBlock freeList i size = Some (off b, freeList')
    /\ zone_inv start freeList' bump cap (a :: live)
    /\ in_zone start bump a
    /\ (forall x, within a x -> ¬ live_at live x).
Proof.
  intros (Hc & Hb & Hlt & Hl) Hfind Hsize a.
  destruct (splitFreeBlock_chain _ _ _ _ _ Hc Hfind Hsize)
    as (freeList' & Hsplit & Hc' & Hlo & Hfit & Hcov & Hin).
  exists freeList'. split; [done |]. split; [| split].
  - split; [done |]. split; [done |]. split.
    + intros x Hx. apply Hcov in Hx as [Hx _]. by apply Hlt.
    + intros x Hx. apply Hcov in Hx as [Hx Hn]. rewrite live_at_cons.
      intros [Hw | Hw]; [| by apply (Hl x)].
      subst a. unfold within in Hw. cbn in Hw. lia.
  - unfold in_zone. cbn. split; [lia |].
    assert (Hcovered : covered freeList (off b + size - 1)) by (apply Hin; lia).
    specialize (Hlt _ Hcovered). lia.
  - intros x Hx. subst a. unfold within in Hx. cbn in Hx.
    replace x with (start + (x - start)) by lia. apply Hl, Hin. lia.
Qed.

Lemma zone_inv_bump start freeList bump cap live size :
  zone_inv start freeList bump cap live ->
  0 < size -> bump + size <= cap ->
  let a := {| HeapAlloc.remote := start + bump; HeapAlloc.size := size |} in
  zone_inv start freeList (bump + size) cap (a :: live)
  /\ in_zone start (bump + size) a.
Proof.
  intros (Hc & Hb & Hlt & Hl) Hsize Hcap a. split; [| unfold in_zone; cbn; lia].
  split; [done |]. split; [lia |]. split.
  - intros x Hx. specialize (Hlt _ Hx). lia.
  - intros x Hx. rewrite live_at_cons. intros [Hw | Hw]; [| by apply (Hl x)].
    specialize (Hlt _ Hx). subst a. unfold within in Hw. cbn in Hw. lia.
Qed.

Lemma zone_inv_free start freeList bump cap live k a :
  zone_inv start freeList bump cap live ->
  live !! k = Some a -> in_zone start bump a -> 0 < HeapAlloc.size a ->
  disjoint_list live ->
  zone_inv start
    (Heap.insertAndCoalesce freeList (HeapAlloc.remote a - start)
       (HeapAlloc.size a))
    bump cap (delete k live).
Proof.
  intros (Hc & Hb & Hlt & Hl) Hk [Hlo Hhi] Hsize Hdis.
  assert (Hlive : forall x, within a x -> live_at live x).
  { intros x Hx. apply Exists_exists. exists a. split; [| done].
    apply list_elem_of_lookup. eauto. }
  destruct (insertAndCoalesce_chain (-1) freeList
              (HeapAlloc.remote a - start) (HeapAlloc.size a))
    as [Hc' Hcov]; [done | lia | done | |].
  { intros x Hx Hcx. apply (Hl x Hcx). apply Hlive. unfold within. lia. }
  destruct (disjoint_list_delete _ _ _ Hdis Hk) as [_ Hout].
  split; [done |]. split; [done |]. split.
  - intros x Hx. apply Hcov in Hx as [Hx | Hx]; [by apply Hlt | lia].
  - intros x Hx Hw. apply Hcov in Hx as [Hx | Hx].
    + apply (Hl x Hx). by eapply live_at_delete.
    + apply (Hout (start + x)); [unfold within; lia | done].
Qed.

(** A chain is sorted by offset and no block ends where another starts. *)
Definition coalesced (freeList : list FreeBlock.t) : Prop :=
  StronglySorted (fun b c => off b < off c) freeList
  /\ (forall b c, b ∈ freeList -> c ∈ freeList -> off b + sz b ≠ off c).

Lemma chain_coalesced bound freeList : chain bound freeList -> coalesced freeList.
Proof.
  revert bound. induction freeList as [|b l IH]; intros bound Hc.
  - split; [constructor |]. intros b c Hb. by apply elem_of_nil in Hb.
  - cbn in Hc. destruct Hc as (Hlo & Hsz & Hc).
    destruct (IH _ Hc) as [Hs Hn].
    assert (Hafter : forall c, c ∈ l -> fin b < off c /\ 0 < sz c).
    { intros c Hin. destruct (chain_bounds _ _ _ Hc Hin) as (? & ? & _). done. }
    split.
    + constructor; [done |]. apply Forall_forall. intros c Hin.
      destruct (Hafter c Hin). unfold fin in *. lia.
    + intros c d Hin1 Hin2.
      apply elem_of_cons in Hin1 as [-> | Hin1];
        apply elem_of_cons in Hin2 as [-> | Hin2].
      * lia.
      * destruct (Hafter d Hin2). unfold fin in *. lia.
      * destruct (Hafter c Hin1). unfold fin in *. lia.
      * by apply Hn.
Qed.


(** *** Sequences of operations *)

Lemma heap_inv_make base0 totalSize0 roSize0 rwSize0 romem0 :
  0 <= roSize0 -> 0 <= rwSize0 ->
  heap_inv (Heap.make base0 totalSize0 roSize0 rwSize0 romem0) [].
Proof.
  intros Hro Hrw. unfold heap_inv, zone_inv. cbn.
  split_and!; try (done || lia); try (intros x Hx; by apply covered_nil in Hx).
Qed.

Lemma findFreeBlock_Some freeList size i :
  Heap.findFreeBlock freeList size = Some i ->
  exists b, list_find (fun b => size <= sz b) freeList = Some (i, b).
Proof.
  unfold Heap.findFreeBlock.
  destruct (list_find _ _) as [[j b]|]; [| done]. intros [= <-]. eauto.
Qed.

Lemma heap_inv_allocReadonly h live size a h' :
  heap_inv h live ->
  Heap.allocReadonly size h = (Returned a, h') ->
  heap_inv h' (a :: live).
Proof.
  intros (Hro & Hrw & Hlive & Hdis). unfold Heap.allocReadonly.
  destruct (decide (size <= 0)) as [|Hsize]; [done |].
  destruct (Heap.findFreeBlock (Heap.roFreeList h) size) as [i|] eqn:Hfind.
  - apply findFreeBlock_Some in Hfind as [b Hfind].
    destruct (zone_inv_split _ _ _ _ _ _ _ _ Hro Hfind ltac:(lia))
      as (freeList' & -> & Hro' & Hin & Hout).
    intros [= <- <-]. unfold heap_inv. cbn.
    split; [done |]. split; [| split].
    + apply zone_inv_other; [done |].
      intros x Hx. destruct Hin as [Hlo Hhi]. unfold within in Hx.
      destruct Hro as (_ & ? & _). destruct Hrw as (_ & ? & _). cbn in *. lia.
    + constructor; [cbn; split; [lia | by left] | done].
    + done.
  - destruct (decide (Heap.roSize h < Heap.roOffset h + size)); [done |].
    intros [= <- <-].
    destruct (zone_inv_bump _ _ _ _ _ size Hro ltac:(lia) ltac:(lia))
      as [Hro' Hin].
    unfold heap_inv. cbn.
    split; [done |]. split; [| split].
    + apply zone_inv_other; [done |].
      intros x Hx. unfold within in Hx. cbn in Hx.
      destruct Hro as (_ & ? & _). destruct Hrw as (_ & ? & _). lia.
    + constructor; [cbn; split; [lia | by left] |].
      eapply Forall_impl; [exact Hlive |]. cbn.
      intros b (? & [[? ?] | ?]); (split; [done |]); [left | by right].
      unfold in_zone. lia.
    + split; [| done]. intros x Hx Hl.
      apply Exists_exists in Hl as (b & Hb & Hbx).
      rewrite Forall_forall in Hlive. destruct (Hlive b Hb) as (? & [[? ?] | [? ?]]);
        unfold within in *; cbn in *;
        destruct Hro as (_ & ? & _); lia.
Qed.

Lemma heap_inv_alloc h live size a h' :
  heap_inv h live ->
  Heap.alloc size h = (Returned a, h') ->
  heap_inv h' (a :: live).
Proof.
  intros (Hro & Hrw & Hlive & Hdis). unfold Heap.alloc.
  destruct (decide (size <= 0)) as [|Hsize]; [done |].
  destruct (Heap.findFreeBlock (Heap.rwFreeList h) size) as [i|] eqn:Hfind.
  - apply findFreeBlock_Some in Hfind as [b Hfind].
    destruct (zone_inv_split _ _ _ _ _ _ _ _ Hrw Hfind ltac:(lia))
      as (freeList' & -> & Hrw' & Hin & Hout).
    intros [= <- <-]. unfold heap_inv. cbn.
    split; [| split; [done | split]].
    + apply zone_inv_other; [done |].
      intros x Hx. destruct Hin as [Hlo Hhi]. unfold within in Hx.
      destruct Hro as (_ & ? & _). destruct Hrw as (_ & ? & _). cbn in *. lia.
    + constructor; [cbn; split; [lia | by right] | done].
    + done.
  - destruct (decide (Heap.rwSize h < Heap.rwOffset h + size)); [done |].
    intros [= <- <-].
    destruct (zone_inv_bump _ _ _ _ _ size Hrw ltac:(lia) ltac:(lia))
      as [Hrw' Hin].
    replace (Heap.base h + (Heap.roSize h + Heap.rwOffset h))
      with (Heap.base h + Heap.roSize h + Heap.rwOffset h) by lia.
    unfold heap_inv. cbn.
    split; [| split; [done | split]].
    + apply zone_inv_other; [done |].
      intros x Hx. unfold within in Hx. cbn in Hx.
      destruct Hro as (_ & ? & _). destruct Hrw as (_ & ? & _). lia.
    + constructor; [cbn; split; [lia | by right] |].
      eapply Forall_impl; [exact Hlive |]. cbn.
      intros b (? & [? | [? ?]]); (split; [done |]); [by left | right].
      unfold in_zone. lia.
    + split; [| done]. intros x Hx Hl.
      apply Exists_exists in Hl as (b & Hb & Hbx).
      rewrite Forall_forall in Hlive. destruct (Hlive b Hb) as (? & [[? ?] | [? ?]]);
        unfold within in *; cbn in *;
        destruct Hro as (_ & ? & _); destruct Hrw as (_ & ? & _); lia.
Qed.

Lemma heap_inv_free h live k a :
  heap_inv h live -> live !! k = Some a ->
  heap_inv (snd (Heap.free a h)) (delete k live).
Proof.
  intros (Hro & Hrw & Hlive & Hdis) Hk.
  assert (Ha := Hlive). rewrite Forall_forall in Ha.
  destruct (Ha a) as (Hsize & Hzone); [apply list_elem_of_lookup; eauto |].
  pose proof Hro as (_ & Hrob & _). pose proof Hrw as (_ & Hrwb & _).
  assert (Hlive' : Forall (fun a => 0 < HeapAlloc.size a
                     /\ (in_zone (Heap.base h) (Heap.roOffset h) a
                         \/ in_zone (Heap.base h + Heap.roSize h)
                              (Heap.rwOffset h) a)) (delete k live)).
  { apply Forall_forall. intros b Hb. apply Ha.
    apply list_elem_of_lookup in Hb as [j Hj]. apply list_elem_of_lookup.
    destruct (decide (j < k)%nat).
    - exists j. by rewrite list_lookup_delete_lt in Hj.
    - exists (S j). by rewrite list_lookup_delete_ge in Hj by lia. }
  destruct (disjoint_list_delete _ _ _ Hdis Hk) as [Hdis' _].
  unfold Heap.free.
  destruct (decide (Heap.base h <= HeapAlloc.remote a
                    /\ HeapAlloc.remote a < Heap.base h + Heap.roSize h))
    as [Hin|Hout].
  - assert (Hz : in_zone (Heap.base h) (Heap.roOffset h) a).
    { destruct Hzone as [? | [? ?]]; [done | lia]. }
    cbn. unfold heap_inv. cbn. split; [| split; [| done]].
    + by apply zone_inv_free.
    + by apply zone_inv_delete.
  - assert (Hz : in_zone (Heap.base h + Heap.roSize h) (Heap.rwOffset h) a).
    { destruct Hzone as [[? ?] | ?]; [lia | done]. }
    rewrite decide_True by (destruct Hz; lia).
    cbn. unfold heap_inv. cbn. split; [| split; [| done]].
    + by apply zone_inv_delete.
    + by apply zone_inv_free.
Qed.

Lemma heap_inv_step op h live :
  heap_inv h live -> heap_inv (fst (HeapRun.step op (h, live))) (snd (HeapRun.step op (h, live))).
Proof.
  intros Hinv. destruct op as [size | size | k]; cbn.
  - destruct (Heap.alloc size h) as [[a|e] h'] eqn:Halloc; cbn.
    + by eapply heap_inv_alloc.
    + revert Halloc. unfold Heap.alloc. repeat case_match; congruence.
  - destruct (Heap.allocReadonly size h) as [[a|e] h'] eqn:Halloc; cbn.
    + by eapply heap_inv_allocReadonly.
    + revert Halloc. unfold Heap.allocReadonly. repeat case_match; congruence.
  - destruct (live !! k) as [a|] eqn:Hk; cbn; [| done].
    by apply heap_inv_free.
Qed.

Lemma heap_inv_run ops h live :
  heap_inv h live -> heap_inv (fst (HeapRun.run ops (h, live))) (snd (HeapRun.run ops (h, live))).
Proof.
  revert h live. induction ops as [|op ops IH]; intros h live Hinv; [done |].
  change (HeapRun.run (op :: ops) (h, live)) with (HeapRun.run ops (HeapRun.step op (h, live))).
  pose proof (heap_inv_step op _ _ Hinv) as Hstep.
  destruct (HeapRun.step op (h, live)) as [h1 live1]. by apply IH.
Qed.

End HeapFacts.

(** C8.  Free-list coalescing: for a heap with non-negative zone sizes
    (as [Heap.create] makes them) and every sequence of [alloc],
    [allocReadonly] and [free] operations in which each block freed is an
    outstanding allocation of that heap, the free list of each zone is
    sorted by offset and holds no two entries [(o1, s1)], [(o2, s2)] with
    [o1 + s1 = o2]. *)
Theorem C8_free_list_coalescing :
  forall (base0 totalSize0 roSize0 rwSize0 : Z) (romem0 : nat)
         (ops : list HeapRun.Op),
    0 <= roSize0 -> 0 <= rwSize0 ->
    let h :=
      fst (HeapRun.run ops
             (Heap.make base0 totalSize0 roSize0 rwSize0 romem0, [])) in
    HeapFacts.coalesced (Heap.roFreeList h)
    /\ HeapFacts.coalesced (Heap.rwFreeList h).
Proof.
  intros base0 totalSize0 roSize0 rwSize0 romem0 ops Hro Hrw h.
  pose proof (HeapFacts.heap_inv_run ops _ _
                (HeapFacts.heap_inv_make base0 totalSize0 roSize0 rwSize0
                   romem0 Hro Hrw)) as (Hzro & Hzrw & _).
  destruct Hzro as (Hcro & _). destruct Hzrw as (Hcrw & _).
  split; eapply HeapFacts.chain_coalesced; eassumption.
Qed.


(** ** More on the heap (memory/heap.ts) *)

Module HeapMore.

Import HeapFacts.

(** The operations never touch the geometry of the heap. *)
Definition same_geometry (h h' : Heap.t) : Prop :=
  Heap.base h' = Heap.base h /\ Heap.totalSize h' = Heap.totalSize h
  /\ Heap.roSize h' = Heap.roSize h /\ Heap.rwSize h' = Heap.rwSize h
  /\ Heap.romem h' = Heap.romem h.

Lemma same_geometry_refl h : same_geometry h h.
Proof. by repeat split. Qed.

Lemma same_geometry_trans h1 h2 h3 :
  same_geometry h1 h2 -> same_geometry h2 h3 -> same_geometry h1 h3.
Proof.
  intros (? & ? & ? & ? & ?) (? & ? & ? & ? & ?). repeat split; congruence.
Qed.

Lemma alloc_geometry size h r h' :
  Heap.alloc size h = (r, h') -> same_geometry h h'.
Proof.
  unfold Heap.alloc. repeat case_match; intros [= _ <-]; by repeat split.
Qed.

Lemma allocReadonly_geometry size h r h' :
  Heap.allocReadonly size h = (r, h') -> same_geometry h h'.
Proof.
  unfold Heap.allocReadonly. repeat case_match; intros [= _ <-]; by repeat split.
Qed.

Lemma free_geometry a h : same_geometry h (snd (Heap.free a h)).
Proof. unfold Heap.free. cbn zeta. repeat case_match; by repeat split. Qed.

Lemma step_geometry op h live :
  same_geometry h (fst (HeapRun.step op (h, live))).
Proof.
  destruct op as [size | size | k]; cbn.
  - destruct (Heap.alloc size h) as [[a|e] h'] eqn:E; cbn;
      by eapply alloc_geometry.
  - destruct (Heap.allocReadonly size h) as [[a|e] h'] eqn:E; cbn;
      by eapply allocReadonly_geometry.
  - destruct (live !! k); cbn; [apply free_geometry | apply same_geometry_refl].
Qed.

Lemma run_geometry ops h live :
  same_geometry h (fst (HeapRun.run ops (h, live))).
Proof.
  revert h live. induction ops as [|op ops IH]; intros h live;
    [apply same_geometry_refl |].
  change (HeapRun.run (op :: ops) (h, live))
    with (HeapRun.run ops (HeapRun.step op (h, live))).
  pose proof (step_geometry op h live) as Hs.
  destruct (HeapRun.step op (h, live)) as [h1 live1].
  eapply same_geometry_trans; [exact Hs | apply IH].
Qed.

(** *** Accounting *)

(** The bytes of a free list, as [roAvailable] and [rwAvailable] add them
    up. *)
Definition free_bytes (freeList : list FreeBlock.t) : Z :=
  foldl (fun sum b => sum + FreeBlock.size b) 0 freeList.

Lemma foldl_sizes acc (l : list FreeBlock.t) :
  foldl (fun sum b => sum + FreeBlock.size b) acc l = acc + free_bytes l.
Proof.
  unfold free_bytes. revert acc. induction l as [|b l IH]; intros acc; cbn; [lia |].
  rewrite (IH (acc + sz b)), (IH (0 + sz b)). lia.
Qed.

Lemma free_bytes_cons b l : free_bytes (b :: l) = sz b + free_bytes l.
Proof. unfold free_bytes at 1. cbn. rewrite foldl_sizes. lia. Qed.

Lemma free_bytes_app l1 l2 : free_bytes (l1 ++ l2) = free_bytes l1 + free_bytes l2.
Proof.
  induction l1 as [|b l1 IH]; cbn [app]; [change (free_bytes []) with 0; lia |].
  rewrite !free_bytes_cons, IH. lia.
Qed.

Lemma free_bytes_next_merge b l :
  free_bytes (next_merge b l) = sz b + free_bytes l.
Proof.
  destruct l as [|c l]; cbn [next_merge]; [by rewrite free_bytes_cons |].
  destruct (decide _); rewrite !free_bytes_cons; cbn; lia.
Qed.

(** A freed block adds its size to the free bytes, merged or not. *)
Lemma free_bytes_insertAndCoalesce freeList offset size :
  free_bytes (Heap.insertAndCoalesce freeList offset size)
  = free_bytes freeList + size.
Proof.
  destruct (Forall_scan_prefix freeList offset) as (l1 & l2 & -> & Hl1 & Hl2).
  rewrite insertAndCoalesce_split by done.
  destruct l1 as [|p l1 _] using rev_ind.
  - cbn [reverse rev_append app]. rewrite free_bytes_next_merge. cbn.
    change (free_bytes []) with 0. lia.
  - rewrite reverse_snoc, reverse_involutive.
    rewrite !free_bytes_app, !free_bytes_next_merge, !free_bytes_cons. cbn.
    change (free_bytes []) with 0. lia.
Qed.

(** A block handed out takes its size from the free bytes. *)
Lemma free_bytes_splitFreeBlock freeList size i b offset freeList' :
  list_find (fun b => size <= sz b) freeList = Some (i, b) ->
  Heap.splitFreeBlock freeList i size = Some (offset, freeList') ->
  free_bytes freeList' = free_bytes freeList - size.
Proof.
  intros Hfind. apply list_find_Some in Hfind as (Hlook & Hfit & _).
  unfold Heap.splitFreeBlock. rewrite Hlook.
  pose proof (take_drop_middle _ _ _ Hlook) as Hmid.
  assert (Hlen : length (take i freeList) = i).
  { rewrite length_take. apply lookup_lt_Some in Hlook. lia. }
  revert Hmid Hlen. generalize (take i freeList) (drop (S i) freeList).
  intros l1 l2 <- <-.
  destruct (decide (0 < sz b - size)); intros [= _ <-].
  - rewrite insert_app_r_alt, Nat.sub_diag by lia. cbn.
    rewrite !free_bytes_app, !free_bytes_cons. cbn. lia.
  - rewrite delete_middle.
    rewrite !free_bytes_app, !free_bytes_cons. lia.
Qed.

(** The bytes of the outstanding allocations that start in [lo, hi). *)
Definition live_bytes (lo hi : Z) (live : list HeapAlloc.t) : Z :=
  foldr (fun a sum =>
           if decide (lo <= HeapAlloc.remote a < hi)
           then HeapAlloc.size a + sum else sum) 0 live.

Lemma live_bytes_cons lo hi a live :
  live_bytes lo hi (a :: live)
  = (if decide (lo <= HeapAlloc.remote a < hi) then HeapAlloc.size a else 0)
    + live_bytes lo hi live.
Proof. unfold live_bytes. cbn [foldr]. destruct (decide _); lia. Qed.

Lemma live_bytes_delete lo hi live k a :
  live !! k = Some a ->
  live_bytes lo hi (delete k live)
  = live_bytes lo hi live
    - (if decide (lo <= HeapAlloc.remote a < hi) then HeapAlloc.size a else 0).
Proof.
  revert k. induction live as [|b live IH]; intros k Hk; [done |].
  destruct k as [|k].
  - injection Hk as ->. change (delete 0%nat (a :: live)) with live.
    rewrite live_bytes_cons. lia.
  - change (delete (S k) (b :: live)) with (b :: delete k live).
    rewrite !live_bytes_cons, (IH k Hk). lia.
Qed.

(** Every byte of a zone is accounted for: what is available (the bump
    area and the free list) and what is outstanding add up to the zone. *)
Definition balanced (h : Heap.t) (live : list HeapAlloc.t) : Prop :=
  Heap.roAvailable h
  + live_bytes (Heap.base h) (Heap.base h + Heap.roSize h) live
  = Heap.roSize h
  /\ Heap.rwAvailable h
     + live_bytes (Heap.base h + Heap.roSize h)
         (Heap.base h + Heap.roSize h + Heap.rwSize h) live
     = Heap.rwSize h.

Lemma balanced_make base0 totalSize0 roSize0 rwSize0 romem0 :
  balanced (Heap.make base0 totalSize0 roSize0 rwSize0 romem0) [].
Proof.
  unfold balanced, Heap.roAvailable, Heap.rwAvailable, Heap.roRemaining,
    Heap.rwRemaining, live_bytes, Heap.make.
  cbn [foldl foldr Heap.roSize Heap.rwSize Heap.roOffset Heap.rwOffset
       Heap.roFreeList Heap.rwFreeList Heap.base].
  lia.
Qed.

Ltac unfold_balanced :=
  unfold balanced, Heap.roAvailable, Heap.rwAvailable, Heap.roRemaining,
    Heap.rwRemaining, free_bytes in *.

Lemma balanced_allocReadonly h live size a h' :
  heap_inv h live -> balanced h live ->
  Heap.allocReadonly size h = (Returned a, h') ->
  balanced h' (a :: live).
Proof.
  intros (Hro & Hrw & Hlive & Hdis) Hbal. unfold Heap.allocReadonly.
  destruct (decide (size <= 0)) as [|Hsize]; [done |].
  pose proof Hro as (_ & Hrob & _). pose proof Hrw as (_ & Hrwb & _).
  destruct (Heap.findFreeBlock (Heap.roFreeList h) size) as [i|] eqn:Hfind.
  - apply findFreeBlock_Some in Hfind as [b Hfind].
    destruct (zone_inv_split _ _ _ _ _ _ _ _ Hro Hfind ltac:(lia))
      as (freeList' & Hsplit & _ & Hz & _).
    unfold in_zone in Hz. cbn [HeapAlloc.remote HeapAlloc.size] in Hz.
    destruct Hz as [Hlo Hhi].
    pose proof (free_bytes_splitFreeBlock _ _ _ _ _ _ Hfind Hsplit) as Hbytes.
    rewrite Hsplit. intros [= <- <-].
    unfold_balanced. rewrite !live_bytes_cons.
    cbn [Heap.set_ro Heap.roSize Heap.rwSize Heap.roOffset Heap.rwOffset
         Heap.roFreeList Heap.rwFreeList Heap.base HeapAlloc.remote
         HeapAlloc.size].
    rewrite decide_True by lia. rewrite decide_False by lia. lia.
  - destruct (decide (Heap.roSize h < Heap.roOffset h + size)); [done |].
    intros [= <- <-]. unfold_balanced. rewrite !live_bytes_cons.
    cbn [Heap.set_ro Heap.roSize Heap.rwSize Heap.roOffset Heap.rwOffset
         Heap.roFreeList Heap.rwFreeList Heap.base HeapAlloc.remote
         HeapAlloc.size].
    rewrite decide_True by lia. rewrite decide_False by lia. lia.
Qed.

Lemma balanced_alloc h live size a h' :
  heap_inv h live -> balanced h live ->
  Heap.alloc size h = (Returned a, h') ->
  balanced h' (a :: live).
Proof.
  intros (Hro & Hrw & Hlive & Hdis) Hbal. unfold Heap.alloc.
  destruct (decide (size <= 0)) as [|Hsize]; [done |].
  pose proof Hro as (_ & Hrob & _). pose proof Hrw as (_ & Hrwb & _).
  destruct (Heap.findFreeBlock (Heap.rwFreeList h) size) as [i|] eqn:Hfind.
  - apply findFreeBlock_Some in Hfind as [b Hfind].
    destruct (zone_inv_split _ _ _ _ _ _ _ _ Hrw Hfind ltac:(lia))
      as (freeList' & Hsplit & _ & Hz & _).
    unfold in_zone in Hz. cbn [HeapAlloc.remote HeapAlloc.size] in Hz.
    destruct Hz as [Hlo Hhi].
    pose proof (free_bytes_splitFreeBlock _ _ _ _ _ _ Hfind Hsplit) as Hbytes.
    rewrite Hsplit. intros [= <- <-].
    unfold_balanced. rewrite !live_bytes_cons.
    cbn [Heap.set_rw Heap.roSize Heap.rwSize Heap.roOffset Heap.rwOffset
         Heap.roFreeList Heap.rwFreeList Heap.base HeapAlloc.remote
         HeapAlloc.size].
    rewrite decide_False by lia. rewrite decide_True by lia. lia.
  - destruct (decide (Heap.rwSize h < Heap.rwOffset h + size)); [done |].
    intros [= <- <-]. unfold_balanced. rewrite !live_bytes_cons.
    cbn [Heap.set_rw Heap.roSize Heap.rwSize Heap.roOffset Heap.rwOffset
         Heap.roFreeList Heap.rwFreeList Heap.base HeapAlloc.remote
         HeapAlloc.size].
    rewrite decide_False by lia. rewrite decide_True by lia. lia.
Qed.

Lemma balanced_free h live k a :
  heap_inv h live -> balanced h live -> live !! k = Some a ->
  balanced (snd (Heap.free a h)) (delete k live).
Proof.
  intros (Hro & Hrw & Hlive & Hdis) Hbal Hk.
  rewrite Forall_forall in Hlive.
  destruct (Hlive a) as (Hsize & Hzone); [apply list_elem_of_lookup; eauto |].
  pose proof Hro as (_ & Hrob & _). pose proof Hrw as (_ & Hrwb & _).
  unfold Heap.free. cbn zeta.
  destruct (decide (Heap.base h <= HeapAlloc.remote a
                    /\ HeapAlloc.remote a < Heap.base h + Heap.roSize h))
    as [Hin|Hout].
  - cbn [snd]. unfold_balanced. rewrite !(live_bytes_delete _ _ _ _ _ Hk).
    cbn [Heap.set_ro Heap.roSize Heap.rwSize Heap.roOffset Heap.rwOffset
         Heap.roFreeList Heap.rwFreeList Heap.base].
    rewrite decide_True by lia. rewrite decide_False by lia.
    match goal with
    | |- context [Heap.insertAndCoalesce ?l ?o ?s] =>
        pose proof (free_bytes_insertAndCoalesce l o s) as Hbytes
    end.
    unfold free_bytes in Hbytes. lia.
  - assert (Hz : in_zone (Heap.base h + Heap.roSize h) (Heap.rwOffset h) a).
    { destruct Hzone as [[? ?] | ?]; [lia | done]. }
    destruct Hz as [Hlo Hhi].
    rewrite decide_True by lia.
    cbn [snd]. unfold_balanced. rewrite !(live_bytes_delete _ _ _ _ _ Hk).
    cbn [Heap.set_rw Heap.roSize Heap.rwSize Heap.roOffset Heap.rwOffset
         Heap.roFreeList Heap.rwFreeList Heap.base].
    rewrite decide_False by lia. rewrite decide_True by lia.
    match goal with
    | |- context [Heap.insertAndCoalesce ?l ?o ?s] =>
        pose proof (free_bytes_insertAndCoalesce l o s) as Hbytes
    end.
    unfold free_bytes in Hbytes. lia.
Qed.

(** The invariant of the heap with its accounting. *)
Definition sound (h : Heap.t) (live : list HeapAlloc.t) : Prop :=
  heap_inv h live /\ balanced h live.

Lemma sound_step op h live :
  sound h live ->
  sound (fst (HeapRun.step op (h, live))) (snd (HeapRun.step op (h, live))).
Proof.
  intros [Hinv Hbal]. split; [by apply heap_inv_step |].
  destruct op as [size | size | k]; cbn.
  - destruct (Heap.alloc size h) as [[a|e] h'] eqn:Halloc; cbn.
    + by eapply balanced_alloc.
    + revert Halloc. unfold Heap.alloc. repeat case_match; congruence.
  - destruct (Heap.allocReadonly size h) as [[a|e] h'] eqn:Halloc; cbn.
    + by eapply balanced_allocReadonly.
    + revert Halloc. unfold Heap.allocReadonly. repeat case_match; congruence.
  - destruct (live !! k) as [a|] eqn:Hk; cbn; [| done].
    by apply balanced_free.
Qed.

Lemma sound_run ops h live :
  sound h live ->
  sound (fst (HeapRun.run ops (h, live))) (snd (HeapRun.run ops (h, live))).
Proof.
  revert h live. induction ops as [|op ops IH]; intros h live Hs; [done |].
  change (HeapRun.run (op :: ops) (h, live))
    with (HeapRun.run ops (HeapRun.step op (h, live))).
  pose proof (sound_step op _ _ Hs) as Hstep.
  destruct (HeapRun.step op (h, live)) as [h1 live1]. by apply IH.
Qed.

Lemma sound_make base0 totalSize0 roSize0 rwSize0 romem0 :
  0 <= roSize0 -> 0 <= rwSize0 ->
  sound (Heap.make base0 totalSize0 roSize0 rwSize0 romem0) [].
Proof. intros. split; [by apply heap_inv_make | apply balanced_make]. Qed.

(** *** Reuse of a freed block *)

(** A stretch of offsets that a chain covers lies in one of its blocks. *)
Lemma chain_block_of bound l p q :
  chain bound l -> p < q ->
  (forall x, p <= x < q -> covered l x) ->
  exists b, b ∈ l /\ off b <= p /\ q <= fin b.
Proof.
  revert bound. induction l as [|b l IH]; intros bound Hc Hpq Hcov.
  - destruct (proj1 (covered_nil p)). apply Hcov. lia.
  - cbn in Hc. destruct Hc as (Hlo & Hsz & Hc).
    assert (Hafter : forall x, covered l x -> fin b < x).
    { intros x Hx. apply Exists_exists in Hx as (c & Hin & Hx).
      destruct (chain_bounds _ _ _ Hc Hin) as (? & _). lia. }
    destruct (proj1 (covered_cons b l p)) as [Hp | Hp]; [apply Hcov; lia | |].
    + exists b. split; [by left |]. split; [lia |].
      destruct (decide (q <= fin b)) as [|Hq]; [done |].
      destruct (proj1 (covered_cons b l (fin b))) as [Hx | Hx];
        [apply Hcov; lia | lia |].
      apply Hafter in Hx. lia.
    + destruct (IH (fin b) Hc Hpq) as (c & Hin & ? & ?).
      * intros x Hx. destruct (proj1 (covered_cons b l x)) as [Hb | Hl];
          [by apply Hcov | | done].
        apply Hafter in Hp. lia.
      * exists c. split; [by right | done].
Qed.

(** A chain is sorted by offset. *)
Lemma chain_sorted bound l i j b c :
  chain bound l -> l !! i = Some b -> l !! j = Some c -> (i <= j)%nat ->
  off b <= off c.
Proof.
  revert bound i j. induction l as [|d l IH]; intros bound i j Hc Hi Hj Hij;
    [done |].
  cbn in Hc. destruct Hc as (Hlo & Hsz & Hc).
  destruct i as [|i], j as [|j]; cbn in Hi, Hj.
  - injection Hi as ->. injection Hj as ->. lia.
  - injection Hi as ->.
    destruct (chain_bounds _ _ _ Hc (list_elem_of_lookup_2 _ _ _ Hj))
      as (? & _).
    unfold fin in *. lia.
  - lia.
  - eapply (IH _ i j); [done.. | lia].
Qed.

(** After a block of a zone is freed, a request of at most its size is
    served from the free list, at or below the block. *)
Lemma zone_reuse start freeList bump cap live k a size :
  zone_inv start freeList bump cap live ->
  live !! k = Some a -> in_zone start bump a -> 0 < HeapAlloc.size a ->
  0 < size <= HeapAlloc.size a ->
  let freeList1 :=
    Heap.insertAndCoalesce freeList (HeapAlloc.remote a - start)
      (HeapAlloc.size a) in
  exists i offset freeList2,
    Heap.findFreeBlock freeList1 size = Some i
    /\ Heap.splitFreeBlock freeList1 i size = Some (offset, freeList2)
    /\ 0 <= offset <= HeapAlloc.remote a - start.
Proof.
  intros (Hc & Hb & Hlt & Hl) Hk [Hlo Hhi] Hsize Hreq freeList1.
  assert (Hlive : forall x, within a x -> live_at live x).
  { intros x Hx. apply Exists_exists. exists a. split; [| done].
    apply list_elem_of_lookup. eauto. }
  destruct (insertAndCoalesce_chain (-1) freeList
              (HeapAlloc.remote a - start) (HeapAlloc.size a))
    as [Hc' Hcov]; [done | lia | done | |].
  { intros x Hx Hcx. apply (Hl x Hcx). apply Hlive. unfold within. lia. }
  fold freeList1 in Hc', Hcov.
  destruct (chain_block_of (-1) freeList1 (HeapAlloc.remote a - start)
              (HeapAlloc.remote a - start + HeapAlloc.size a))
    as (blk & Hin & Hblo & Hbhi); [done | lia | |].
  { intros x Hx. apply Hcov. by right. }
  apply list_elem_of_lookup in Hin as [j Hj].
  destruct (list_find (fun b => size <= sz b) freeList1) as [[i b]|] eqn:Hfind.
  - destruct (splitFreeBlock_chain _ _ _ _ _ Hc' Hfind ltac:(lia))
      as (freeList2 & Hsplit & _ & Hblo' & _).
    exists i, (off b), freeList2.
    split; [unfold Heap.findFreeBlock; by rewrite Hfind |].
    split; [done |].
    apply list_find_Some in Hfind as (Hi & _ & Hfirst).
    assert (Hij : (i <= j)%nat).
    { destruct (decide (i <= j)%nat) as [|Hgt]; [done |].
      destruct (Hfirst j blk Hj ltac:(lia)). unfold fin in Hbhi. lia. }
    pose proof (chain_sorted _ _ _ _ _ _ Hc' Hi Hj Hij). lia.
  - apply list_find_None in Hfind. rewrite Forall_forall in Hfind.
    destruct (Hfind blk); [apply list_elem_of_lookup; eauto |].
    unfold fin in Hbhi. lia.
Qed.

(** Blocks of a list of disjoint, non-empty allocations do not overlap. *)
Lemma disjoint_list_apart live i j a b :
  disjoint_list live -> Forall (fun a => 0 < HeapAlloc.size a) live ->
  i ≠ j -> live !! i = Some a -> live !! j = Some b ->
  HeapAlloc.remote a + HeapAlloc.size a <= HeapAlloc.remote b
  \/ HeapAlloc.remote b + HeapAlloc.size b <= HeapAlloc.remote a.
Proof.
  intros Hdis Hpos.
  assert (Hlt : forall live i j a b,
             disjoint_list live -> Forall (fun a => 0 < HeapAlloc.size a) live ->
             (i < j)%nat -> live !! i = Some a -> live !! j = Some b ->
             HeapAlloc.remote a + HeapAlloc.size a <= HeapAlloc.remote b
             \/ HeapAlloc.remote b + HeapAlloc.size b <= HeapAlloc.remote a).
  { clear. induction live as [|c live IH]; intros i j a b Hdis Hpos Hij Hi Hj;
      [done |].
    destruct Hdis as [Hout Hdis]. apply Forall_cons in Hpos as [Hc Hpos].
    destruct j as [|j]; [lia |]. cbn in Hj.
    destruct i as [|i]; cbn in Hi.
    - injection Hi as ->.
      assert (Hb : 0 < HeapAlloc.size b).
      { rewrite Forall_forall in Hpos. apply Hpos.
        apply list_elem_of_lookup. eauto. }
      destruct (decide (HeapAlloc.remote a + HeapAlloc.size a
                        <= HeapAlloc.remote b)) as [|Hn1]; [by left |].
      destruct (decide (HeapAlloc.remote b + HeapAlloc.size b
                        <= HeapAlloc.remote a)) as [|Hn2]; [by right |].
      destruct (Hout (Z.max (HeapAlloc.remote a) (HeapAlloc.remote b))).
      + unfold within. lia.
      + apply Exists_exists. exists b.
        split; [apply list_elem_of_lookup; eauto | unfold within; lia].
    - apply (IH i j); [done.. | lia | done | done]. }
  intros Hne Hi Hj.
  destruct (decide (i < j)%nat) as [|Hge]; [by eapply (Hlt live i j) |].
  destruct (Hlt live j i b a Hdis Hpos ltac:(lia) Hj Hi); [by right | by left].
Qed.

End HeapMore.

(** X4.  Allocations of a heap never overlap: after every sequence of
    [alloc], [allocReadonly] and [free] operations on a fresh heap, each
    outstanding allocation has a positive size and lies inside the
    readonly zone or inside the readwrite zone, and any two of them are
    disjoint. *)
Theorem heap_allocations_apart :
  forall (base0 totalSize0 roSize0 rwSize0 : Z) (romem0 : nat)
         (ops : list HeapRun.Op),
    0 <= roSize0 -> 0 <= rwSize0 ->
    let live :=
      snd (HeapRun.run ops
             (Heap.make base0 totalSize0 roSize0 rwSize0 romem0, [])) in
    (forall a, a ∈ live ->
       0 < HeapAlloc.size a
       /\ (base0 <= HeapAlloc.remote a
           /\ HeapAlloc.remote a + HeapAlloc.size a <= base0 + roSize0
           \/ base0 + roSize0 <= HeapAlloc.remote a
              /\ HeapAlloc.remote a + HeapAlloc.size a
                 <= base0 + roSize0 + rwSize0))
    /\ (forall i j a b,
          i ≠ j -> live !! i = Some a -> live !! j = Some b ->
          HeapAlloc.remote a + HeapAlloc.size a <= HeapAlloc.remote b
          \/ HeapAlloc.remote b + HeapAlloc.size b <= HeapAlloc.remote a).
Proof.
  intros base0 totalSize0 roSize0 rwSize0 romem0 ops Hro Hrw live.
  pose proof (HeapFacts.heap_inv_run ops _ _
                (HeapFacts.heap_inv_make base0 totalSize0 roSize0 rwSize0
                   romem0 Hro Hrw)) as (Hzro & Hzrw & Hlive & Hdis).
  pose proof (HeapMore.run_geometry ops
                (Heap.make base0 totalSize0 roSize0 rwSize0 romem0) [])
    as (Hbase & _ & Hros & Hrws & _).
  cbn [Heap.make Heap.base Heap.roSize Heap.rwSize] in Hbase, Hros, Hrws.
  fold live in Hlive, Hdis. rewrite Hbase, Hros in Hlive.
  destruct Hzro as (_ & Hrob & _). destruct Hzrw as (_ & Hrwb & _).
  rewrite Hros in Hrob. rewrite Hrws in Hrwb.
  split.
  - intros a Ha. rewrite Forall_forall in Hlive.
    destruct (Hlive a Ha) as (Hsize & Hzone). split; [done |].
    unfold HeapFacts.in_zone in Hzone. lia.
  - intros i j a b. apply HeapMore.disjoint_list_apart; [done |].
    eapply Forall_impl; [exact Hlive |]. by intros c [? _].
Qed.

(** X5.  Every byte of a zone is accounted for: after every sequence of
    operations on a fresh heap, what [roAvailable] reports and the sizes of
    the outstanding allocations of the readonly zone add up to [roSize],
    and likewise [rwAvailable] for the readwrite zone. *)
Theorem heap_accounting :
  forall (base0 totalSize0 roSize0 rwSize0 : Z) (romem0 : nat)
         (ops : list HeapRun.Op),
    0 <= roSize0 -> 0 <= rwSize0 ->
    let r := HeapRun.run ops
               (Heap.make base0 totalSize0 roSize0 rwSize0 romem0, []) in
    Heap.roAvailable (fst r)
    + HeapMore.live_bytes base0 (base0 + roSize0) (snd r) = roSize0
    /\ Heap.rwAvailable (fst r)
       + HeapMore.live_bytes (base0 + roSize0) (base0 + roSize0 + rwSize0)
           (snd r)
       = rwSize0.
Proof.
  intros base0 totalSize0 roSize0 rwSize0 romem0 ops Hro Hrw r.
  pose proof (HeapMore.sound_run ops _ _
                (HeapMore.sound_make base0 totalSize0 roSize0 rwSize0
                   romem0 Hro Hrw)) as [_ Hbal].
  pose proof (HeapMore.run_geometry ops
                (Heap.make base0 totalSize0 roSize0 rwSize0 romem0) [])
    as (Hbase & _ & Hros & Hrws & _).
  cbn [Heap.make Heap.base Heap.roSize Heap.rwSize] in Hbase, Hros, Hrws.
  fold r in Hbal, Hbase, Hros, Hrws. unfold HeapMore.balanced in Hbal.
  by rewrite Hbase, Hros, Hrws in Hbal.
Qed.

(** X6.  A freed block is reused: when an outstanding allocation is freed,
    [free] succeeds, and the next request of at most its size in the same
    zone is served from the free list, at or below the freed address (first
    fit), without moving the bump pointer. *)
Theorem heap_reuse_after_free :
  forall (base0 totalSize0 roSize0 rwSize0 : Z) (romem0 : nat)
         (ops : list HeapRun.Op) (k : nat) (a : HeapAlloc.t) (size : Z),
    0 <= roSize0 -> 0 <= rwSize0 ->
    let r := HeapRun.run ops
               (Heap.make base0 totalSize0 roSize0 rwSize0 romem0, []) in
    snd r !! k = Some a ->
    0 < size <= HeapAlloc.size a ->
    fst (Heap.free a (fst r)) = Returned tt
    /\ let h1 := snd (Heap.free a (fst r)) in
       if decide (HeapAlloc.remote a < base0 + roSize0) then
         exists c h2,
           Heap.allocReadonly size h1 = (Returned c, h2)
           /\ HeapAlloc.size c = size
           /\ base0 <= HeapAlloc.remote c <= HeapAlloc.remote a
           /\ Heap.roRemaining h2 = Heap.roRemaining (fst r)
       else
         exists c h2,
           Heap.alloc size h1 = (Returned c, h2)
           /\ HeapAlloc.size c = size
           /\ base0 + roSize0 <= HeapAlloc.remote c <= HeapAlloc.remote a
           /\ Heap.rwRemaining h2 = Heap.rwRemaining (fst r).
Proof.
  intros base0 totalSize0 roSize0 rwSize0 romem0 ops k a size Hro Hrw r Hk Hreq.
  pose proof (HeapFacts.heap_inv_run ops _ _
                (HeapFacts.heap_inv_make base0 totalSize0 roSize0 rwSize0
                   romem0 Hro Hrw)) as (Hzro & Hzrw & Hlive & Hdis).
  pose proof (HeapMore.run_geometry ops
                (Heap.make base0 totalSize0 roSize0 rwSize0 romem0) [])
    as (Hbase & _ & Hros & Hrws & _).
  cbn [Heap.make Heap.base Heap.roSize Heap.rwSize] in Hbase, Hros, Hrws.
  fold r in Hzro, Hzrw, Hlive, Hdis, Hbase, Hros, Hrws.
  destruct (HeapRun.run ops _) as [h live]. subst r. cbn [fst snd] in *.
  subst base0 roSize0 rwSize0.
  rewrite Forall_forall in Hlive.
  destruct (Hlive a) as (Hsize & Hzone); [apply list_elem_of_lookup; eauto |].
  pose proof Hzro as (_ & Hrob & _). pose proof Hzrw as (_ & Hrwb & _).
  unfold Heap.free. cbn zeta.
  destruct (decide (HeapAlloc.remote a < Heap.base h + Heap.roSize h))
    as [Hlow | Hhigh].
  - assert (Hz : HeapFacts.in_zone (Heap.base h) (Heap.roOffset h) a).
    { destruct Hzone as [? | [? ?]]; [done | lia]. }
    pose proof Hz as [Hlo Hhi].
    rewrite decide_True by lia. split; [done |]. cbn [snd].
    destruct (HeapMore.zone_reuse _ _ _ _ _ _ _ size Hzro Hk Hz Hsize Hreq)
      as (i & offset & freeList2 & Hfind & Hsplit & Hoff).
    unfold Heap.allocReadonly. rewrite decide_False by lia.
    cbn [Heap.set_ro Heap.roFreeList]. rewrite Hfind, Hsplit.
    eexists _, _. split; [reflexivity |]. cbn. split; [done |].
    split; [lia | done].
  - assert (Hz : HeapFacts.in_zone (Heap.base h + Heap.roSize h)
                   (Heap.rwOffset h) a).
    { destruct Hzone as [[? ?] | ?]; [lia | done]. }
    pose proof Hz as [Hlo Hhi].
    rewrite decide_False by lia. rewrite decide_True by lia.
    split; [done |]. cbn [snd].
    destruct (HeapMore.zone_reuse _ _ _ _ _ _ _ size Hzrw Hk Hz Hsize Hreq)
      as (i & offset & freeList2 & Hfind & Hsplit & Hoff).
    unfold Heap.alloc. rewrite decide_False by lia.
    cbn [Heap.set_rw Heap.rwFreeList Heap.base Heap.roSize].
    rewrite Hfind, Hsplit.
    eexists _, _. split; [reflexivity |]. cbn. split; [done |].
    split; [lia | done].
Qed.


(** X7.  What [Heap.create] leaves: when it returns, [calloc(1, totalSize)]
    has returned the non-null base of the heap, the zone sizes are not
    negative and add up to [totalSize], both zones are wholly available,
    and the readonly zone is registered last in the registry, with a
    snapshot of [roSize] zero bytes.  When it fails the registry is as it
    was, and with invalid sizes nothing was called. *)
Theorem heap_create_outcome {W : Type} (P : ProxyThread W)
    (totalSize0 : Z) (roSize0 : option Z) (s : NThread.St W)
    (r : Outcome Heap.t) (s' : NThread.St W) :
  Heap.create totalSize0 roSize0 s = (r, s') ->
  let ro := default (totalSize0 `div` 2) roSize0 in
  match r with
  | Returned h =>
      proxy_call (calloc crt)
        [ArgNumber (JsInt 1); ArgNumber (JsInt totalSize0)] (NThread.world s)
      = (Returned (Heap.base h), NThread.world s')
      /\ Heap.base h <> 0
      /\ h = Heap.make (Heap.base h) totalSize0 ro (totalSize0 - ro)
               (length (NThread.regions s))
      /\ 0 <= ro <= totalSize0
      /\ Heap.roAvailable h = ro
      /\ Heap.rwAvailable h = totalSize0 - ro
      /\ NThread.regions s'
         = NThread.regions s
           ++ [{| Romem.remote := Heap.base h;
                  Romem.local := replicate (Z.to_nat ro) x00 |}]
  | Thrown e =>
      NThread.regions s' = NThread.regions s
      /\ (ro < 0 \/ totalSize0 < ro -> s' = s)
  end.
Proof.
  unfold Heap.create. cbn zeta.
  set (ro := default (totalSize0 `div` 2) roSize0).
  destruct (decide (ro < 0 \/ totalSize0 - ro < 0)) as [Hbad | Hok].
  { intros [= <- <-]. done. }
  intros Hb.
  apply bind_inv in Hb as [(base0 & s1 & Hcall & Hb) | (e & Hcall & ->)].
  2: { unfold NThread.in_world in Hcall.
       destruct (proxy_call _ _ _) as [r1 w1]. injection Hcall as _ <-.
       split; [done |]. intros; lia. }
  unfold NThread.in_world in Hcall.
  destruct (proxy_call _ _ (NThread.world s)) as [r1 w1] eqn:Hp.
  injection Hcall as -> <-.
  destruct (decide (base0 = 0)) as [-> | Hnz].
  { injection Hb as <- <-. split; [done |]. intros; lia. }
  unfold bind, get, modify, ret, Romem.registerReadOnlyMemory in Hb.
  cbn in Hb. injection Hb as <- <-. cbn.
  split; [done |]. split; [done |]. split; [done |]. split; [lia |].
  unfold Heap.roAvailable, Heap.rwAvailable, Heap.roRemaining,
    Heap.rwRemaining. cbn. split; [lia |]. split; [lia | done].
Qed.


(** ** The memset-decomposed writer (nthread.ts, romem.ts) *)

(** *** Unfolding the loops *)

Section WriterUnfold.

Context {W : Type} `{ProxyThread W}.

Lemma plain_loop_eq destAddr data i w :
  NThread.plain_loop destAddr data i w =
  match data !! i with
  | None => (Returned (length data), w)
  | Some value =>
      let j := run_end data value (i + 1) in
      (let* addr :=
         NThread.call_memset (destAddr + Z.of_nat i) value (j - i) in
       if decide (addr = 0) then ret i
       else fun w' => NThread.plain_loop destAddr data j w') w
  end.
Proof.
  rewrite NThread.plain_loop_equation_1.
  destruct (inspect (data !! i)) as [[v|] E];
    simp plain_loop; rewrite E; reflexivity.
Qed.

Lemma safe_loop_eq destAddr source last i w :
  NThread.safe_loop destAddr source last i w =
  match source !! skip_end source last i with
  | None => (Returned (length source), w)
  | Some value =>
      let i' := skip_end source last i in
      let j := run_end source value (i' + 1) in
      (let* addr :=
         NThread.call_memset (destAddr + Z.of_nat i') value (j - i') in
       if decide (addr = 0) then ret i'
       else fun w' => NThread.safe_loop destAddr source last j w') w
  end.
Proof.
  rewrite NThread.safe_loop_equation_1.
  destruct (inspect (source !! skip_end source last i)) as [[v|] E];
    simp safe_loop; rewrite E; reflexivity.
Qed.

Lemma writeMemory_nil dest st :
  NThread.writeMemory dest [] st = (Returned 0%nat, st).
Proof. by simp writeMemory. Qed.

Lemma writeMemory_eq dest data st :
  data <> [] ->
  NThread.writeMemory dest data st =
  match Romem.findOverlappingRegion (NThread.regions st) dest
          (Z.of_nat (length data)) with
  | Some (idx, romem) =>
      (let length_ := Z.of_nat (length data) in
       let info := Romem.getOverlapInfo dest length_ romem in
       let writeOffset := Romem.writeOffset info in
       let overlapLen := Romem.overlapLen info in
       let* written1 :=
         (if decide (0 < writeOffset)
          then fun st' => NThread.writeMemory dest (subarray data 0 writeOffset) st'
          else ret 0%nat) in
       let overlapDest := dest + writeOffset in
       let overlapData := subarray data writeOffset (writeOffset + overlapLen) in
       let* snapshot := NThread.snapshot_view idx dest length_ in
       let* written2 :=
         NThread.in_world
           (NThread.writeMemorySafeBuffer overlapDest overlapData snapshot) in
       NThread.update_region idx overlapData overlapDest;;
       let afterOffset := writeOffset + overlapLen in
       let* written3 :=
         (if decide (afterOffset < length_)
          then fun st' =>
            NThread.writeMemory (dest + afterOffset)
              (subarray_from data afterOffset) st'
          else ret 0%nat) in
       ret (written1 + written2 + written3)%nat) st
  | None => NThread.in_world (fun w => NThread.plain_loop dest data 0 w) st
  end.
Proof.
  destruct data as [|b bs]; [done |]. intros _.
  rewrite NThread.writeMemory_equation_2.
  destruct (inspect (Romem.findOverlappingRegion (NThread.regions st) dest
                       (Z.of_nat (length (b :: bs))))) as [[[idx romem]|] E];
    simp writeMemory; rewrite E; reflexivity.
Qed.

End WriterUnfold.

(** *** Runs *)

Lemma scan_while_le {A} (p : A -> bool) l : (scan_while p l <= length l)%nat.
Proof. induction l as [|x l IH]; cbn; [lia |]. destruct (p x); cbn; lia. Qed.

Lemma group_head b data :
  exists n rest, group (b :: data) = (b, S n) :: rest.
Proof.
  revert b. induction data as [|c data IH]; intros b; cbn.
  - eauto.
  - destruct (IH c) as (n & rest & Hg). cbn in Hg. rewrite Hg.
    destruct (decide (c = b)) as [->|]; eauto.
Qed.

(** The first run of a buffer is its longest prefix of bytes equal to the
    first byte; the other runs are those of the rest. *)
Lemma group_scan v rest :
  let k := scan_while (fun b => bool_decide (b = v)) rest in
  group (v :: rest) = (v, S k) :: group (drop k rest).
Proof.
  induction rest as [|b rest IH]; [done |].
  cbn [scan_while]. destruct (bool_decide_reflect (b = v)) as [->|Hne].
  - cbn zeta in IH. cbn [drop].
    change (group (v :: v :: rest))
      with (match group (v :: rest) with
            | (v', n) :: r =>
                if decide (v' = v) then (v', S n) :: r else (v, 1%nat) :: (v', n) :: r
            | [] => [(v, 1%nat)]
            end).
    rewrite IH. by rewrite decide_True.
  - cbn [drop].
    change (group (v :: b :: rest))
      with (match group (b :: rest) with
            | (v', n) :: r =>
                if decide (v' = v) then (v', S n) :: r else (v, 1%nat) :: (v', n) :: r
            | [] => [(v, 1%nat)]
            end).
    destruct (group_head b rest) as (n & r & ->).
    by rewrite decide_False.
Qed.

(** The encoding spells the buffer: its runs, expanded, are the buffer. *)
Definition expand (encoding : list (byte * nat)) : list byte :=
  concat ((fun '(v, n) => replicate n v) <$> encoding).

Lemma expand_group data : expand (group data) = data.
Proof.
  induction data as [|b data IH]; [done |]. cbn.
  destruct (group data) as [|[v n] rest] eqn:Hg.
  - cbn in IH. by subst.
  - destruct (decide (v = b)) as [->|]; unfold expand in *; cbn in *;
      by rewrite IH.
Qed.

(** No run is empty and neighbouring runs have different values: each run
    is maximal. *)
Fixpoint maximal (encoding : list (byte * nat)) : Prop :=
  match encoding with
  | [] => True
  | (v, n) :: rest =>
      (0 < n)%nat
      /\ match rest with (v', _) :: _ => v <> v' | [] => True end
      /\ maximal rest
  end.

Lemma maximal_group data : maximal (group data).
Proof.
  induction data as [|b data IH]; [done |]. cbn.
  destruct (group data) as [|[v n] rest] eqn:Hg.
  - cbn. split_and!; [lia | done..].
  - destruct (decide (v = b)) as [->|Hne].
    + cbn in *. destruct IH as (? & ? & ?). split_and!; [lia | done..].
    + cbn in *. destruct IH as (? & ? & ?). split_and!; [lia | congruence | lia | done..].
Qed.

Section PlainPath.

Context {W : Type} `{ProxyThread W}.

(** The plain loop issues the runs of the rest of the buffer. *)
Lemma plain_loop_runs destAddr data i w :
  NThread.plain_loop destAddr data i w =
  issue_runs destAddr (length data) (with_offsets i (group (drop i data))) w.
Proof.
  remember (length data - i)%nat as n eqn:Hn.
  revert i Hn w. induction n as [n IH] using lt_wf_ind. intros i Hn w.
  rewrite plain_loop_eq.
  destruct (data !! i) as [v|] eqn:Hi.
  - pose proof (lookup_lt_Some _ _ _ Hi) as Hlt.
    rewrite (drop_S _ _ _ Hi), group_scan. cbn zeta.
    set (k := scan_while (fun b => bool_decide (b = v)) (drop (S i) data)).
    assert (Hj : run_end data v (i + 1) = (i + S k)%nat).
    { unfold run_end. replace (i + 1)%nat with (S i) by lia. subst k. lia. }
    rewrite Hj. cbn [with_offsets issue_runs run_offset run_value run_length].
    replace (i + S k - i)%nat with (S k) by lia.
    apply bind_ext. intros addr w1.
    destruct (decide (addr = 0)); [done |].
    rewrite (IH (length data - (i + S k))%nat) by lia.
    rewrite drop_drop. by replace (S i + k)%nat with (i + S k)%nat by lia.
  - apply lookup_ge_None in Hi. by rewrite drop_ge by lia.
Qed.

End PlainPath.

(** *** Slices and copies *)

Lemma subarray_in_range buf b e :
  0 <= b <= e -> e <= Z.of_nat (length buf) ->
  subarray buf b e = take (Z.to_nat (e - b)) (drop (Z.to_nat b) buf).
Proof.
  intros Hb He. unfold subarray, clamp_index.
  destruct (Z.ltb_spec b 0); [lia |]. destruct (Z.ltb_spec e 0); [lia |].
  by rewrite !Z.min_l by lia.
Qed.

Lemma subarray_from_in_range buf b :
  0 <= b <= Z.of_nat (length buf) ->
  subarray_from buf b = drop (Z.to_nat b) buf.
Proof.
  intros Hb. unfold subarray_from. rewrite subarray_in_range by lia.
  apply take_ge. rewrite length_drop. lia.
Qed.

Lemma buffer_copy_in_range source target ts ss len :
  (ss + len <= length source)%nat -> (ts + len <= length target)%nat ->
  buffer_copy source target ts ss (ss + len) =
  take ts target ++ take len (drop ss source) ++ drop (ts + len) target.
Proof.
  intros Hs Ht. unfold buffer_copy.
  replace (ss + len - ss)%nat with len by lia.
  assert (Hl : length (take len (drop ss source)) = len).
  { rewrite length_take, length_drop. lia. }
  rewrite Hl. replace (len `min` (length target - ts))%nat with len by lia.
  by rewrite take_take, Nat.min_id.
Qed.

Lemma buffer_copy_length source target ts ss len :
  (ss + len <= length source)%nat -> (ts + len <= length target)%nat ->
  length (buffer_copy source target ts ss (ss + len)) = length target.
Proof.
  intros Hs Ht. rewrite buffer_copy_in_range by done.
  rewrite !length_app, !length_take, !length_drop. lia.
Qed.

Lemma buffer_copy_lookup source target ts ss len k :
  (ss + len <= length source)%nat -> (ts + len <= length target)%nat ->
  buffer_copy source target ts ss (ss + len) !! k =
  if decide (ts <= k < ts + len)%nat then source !! (ss + (k - ts))%nat
  else target !! k.
Proof.
  intros Hs Ht. rewrite buffer_copy_in_range by done.
  assert (Hl : length (take len (drop ss source)) = len).
  { rewrite length_take, length_drop. lia. }
  destruct (decide (ts <= k < ts + len)%nat) as [Hin|Hout].
  - rewrite lookup_app_r by (rewrite length_take; lia).
    rewrite length_take, Nat.min_l by lia.
    rewrite lookup_app_l by lia.
    rewrite lookup_take_lt by lia. by rewrite lookup_drop.
  - destruct (decide (k < ts)%nat).
    + rewrite lookup_app_l by (rewrite length_take; lia).
      by rewrite lookup_take_lt by lia.
    + rewrite lookup_app_r by (rewrite length_take; lia).
      rewrite length_take, Nat.min_l by lia.
      rewrite lookup_app_r by lia. rewrite Hl, lookup_drop.
      f_equal. lia.
Qed.

(** *** Regions, address by address *)

Abbreviation rlen r := (Z.of_nat (length (Romem.local r))).

(** The address lies in the span of the region. *)
Definition region_covers (r : Romem.ReadOnlyMemory) (x : Z) : Prop :=
  Romem.remote r <= x < Romem.remote r + rlen r.

(** The snapshot byte a region holds for an address. *)
Definition region_byte (r : Romem.ReadOnlyMemory) (x : Z) : option byte :=
  if decide (Romem.remote r <= x)
  then Romem.local r !! Z.to_nat (x - Romem.remote r)
  else None.

(** The byte a write of [data] at [dest] carries for an address. *)
Definition data_byte (dest : Z) (data : list byte) (x : Z) : option byte :=
  if decide (dest <= x) then data !! Z.to_nat (x - dest) else None.

(** The address lies in the range of a write. *)
Definition in_write (dest : Z) (data : list byte) (x : Z) : Prop :=
  dest <= x < dest + Z.of_nat (length data).

(** The shape of a registry: where its regions are and how long, leaving
    out what the snapshots hold. *)
Definition shape_of (regs : list Romem.ReadOnlyMemory) : list (Z * nat) :=
  (fun r => (Romem.remote r, length (Romem.local r))) <$> regs.

Lemma shape_lookup regs regs' i r :
  shape_of regs = shape_of regs' -> regs !! i = Some r ->
  exists r', regs' !! i = Some r'
             /\ Romem.remote r' = Romem.remote r
             /\ length (Romem.local r') = length (Romem.local r).
Proof.
  intros Hs Hi. assert (Hl : shape_of regs !! i = shape_of regs' !! i) by by rewrite Hs.
  unfold shape_of in Hl. rewrite !list_lookup_fmap, Hi in Hl. cbn in Hl.
  destruct (regs' !! i) as [r'|]; [| done]. injection Hl as -> ->. eauto.
Qed.



Lemma data_byte_Some dest data x b :
  data_byte dest data x = Some b -> in_write dest data x.
Proof.
  unfold data_byte, in_write. destruct (decide _); [| done].
  intros Hl. apply lookup_lt_Some in Hl. lia.
Qed.

Lemma data_byte_in dest data x :
  in_write dest data x -> is_Some (data_byte dest data x).
Proof.
  unfold data_byte, in_write. intros Hc.
  rewrite decide_True by lia. apply lookup_lt_is_Some. lia.
Qed.

Lemma overlaps_iff dest len r :
  Romem.overlaps dest len r <->
  Romem.remote r < dest + len /\ dest < Romem.remote r + rlen r.
Proof. done. Qed.

(** [updateSnapshot]: the region takes the bytes of the write where the
    write meets it and keeps the others. *)
Lemma updateSnapshot_spec r source destAddr :
  let r' := Romem.updateSnapshot r source destAddr in
  Romem.remote r' = Romem.remote r
  /\ length (Romem.local r') = length (Romem.local r)
  /\ (forall x, region_byte r' x =
                if decide (in_write destAddr source x /\ region_covers r x)
                then data_byte destAddr source x
                else region_byte r x).
Proof.
  unfold Romem.updateSnapshot. cbn zeta.
  set (rStart := Romem.remote r). set (wEnd := destAddr + _).
  set (rEnd := rStart + _).
  set (oS := if rStart <? destAddr then destAddr else rStart).
  set (oE := if wEnd <? rEnd then wEnd else rEnd).
  assert (HoS : oS = Z.max destAddr rStart).
  { subst oS. destruct (Z.ltb_spec rStart destAddr); lia. }
  assert (HoE : oE = Z.min wEnd rEnd).
  { subst oE. destruct (Z.ltb_spec wEnd rEnd); lia. }
  destruct (Z.leb_spec oE oS) as [Hempty|Hne].
  - split_and!; [done..|]. intros x.
    destruct (decide _) as [[Hw Hc]|]; [| done].
    unfold in_write, region_covers in *. fold rStart in Hc. lia.
  - cbn [Romem.remote Romem.local].
    set (srcOff := Z.to_nat (oS - destAddr)).
    set (dstOff := Z.to_nat (oS - rStart)).
    set (len := Z.to_nat (oE - oS)).
    assert (Hs : (srcOff + len <= length source)%nat) by (subst srcOff len wEnd; lia).
    assert (Ht : (dstOff + len <= length (Romem.local r))%nat)
      by (subst dstOff len rEnd; lia).
    split_and!; [done | by apply buffer_copy_length |].
    intros x. unfold region_byte. cbn [Romem.remote Romem.local]. fold rStart.
    destruct (decide (rStart <= x)) as [Hx|Hx].
    + rewrite buffer_copy_lookup by done.
      destruct (decide (dstOff <= Z.to_nat (x - rStart) < dstOff + len)%nat)
        as [Hin|Hout].
      * rewrite decide_True.
        2: { unfold in_write, region_covers. fold rStart.
             subst dstOff len wEnd rEnd. lia. }
        unfold data_byte. rewrite decide_True by (subst dstOff len; lia).
        f_equal. subst srcOff dstOff. lia.
      * rewrite decide_False; [done |].
        unfold in_write, region_covers. fold rStart.
        subst dstOff len wEnd rEnd. lia.
    + rewrite decide_False; [done |].
      unfold region_covers. fold rStart. lia.
Qed.

(** What [getOverlapInfo] returns for a region the write meets. *)
Lemma getOverlapInfo_facts dest len r :
  0 < len -> Romem.overlaps dest len r ->
  let info := Romem.getOverlapInfo dest len r in
  let wo := Romem.writeOffset info in
  let ol := Romem.overlapLen info in
  0 <= wo < len /\ 0 <= ol /\ wo + ol <= len /\ 0 < wo + ol
  /\ dest + wo = Z.max dest (Romem.remote r)
  /\ dest + wo + ol = Z.min (dest + len) (Romem.remote r + rlen r)
  /\ Romem.snapshot info
     = take (Z.to_nat ol) (drop (Z.to_nat (dest + wo - Romem.remote r))
                             (Romem.local r)).
Proof.
  intros Hlen [Hlo Hhi]. unfold Romem.getOverlapInfo. cbn.
  set (rStart := Romem.remote r) in *.
  set (oS := if rStart <? dest then dest else rStart).
  set (oE := if dest + len <? rStart + rlen r then dest + len else rStart + rlen r).
  assert (HoS : oS = Z.max dest rStart).
  { subst oS. destruct (Z.ltb_spec rStart dest); lia. }
  assert (HoE : oE = Z.min (dest + len) (rStart + rlen r)).
  { subst oE. destruct (Z.ltb_spec (dest + len) (rStart + rlen r)); lia. }
  split_and!; try lia.
  rewrite subarray_in_range by lia.
  f_equal; [lia |]. f_equal. lia.
Qed.



Section WriterSteps.

Context {W : Type} `{ProxyThread W}.

Lemma in_world_Returned {A} (c : M W A) st a st' :
  NThread.in_world c st = (Returned a, st') ->
  c (NThread.world st) = (Returned a, NThread.world st')
  /\ NThread.regions st' = NThread.regions st.
Proof.
  unfold NThread.in_world. destruct (c _) as [r w']. by intros [= -> <-].
Qed.


(** The three spans of a write that meets a region, with the states
    between them. *)
Lemma writeMemory_region_inv dest data st idx romem n st' :
  data <> [] ->
  Romem.findOverlappingRegion (NThread.regions st) dest (Z.of_nat (length data))
  = Some (idx, romem) ->
  NThread.writeMemory dest data st = (Returned n, st') ->
  let info := Romem.getOverlapInfo dest (Z.of_nat (length data)) romem in
  let wo := Z.to_nat (Romem.writeOffset info) in
  let ol := Z.to_nat (Romem.overlapLen info) in
  exists n1 n2 n3 sB romemB wS,
    (if decide (0 < wo)%nat
     then NThread.writeMemory dest (take wo data) st = (Returned n1, sB)
     else n1 = 0%nat /\ sB = st)
    /\ NThread.regions sB !! idx = Some romemB
    /\ NThread.writeMemorySafeBuffer (dest + Z.of_nat wo)
         (take ol (drop wo data))
         (Romem.snapshot
            (Romem.getOverlapInfo dest (Z.of_nat (length data)) romemB))
         (NThread.world sB)
       = (Returned n2, wS)
    /\ (let sU :=
          {| NThread.regions :=
               alter (fun r => Romem.updateSnapshot r (take ol (drop wo data))
                                 (dest + Z.of_nat wo))
                 idx (NThread.regions sB);
             NThread.world := wS |} in
        if decide (wo + ol < length data)%nat
        then NThread.writeMemory (dest + Z.of_nat (wo + ol))
               (drop (wo + ol) data) sU = (Returned n3, st')
        else n3 = 0%nat /\ st' = sU)
    /\ n = (n1 + n2 + n3)%nat.
Proof.
  intros Hne Hfind Hw info wo ol.
  rewrite writeMemory_eq, Hfind in Hw by done. cbn zeta in Hw.
  apply Romem.find_overlaps in Hfind as [Hidx Hov].
  assert (Hlen : 0 < Z.of_nat (length data)).
  { destruct data; [done | cbn; lia]. }
  destruct (getOverlapInfo_facts _ _ _ Hlen Hov)
    as (Hwo & Hol & Hsum & Hpos & _).
  fold info in Hwo, Hol, Hsum, Hpos, Hw.
  rewrite (subarray_in_range data 0) in Hw by lia.
  rewrite (subarray_in_range data (Romem.writeOffset info)) in Hw by lia.
  rewrite subarray_from_in_range in Hw by lia.
  rewrite drop_0, Z.sub_0_r in Hw.
  replace (Romem.writeOffset info + Romem.overlapLen info - Romem.writeOffset info)
    with (Romem.overlapLen info) in Hw by lia.
  fold wo ol in Hw.
  replace (Z.to_nat (Romem.writeOffset info + Romem.overlapLen info))
    with (wo + ol)%nat in Hw by lia.
  replace (Romem.writeOffset info) with (Z.of_nat wo) in Hw by lia.
  replace (Romem.overlapLen info) with (Z.of_nat ol) in Hw by lia.
  apply bind_Returned in Hw as (n1 & sB & Hbefore & Hw).
  apply bind_Returned in Hw as (snap & sB' & Hview & Hw).
  unfold NThread.snapshot_view in Hview.
  apply bind_Returned in Hview as (s0 & s0' & [= <- <-] & Hview).
  destruct (NThread.regions sB !! idx) as [romemB|] eqn:HidxB; [| done].
  injection Hview as <- <-.
  apply bind_Returned in Hw as (n2 & sS & Hsafe & Hw).
  apply in_world_Returned in Hsafe as [Hsafe HregsS].
  apply bind_Returned in Hw as ([] & sU & [= <-] & Hw).
  apply bind_Returned in Hw as (n3 & sA & Hafter & [= <- <-]).
  exists n1, n2, n3, sB, romemB, (NThread.world sS).
  split_and!; [| done | done | | done].
  - destruct (decide (0 < Z.of_nat wo)); destruct (decide (0 < wo)%nat);
      try lia; [done |]. by injection Hbefore as <- <-.
  - cbn zeta. rewrite <- HregsS.
    destruct (decide (Z.of_nat wo + Z.of_nat ol < Z.of_nat (length data)));
      destruct (decide (wo + ol < length data)%nat); try lia.
    + replace (Z.of_nat (wo + ol)) with (Z.of_nat wo + Z.of_nat ol) by lia. done.
    + by injection Hafter as <- <-.
Qed.

End WriterSteps.

Section WriterFrame.

Context {W : Type} `{ProxyThread W}.

Lemma plain_loop_le destAddr data i w n w' :
  (i <= length data)%nat ->
  NThread.plain_loop destAddr data i w = (Returned n, w') ->
  (n <= length data)%nat.
Proof.
  remember (length data - i)%nat as m eqn:Hm.
  revert i Hm w. induction m as [m IH] using lt_wf_ind. intros i Hm w Hi.
  rewrite plain_loop_eq.
  destruct (data !! i) as [v|] eqn:Hl; [| intros [= <- _]; lia].
  apply lookup_lt_Some in Hl. cbn zeta. intros Hb.
  apply bind_Returned in Hb as (addr & w1 & _ & Hb).
  destruct (decide (addr = 0)); [injection Hb as <- _; lia |].
  pose proof (scan_while_le (fun b => bool_decide (b = v)) (drop (i + 1) data)) as Hs.
  rewrite length_drop in Hs.
  eapply (IH (length data - run_end data v (i + 1))%nat); [| done | | exact Hb];
    unfold run_end; lia.
Qed.

Lemma common_prefix_le source last :
  (common_prefix source last <= length source)%nat.
Proof.
  revert last. induction source as [|x source IH]; intros [|y last]; cbn; try lia.
  destruct (bool_decide _); cbn; [specialize (IH last) |]; lia.
Qed.

Lemma skip_end_bounds source last i :
  (i <= length source)%nat ->
  (i <= skip_end source last i <= length source)%nat.
Proof.
  intros Hi. unfold skip_end.
  pose proof (common_prefix_le (drop i source) (drop i last)) as Hc.
  rewrite length_drop in Hc. lia.
Qed.

Lemma run_end_bounds data v j :
  (j <= length data)%nat -> (j <= run_end data v j <= length data)%nat.
Proof.
  intros Hj. unfold run_end.
  pose proof (scan_while_le (fun b => bool_decide (b = v)) (drop j data)) as Hs.
  rewrite length_drop in Hs. lia.
Qed.

Lemma safe_loop_le destAddr source last i w n w' :
  (i <= length source)%nat ->
  NThread.safe_loop destAddr source last i w = (Returned n, w') ->
  (n <= length source)%nat.
Proof.
  remember (length source - i)%nat as m eqn:Hm.
  revert i Hm w. induction m as [m IH] using lt_wf_ind. intros i Hm w Hi.
  rewrite safe_loop_eq.
  destruct (source !! skip_end source last i) as [v|] eqn:Hl;
    [| intros [= <- _]; lia].
  apply lookup_lt_Some in Hl. cbn zeta. intros Hb.
  pose proof (skip_end_bounds source last i Hi) as Hs.
  apply bind_Returned in Hb as (addr & w1 & _ & Hb).
  destruct (decide (addr = 0)); [injection Hb as <- _; lia |].
  pose proof (run_end_bounds source v (skip_end source last i + 1) ltac:(lia)).
  eapply (IH (length source - run_end source v (skip_end source last i + 1))%nat);
    [| done | | exact Hb]; lia.
Qed.

Lemma writeMemorySafeBuffer_le dest source last w n w' :
  NThread.writeMemorySafeBuffer dest source last w = (Returned n, w') ->
  (n <= length source)%nat.
Proof.
  unfold NThread.writeMemorySafeBuffer.
  destruct (decide (length source = 0%nat)); [intros [= <- _]; lia |].
  apply safe_loop_le. lia.
Qed.

(** A write keeps the shape of the registry, reports no more bytes than
    it was given, and changes snapshots only at addresses of its range. *)
Lemma writeMemory_frame dest data st n st' :
  NThread.writeMemory dest data st = (Returned n, st') ->
  shape_of (NThread.regions st') = shape_of (NThread.regions st)
  /\ (n <= length data)%nat
  /\ (forall i r r' x,
        NThread.regions st !! i = Some r ->
        NThread.regions st' !! i = Some r' ->
        ¬ in_write dest data x ->
        region_byte r' x = region_byte r x).
Proof.
  remember (length data) as m eqn:Hm.
  revert dest data Hm st n st'.
  induction m as [m IH] using lt_wf_ind. intros dest data Hm st n st' Hw.
  destruct (decide (data = [])) as [->|Hne].
  { rewrite writeMemory_nil in Hw. injection Hw as <- <-.
    split_and!; [done | lia |]. by intros i r r' x -> [= ->]. }
  destruct (Romem.findOverlappingRegion (NThread.regions st) dest
              (Z.of_nat (length data))) as [[idx romem]|] eqn:Hfind.
  2: { rewrite writeMemory_eq, Hfind in Hw by done.
       apply in_world_Returned in Hw as [Hw Hregs].
       apply plain_loop_le in Hw; [| lia]. rewrite Hregs.
       split_and!; [done | lia |]. by intros i r r' x -> [= ->]. }
  pose proof Hfind as Hfind'.
  apply Romem.find_overlaps in Hfind' as [Hidx Hov].
  assert (Hlen : 0 < Z.of_nat (length data)).
  { destruct data; [done | cbn; lia]. }
  destruct (getOverlapInfo_facts _ _ _ Hlen Hov)
    as (Hwo & Hol & Hsum & Hpos & _).
  destruct (writeMemory_region_inv _ _ _ _ _ _ _ Hne Hfind Hw)
    as (n1 & n2 & n3 & sB & romemB & wS & Hbefore & HidxB & Hsafe & Hafter & ->).
  set (wo := Z.to_nat (Romem.writeOffset
                         (Romem.getOverlapInfo dest (Z.of_nat (length data)) romem)))
    in *.
  set (ol := Z.to_nat (Romem.overlapLen
                         (Romem.getOverlapInfo dest (Z.of_nat (length data)) romem)))
    in *.
  assert (Ewo : Z.of_nat wo
                = Romem.writeOffset
                    (Romem.getOverlapInfo dest (Z.of_nat (length data)) romem))
    by (subst wo; lia).
  assert (Eol : Z.of_nat ol
                = Romem.overlapLen
                    (Romem.getOverlapInfo dest (Z.of_nat (length data)) romem))
    by (subst ol; lia).
  clearbody wo ol.
  (* the part before the region *)
  assert (HB : shape_of (NThread.regions sB) = shape_of (NThread.regions st)
               /\ (n1 <= wo)%nat
               /\ (forall i r r' x,
                     NThread.regions st !! i = Some r ->
                     NThread.regions sB !! i = Some r' ->
                     ¬ in_write dest (take wo data) x ->
                     region_byte r' x = region_byte r x)).
  { destruct (decide (0 < wo)%nat).
    - edestruct (IH (length (take wo data))) as (? & ? & ?);
        [| reflexivity | exact Hbefore |].
      + rewrite length_take. lia.
      + rewrite length_take in *. split_and!; [done | lia | done].
    - destruct Hbefore as [-> ->]. split_and!; [done | lia |].
      by intros i r r' x -> [= ->]. }
  destruct HB as (HshB & Hn1 & HfrB).
  apply writeMemorySafeBuffer_le in Hsafe. rewrite length_take, length_drop in Hsafe.
  (* the snapshot update *)
  set (sU := {| NThread.regions := _; NThread.world := wS |}) in Hafter.
  assert (HU : shape_of (NThread.regions sU) = shape_of (NThread.regions sB)
               /\ (forall i r r' x,
                     NThread.regions sB !! i = Some r ->
                     NThread.regions sU !! i = Some r' ->
                     ¬ in_write (dest + Z.of_nat wo) (take ol (drop wo data)) x ->
                     region_byte r' x = region_byte r x)).
  { subst sU. cbn [NThread.regions]. split.
    - unfold shape_of. apply list_eq. intros i.
      rewrite !list_lookup_fmap. destruct (decide (i = idx)) as [->|].
      + rewrite list_lookup_alter_eq, HidxB. cbn -[Romem.updateSnapshot].
        destruct (updateSnapshot_spec romemB (take ol (drop wo data))
                    (dest + Z.of_nat wo)) as (-> & -> & _). done.
      + by rewrite list_lookup_alter_ne.
    - intros i r r' x Hr Hr' Hx. destruct (decide (i = idx)) as [->|].
      + rewrite list_lookup_alter_eq, Hr in Hr'. injection Hr' as <-.
        destruct (updateSnapshot_spec r (take ol (drop wo data))
                    (dest + Z.of_nat wo)) as (_ & _ & ->).
        rewrite decide_False; [done | tauto].
      + rewrite list_lookup_alter_ne, Hr in Hr' by done. by injection Hr' as <-. }
  destruct HU as (HshU & HfrU).
  (* the part after the region *)
  assert (HA : shape_of (NThread.regions st') = shape_of (NThread.regions sU)
               /\ (n3 <= length data - (wo + ol))%nat
               /\ (forall i r r' x,
                     NThread.regions sU !! i = Some r ->
                     NThread.regions st' !! i = Some r' ->
                     ¬ in_write (dest + Z.of_nat (wo + ol)) (drop (wo + ol) data) x ->
                     region_byte r' x = region_byte r x)).
  { destruct (decide (wo + ol < length data)%nat).
    - edestruct (IH (length (drop (wo + ol) data))) as (? & ? & ?);
        [| reflexivity | exact Hafter |].
      + rewrite length_drop. lia.
      + rewrite length_drop in *. split_and!; [done | lia | done].
    - destruct Hafter as [-> ->]. split_and!; [done | lia |].
      by intros i r r' x -> [= ->]. }
  destruct HA as (HshA & Hn3 & HfrA).
  split_and!.
  - by rewrite HshA, HshU, HshB.
  - lia.
  - intros i r r' x Hr Hr' Hx.
    destruct (shape_lookup _ (NThread.regions sB) i r (eq_sym HshB) Hr)
      as (rB & HrB & _).
    destruct (shape_lookup _ (NThread.regions sU) i rB (eq_sym HshU) HrB)
      as (rU & HrU & _).
    rewrite (HfrA i rU r' x HrU Hr'), (HfrU i rB rU x HrB HrU),
      (HfrB i r rB x Hr HrB); [done | ..];
      unfold in_write in *; rewrite ?length_take, ?length_drop; lia.
Qed.

End WriterFrame.

(** *** What depends on the shape of the registry only *)

Lemma overlaps_shape dest len r r' :
  Romem.remote r' = Romem.remote r ->
  length (Romem.local r') = length (Romem.local r) ->
  Romem.overlaps dest len r -> Romem.overlaps dest len r'.
Proof. unfold Romem.overlaps. intros -> ->. done. Qed.

Lemma find_shape regs regs' dest len idx r :
  shape_of regs' = shape_of regs ->
  Romem.findOverlappingRegion regs dest len = Some (idx, r) ->
  exists r',
    Romem.findOverlappingRegion regs' dest len = Some (idx, r')
    /\ Romem.remote r' = Romem.remote r
    /\ length (Romem.local r') = length (Romem.local r).
Proof.
  intros Hs Hf. unfold Romem.findOverlappingRegion in *.
  apply list_find_Some in Hf as (Hidx & Hov & Hfirst).
  destruct (shape_lookup _ _ _ _ (eq_sym Hs) Hidx) as (r' & Hidx' & Hr & Hl).
  exists r'. split_and!; [| done..].
  apply list_find_Some. split_and!; [done | by eapply overlaps_shape |].
  intros j y Hj Hlt Hoy.
  destruct (shape_lookup _ _ _ _ Hs Hj) as (y0 & Hj0 & Hr0 & Hl0).
  apply (Hfirst j y0 Hj0 Hlt). by eapply overlaps_shape.
Qed.

Lemma find_shape_None regs regs' dest len :
  shape_of regs' = shape_of regs ->
  Romem.findOverlappingRegion regs dest len = None ->
  Romem.findOverlappingRegion regs' dest len = None.
Proof.
  intros Hs Hf.
  destruct (Romem.findOverlappingRegion regs' dest len) as [[idx r']|] eqn:Hf';
    [| done].
  destruct (find_shape _ regs _ _ _ _ (eq_sym Hs) Hf') as (r & Hr & _).
  congruence.
Qed.

Lemma getOverlapInfo_shape dest len r r' :
  Romem.remote r' = Romem.remote r ->
  length (Romem.local r') = length (Romem.local r) ->
  Romem.writeOffset (Romem.getOverlapInfo dest len r')
  = Romem.writeOffset (Romem.getOverlapInfo dest len r)
  /\ Romem.overlapLen (Romem.getOverlapInfo dest len r')
     = Romem.overlapLen (Romem.getOverlapInfo dest len r).
Proof. unfold Romem.getOverlapInfo. cbn. intros -> ->. done. Qed.






Section Rewrite.

Context {W : Type} `{ProxyThread W}.



End Rewrite.

Section Again.

Context {W : Type} `{ProxyThread W}.


End Again.

(** *** The calls a write makes *)

(** The event of [proxy.call(crt.memset, addr, value, runLen)]. *)
Definition memset_event {W} (P : ProxyThread W) (addr : Z) (value : byte)
    (runLen : nat) (r : Outcome Z) : CallEvent :=
  {| called := memset (@crt W P);
     passed := [ArgBigInt addr; ArgNumber (JsInt (byte_value value));
                ArgNumber (JsInt (Z.of_nat runLen))];
     outcome := r |}.

Section Traces.

Context {W : Type} (P : ProxyThread W).

Abbreviation T := (traced P).

(** The events [evs] are memsets of runs, one after the other from [lo]
    on and below [hi], and nothing follows one that returned null. *)
Fixpoint run_events (lo hi : Z) (evs : list CallEvent) : Prop :=
  match evs with
  | [] => True
  | e :: evs' =>
      exists addr value runLen r,
        e = memset_event P addr value runLen r
        /\ lo <= addr /\ (0 < runLen)%nat /\ addr + Z.of_nat runLen <= hi
        /\ (r = Returned 0 -> evs' = [])
        /\ run_events (addr + Z.of_nat runLen) hi evs'
  end.

(** The events are memsets inside [lo, hi). *)
Definition events_within (lo hi : Z) (evs : list CallEvent) : Prop :=
  Forall (fun e => exists addr value runLen r,
            e = memset_event P addr value runLen r
            /\ lo <= addr /\ (0 < runLen)%nat
            /\ addr + Z.of_nat runLen <= hi) evs.

Lemma run_events_within lo hi evs :
  run_events lo hi evs -> events_within lo hi evs.
Proof.
  revert lo. induction evs as [|e evs IH]; intros lo; [constructor |].
  cbn. intros (addr & value & runLen & r & -> & Hlo & Hpos & Hhi & _ & Hrest).
  constructor; [by eauto 10 |].
  apply IH in Hrest. eapply Forall_impl; [exact Hrest |]. cbn.
  intros e (a & v & n & r' & -> & ? & ? & ?). exists a, v, n, r'.
  split_and!; [done | lia | done | done].
Qed.

Lemma events_within_weaken lo hi lo' hi' evs :
  lo' <= lo -> hi <= hi' -> events_within lo hi evs -> events_within lo' hi' evs.
Proof.
  intros Hlo Hhi H. eapply Forall_impl; [exact H |]. cbn.
  intros e (a & v & n & r & -> & ? & ? & ?).
  exists a, v, n, r. split_and!; [done | lia..].
Qed.


Lemma call_memset_traced addr value runLen w log :
  @NThread.call_memset _ T addr value runLen (w, log) =
  let '(r, w') := @NThread.call_memset _ P addr value runLen w in
  (r, (w', log ++ [memset_event P addr value runLen r])).
Proof. done. Qed.

Lemma scan_while_all {A} (p : A -> bool) (l : list A) k x :
  (k < scan_while p l)%nat -> l !! k = Some x -> p x = true.
Proof.
  revert k. induction l as [|y l IH]; intros k; cbn; [lia |].
  destruct (p y) eqn:Hp; [| lia].
  destruct k as [|k]; cbn; [by intros _ [= <-] | intros ? ?; apply (IH k); [lia | done]].
Qed.

(** The memset returned a non-null address. *)
Definition succeeded (e : CallEvent) : Prop :=
  exists a, outcome e = Returned a /\ a <> 0.

Lemma succeeded_null addr value runLen evs :
  ¬ Forall succeeded (memset_event P addr value runLen (Returned 0) :: evs).
Proof. intros Hs. apply Forall_cons in Hs as [(a & [= <-] & Ha) _]. done. Qed.

Lemma succeeded_thrown addr value runLen e evs :
  ¬ Forall succeeded (memset_event P addr value runLen (Thrown e) :: evs).
Proof. intros Hs. apply Forall_cons in Hs as [(a & [=] & _) _]. Qed.

Lemma plain_loop_events destAddr data i w log r w' log' :
  (i <= length data)%nat ->
  @NThread.plain_loop _ T destAddr data i (w, log) = (r, (w', log')) ->
  exists evs,
    log' = log ++ evs
    /\ run_events (destAddr + Z.of_nat i) (destAddr + Z.of_nat (length data)) evs
    /\ (Forall succeeded evs -> r = Returned (length data)).
Proof.
  remember (length data - i)%nat as m eqn:Hm.
  revert i Hm w log. induction m as [m IH] using lt_wf_ind. intros i Hm w log Hi.
  rewrite plain_loop_eq.
  destruct (data !! i) as [v|] eqn:Hl.
  2: { intros [= <- _ <-]. exists []. by rewrite app_nil_r. }
  apply lookup_lt_Some in Hl. cbn zeta.
  pose proof (run_end_bounds data v (i + 1) ltac:(lia)) as Hj.
  unfold bind. rewrite call_memset_traced.
  destruct (NThread.call_memset _ _ _ w) as [[addr|e] w1].
  - destruct (decide (addr = 0)) as [->|Hnz].
    + intros [= _ _ <-]. eexists. split; [done |]. split.
      * cbn.
        exists (destAddr + Z.of_nat i), v, (run_end data v (i + 1) - i)%nat, (Returned 0).
        split_and!; [done | lia | lia | lia | done | done].
      * intros Hs. by apply succeeded_null in Hs.
    + intros Hrest.
      apply (IH (length data - run_end data v (i + 1))%nat) in Hrest
        as (evs & -> & Hevs & Hfull); [| lia | done | lia].
      eexists. split; [by rewrite <- app_assoc |]. split.
      * cbn.
        exists (destAddr + Z.of_nat i), v, (run_end data v (i + 1) - i)%nat,
          (Returned addr).
        split_and!; [done | lia | lia | lia | congruence |].
        replace (destAddr + Z.of_nat i + Z.of_nat (run_end data v (i + 1) - i))
          with (destAddr + Z.of_nat (run_end data v (i + 1))) by lia. done.
      * intros Hs. apply Forall_cons in Hs as [_ Hs]. by apply Hfull.
  - intros [= _ _ <-]. eexists. split; [done |]. split.
    + cbn.
      exists (destAddr + Z.of_nat i), v, (run_end data v (i + 1) - i)%nat, (Thrown e).
      split_and!; [done | lia | lia | lia | done | done].
    + intros Hs. by apply succeeded_thrown in Hs.
Qed.

Lemma safe_loop_events destAddr source last i w log r w' log' :
  (i <= length source)%nat ->
  @NThread.safe_loop _ T destAddr source last i (w, log) = (r, (w', log')) ->
  exists evs,
    log' = log ++ evs
    /\ run_events (destAddr + Z.of_nat i) (destAddr + Z.of_nat (length source)) evs
    /\ (Forall succeeded evs -> r = Returned (length source)).
Proof.
  remember (length source - i)%nat as m eqn:Hm.
  revert i Hm w log. induction m as [m IH] using lt_wf_ind. intros i Hm w log Hi.
  rewrite safe_loop_eq.
  pose proof (skip_end_bounds source last i Hi) as Hs.
  destruct (source !! skip_end source last i) as [v|] eqn:Hl.
  2: { intros [= <- _ <-]. exists []. by rewrite app_nil_r. }
  apply lookup_lt_Some in Hl. cbn zeta.
  set (i' := skip_end source last i) in *.
  pose proof (run_end_bounds source v (i' + 1) ltac:(lia)) as Hj.
  unfold bind. rewrite call_memset_traced.
  destruct (NThread.call_memset _ _ _ w) as [[addr|e] w1].
  - destruct (decide (addr = 0)) as [->|Hnz].
    + intros [= _ _ <-]. eexists. split; [done |]. split.
      * cbn.
        exists (destAddr + Z.of_nat i'), v, (run_end source v (i' + 1) - i')%nat,
          (Returned 0).
        split_and!; [done | lia | lia | lia | done | done].
      * intros Hf. by apply succeeded_null in Hf.
    + intros Hrest.
      apply (IH (length source - run_end source v (i' + 1))%nat) in Hrest
        as (evs & -> & Hevs & Hfull); [| lia | done | lia].
      eexists. split; [by rewrite <- app_assoc |]. split.
      * cbn.
        exists (destAddr + Z.of_nat i'), v, (run_end source v (i' + 1) - i')%nat,
          (Returned addr).
        split_and!; [done | lia | lia | lia | congruence |].
        replace (destAddr + Z.of_nat i' + Z.of_nat (run_end source v (i' + 1) - i'))
          with (destAddr + Z.of_nat (run_end source v (i' + 1))) by lia. done.
      * intros Hf. apply Forall_cons in Hf as [_ Hf]. by apply Hfull.
  - intros [= _ _ <-]. eexists. split; [done |]. split.
    + cbn.
      exists (destAddr + Z.of_nat i'), v, (run_end source v (i' + 1) - i')%nat, (Thrown e).
      split_and!; [done | lia | lia | lia | done | done].
    + intros Hf. by apply succeeded_thrown in Hf.
Qed.

(** The log of the run-length path as the specification words it: the
    events [evs] are one [memset(dest + i, value, runLen)] for each run in
    turn; a null result is the last event and the offset of its run is
    returned; after the last run the length of the buffer is.  A memset
    that threw is the last event too, and its error is the outcome. *)
Fixpoint runs_logged (dest : Z) (total : nat) (runs : list Run)
    (evs : list CallEvent) (r : Outcome nat) : Prop :=
  match runs with
  | [] => evs = [] /\ r = Returned total
  | run :: runs' =>
      exists res evs',
        evs = memset_event P (dest + Z.of_nat (run_offset run)) (run_value run)
                (run_length run) res :: evs'
        /\ match res with
           | Returned addr =>
               if decide (addr = 0)
               then evs' = [] /\ r = Returned (run_offset run)
               else runs_logged dest total runs' evs' r
           | Thrown e => evs' = [] /\ r = Thrown e
           end
  end.

Lemma issue_runs_logged dest total runs w log r w' log' :
  @issue_runs _ T dest total runs (w, log) = (r, (w', log')) ->
  exists evs, log' = log ++ evs /\ runs_logged dest total runs evs r.
Proof.
  revert w log. induction runs as [|run runs IH]; intros w log.
  - intros [= <- _ <-]. exists []. by rewrite app_nil_r.
  - cbn [issue_runs]. unfold bind. rewrite call_memset_traced.
    destruct (NThread.call_memset _ _ _ w) as [[addr|e] w1].
    + destruct (decide (addr = 0)) as [->|Hnz].
      * intros [= <- _ <-]. eexists. split; [done |]. cbn [runs_logged].
        exists (Returned 0), []. split; [done |]. cbv beta iota.
        by rewrite decide_True.
      * intros Hrest. apply IH in Hrest as (evs & -> & Hevs).
        eexists. split; [by rewrite <- app_assoc |]. cbn [runs_logged].
        exists (Returned addr), evs. split; [done |]. cbv beta iota.
        by rewrite decide_False.
    + intros [= <- _ <-]. eexists. split; [done |]. cbn [runs_logged].
      exists (Thrown e), []. done.
Qed.

(** The plain loop, from the start of the buffer, logs its maximal runs. *)
Lemma plain_loop_logged destAddr data w log r w' log' :
  @NThread.plain_loop _ T destAddr data 0 (w, log) = (r, (w', log')) ->
  exists evs,
    log' = log ++ evs
    /\ runs_logged destAddr (length data) (maximal_runs data) evs r.
Proof.
  rewrite plain_loop_runs, drop_0. apply issue_runs_logged.
Qed.

(** The [k]-th event is the memset of the [k]-th run. *)
Lemma runs_logged_events dest total runs evs r :
  runs_logged dest total runs evs r ->
  forall k e,
    evs !! k = Some e ->
    exists run res,
      runs !! k = Some run
      /\ e = memset_event P (dest + Z.of_nat (run_offset run)) (run_value run)
               (run_length run) res.
Proof.
  revert evs. induction runs as [|run runs IH]; intros evs.
  - intros [-> _] k e Hk. by rewrite lookup_nil in Hk.
  - cbn. intros (res & evs' & -> & Hrest) k e Hk.
    destruct k as [|k].
    + injection Hk as <-. by eexists _, _.
    + cbn in Hk. destruct res as [addr|err].
      * destruct (decide (addr = 0)).
        -- destruct Hrest as [-> _]. by destruct k.
        -- cbn. by apply (IH evs').
      * destruct Hrest as [-> _]. by destruct k.
Qed.

(** When every memset returned a non-null address, every run was issued
    and the length of the buffer is returned. *)
Lemma runs_logged_all dest total runs evs r :
  runs_logged dest total runs evs r ->
  Forall succeeded evs ->
  r = Returned total /\ length evs = length runs.
Proof.
  revert evs. induction runs as [|run runs IH]; intros evs.
  - by intros [-> ->] _.
  - cbn. intros (res & evs' & -> & Hrest) Hs.
    apply Forall_cons in Hs as [(a & Ha & Hnz) Hs]. cbn in Ha. subst res.
    rewrite decide_False in Hrest by done.
    destruct (IH _ Hrest Hs) as [-> Hlen]. cbn [length]. by rewrite Hlen.
Qed.

(** A memset that returned null is the last event, and the offset of its
    run is returned. *)
Lemma runs_logged_null dest total runs evs r :
  runs_logged dest total runs evs r ->
  forall k e,
    evs !! k = Some e ->
    outcome e = Returned 0 ->
    exists run,
      runs !! k = Some run
      /\ r = Returned (run_offset run)
      /\ length evs = S k.
Proof.
  revert evs. induction runs as [|run runs IH]; intros evs.
  - intros [-> _] k e Hk. by rewrite lookup_nil in Hk.
  - cbn. intros (res & evs' & -> & Hrest) k e Hk He.
    destruct k as [|k].
    + injection Hk as <-. cbn in He. subst res.
      rewrite decide_True in Hrest by done. destruct Hrest as [-> ->].
      by exists run.
    + cbn in Hk. destruct res as [addr|err].
      * destruct (decide (addr = 0)).
        -- destruct Hrest as [-> _]. by destruct k.
        -- destruct (IH _ Hrest k e Hk He) as (run' & Hrun & -> & Hlen).
           exists run'. cbn. by rewrite Hlen.
      * destruct Hrest as [-> _]. by destruct k.
Qed.

End Traces.

Section WriteTraces.

Context {W : Type} (P : ProxyThread W).

Lemma writeMemorySafeBuffer_events dest source last (wl : W * list CallEvent) r wl' :
  @NThread.writeMemorySafeBuffer _ (traced P) dest source last wl = (r, wl') ->
  exists evs,
    snd wl' = snd wl ++ evs
    /\ run_events P dest (dest + Z.of_nat (length source)) evs
    /\ (Forall succeeded evs -> r = Returned (length source)).
Proof.
  unfold NThread.writeMemorySafeBuffer. destruct wl as [w log], wl' as [w' log'].
  destruct (decide (length source = 0%nat)) as [E|].
  - intros [= <- _ <-]. exists []. rewrite app_nil_r, E. done.
  - intros H. apply safe_loop_events in H as (evs & -> & Hev & Hfull); [| lia].
    exists evs. rewrite Z.add_0_r in Hev. done.
Qed.

(** The log a write leaves, for the sub-writes of a write that meets a
    region. *)
Definition logs_within (m : nat) : Prop :=
  forall dest data st n st',
    (length data < m)%nat ->
    @NThread.writeMemory _ (traced P) dest data st = (Returned n, st') ->
    exists evs,
      snd (NThread.world st') = snd (NThread.world st) ++ evs
      /\ events_within P dest (dest + Z.of_nat (length data)) evs
      /\ (Forall succeeded evs -> n = length data).

Lemma writeMemory_region_events dest data st idx romem n st' :
  logs_within (length data) ->
  data <> [] ->
  Romem.findOverlappingRegion (NThread.regions st) dest (Z.of_nat (length data))
  = Some (idx, romem) ->
  @NThread.writeMemory _ (traced P) dest data st = (Returned n, st') ->
  let info := Romem.getOverlapInfo dest (Z.of_nat (length data)) romem in
  let lo := dest + Romem.writeOffset info in
  let hi := lo + Romem.overlapLen info in
  exists evB evS evA,
    snd (NThread.world st') = snd (NThread.world st) ++ evB ++ evS ++ evA
    /\ events_within P dest lo evB
    /\ run_events P lo hi evS
    /\ events_within P hi (dest + Z.of_nat (length data)) evA
    /\ (Forall succeeded (evB ++ evS ++ evA) -> n = length data).
Proof.
  intros IH Hne Hfind Hw.
  pose proof Hfind as Hfind'.
  apply Romem.find_overlaps in Hfind' as [Hidx Hov].
  assert (Hlen : 0 < Z.of_nat (length data)).
  { destruct data; [done | cbn; lia]. }
  destruct (getOverlapInfo_facts _ _ _ Hlen Hov) as (Hwo & Hol & Hsum & Hpos & _).
  destruct (writeMemory_region_inv _ _ _ _ _ _ _ Hne Hfind Hw)
    as (n1 & n2 & n3 & sB & romemB & wS & Hbefore & HidxB & Hsafe & Hafter & ->).
  set (wo := Z.to_nat (Romem.writeOffset
                         (Romem.getOverlapInfo dest (Z.of_nat (length data)) romem)))
    in *.
  set (ol := Z.to_nat (Romem.overlapLen
                         (Romem.getOverlapInfo dest (Z.of_nat (length data)) romem)))
    in *.
  assert (Ewo : Z.of_nat wo
                = Romem.writeOffset
                    (Romem.getOverlapInfo dest (Z.of_nat (length data)) romem))
    by (subst wo; lia).
  assert (Eol : Z.of_nat ol
                = Romem.overlapLen
                    (Romem.getOverlapInfo dest (Z.of_nat (length data)) romem))
    by (subst ol; lia).
  clearbody wo ol. cbn zeta. rewrite <- Ewo, <- Eol in *.
  assert (HB : exists evB,
             snd (NThread.world sB) = snd (NThread.world st) ++ evB
             /\ events_within P dest (dest + Z.of_nat wo) evB
             /\ (Forall succeeded evB -> n1 = wo)).
  { destruct (decide (0 < wo)%nat).
    - apply IH in Hbefore as (evB & ? & HevB & HfB); [| rewrite length_take; lia].
      exists evB. split; [done |]. rewrite length_take in HevB, HfB.
      replace (wo `min` length data)%nat with wo in HevB, HfB by lia. done.
    - destruct Hbefore as [-> ->]. exists [].
      split; [by rewrite app_nil_r |]. split; [constructor | lia]. }
  destruct HB as (evB & HlogB & HevB & HfB).
  apply writeMemorySafeBuffer_events in Hsafe as (evS & HlogS & HevS & HfS).
  rewrite length_take, length_drop in HevS, HfS.
  replace (ol `min` (length data - wo))%nat with ol in HevS, HfS by lia.
  set (sU := {| NThread.regions := _; NThread.world := wS |}) in Hafter.
  assert (HA : exists evA,
             snd (NThread.world st') = snd wS ++ evA
             /\ events_within P (dest + Z.of_nat wo + Z.of_nat ol)
                  (dest + Z.of_nat (length data)) evA
             /\ (Forall succeeded evA -> n3 = (length data - (wo + ol))%nat)).
  { destruct (decide (wo + ol < length data)%nat).
    - apply IH in Hafter as (evA & ? & HevA & HfA); [| rewrite length_drop; lia].
      exists evA. split; [done |]. rewrite length_drop in HevA, HfA.
      split; [| done].
      eapply events_within_weaken; [| | exact HevA]; lia.
    - destruct Hafter as [-> ->]. exists [].
      split; [by rewrite app_nil_r |]. split; [constructor | lia]. }
  destruct HA as (evA & HlogA & HevA & HfA).
  exists evB, evS, evA. split_and!; [| done..|].
  - rewrite HlogA, HlogS, HlogB. by rewrite <- !app_assoc.
  - rewrite !Forall_app. intros (HsB & HsS & HsA).
    specialize (HfB HsB). specialize (HfS HsS). specialize (HfA HsA).
    injection HfS as ->. lia.
Qed.

Lemma writeMemory_events dest data st n st' :
  @NThread.writeMemory _ (traced P) dest data st = (Returned n, st') ->
  exists evs,
    snd (NThread.world st') = snd (NThread.world st) ++ evs
    /\ events_within P dest (dest + Z.of_nat (length data)) evs
    /\ (Forall succeeded evs -> n = length data).
Proof.
  remember (length data) as m eqn:Hm.
  revert dest data Hm st n st'.
  induction m as [m IH] using lt_wf_ind. intros dest data Hm st n st' Hw.
  destruct (decide (data = [])) as [->|Hne].
  { rewrite writeMemory_nil in Hw. injection Hw as <- <-.
    exists []. split; [by rewrite app_nil_r |]. split; [constructor | by subst m]. }
  destruct (Romem.findOverlappingRegion (NThread.regions st) dest
              (Z.of_nat (length data))) as [[idx romem]|] eqn:Hfind.
  - pose proof Hfind as Hfind'.
    apply Romem.find_overlaps in Hfind' as [Hidx Hov].
    assert (Hlen : 0 < Z.of_nat (length data)).
    { destruct data; [done | cbn; lia]. }
    destruct (getOverlapInfo_facts _ _ _ Hlen Hov) as (Hwo & Hol & Hsum & Hpos & _).
    eapply writeMemory_region_events in Hw
        as (evB & evS & evA & Hlog & HB & HS & HA & Hfull);
      [| | done | exact Hfind].
    2: { intros d' data' s1 k s1' Hlt Hw'.
         eapply (IH (length data')); [lia | done | exact Hw']. }
    exists (evB ++ evS ++ evA). subst m. split; [done |]. split; [| done].
    apply run_events_within in HS.
    apply Forall_app. split; [| apply Forall_app; split].
    + eapply events_within_weaken; [| | exact HB]; lia.
    + eapply events_within_weaken; [| | exact HS]; lia.
    + eapply events_within_weaken; [| | exact HA]; lia.
  - rewrite writeMemory_eq, Hfind in Hw by done.
    apply in_world_Returned in Hw as [Hw Hregs].
    destruct (NThread.world st) as [w log], (NThread.world st') as [w' log'].
    apply plain_loop_events in Hw as (evs & -> & Hev & Hfull); [| lia].
    exists evs. split; [done |]. apply run_events_within in Hev.
    subst m. rewrite Z.add_0_r in Hev. split; [done |].
    intros Hs. specialize (Hfull Hs). by injection Hfull.
Qed.

End WriteTraces.

Section Snapshot.

Context {W : Type} `{ProxyThread W}.


End Snapshot.

(** *** What a write leaves in memory *)

Lemma run_end_all data v j k :
  (j <= k < run_end data v j)%nat -> data !! k = Some v.
Proof.
  unfold run_end. intros Hk.
  assert (Hlt : (k - j < scan_while (fun b => bool_decide (b = v)) (drop j data))%nat)
    by lia.
  pose proof (scan_while_le (fun b => bool_decide (b = v)) (drop j data)) as Hle.
  rewrite length_drop in Hle.
  destruct (data !! k) as [b|] eqn:Hb; [| apply lookup_ge_None in Hb; lia].
  assert (Hd : drop j data !! (k - j)%nat = Some b).
  { rewrite lookup_drop. by replace (j + (k - j))%nat with k by lia. }
  pose proof (scan_while_all _ _ _ _ Hlt Hd) as Hp. cbn in Hp.
  apply bool_decide_eq_true in Hp. by subst.
Qed.

Lemma common_prefix_all source last k :
  (k < common_prefix source last)%nat ->
  exists b, source !! k = Some b /\ last !! k = Some b.
Proof.
  revert last k. induction source as [|x source IH]; intros [|y last] k; cbn;
    try lia.
  destruct (bool_decide (x = y)) eqn:E; [| lia].
  apply bool_decide_eq_true in E. subst y.
  destruct k as [|k]; cbn; [by eauto |]. intros Hk. apply IH. lia.
Qed.

Lemma skip_end_all source last i k :
  (i <= k < skip_end source last i)%nat ->
  exists b, source !! k = Some b /\ last !! k = Some b.
Proof.
  unfold skip_end. intros Hk.
  destruct (common_prefix_all (drop i source) (drop i last) (k - i)%nat ltac:(lia))
    as (b & Hs & Hl).
  rewrite lookup_drop in Hs, Hl.
  replace (i + (k - i))%nat with k in Hs, Hl by lia. eauto.
Qed.

Section Memory.

Context {W : Type} `{ProxyThread W}.

(** The bytes of the target's memory, as a world holds them. *)
Variable mem : W -> Z -> byte.

(** A [memset] that returns a non-null address has filled its range and
    nothing else. *)
Definition memset_writes : Prop :=
  forall addr value runLen w a w',
    NThread.call_memset addr value runLen w = (Returned a, w') ->
    a <> 0 ->
    forall x, mem w' x = if decide (addr <= x < addr + Z.of_nat runLen)
                         then value else mem w x.

(** The memory holds the source on [lo, hi) and is as before elsewhere. *)
Definition written (dest : Z) (data : list byte) (lo hi : Z) (w w' : W) : Prop :=
  forall x,
    (lo <= x < hi -> data_byte dest data x = Some (mem w' x))
    /\ (~ lo <= x < hi -> mem w' x = mem w x).

Hypothesis Hmemset : memset_writes.


Lemma safe_loop_mem destAddr source last i w w' :
  (i <= length source)%nat ->
  (forall k b, (i <= k)%nat -> last !! k = Some b ->
               mem w (destAddr + Z.of_nat k) = b) ->
  NThread.safe_loop destAddr source last i w = (Returned (length source), w') ->
  written destAddr source (destAddr + Z.of_nat i)
    (destAddr + Z.of_nat (length source)) w w'.
Proof.
  remember (length source - i)%nat as m eqn:Hm.
  revert i Hm w. induction m as [m IH] using lt_wf_ind. intros i Hm w Hi Hlast.
  rewrite safe_loop_eq.
  pose proof (skip_end_bounds source last i Hi) as Hs.
  pose proof (skip_end_all source last i) as Hskip.
  assert (Hskipped : forall x,
             destAddr + Z.of_nat i <= x
             < destAddr + Z.of_nat (skip_end source last i) ->
             data_byte destAddr source x = Some (mem w x)).
  { intros x Hx.
    destruct (Hskip (Z.to_nat (x - destAddr)) ltac:(lia)) as (b & Hb & Hl).
    unfold data_byte. rewrite decide_True by lia. rewrite Hb. f_equal.
    rewrite <- (Hlast (Z.to_nat (x - destAddr)) b ltac:(lia) Hl). f_equal. lia. }
  destruct (source !! skip_end source last i) as [v|] eqn:Hl.
  2: { intros [= <-]. apply lookup_ge_None in Hl. intros x.
       split; [intros; apply Hskipped; lia | done]. }
  pose proof Hl as Hlt. apply lookup_lt_Some in Hlt. cbn zeta.
  set (i' := skip_end source last i) in *.
  pose proof (run_end_bounds source v (i' + 1) ltac:(lia)) as Hj.
  unfold bind.
  destruct (NThread.call_memset _ _ _ w) as [[addr|e] w1] eqn:Hcall; [| done].
  destruct (decide (addr = 0)) as [->|Hnz]; [intros [= E _]; lia |].
  intros Hrest.
  pose proof (Hmemset _ _ _ _ _ _ Hcall Hnz) as Hw1.
  apply (IH (length source - run_end source v (i' + 1))%nat) in Hrest;
    [| lia | done | lia |].
  2: { intros k b Hk Hb. rewrite Hw1, decide_False by lia. by apply Hlast; [lia |]. }
  intros x. destruct (Hrest x) as [Hin Hout]. rewrite Hw1 in Hout.
  split.
  - intros Hx.
    destruct (decide (destAddr + Z.of_nat (run_end source v (i' + 1)) <= x))
      as [Hge|Hlo]; [apply Hin; lia |].
    rewrite Hout by lia.
    destruct (decide (destAddr + Z.of_nat i' <= x)) as [Hrun|Hbefore].
    + rewrite decide_True by lia.
      unfold data_byte. rewrite decide_True by lia.
      destruct (decide (Z.to_nat (x - destAddr) = i')) as [->|]; [done |].
      apply (run_end_all source v (i' + 1)). lia.
    + rewrite decide_False by lia. apply Hskipped. lia.
  - intros Hx. rewrite Hout by lia. by rewrite decide_False by lia.
Qed.

Lemma writeMemorySafeBuffer_mem dest source last w w' :
  (forall k b, last !! k = Some b -> mem w (dest + Z.of_nat k) = b) ->
  NThread.writeMemorySafeBuffer dest source last w
  = (Returned (length source), w') ->
  written dest source dest (dest + Z.of_nat (length source)) w w'.
Proof.
  unfold NThread.writeMemorySafeBuffer. intros Hlast.
  destruct (decide (length source = 0%nat)) as [E|].
  - intros [= _ <-]. intros x. split; [lia | done].
  - intros Hw. apply safe_loop_mem in Hw; [| lia | by eauto].
    by rewrite Z.add_0_r in Hw.
Qed.








End Memory.


Section Snapshots.

Context {W : Type} `{ProxyThread W}.


End Snapshots.

(** *** The writer's contract *)

(** C2.  A write of a non-empty buffer whose range meets no registered
    region, told on the log of the calls it makes in the thread: the
    [k]-th call is [memset(dest + i, value, runLen)] for the [k]-th
    maximal run of equal bytes, so the runs are served one call each in
    increasing offset order; when every memset returned a non-null address
    every run was served and the length of the buffer is returned; a
    memset that returned null is the last call, and the offset of its run
    is returned.  The runs are those of the run-length encoding of the
    buffer: expanded they spell the buffer, none is empty and neighbours
    differ in value. *)
Theorem C2_plain_run_length {W : Type} (P : ProxyThread W)
    (regs : list Romem.ReadOnlyMemory) (dest : Z) (data : list byte) (w : W)
    (r : Outcome nat) (st' : NThread.St (W * list CallEvent)) :
  data <> [] ->
  Romem.findOverlappingRegion regs dest (Z.of_nat (length data)) = None ->
  @NThread.writeMemory _ (traced P) dest data
    {| NThread.regions := regs; NThread.world := (w, []) |} = (r, st') ->
  let log := snd (NThread.world st') in
  (forall k e,
     log !! k = Some e ->
     exists run res,
       maximal_runs data !! k = Some run
       /\ e = memset_event P (dest + Z.of_nat (run_offset run)) (run_value run)
                (run_length run) res)
  /\ (Forall succeeded log ->
      r = Returned (length data) /\ length log = length (maximal_runs data))
  /\ (forall k e,
        log !! k = Some e ->
        outcome e = Returned 0 ->
        exists run,
          maximal_runs data !! k = Some run
          /\ r = Returned (run_offset run)
          /\ length log = S k)
  /\ expand (group data) = data
  /\ maximal (group data).
Proof.
  intros Hne Hfind Hw log.
  rewrite writeMemory_eq in Hw by done. cbn [NThread.regions] in Hw.
  rewrite Hfind in Hw. unfold NThread.in_world in Hw.
  cbn [NThread.world NThread.regions] in Hw.
  destruct (NThread.plain_loop dest data 0 (w, [])) as [r1 [w1 log1]] eqn:Hloop.
  injection Hw as <- <-.
  apply plain_loop_logged in Hloop as (evs & Hlog & Hruns).
  cbn in Hlog. subst log1 log. cbn [NThread.world snd].
  split; [exact (runs_logged_events P _ _ _ _ _ Hruns) |].
  split; [exact (runs_logged_all P _ _ _ _ _ Hruns) |].
  split; [exact (runs_logged_null P _ _ _ _ _ Hruns) |].
  split; [apply expand_group | apply maximal_group].
Qed.



Lemma traced_memset_writes {W : Type} (P : ProxyThread W) (mem : W -> Z -> byte) :
  memset_writes (H := P) mem ->
  memset_writes (H := traced P) (fun wl => mem (fst wl)).
Proof.
  intros Hm addr value runLen [w log] a [w' log'] Hcall Ha x.
  rewrite call_memset_traced in Hcall.
  destruct (NThread.call_memset addr value runLen w) as [r w1] eqn:Hc.
  injection Hcall as -> -> _. cbn. by eapply Hm.
Qed.



(** ** The snapshot of a region (memory/romem.ts) *)

(** X17.  [updateSnapshot] copies the part of the source that falls in the
    region: the region keeps its address and its length; a snapshot byte
    at an address of the write that the region covers becomes the byte of
    the source; every other snapshot byte stays (a write that misses the
    region changes nothing). *)
Theorem updateSnapshot_bytes (r : Romem.ReadOnlyMemory) (source : list byte)
    (destAddr : Z) :
  let r' := Romem.updateSnapshot r source destAddr in
  Romem.remote r' = Romem.remote r
  /\ length (Romem.local r') = length (Romem.local r)
  /\ (forall x,
        in_write destAddr source x -> region_covers r x ->
        region_byte r' x = data_byte destAddr source x)
  /\ (forall x,
        ¬ (in_write destAddr source x /\ region_covers r x) ->
        region_byte r' x = region_byte r x).
Proof.
  destruct (updateSnapshot_spec r source destAddr) as (Hrem & Hlen & Hbytes).
  cbn zeta. split; [exact Hrem |]. split; [exact Hlen |]. split.
  - intros x Hx Hc. rewrite Hbytes. by rewrite decide_True.
  - intros x Hx. rewrite Hbytes. by rewrite decide_False.
Qed.

(** X18.  What is recorded is read back: for a write that meets a region,
    [getOverlapInfo] delimits the part of the write inside the region
    (from [max(dest, start)] to [min(dest + length, end)]), and
    after [updateSnapshot] with the source of the write, the snapshot it
    returns is that part of the source. *)
Theorem getOverlapInfo_reads_back (r : Romem.ReadOnlyMemory)
    (source : list byte) (dest : Z) :
  source <> [] ->
  Romem.overlaps dest (Z.of_nat (length source)) r ->
  let len := Z.of_nat (length source) in
  let r' := Romem.updateSnapshot r source dest in
  let info := Romem.getOverlapInfo dest len r' in
  let wo := Romem.writeOffset info in
  let ol := Romem.overlapLen info in
  0 <= wo < len /\ 0 <= ol /\ wo + ol <= len
  /\ dest + wo = Z.max dest (Romem.remote r)
  /\ dest + wo + ol
     = Z.min (dest + len) (Romem.remote r + Z.of_nat (length (Romem.local r)))
  /\ Romem.writeOffset (Romem.getOverlapInfo dest len r) = wo
  /\ Romem.overlapLen (Romem.getOverlapInfo dest len r) = ol
  /\ Romem.snapshot info = subarray source wo (wo + ol).
Proof.
  intros Hne Hov. cbn zeta.
  set (len := Z.of_nat (length source)).
  assert (Hlen : 0 < len) by (subst len; destruct source; [done | cbn; lia]).
  destruct (updateSnapshot_spec r source dest) as (Hrem & Hlen' & Hbytes).
  set (r' := Romem.updateSnapshot r source dest) in *.
  assert (Hov' : Romem.overlaps dest len r').
  { apply overlaps_iff. apply overlaps_iff in Hov. rewrite Hrem, Hlen'. done. }
  destruct (getOverlapInfo_shape dest len r r' Hrem Hlen') as [Hwo' Hol'].
  destruct (getOverlapInfo_facts _ _ _ Hlen Hov')
    as (Hwo & Hol & Hsum & Hpos & Hlo & Hhi & Hsnap).
  rewrite Hrem in Hlo. rewrite Hrem, Hlen' in Hhi.
  set (wo := Romem.writeOffset (Romem.getOverlapInfo dest len r')) in *.
  set (ol := Romem.overlapLen (Romem.getOverlapInfo dest len r')) in *.
  split; [lia |]. split; [lia |]. split; [lia |].
  split; [exact Hlo |]. split; [exact Hhi |].
  split; [by symmetry |]. split; [by symmetry |].
  rewrite subarray_in_range by (fold len; lia).
  replace (wo + ol - wo) with ol by lia.
  rewrite Hsnap. apply list_eq. intros k.
  destruct (decide (k < Z.to_nat ol)%nat) as [Hk | Hk].
  2: { rewrite !lookup_take_ge by lia. done. }
  rewrite !lookup_take_lt, !lookup_drop by lia.
  pose proof (Hbytes (dest + wo + Z.of_nat k)) as Hb.
  rewrite decide_True in Hb.
  2: { unfold in_write, region_covers. fold len. lia. }
  unfold region_byte, data_byte in Hb. rewrite Hrem in Hb.
  rewrite !decide_True in Hb by lia.
  replace (Z.to_nat (dest + wo + Z.of_nat k - Romem.remote r))
    with (Z.to_nat (dest + wo - Romem.remote r) + k)%nat in Hb by lia.
  replace (Z.to_nat (dest + wo + Z.of_nat k - dest))
    with (Z.to_nat wo + k)%nat in Hb by lia.
  rewrite Hrem. exact Hb.
Qed.

(** ** The safe writes (nthread.ts, writeMemorySafe) *)

Lemma byte_value_inj b c : byte_value b = byte_value c -> b = c.
Proof.
  unfold byte_value. intros Hv. apply N2Z.inj in Hv.
  apply (inj Some). by rewrite <- !Byte.of_to_N, Hv.
Qed.

(** Against a buffer full of one byte, the bytes skipped are those equal
    to it. *)
Lemma common_prefix_replicate source b n :
  (length source <= n)%nat ->
  common_prefix source (replicate n b)
  = scan_while (is_fill (JsInt (byte_value b))) source.
Proof.
  revert n. induction source as [|x source IH]; intros n Hn; [by destruct n |].
  destruct n as [|n]; [cbn in Hn; lia |]. cbn in Hn |- *.
  rewrite (IH n) by lia.
  destruct (decide (x = b)) as [->|Hne].
  - by rewrite !bool_decide_eq_true_2.
  - rewrite !bool_decide_eq_false_2; [done | | done].
    intros Hv. by apply byte_value_inj in Hv.
Qed.

Lemma skip_fill_replicate source b i :
  skip_fill source (JsInt (byte_value b)) i
  = skip_end source (replicate (length source) b) i.
Proof.
  unfold skip_fill, skip_end. f_equal.
  rewrite drop_replicate, common_prefix_replicate; [done |].
  rewrite length_drop. lia.
Qed.

Section UniformWrite.

Context {W : Type} `{ProxyThread W}.

Lemma uniform_loop_eq destAddr source fillByte i w :
  NThread.uniform_loop destAddr source fillByte i w =
  match source !! skip_fill source fillByte i with
  | None => (Returned (length source), w)
  | Some value =>
      let i' := skip_fill source fillByte i in
      let j := run_end source value (i' + 1) in
      (let* addr :=
         NThread.call_memset (destAddr + Z.of_nat i') value (j - i') in
       if decide (addr = 0) then ret i'
       else fun w' => NThread.uniform_loop destAddr source fillByte j w') w
  end.
Proof.
  rewrite NThread.uniform_loop_equation_1.
  destruct (inspect (source !! skip_fill source fillByte i)) as [[v|] E];
    simp uniform_loop; rewrite E; reflexivity.
Qed.

Lemma uniform_loop_as_snapshot destAddr source b i w :
  NThread.uniform_loop destAddr source (JsInt (byte_value b)) i w
  = NThread.safe_loop destAddr source (replicate (length source) b) i w.
Proof.
  remember (length source - i)%nat as m eqn:Hm.
  revert i Hm w. induction m as [m IH] using lt_wf_ind. intros i Hm w.
  rewrite uniform_loop_eq, safe_loop_eq, skip_fill_replicate.
  destruct (source !! skip_end _ _ i) as [v|] eqn:Hl; [| done].
  cbn zeta. unfold bind.
  destruct (NThread.call_memset _ _ _ w) as [[addr|e] w1]; [| done].
  destruct (decide (addr = 0)); [done |].
  apply lookup_lt_Some in Hl.
  eapply IH; [| reflexivity].
  unfold run_end, skip_end in *. lia.
Qed.

End UniformWrite.

(** X12.  A fill value stands for a snapshot full of it: [writeMemorySafe]
    with the value of a byte as [lastDest] makes the calls and returns
    the result of [writeMemorySafe] with a buffer of that byte, as long
    as the source, as [lastDest]. *)
Theorem writeMemorySafe_fill_as_snapshot {W : Type} (P : ProxyThread W)
    (dest : Z) (source : list byte) (b : byte) (w : W) :
  NThread.writeMemorySafe dest source
    (NThread.LastFill (JsInt (byte_value b))) w
  = NThread.writeMemorySafe dest source
      (NThread.LastBuffer (replicate (length source) b)) w.
Proof.
  unfold NThread.writeMemorySafe, NThread.writeMemorySafeUniform,
    NThread.writeMemorySafeBuffer.
  destruct (decide (length source = 0%nat)); [done |].
  apply uniform_loop_as_snapshot.
Qed.

(** What [lastDest] says of the memory at [dest]: a snapshot gives its
    bytes; a fill value is the value of each of the [n] bytes. *)
Definition describes {W : Type} (mem : W -> Z -> byte)
    (lastDest : NThread.LastDest) (dest : Z) (n : nat) (w : W) : Prop :=
  match lastDest with
  | NThread.LastBuffer last =>
      forall k b, last !! k = Some b -> mem w (dest + Z.of_nat k) = b
  | NThread.LastFill fillByte =>
      forall k, (k < n)%nat -> is_fill fillByte (mem w (dest + Z.of_nat k)) = true
  end.

(** X13.  Skipping is safe: when [lastDest] describes the memory at [dest],
    a memset that returns a non-null address fills its range and nothing
    else, and [writeMemorySafe] returns the length of the source, then the
    memory holds the source at [dest] and is as before elsewhere. *)
Theorem writeMemorySafe_memory {W : Type} (P : ProxyThread W)
    (mem : W -> Z -> byte) (dest : Z) (source : list byte)
    (lastDest : NThread.LastDest) (w w' : W) :
  memset_writes (H := P) mem ->
  describes mem lastDest dest (length source) w ->
  NThread.writeMemorySafe dest source lastDest w
  = (Returned (length source), w') ->
  written mem dest source dest (dest + Z.of_nat (length source)) w w'.
Proof.
  intros Hmemset Hd. destruct lastDest as [last | fillByte]; cbn in Hd |- *.
  { by apply writeMemorySafeBuffer_mem. }
  destruct (decide (length source = 0%nat)) as [E | Hne].
  { unfold NThread.writeMemorySafeUniform. rewrite decide_True by done.
    intros [= _ <-]. intros x. split; [lia | done]. }
  assert (Hfill : fillByte = JsInt (byte_value (mem w dest))).
  { specialize (Hd 0%nat ltac:(lia)). rewrite Z.add_0_r in Hd.
    destruct fillByte as [z|]; [| done]. cbn in Hd.
    apply bool_decide_eq_true_1 in Hd. by rewrite Hd. }
  unfold NThread.writeMemorySafeUniform. rewrite decide_False by done.
  rewrite Hfill, uniform_loop_as_snapshot. intros Hw.
  apply (writeMemorySafeBuffer_mem mem Hmemset dest source
           (replicate (length source) (mem w dest))).
  - intros k b Hk. apply lookup_replicate in Hk as [-> Hk].
    specialize (Hd k Hk). rewrite Hfill in Hd. cbn in Hd.
    apply bool_decide_eq_true_1 in Hd. by apply byte_value_inj.
  - unfold NThread.writeMemorySafeBuffer. by rewrite decide_False by done.
Qed.

(** ** What a write touches (nthread.ts, writeMemory) *)

(** X8.  A write stays in its range: every in-thread call that
    [writeMemory] makes is a [memset] of a non-empty run inside
    [dest, dest + length); the number it returns is at most the length of
    the buffer, and is the length when no memset returned null. *)
Theorem writeMemory_stays_in_range {W : Type} (P : ProxyThread W)
    (regs : list Romem.ReadOnlyMemory) (dest : Z) (data : list byte) (w : W)
    (n : nat) (st' : NThread.St (W * list CallEvent)) :
  @NThread.writeMemory _ (traced P) dest data
    {| NThread.regions := regs; NThread.world := (w, []) |} = (Returned n, st') ->
  (n <= length data)%nat
  /\ Forall (fun e => exists addr value runLen r,
               e = memset_event P addr value runLen r
               /\ dest <= addr /\ (0 < runLen)%nat
               /\ addr + Z.of_nat runLen <= dest + Z.of_nat (length data))
       (snd (NThread.world st'))
  /\ (Forall succeeded (snd (NThread.world st')) -> n = length data).
Proof.
  intros Hw.
  pose proof (writeMemory_frame _ _ _ _ _ Hw) as (_ & Hle & _).
  destruct (writeMemory_events P _ _ _ _ _ Hw) as (evs & Hlog & Hin & Hfull).
  cbn in Hlog. rewrite Hlog. done.
Qed.



(** X11.  A write from a pointer does not look at the registry.  Told on
    the log of the calls it makes in the thread, for the bytes read from
    the local process: the [k]-th call is [memset(dest + i, value, runLen)]
    for the [k]-th maximal run of equal bytes, also where the run falls in
    a registered region; when every memset returned a non-null address
    every run was served and the length of the buffer is returned; a
    memset that returned null is the last call, and the offset of its run
    is returned.  The registry is left as it is. *)
Theorem writeMemoryWithPointer_runs {W : Type} (P : ProxyThread W)
    (regs : list Romem.ReadOnlyMemory) (dest source size : Z) (w : W)
    (buf : list byte) (w1 : W)
    (r : Outcome nat) (st' : NThread.St (W * list CallEvent)) :
  @memory_read _ P source size w = (Returned buf, w1) ->
  buf <> [] ->
  @NThread.writeMemoryWithPointer _ (traced P) dest source size
    {| NThread.regions := regs; NThread.world := (w, []) |} = (r, st') ->
  let log := snd (NThread.world st') in
  NThread.regions st' = regs
  /\ (forall k e,
        log !! k = Some e ->
        exists run res,
          maximal_runs buf !! k = Some run
          /\ e = memset_event P (dest + Z.of_nat (run_offset run))
                   (run_value run) (run_length run) res)
  /\ (Forall succeeded log ->
      r = Returned (length buf) /\ length log = length (maximal_runs buf))
  /\ (forall k e,
        log !! k = Some e ->
        outcome e = Returned 0 ->
        exists run,
          maximal_runs buf !! k = Some run
          /\ r = Returned (run_offset run)
          /\ length log = S k)
  /\ expand (group buf) = buf
  /\ maximal (group buf).
Proof.
  intros Hread Hne Hw log.
  unfold NThread.writeMemoryWithPointer, bind in Hw.
  unfold NThread.in_world at 1 in Hw. cbn [NThread.world NThread.regions] in Hw.
  assert (Hread' : @memory_read _ (traced P) source size (w, [])
                   = (Returned buf, (w1, []))).
  { cbn. by rewrite Hread. }
  rewrite Hread' in Hw. rewrite decide_False in Hw by (by destruct buf).
  unfold NThread.in_world in Hw. cbn [NThread.world NThread.regions] in Hw.
  destruct (NThread.plain_loop dest buf 0 (w1, [])) as [r1 [w2 log1]] eqn:Hloop.
  injection Hw as <- <-.
  apply plain_loop_logged in Hloop as (evs & Hlog & Hruns).
  cbn in Hlog. subst log1 log. cbn [NThread.world NThread.regions snd].
  split; [done |].
  split; [exact (runs_logged_events P _ _ _ _ _ Hruns) |].
  split; [exact (runs_logged_all P _ _ _ _ _ Hruns) |].
  split; [exact (runs_logged_null P _ _ _ _ _ Hruns) |].
  split; [apply expand_group | apply maximal_group].
Qed.

(** ** The heap-backed allocator (nthread-heap.ts) *)

Module HeapHooks.

Import NThreadHeap.

Section Recorded.

Context {W : Type} `{ProxyThread W}.

(** What the allocations map of the proxy holds for an address; a proxy
    without state has no map. *)
Definition recorded (s : St W) (address : Z) : option AllocRecord :=
  state s ≫= fun ps => allocations ps !! address.

(** [c] leaves the allocations map as it is whenever its outcome
    satisfies [Q]. *)
Definition keeps {A} (Q : Outcome A -> Prop) (c : M (St W) A) : Prop :=
  forall s r s', c s = (r, s') -> Q r -> forall p, recorded s' p = recorded s p.

Definition always {A} : Outcome A -> Prop := fun _ => True.

Lemma keeps_weaken {A} (Q : Outcome A -> Prop) c : keeps always c -> keeps Q c.
Proof. intros Hc s r s' Hr _. by eapply Hc. Qed.

Lemma keeps_ret {A} (Q : Outcome A -> Prop) (a : A) : keeps Q (ret a).
Proof. by intros s r s' [= _ <-]. Qed.

Lemma keeps_throw {A} (Q : Outcome A -> Prop) e : keeps Q (throw e).
Proof. by intros s r s' [= _ <-]. Qed.

Lemma keeps_get Q : keeps Q get.
Proof. by intros s r s' [= _ <-]. Qed.

Lemma keeps_bind {A B} (Q : Outcome B -> Prop) (c : M _ A) (k : A -> M _ B) :
  keeps always c -> (forall a, keeps Q (k a)) -> keeps Q (bind c k).
Proof.
  intros Hc Hk s r s' Hb HQ p.
  apply bind_inv in Hb as [(a & s1 & Hc1 & Hk1) | (e & Hc1 & _)].
  - rewrite (Hk _ _ _ _ Hk1 HQ). by eapply Hc.
  - by eapply Hc.
Qed.

Lemma keeps_try_catch {A} (Q : Outcome A -> Prop) (c h : M _ A) :
  keeps always c -> keeps Q h -> keeps Q (try_catch c h).
Proof.
  intros Hc Hh s r s' Ht HQ p.
  apply try_catch_inv in Ht as [(a & Hc1 & _) | (e & s1 & Hc1 & Hh1)].
  - by eapply Hc.
  - rewrite (Hh _ _ _ Hh1 HQ). by eapply Hc.
Qed.

Lemma keeps_in_process {A} Q (c : M (NThread.St W) A) : keeps Q (in_process c).
Proof.
  intros s r s'. unfold in_process.
  destruct (c (process s)) as [r1 p1]. by intros [= _ <-].
Qed.

Lemma keeps_on_heap {A} Q h (c : M Heap.t A) : keeps Q (on_heap h c).
Proof.
  intros s r s'. unfold on_heap.
  destruct (heaps s !! h) as [obj|]; [| by intros [= _ <-]].
  destruct (c obj) as [r1 obj1]. by intros [= _ <-].
Qed.

Lemma keeps_on_state Q (f : ProxyState -> ProxyState) :
  (forall ps, allocations (f ps) = allocations ps) -> keeps Q (on_state f).
Proof.
  intros Hf s r s' [= _ <-] _ p. unfold recorded. cbn.
  destruct (state s) as [ps|]; cbn; [by rewrite Hf | done].
Qed.

Lemma keeps_getState Q : keeps Q getState.
Proof.
  intros s r s'. unfold getState, bind, get.
  destruct (state s) as [ps|] eqn:Hs; [by intros [= _ <-] |].
  cbn. intros [= _ <-] _ p. unfold recorded. by rewrite Hs.
Qed.

Lemma keeps_new_heap Q totalSize roSize : keeps Q (new_heap totalSize roSize).
Proof.
  apply keeps_bind; [apply keeps_in_process | intros obj].
  apply keeps_bind; [apply keeps_get | intros s0].
  apply keeps_bind; [| intros; apply keeps_ret].
  by intros s r s' [= _ <-].
Qed.

Lemma keeps_tryAlloc Q h size ro : keeps Q (tryAlloc h size ro).
Proof.
  apply keeps_try_catch; [| apply keeps_ret].
  apply keeps_bind; [apply keeps_on_heap | intros; apply keeps_ret].
Qed.

(** The outcome "cannot serve". *)
Definition cannot_serve : Outcome (option Z) -> Prop := fun r => r = Returned None.

Lemma keeps_allocFromFresh h size ro : keeps cannot_serve (allocFromFresh h size ro).
Proof.
  apply keeps_bind; [apply keeps_tryAlloc | intros [a|]; [| apply keeps_ret]].
  intros s r s' Hb Hr. unfold cannot_serve in Hr. subst r.
  apply bind_Returned in Hb as (? & ? & _ & [=]).
Qed.

Lemma keeps_allocFromHeap nt size ro : keeps cannot_serve (allocFromHeap nt size ro).
Proof.
  apply keeps_bind; [apply keeps_getState | intros ps].
  destruct (heap ps) as [h|].
  - apply keeps_bind; [apply keeps_tryAlloc | intros [a|]].
    + intros s r s' Hb Hr. unfold cannot_serve in Hr. subst r.
      apply bind_Returned in Hb as (? & ? & _ & [=]).
    + apply keeps_bind; [apply keeps_on_heap | intros obj].
      destruct (decide _); [apply keeps_ret |]. cbv zeta.
      destruct (decide (_ < size)); [apply keeps_ret |].
      apply keeps_bind; [by apply keeps_on_state | intros _].
      apply keeps_bind; [apply keeps_new_heap | intros h'].
      apply keeps_bind; [by apply keeps_on_state | intros _].
      apply keeps_allocFromFresh.
  - destruct (decide _); [apply keeps_ret |]. cbv zeta.
    apply keeps_bind; [apply keeps_new_heap | intros h'].
    apply keeps_bind; [by apply keeps_on_state | intros _].
    apply keeps_allocFromFresh.
Qed.

End Recorded.

End HeapHooks.

(** When [allocFromHeap] cannot serve a request, [threadAlloc] is the
    base allocator (a CRT [malloc], [calloc] or [realloc] call) run in the
    state [allocFromHeap] left, and the address it returns is not added to
    the allocations map: the map holds for every address what it held
    before the call.  A later [threadFree] of an address that the map
    does not know, or knows as CRT-backed, removes it from the map and
    calls the CRT [free] on it. *)
Lemma threadAlloc_fallback {W : Type} (P : ProxyThread W)
    (nt : NThreadHeap.t) (size : Z) (opts : option NThread.AllocOptions)
    (st st1 : NThreadHeap.St W) (p : Z) (st2 : NThreadHeap.St W) :
  NThread.opt_field NThread.address opts = None ->
  NThreadHeap.allocFromHeap nt size
    (default false (NThread.opt_field NThread.readonly opts)) st
  = (Returned None, st1) ->
  NThreadHeap.threadAlloc nt size opts st = (Returned p, st2) ->
  NThreadHeap.in_process (NThread.threadAlloc size opts) st1 = (Returned p, st2)
  /\ (forall q, HeapHooks.recorded st2 q = HeapHooks.recorded st q)
  /\ (forall st3,
        HeapHooks.recorded st3 p = None
        \/ HeapHooks.recorded st3 p = Some NThreadHeap.Super ->
        NThreadHeap.threadFree p st3 =
        let '(r, w') :=
          proxy_call (free crt) [ArgBigInt p]
            (NThread.world (NThreadHeap.process st3)) in
        (match r with Returned _ => Returned tt | Thrown e => Thrown e end,
         {| NThreadHeap.state :=
              NThreadHeap.delete_allocation p <$> NThreadHeap.state st3;
            NThreadHeap.heaps := NThreadHeap.heaps st3;
            NThreadHeap.process :=
              {| NThread.regions := NThread.regions (NThreadHeap.process st3);
                 NThread.world := w' |} |})).
Proof.
  intros Haddr Hheap Halloc.
  unfold NThreadHeap.threadAlloc in Halloc. rewrite Haddr in Halloc.
  rewrite (bind_run _ _ _ _ _ Hheap) in Halloc.
  split; [done |]. split.
  - intros q.
    rewrite <- (HeapHooks.keeps_allocFromHeap _ _ _ _ _ _ Hheap eq_refl q).
    by eapply (HeapHooks.keeps_in_process HeapHooks.always).
  - intros st3 Hrec. unfold NThreadHeap.threadFree, bind, get.
    unfold HeapHooks.recorded in Hrec. cbn.
    assert (Hentry : (NThreadHeap.state st3
                        ≫= fun ps => NThreadHeap.allocations ps !! p) = None
                     \/ (NThreadHeap.state st3
                           ≫= fun ps => NThreadHeap.allocations ps !! p)
                        = Some NThreadHeap.Super) by exact Hrec.
    assert (Hbase : forall s,
               NThreadHeap.in_process (NThread.threadFree p) s =
               let '(r, w') :=
                 proxy_call (free crt) [ArgBigInt p]
                   (NThread.world (NThreadHeap.process s)) in
               (match r with Returned _ => Returned tt | Thrown e => Thrown e end,
                {| NThreadHeap.state := NThreadHeap.state s;
                   NThreadHeap.heaps := NThreadHeap.heaps s;
                   NThreadHeap.process :=
                     {| NThread.regions := NThread.regions (NThreadHeap.process s);
                        NThread.world := w' |} |})).
    { intros s. unfold NThreadHeap.in_process, NThread.threadFree, bind,
        NThread.in_world, ret.
      by destruct (proxy_call _ _ _) as [[a|e] w']. }
    destruct Hentry as [-> | ->]; by rewrite Hbase.
Qed.


(** ** The blocks of the heap-backed allocator (nthread-heap.ts) *)

Module HeapPool.

Import NThreadHeap HeapHooks HeapFacts.

Section Pool.

Context {W : Type} `{ProxyThread W}.

(** The allocation [a] of the heap object [h] is in use: it is recorded
    under its address, or it is one of [pending], the blocks a hook holds
    while it runs. *)
Definition backed (pending : list (HeapAlloc.t * nat)) (s : St W)
    (a : HeapAlloc.t) (h : nat) : Prop :=
  recorded s (HeapAlloc.remote a) = Some (HeapBacked a h) \/ (a, h) ∈ pending.

(** The state of the hooks is well formed: a heap-backed record sits under
    the address of its block; the heap object it names exists; and the
    blocks in use of each heap object are outstanding allocations of a
    heap in good order. *)
Record wf (pending : list (HeapAlloc.t * nat)) (s : St W) : Prop := {
  wf_key : forall p a h,
    recorded s p = Some (HeapBacked a h) -> HeapAlloc.remote a = p;
  wf_heap : forall a h, backed pending s a h -> is_Some (heaps s !! h);
  wf_live : forall h obj,
    heaps s !! h = Some obj ->
    exists live,
      heap_inv obj live /\ forall a, backed pending s a h -> a ∈ live
}.

(** A proxy that has not allocated yet. *)
Lemma wf_fresh p :
  wf [] {| state := None; heaps := []; process := p |}.
Proof.
  split.
  - intros q a h. unfold recorded. cbn. done.
  - intros a h [Hr | Hin]; [by unfold recorded in Hr | by apply elem_of_nil in Hin].
  - intros h obj Hobj. cbn in Hobj. by rewrite lookup_nil in Hobj.
Qed.

(** Fewer blocks in use, same heaps. *)
Lemma wf_mono pending pending' s s' :
  wf pending s ->
  heaps s' = heaps s ->
  (forall p a h, recorded s' p = Some (HeapBacked a h) ->
                 recorded s p = Some (HeapBacked a h)) ->
  (forall x, x ∈ pending' -> x ∈ pending) ->
  wf pending' s'.
Proof.
  intros [Hkey Hheap Hlive] Hh Hrec Hsub.
  assert (Hb : forall a h, backed pending' s' a h -> backed pending s a h).
  { intros a h [Hr | Hin]; [left; by apply Hrec | right; by apply Hsub]. }
  split.
  - intros p a h Hr. exact (Hkey _ _ _ (Hrec _ _ _ Hr)).
  - intros a h Hx. rewrite Hh. exact (Hheap a h (Hb a h Hx)).
  - intros h obj Hobj. rewrite Hh in Hobj.
    destruct (Hlive h obj Hobj) as (live & Hinv & Hin).
    exists live. split; [done |]. intros a Hx. exact (Hin a (Hb a h Hx)).
Qed.

(** *** The steps of the hooks *)

(** [c] started in a state that satisfies [Pre] ends in one that
    satisfies [Post], whatever its outcome. *)
Definition hoare {A} (Pre : St W -> Prop) (c : M (St W) A)
    (Post : Outcome A -> St W -> Prop) : Prop :=
  forall s r s', Pre s -> c s = (r, s') -> Post r s'.

(** [c] keeps the state well formed. *)
Definition keeps_wf {A} (pending : list (HeapAlloc.t * nat)) (c : M (St W) A)
  : Prop :=
  hoare (wf pending) c (fun _ => wf pending).

Lemma hoare_bind {A B} Pre (Mid : A -> St W -> Prop) Post
    (c : M (St W) A) (k : A -> M (St W) B) :
  hoare Pre c (fun r s => match r with
                          | Returned a => Mid a s
                          | Thrown e => Post (Thrown e) s
                          end) ->
  (forall a, hoare (Mid a) (k a) Post) ->
  hoare Pre (bind c k) Post.
Proof.
  intros Hc Hk s r s' Hpre Hb.
  apply bind_inv in Hb as [(a & s1 & Hc1 & Hk1) | (e & Hc1 & ->)].
  - exact (Hk a _ _ _ (Hc _ _ _ Hpre Hc1) Hk1).
  - exact (Hc _ _ _ Hpre Hc1).
Qed.

Lemma keeps_wf_bind {A B} pending (c : M (St W) A) (k : A -> M (St W) B) :
  keeps_wf pending c -> (forall a, keeps_wf pending (k a)) ->
  keeps_wf pending (bind c k).
Proof.
  intros Hc Hk. apply (hoare_bind _ (fun _ => wf pending)); [| exact Hk].
  intros s r s' Hpre Hr. destruct r; by eapply Hc.
Qed.

Lemma keeps_wf_ret {A} pending (a : A) : keeps_wf pending (ret a).
Proof. by intros s r s' Hwf [= _ <-]. Qed.

Lemma keeps_wf_throw {A} pending e : keeps_wf pending (@throw _ A e).
Proof. by intros s r s' Hwf [= _ <-]. Qed.

Lemma keeps_wf_get pending : keeps_wf pending get.
Proof. by intros s r s' Hwf [= _ <-]. Qed.

Lemma keeps_wf_try_catch {A} pending (c h : M (St W) A) :
  keeps_wf pending c -> keeps_wf pending h -> keeps_wf pending (try_catch c h).
Proof.
  intros Hc Hh s r s' Hwf Ht.
  apply try_catch_inv in Ht as [(a & Hc1 & _) | (e & s1 & Hc1 & Hh1)].
  - by eapply Hc.
  - eapply Hh; [| exact Hh1]. by eapply Hc.
Qed.

Lemma keeps_wf_in_process {A} pending (c : M (NThread.St W) A) :
  keeps_wf pending (in_process c).
Proof.
  intros s r s' Hwf. unfold in_process.
  destruct (c (process s)) as [r1 p1]. intros [= _ <-].
  by apply (wf_mono pending pending s).
Qed.

Lemma keeps_wf_getState pending : keeps_wf pending getState.
Proof.
  intros s r s' Hwf Hg.
  apply (wf_mono pending pending s); [done | | | done].
  - revert Hg. unfold getState, bind, get.
    destruct (state s); by intros [= _ <-].
  - intros p a h. by rewrite (keeps_getState always _ _ _ Hg I p).
Qed.

(** An update of the proxy state that records nothing new. *)
Lemma keeps_wf_on_state pending (f : ProxyState -> ProxyState) :
  (forall ps p a h,
     allocations (f ps) !! p = Some (HeapBacked a h) ->
     allocations ps !! p = Some (HeapBacked a h)) ->
  keeps_wf pending (on_state f).
Proof.
  intros Hf s r s' Hwf [= _ <-].
  apply (wf_mono pending pending s); [done | done | | done].
  intros p a h. unfold recorded. cbn.
  destruct (state s) as [ps|]; cbn; [apply Hf | done].
Qed.

Lemma keeps_wf_delete pending address :
  keeps_wf pending (on_state (delete_allocation address)).
Proof.
  apply keeps_wf_on_state. intros ps p a h. cbn.
  intros Hl. by apply lookup_delete_Some in Hl as [_ ?].
Qed.

Lemma keeps_wf_set_super pending address :
  keeps_wf pending (on_state (set_allocation address Super)).
Proof.
  apply keeps_wf_on_state. intros ps p a h. cbn.
  intros Hl. by apply lookup_insert_Some in Hl as [[_ ?] | [_ ?]].
Qed.

Lemma keeps_wf_push pending h :
  keeps_wf pending (on_state (push_prevHeap h)).
Proof. by apply keeps_wf_on_state. Qed.

Lemma keeps_wf_set_heap pending h :
  keeps_wf pending (on_state (set_heap h)).
Proof. by apply keeps_wf_on_state. Qed.

(** A block recorded can be held as well. *)
Lemma wf_hold pending s a h :
  wf pending s ->
  recorded s (HeapAlloc.remote a) = Some (HeapBacked a h) ->
  wf ((a, h) :: pending) s.
Proof.
  intros [Hkey Hheap Hlive] Hr.
  assert (Hb : forall a' h', backed ((a, h) :: pending) s a' h' ->
                             backed pending s a' h').
  { intros a' h' [? | Hin]; [by left |].
    apply elem_of_cons in Hin as [[= -> ->] | Hin]; [by left | by right]. }
  split; [done | |].
  - intros a' h' Hx. exact (Hheap a' h' (Hb a' h' Hx)).
  - intros h' obj Hobj. destruct (Hlive h' obj Hobj) as (live & Hinv & Hin).
    exists live. split; [done |]. intros a' Hx. exact (Hin a' (Hb a' h' Hx)).
Qed.

(** Reading a heap object. *)
Lemma keeps_wf_on_heap_get pending h : keeps_wf pending (on_heap h get).
Proof.
  intros s r s' Hwf. unfold on_heap.
  destruct (heaps s !! h) as [obj|] eqn:Hobj; [| by intros [= _ <-]].
  cbn. intros [= _ <-].
  apply (wf_mono pending pending s); [done | | done | done].
  cbn. by apply list_insert_id.
Qed.

(** The block just allocated is recorded. *)
Lemma hoare_record pending a h :
  hoare (wf ((a, h) :: pending))
    (on_state (set_allocation (HeapAlloc.remote a) (HeapBacked a h)))
    (fun _ => wf pending).
Proof.
  intros s r s' [Hkey Hheap Hlive] [= _ <-].
  assert (Hrec : forall p a' h',
             recorded
               {| state := set_allocation (HeapAlloc.remote a) (HeapBacked a h)
                             <$> state s;
                  heaps := heaps s; process := process s |} p
             = Some (HeapBacked a' h') ->
             p = HeapAlloc.remote a /\ a' = a /\ h' = h
             \/ recorded s p = Some (HeapBacked a' h')).
  { intros p a' h'. unfold recorded. cbn.
    destruct (state s) as [ps|]; cbn; [| done].
    intros Hl. apply lookup_insert_Some in Hl as [[<- [= <- <-]] | [_ ?]];
      [by left | by right]. }
  assert (Hb : forall a' h',
             backed pending
               {| state := set_allocation (HeapAlloc.remote a) (HeapBacked a h)
                             <$> state s;
                  heaps := heaps s; process := process s |} a' h' ->
             backed ((a, h) :: pending) s a' h').
  { intros a' h' [Hr | Hin]; [| right; by right].
    apply Hrec in Hr as [(_ & -> & ->) | Hr]; [right; by left | by left]. }
  split.
  - intros p a' h' Hr. apply Hrec in Hr as [(-> & -> & _) | Hr]; [done |].
    exact (Hkey _ _ _ Hr).
  - intros a' h' Hx. exact (Hheap a' h' (Hb a' h' Hx)).
  - intros h' obj Hobj. destruct (Hlive h' obj Hobj) as (live & Hinv & Hin).
    exists live. split; [done |]. intros a' Hx. exact (Hin a' (Hb a' h' Hx)).
Qed.

(** A request that a heap refuses leaves the heap as it is. *)
Lemma alloc_thrown ro size obj e obj' :
  (if ro : bool then Heap.allocReadonly size else Heap.alloc size) obj
  = (Thrown e, obj') ->
  obj' = obj.
Proof.
  destruct ro; unfold Heap.allocReadonly, Heap.alloc;
    repeat case_match; congruence.
Qed.

Lemma heap_inv_request ro size obj live a obj' :
  heap_inv obj live ->
  (if ro : bool then Heap.allocReadonly size else Heap.alloc size) obj
  = (Returned a, obj') ->
  heap_inv obj' (a :: live).
Proof.
  destruct ro; [apply heap_inv_allocReadonly | apply heap_inv_alloc].
Qed.

(** The state after a method of the heap object [h] has run. *)
Lemma wf_allocated pending s h obj a obj' ro size :
  wf pending s ->
  heaps s !! h = Some obj ->
  (if ro : bool then Heap.allocReadonly size else Heap.alloc size) obj
  = (Returned a, obj') ->
  wf ((a, h) :: pending)
    {| state := state s; heaps := <[h := obj']> (heaps s);
       process := process s |}.
Proof.
  intros [Hkey Hheap Hlive] Hobj Ha.
  pose proof (lookup_lt_Some _ _ _ Hobj) as Hlt.
  split.
  - exact Hkey.
  - intros a' h' [Hr | Hin]; cbn.
    + apply lookup_lt_is_Some. rewrite length_insert.
      apply lookup_lt_is_Some. apply (Hheap a' h'). by left.
    + apply lookup_lt_is_Some. rewrite length_insert.
      apply elem_of_cons in Hin as [[= -> ->] | Hin]; [done |].
      apply lookup_lt_is_Some. apply (Hheap a' h'). by right.
  - intros h' obj'' Hl. cbn in Hl.
    destruct (decide (h' = h)) as [-> | Hne].
    + rewrite list_lookup_insert_eq in Hl by done. injection Hl as <-.
      destruct (Hlive h obj Hobj) as (live & Hinv & Hin).
      exists (a :: live). split; [by eapply heap_inv_request |].
      intros a' [Hr | Hx].
      * right. apply Hin. by left.
      * apply elem_of_cons in Hx as [[= ->] | Hx]; [by left |].
        right. apply Hin. by right.
    + rewrite list_lookup_insert_ne in Hl by done.
      destruct (Hlive h' obj'' Hl) as (live & Hinv & Hin).
      exists live. split; [done |]. intros a' [Hr | Hx].
      * apply Hin. by left.
      * apply elem_of_cons in Hx as [[= _ ->] | Hx]; [done |].
        apply Hin. by right.
Qed.

(** [tryAlloc]: the block it returns is held, not yet recorded. *)
Lemma hoare_tryAlloc pending h size ro :
  hoare (wf pending) (tryAlloc h size ro)
    (fun r s => match r with
                | Returned (Some a) => wf ((a, h) :: pending) s
                | _ => wf pending s
                end).
Proof.
  intros s r s' Hwf. unfold tryAlloc, try_catch, bind, on_heap.
  destruct (heaps s !! h) as [obj|] eqn:Hobj; [| by intros [= <- <-]].
  destruct ((if ro then Heap.allocReadonly size else Heap.alloc size) obj)
    as [[a|e] obj'] eqn:Ha; cbn; intros [= <- <-].
  - by eapply wf_allocated.
  - apply alloc_thrown in Ha as ->.
    apply (wf_mono pending pending s); [done | | done | done].
    cbn. by apply list_insert_id.
Qed.

(** A heap that [Heap.create] returns is in good order and empty. *)
Lemma create_heap_inv totalSize0 roSize0 (p : NThread.St W) obj p' :
  Heap.create totalSize0 roSize0 p = (Returned obj, p') ->
  heap_inv obj [].
Proof.
  unfold Heap.create. cbn zeta.
  destruct (decide _) as [|Hok]; [discriminate |].
  intros Hb. apply bind_Returned in Hb as (base0 & p1 & _ & Hb).
  destruct (decide (base0 = 0)); [discriminate |].
  unfold bind, get, modify, ret, Romem.registerReadOnlyMemory in Hb.
  cbn in Hb. injection Hb as <- _. apply heap_inv_make; lia.
Qed.

Lemma keeps_wf_new_heap pending totalSize roSize :
  keeps_wf pending (new_heap totalSize roSize).
Proof.
  intros s r s' Hwf. unfold new_heap. intros Hb.
  apply bind_inv in Hb as [(obj & s1 & Hc & Hb) | (e & Hc & _)];
    [| by eapply keeps_wf_in_process].
  pose proof (keeps_wf_in_process _ _ _ _ _ Hwf Hc) as Hwf1.
  unfold in_process in Hc.
  destruct (Heap.create totalSize (Some roSize) (process s)) as [r1 p1] eqn:Hcr.
  injection Hc as -> <-. apply create_heap_inv in Hcr.
  unfold bind, get, modify, ret in Hb. cbn in Hb. injection Hb as _ <-.
  destruct Hwf1 as [Hkey Hheap Hlive]. cbn in Hkey, Hheap, Hlive.
  split.
  - exact Hkey.
  - intros a h Hx. cbn. apply lookup_lt_is_Some. rewrite length_app.
    pose proof (Hheap a h Hx) as Hs. apply lookup_lt_is_Some in Hs. lia.
  - intros h obj' Hl. cbn in Hl.
    apply lookup_app_Some in Hl as [Hl | [Hge Hl]].
    + destruct (Hlive h obj' Hl) as (live & Hinv & Hin).
      exists live. split; [done |]. exact Hin.
    + apply list_lookup_singleton_Some in Hl as [Hz <-].
      exists []. split; [done |]. intros a Hx.
      pose proof (Hheap a h Hx) as Hs. apply lookup_lt_is_Some in Hs. lia.
Qed.

(** The tail shared by the branches of [allocFromHeap]: a block from the
    heap [h], recorded when there is one. *)
Lemma keeps_wf_allocFromFresh pending h size ro :
  keeps_wf pending (allocFromFresh h size ro).
Proof.
  unfold allocFromFresh.
  eapply (hoare_bind _ (fun result s =>
                          match result with
                          | Some a => wf ((a, h) :: pending) s
                          | None => wf pending s
                          end)).
  - intros s r s' Hwf Ht. pose proof (hoare_tryAlloc _ _ _ _ _ _ _ Hwf Ht).
    by destruct r as [[blk|]|err].
  - intros [a|]; [| apply keeps_wf_ret].
    eapply (hoare_bind _ (fun _ => wf pending)); [| intros u; apply keeps_wf_ret].
    intros s r s' Hwf Hr. pose proof (hoare_record _ _ _ _ _ _ Hwf Hr).
    by destruct r.
Qed.

Lemma keeps_wf_allocFromHeap pending nt size ro :
  keeps_wf pending (allocFromHeap nt size ro).
Proof.
  unfold allocFromHeap.
  apply keeps_wf_bind; [apply keeps_wf_getState | intros ps].
  destruct (heap ps) as [h|].
  - eapply (hoare_bind _ (fun result s =>
                            match result with
                            | Some a => wf ((a, h) :: pending) s
                            | None => wf pending s
                            end)).
    + intros s r s' Hwf Ht. pose proof (hoare_tryAlloc _ _ _ _ _ _ _ Hwf Ht).
      by destruct r as [[blk|]|err].
    + intros [a|].
      * eapply (hoare_bind _ (fun _ => wf pending)); [| intros u; apply keeps_wf_ret].
        intros s r s' Hwf Hr. pose proof (hoare_record _ _ _ _ _ _ Hwf Hr).
        by destruct r.
      * apply keeps_wf_bind; [apply keeps_wf_on_heap_get | intros obj].
        destruct (decide _); [apply keeps_wf_ret |]. cbv zeta.
        destruct (decide (_ < size)); [apply keeps_wf_ret |].
        apply keeps_wf_bind; [apply keeps_wf_push | intros _].
        apply keeps_wf_bind; [apply keeps_wf_new_heap | intros h'].
        apply keeps_wf_bind; [apply keeps_wf_set_heap | intros _].
        apply keeps_wf_allocFromFresh.
  - destruct (decide _); [apply keeps_wf_ret |]. cbv zeta.
    apply keeps_wf_bind; [apply keeps_wf_new_heap | intros h'].
    apply keeps_wf_bind; [apply keeps_wf_set_heap | intros _].
    apply keeps_wf_allocFromFresh.
Qed.

Lemma keeps_wf_proxy_write pending dest data :
  keeps_wf pending (proxy_write dest data).
Proof. apply keeps_wf_in_process. Qed.

(** *** Giving a block back *)

(** An outstanding allocation belongs to the heap: [free] accepts it. *)
Lemma free_succeeds obj live a :
  heap_inv obj live -> a ∈ live -> fst (Heap.free a obj) = Returned tt.
Proof.
  intros (Hro & Hrw & Hlive & _) Hin.
  rewrite Forall_forall in Hlive. destruct (Hlive a Hin) as (Hsize & Hzone).
  destruct Hro as (_ & Hrob & _). destruct Hrw as (_ & Hrwb & _).
  unfold Heap.free, in_zone in *. cbn zeta.
  destruct (decide (Heap.base obj <= HeapAlloc.remote a
                    /\ HeapAlloc.remote a < Heap.base obj + Heap.roSize obj));
    [done |].
  rewrite decide_True; [done | lia].
Qed.

Lemma elem_of_delete_ne {A} (l : list A) k x y :
  l !! k = Some x -> y ∈ l -> y <> x -> y ∈ delete k l.
Proof.
  intros Hk Hy Hne. apply list_elem_of_lookup in Hy as [j Hj].
  assert (Hjk : j <> k) by (intros ->; congruence).
  apply list_elem_of_lookup.
  destruct (decide (j < k)%nat).
  - exists j. by rewrite list_lookup_delete_lt.
  - exists (j - 1)%nat. rewrite list_lookup_delete_ge by lia.
    rewrite <- Hj. f_equal. lia.
Qed.

(** The state once the block [a] of the heap [h] is freed and its record
    removed, in either order. *)
Lemma wf_released s s' a h obj :
  wf [(a, h)] s ->
  heaps s !! h = Some obj ->
  heaps s' = <[h := snd (Heap.free a obj)]> (heaps s) ->
  (forall p a' h',
     recorded s' p = Some (HeapBacked a' h') ->
     recorded s p = Some (HeapBacked a' h') /\ p <> HeapAlloc.remote a) ->
  wf [] s'.
Proof.
  intros [Hkey Hheap Hlive] Hobj Hheaps Hrec.
  assert (Hb : forall a' h', backed [] s' a' h' ->
                             backed [(a, h)] s a' h' /\ a' <> a).
  { intros a' h' [Hr | Hin]; [| by apply elem_of_nil in Hin].
    apply Hrec in Hr as [Hr Hne]. split; [by left | congruence]. }
  split.
  - intros p a' h' Hr. apply Hrec in Hr as [Hr _]. exact (Hkey _ _ _ Hr).
  - intros a' h' Hx. rewrite Hheaps. apply lookup_lt_is_Some.
    rewrite length_insert. apply lookup_lt_is_Some.
    exact (Hheap a' h' (proj1 (Hb a' h' Hx))).
  - intros h' obj' Hl. rewrite Hheaps in Hl.
    destruct (decide (h' = h)) as [-> | Hne].
    + rewrite list_lookup_insert_eq in Hl by (by eapply lookup_lt_Some).
      injection Hl as <-.
      destruct (Hlive h obj Hobj) as (live & Hinv & Hin).
      assert (Ha : a ∈ live) by (apply Hin; right; by left).
      apply list_elem_of_lookup in Ha as [k Hk].
      exists (delete k live). split; [by apply heap_inv_free |].
      intros a' Hx. destruct (Hb a' h Hx) as [Hx' Hne].
      eapply elem_of_delete_ne; [exact Hk | by apply Hin | exact Hne].
    + rewrite list_lookup_insert_ne in Hl by done.
      destruct (Hlive h' obj' Hl) as (live & Hinv & Hin).
      exists live. split; [done |]. intros a' Hx.
      exact (Hin a' (proj1 (Hb a' h' Hx))).
Qed.

(** What [free] on a block in use does to the state. *)
Lemma on_heap_free s a h :
  wf [(a, h)] s ->
  exists obj,
    heaps s !! h = Some obj
    /\ on_heap h (Heap.free a) s
       = (Returned tt,
          {| state := state s;
             heaps := <[h := snd (Heap.free a obj)]> (heaps s);
             process := process s |}).
Proof.
  intros Hwf.
  destruct (wf_heap _ _ Hwf a h) as [obj Hobj]; [right; by left |].
  destruct (wf_live _ _ Hwf h obj Hobj) as (live & Hinv & Hin).
  pose proof (free_succeeds obj live a Hinv (Hin a ltac:(right; by left))) as Hf.
  exists obj. split; [done |]. unfold on_heap. rewrite Hobj.
  destruct (Heap.free a obj) as [r obj']. cbn in Hf. by subst r.
Qed.

(** The override [threadFree] on a heap-backed address: the block goes
    back to its heap; nothing is called in the thread. *)
Lemma threadFree_backed s ptr a h :
  wf [] s ->
  recorded s ptr = Some (HeapBacked a h) ->
  exists s',
    threadFree ptr s = (Returned tt, s')
    /\ wf [] s'
    /\ process s' = process s
    /\ recorded s' ptr = None
    /\ forall q, q <> ptr -> recorded s' q = recorded s q.
Proof.
  intros Hwf Hr.
  pose proof (wf_key _ _ Hwf _ _ _ Hr) as Hptr. subst ptr.
  pose proof (wf_hold _ _ _ _ Hwf Hr) as Hheld.
  unfold threadFree, bind, get. fold (recorded s (HeapAlloc.remote a)).
  rewrite Hr. cbn [on_state modify].
  set (s1 := {| state := delete_allocation (HeapAlloc.remote a) <$> state s;
                heaps := heaps s; process := process s |}).
  assert (Hrec1 : forall q, recorded s1 q
                            = if decide (q = HeapAlloc.remote a) then None
                              else recorded s q).
  { intros q. unfold recorded. cbn. destruct (state s) as [ps|]; cbn.
    - destruct (decide (q = HeapAlloc.remote a)) as [-> |].
      + by rewrite lookup_delete_eq.
      + by rewrite lookup_delete_ne.
    - by destruct (decide _). }
  assert (Hwf1 : wf [(a, h)] s1).
  { apply (wf_mono [(a, h)] [(a, h)] s); [done | done | | done].
    intros p a' h'. rewrite Hrec1. by destruct (decide _). }
  destruct (on_heap_free s1 a h Hwf1) as (obj & Hobj & Hfree).
  rewrite Hfree. eexists. split; [reflexivity |]. split; [| split; [done |]].
  - apply (wf_released s1 _ a h obj Hwf1 Hobj); [done |].
    intros p a' h' Hp. change (recorded s1 p = Some (HeapBacked a' h')) in Hp.
    split; [done |]. rewrite Hrec1 in Hp. by destruct (decide _).
  - split.
    + change (recorded s1 (HeapAlloc.remote a) = None).
      by rewrite Hrec1, decide_True.
    + intros q Hq. change (recorded s1 q = recorded s q).
      by rewrite Hrec1, decide_False.
Qed.

Lemma keeps_wf_threadFree ptr : keeps_wf [] (threadFree ptr).
Proof.
  intros s r s' Hwf Hf.
  destruct (recorded s ptr) as [[a h|]|] eqn:Hr.
  - destruct (threadFree_backed s ptr a h Hwf Hr) as (s2 & Hf2 & Hwf2 & _).
    rewrite Hf2 in Hf. by injection Hf as _ <-.
  - revert Hf. unfold threadFree, bind, get. fold (recorded s ptr).
    rewrite Hr. cbn [on_state modify]. intros Hf.
    eapply keeps_wf_in_process; [| exact Hf].
    by eapply (keeps_wf_delete [] ptr s).
  - revert Hf. unfold threadFree, bind, get. fold (recorded s ptr).
    rewrite Hr. cbn [on_state modify]. intros Hf.
    eapply keeps_wf_in_process; [| exact Hf].
    by eapply (keeps_wf_delete [] ptr s).
Qed.

(** *** The hooks *)

Lemma getState_Returned (s : St W) ps (s1 : St W) :
  getState s = (Returned ps, s1) ->
  state s1 = Some ps /\ forall p, recorded s1 p = allocations ps !! p.
Proof.
  unfold getState, bind, get.
  destruct (state s) as [ps0|] eqn:Hs.
  - intros [= <- <-]. split; [done |]. intros p. unfold recorded. by rewrite Hs.
  - cbn. intros [= <- <-]. done.
Qed.

(** The last two steps of [reallocInternal]. *)
Lemma hoare_free_delete {A} a h (x : A) :
  hoare (wf [(a, h)])
    (on_heap h (Heap.free a);;
     on_state (delete_allocation (HeapAlloc.remote a));;
     ret x)
    (fun _ => wf []).
Proof.
  intros s r s' Hwf. destruct (on_heap_free s a h Hwf) as (obj & Hobj & Hfree).
  unfold bind. rewrite Hfree. cbn [on_state modify ret]. intros [= _ <-].
  apply (wf_released s _ a h obj Hwf Hobj); [done |].
  intros p a' h'. unfold recorded. cbn.
  destruct (state s) as [ps|]; cbn; [| done].
  intros Hl. by apply lookup_delete_Some in Hl as [? ?].
Qed.

Lemma keeps_wf_reallocInternal nt address0 newSize opts :
  keeps_wf [] (reallocInternal nt address0 newSize opts).
Proof.
  intros s r s' Hwf. unfold reallocInternal. intros Hb.
  apply bind_inv in Hb as [(ps & s1 & Hg & Hb) | (e & Hg & _)];
    [| by eapply keeps_wf_getState].
  pose proof (keeps_wf_getState _ _ _ _ Hwf Hg) as Hwf1.
  apply getState_Returned in Hg as [_ Hrec].
  destruct (allocations ps !! address0) as [[a h|]|] eqn:Hentry.
  - rewrite <- Hrec in Hentry.
    pose proof (wf_key _ _ Hwf1 _ _ _ Hentry) as Hkey. subst address0.
    pose proof (wf_hold _ _ _ _ Hwf1 Hentry) as Hheld.
    clear Hwf1 Hrec Hentry. revert s1 Hheld Hb.
    match goal with
    | |- forall s1, _ -> ?c s1 = _ -> _ =>
        assert (Hc : hoare (wf [(a, h)]) c (fun _ => wf []));
          [| intros s1 Hheld Hb; exact (Hc _ _ _ Hheld Hb)]
    end.
    eapply (hoare_bind _ (fun _ => wf [(a, h)])).
    { intros s1 r1 s2 H1 H2.
      pose proof (keeps_wf_on_heap_get _ _ _ _ _ H1 H2) as H3. destruct r1.
      - exact H3.
      - apply (wf_mono [(a, h)] [] s2); [done | done | done |].
        intros x Hx. by apply elem_of_nil in Hx. }
    intros obj. cbv zeta.
    assert (Hdrop : forall (B : Type) (c : M (St W) B),
               keeps_wf [(a, h)] c ->
               hoare (wf [(a, h)]) c
                 (fun r s => match r with
                             | Returned _ => wf [(a, h)] s
                             | Thrown _ => wf [] s
                             end)).
    { intros B c Hc s1 r1 s2 H1 H2. pose proof (Hc _ _ _ H1 H2) as H3.
      destruct r1; [done |].
      apply (wf_mono [(a, h)] [] s2); [done | done | done |].
      intros x Hx. by apply elem_of_nil in Hx. }
    eapply (hoare_bind _ (fun _ => wf [(a, h)]));
      [apply Hdrop, keeps_wf_allocFromHeap | intros newRaw].
    eapply (hoare_bind _ (fun _ => wf [(a, h)])).
    { apply Hdrop. destruct newRaw as [p|]; [apply keeps_wf_ret |].
      apply keeps_wf_bind; [apply keeps_wf_in_process | intros p].
      apply keeps_wf_bind; [apply keeps_wf_set_super | intros _].
      apply keeps_wf_ret. }
    intros newPtr.
    eapply (hoare_bind _ (fun _ => wf [(a, h)])).
    { apply Hdrop. destruct (decide _); [| apply keeps_wf_ret].
      apply keeps_wf_bind; [apply keeps_wf_in_process | intros oldData].
      apply keeps_wf_bind; [apply keeps_wf_proxy_write | intros _].
      apply keeps_wf_ret. }
    intros _.
    eapply (hoare_bind _ (fun _ => wf [(a, h)])).
    { apply Hdrop. destruct (NThread.opt_field NThread.fill opts) as [fill0|];
        [| apply keeps_wf_ret].
      destruct (decide _); [| apply keeps_wf_ret].
      apply keeps_wf_bind; [apply keeps_wf_proxy_write | intros _].
      apply keeps_wf_ret. }
    intros _. apply hoare_free_delete.
  - match type of Hb with
    | ?c s1 = _ => assert (Hc : keeps_wf [] c); [| exact (Hc _ _ _ Hwf1 Hb)]
    end.
    apply keeps_wf_bind; [apply keeps_wf_delete | intros _].
    apply keeps_wf_bind; [apply keeps_wf_in_process | intros p].
    apply keeps_wf_bind; [apply keeps_wf_set_super | intros _].
    apply keeps_wf_ret.
  - match type of Hb with
    | ?c s1 = _ => assert (Hc : keeps_wf [] c); [| exact (Hc _ _ _ Hwf1 Hb)]
    end.
    apply keeps_wf_bind; [apply keeps_wf_in_process | intros p].
    apply keeps_wf_bind; [apply keeps_wf_set_super | intros _].
    apply keeps_wf_ret.
Qed.

Lemma keeps_wf_threadAlloc nt size opts :
  keeps_wf [] (threadAlloc nt size opts).
Proof.
  unfold threadAlloc.
  destruct (NThread.opt_field NThread.address opts) as [address0|];
    [apply keeps_wf_reallocInternal |].
  apply keeps_wf_bind; [apply keeps_wf_allocFromHeap | intros [p|]];
    [| apply keeps_wf_in_process].
  destruct (NThread.opt_field NThread.fill opts) as [fill0|];
    [| apply keeps_wf_ret].
  apply keeps_wf_bind; [apply keeps_wf_proxy_write | intros _].
  apply keeps_wf_ret.
Qed.

End Pool.

End HeapPool.

Section Served.

Context {W : Type} `{ProxyThread W}.

Import NThreadHeap HeapHooks HeapPool HeapRequests.

Lemma serve_wf nt rq (s : St W) : wf [] s -> wf [] (serve nt rq s).
Proof.
  intros Hwf. destruct rq as [size opts | ptr]; unfold serve.
  - destruct (threadAlloc nt size opts s) as [r s'] eqn:Ha.
    exact (keeps_wf_threadAlloc nt size opts _ _ _ Hwf Ha).
  - destruct (threadFree ptr s) as [r s'] eqn:Hf.
    exact (keeps_wf_threadFree ptr _ _ _ Hwf Hf).
Qed.

Lemma serve_all_wf nt rqs (s : St W) : wf [] s -> wf [] (serve_all nt rqs s).
Proof.
  revert s. induction rqs as [|rq rqs IH]; intros s Hwf; [done |].
  unfold serve_all. cbn [foldl]. apply IH. by apply serve_wf.
Qed.

(** In a well-formed state the heap-backed blocks of one heap are apart,
    each inside the zones of its heap. *)
Lemma wf_blocks (s : St W) p a h :
  wf [] s ->
  recorded s p = Some (HeapBacked a h) ->
  HeapAlloc.remote a = p
  /\ 0 < HeapAlloc.size a
  /\ (exists obj,
         heaps s !! h = Some obj
         /\ Heap.base obj <= p
         /\ p + HeapAlloc.size a
            <= Heap.base obj + Heap.roSize obj + Heap.rwSize obj)
  /\ forall q b,
       q <> p -> recorded s q = Some (HeapBacked b h) ->
       p + HeapAlloc.size a <= q \/ q + HeapAlloc.size b <= p.
Proof.
  intros Hwf Hr. pose proof (wf_key _ _ Hwf _ _ _ Hr) as Hp. subst p.
  assert (Hba : backed [] s a h) by (by left).
  destruct (wf_heap _ _ Hwf a h Hba) as [obj Hobj].
  destruct (wf_live _ _ Hwf h obj Hobj) as (live & Hinv & Hin).
  pose proof Hinv as (Hro & Hrw & Hlive & Hdis).
  pose proof (Hin a Hba) as Ha.
  rewrite Forall_forall in Hlive. destruct (Hlive a Ha) as (Hsize & Hzone).
  destruct Hro as (_ & Hrob & _). destruct Hrw as (_ & Hrwb & _).
  split; [done |]. split; [done |]. split.
  - exists obj. split; [done |]. unfold HeapFacts.in_zone in Hzone. lia.
  - intros q b Hq Hrb. pose proof (wf_key _ _ Hwf _ _ _ Hrb) as Hb. subst q.
    assert (Hbb : b ∈ live) by (apply Hin; by left).
    apply list_elem_of_lookup in Ha as [i Hi].
    apply list_elem_of_lookup in Hbb as [j Hj].
    assert (Hij : i <> j) by (intros ->; congruence).
    apply (HeapMore.disjoint_list_apart live i j a b); [done | | done..].
    apply Forall_forall. intros c Hc. by destruct (Hlive c Hc).
Qed.

End Served.

(** X20.  Blocks of the heap-backed allocator never overlap: after any
    sequence of [proxy.alloc] and [proxy.free] requests (reallocations
    included, whatever their outcomes) on a proxy that had not allocated,
    every address recorded as heap-backed is the address of its block; the
    block is not empty and lies inside the zones of its heap; and two
    blocks recorded for the same heap are disjoint. *)
Theorem heap_backed_blocks_apart {W : Type} (P : ProxyThread W)
    (nt : NThreadHeap.t) (rqs : list HeapRequests.Request)
    (p0 : NThread.St W) :
  let s := HeapRequests.serve_all nt rqs (HeapRequests.fresh p0) in
  forall p a h,
    HeapHooks.recorded s p = Some (NThreadHeap.HeapBacked a h) ->
    HeapAlloc.remote a = p
    /\ 0 < HeapAlloc.size a
    /\ (exists obj,
           NThreadHeap.heaps s !! h = Some obj
           /\ Heap.base obj <= p
           /\ p + HeapAlloc.size a
              <= Heap.base obj + Heap.roSize obj + Heap.rwSize obj)
    /\ forall q b,
         q <> p ->
         HeapHooks.recorded s q = Some (NThreadHeap.HeapBacked b h) ->
         p + HeapAlloc.size a <= q \/ q + HeapAlloc.size b <= p.
Proof.
  intros s p a h. apply wf_blocks. apply serve_all_wf. apply HeapPool.wf_fresh.
Qed.

(** X21.  Freeing a heap-backed address: after any sequence of requests,
    [threadFree] of an address recorded as heap-backed returns, calls
    nothing in the thread (the process is as it was), removes the record
    of the address and leaves every other record. *)
Theorem threadFree_heap_backed {W : Type} (P : ProxyThread W)
    (nt : NThreadHeap.t) (rqs : list HeapRequests.Request)
    (p0 : NThread.St W) (ptr : Z) (a : HeapAlloc.t) (h : nat) :
  let s := HeapRequests.serve_all nt rqs (HeapRequests.fresh p0) in
  HeapHooks.recorded s ptr = Some (NThreadHeap.HeapBacked a h) ->
  exists s',
    NThreadHeap.threadFree ptr s = (Returned tt, s')
    /\ NThreadHeap.process s' = NThreadHeap.process s
    /\ HeapHooks.recorded s' ptr = None
    /\ forall q, q <> ptr -> HeapHooks.recorded s' q = HeapHooks.recorded s q.
Proof.
  intros s Hr.
  destruct (HeapPool.threadFree_backed s ptr a h) as (s' & Hf & _ & Hrest);
    [apply serve_all_wf, HeapPool.wf_fresh | done |].
  by exists s'.
Qed.

Section Recording.

Context {W : Type} `{ProxyThread W}.

Import NThreadHeap HeapHooks.

Lemma request_size ro size obj a obj' :
  (if ro : bool then Heap.allocReadonly size else Heap.alloc size) obj
  = (Returned a, obj') ->
  HeapAlloc.size a = size.
Proof.
  destruct ro; unfold Heap.allocReadonly, Heap.alloc;
    repeat case_match; intros [= <- _]; done.
Qed.

Lemma tryAlloc_Some h size ro (s : St W) a s' :
  tryAlloc h size ro s = (Returned (Some a), s') ->
  state s' = state s /\ HeapAlloc.size a = size.
Proof.
  unfold tryAlloc, try_catch, bind, on_heap.
  destruct (heaps s !! h) as [obj|]; [| discriminate].
  destruct ((if ro then Heap.allocReadonly size else Heap.alloc size) obj)
    as [[b|e] obj'] eqn:Hb; cbn; [| discriminate].
  intros [= <- <-]. split; [done |]. by eapply request_size.
Qed.

Lemma allocFromFresh_recorded h size ro (s : St W) p s' :
  is_Some (state s) ->
  allocFromFresh h size ro s = (Returned (Some p), s') ->
  exists a,
    recorded s' p = Some (HeapBacked a h)
    /\ HeapAlloc.remote a = p /\ HeapAlloc.size a = size.
Proof.
  intros [ps Hps]. unfold allocFromFresh. intros Hb.
  apply bind_Returned in Hb as ([a|] & s1 & Ht & Hb); [| discriminate].
  apply tryAlloc_Some in Ht as [Hs1 Hsize].
  unfold bind, on_state, modify, ret in Hb. injection Hb as <- <-.
  exists a. split; [| done]. unfold recorded. cbn. rewrite Hs1, Hps. cbn.
  by rewrite lookup_insert_eq.
Qed.

Lemma new_heap_state totalSize roSize (s : St W) h s' :
  new_heap totalSize roSize s = (Returned h, s') -> state s' = state s.
Proof.
  unfold new_heap. intros Hb.
  apply bind_Returned in Hb as (obj & s1 & Hc & Hb).
  unfold in_process in Hc. destruct (Heap.create _ _ _) as [r1 p1].
  injection Hc as _ <-.
  unfold bind, get, modify, ret in Hb. by injection Hb as _ <-.
Qed.

(** A request served by the heap is recorded under the address returned,
    with a block of the size asked for. *)
Lemma allocFromHeap_recorded nt size ro (s : St W) p s' :
  allocFromHeap nt size ro s = (Returned (Some p), s') ->
  exists a h,
    recorded s' p = Some (HeapBacked a h)
    /\ HeapAlloc.remote a = p /\ HeapAlloc.size a = size.
Proof.
  unfold allocFromHeap. intros Hb.
  apply bind_Returned in Hb as (ps & s1 & Hg & Hb).
  apply HeapPool.getState_Returned in Hg as [Hs1 _].
  destruct (heap ps) as [h|].
  - apply bind_Returned in Hb as ([a|] & s2 & Ht & Hb).
    + apply tryAlloc_Some in Ht as [Hs2 Hsize].
      unfold bind, on_state, modify, ret in Hb. injection Hb as <- <-.
      exists a, h. split; [| done]. unfold recorded. cbn. rewrite Hs2, Hs1. cbn.
      by rewrite lookup_insert_eq.
    + assert (Hs2 : state s2 = state s1).
      { revert Ht. unfold tryAlloc, try_catch, bind, on_heap.
        destruct (heaps s1 !! h) as [obj|]; [| by intros [= <-]].
        destruct ((if ro then Heap.allocReadonly size else Heap.alloc size) obj)
          as [[b|e] obj']; cbn; by intros [= <-]. }
      apply bind_Returned in Hb as (obj & s3 & Ho & Hb).
      assert (Hs3 : state s3 = state s2).
      { revert Ho. unfold on_heap. destruct (heaps s2 !! h); [| discriminate].
        cbn. by intros [= _ <-]. }
      destruct (decide _); [discriminate |]. cbv zeta in Hb.
      destruct (decide (_ < size)); [discriminate |].
      apply bind_Returned in Hb as (u1 & s4 & [= _ <-] & Hb).
      apply bind_Returned in Hb as (h' & s5 & Hn & Hb).
      apply new_heap_state in Hn.
      apply bind_Returned in Hb as (u2 & s6 & [= _ <-] & Hb).
      apply allocFromFresh_recorded in Hb as (a & ? & ? & ?); [by eauto |].
      cbn. rewrite Hn. cbn. rewrite Hs3, Hs2, Hs1. by eexists.
  - destruct (decide _); [discriminate |]. cbv zeta in Hb.
    apply bind_Returned in Hb as (h' & s5 & Hn & Hb).
    apply new_heap_state in Hn.
    apply bind_Returned in Hb as (u2 & s6 & [= _ <-] & Hb).
    apply allocFromFresh_recorded in Hb as (a & ? & ? & ?); [by eauto |].
    cbn. rewrite Hn, Hs1. by eexists.
Qed.

End Recording.

(** X22.  What an allocation without [opts.address] returns: an address
    served by the heap, recorded as heap-backed with a block of the size
    asked for at that address (also after the fill has been written), or
    else, when [allocFromHeap] could not serve the request, the address
    the base allocator returned. *)
Theorem threadAlloc_served_recorded {W : Type} (P : ProxyThread W)
    (nt : NThreadHeap.t) (size : Z) (opts : option NThread.AllocOptions)
    (s : NThreadHeap.St W) (p : Z) (s' : NThreadHeap.St W) :
  NThread.opt_field NThread.address opts = None ->
  NThreadHeap.threadAlloc nt size opts s = (Returned p, s') ->
  (exists a h,
      HeapHooks.recorded s' p = Some (NThreadHeap.HeapBacked a h)
      /\ HeapAlloc.remote a = p /\ HeapAlloc.size a = size)
  \/ (exists s1,
         NThreadHeap.allocFromHeap nt size
           (default false (NThread.opt_field NThread.readonly opts)) s
         = (Returned None, s1)
         /\ NThreadHeap.in_process (NThread.threadAlloc size opts) s1
            = (Returned p, s')).
Proof.
  intros Haddr. unfold NThreadHeap.threadAlloc. rewrite Haddr. intros Hb.
  apply bind_Returned in Hb as ([q|] & s1 & Hheap & Hb); [| right; by eauto].
  left. apply allocFromHeap_recorded in Hheap as (a & h & Hr & Hrem & Hsize).
  destruct (NThread.opt_field NThread.fill opts) as [fill0|].
  - apply bind_Returned in Hb as (n & s2 & Hw & [= <- <-]).
    exists a, h. split; [| done]. rewrite <- Hr.
    exact (HeapHooks.keeps_in_process HeapHooks.always _ _ _ _ Hw I q).
  - injection Hb as <- <-. by exists a, h.
Qed.

(** *** Growing the heap *)

Section Growth.

Context {W : Type} `{ProxyThread W}.

Import NThreadHeap HeapHooks.

Lemma getState_Some (s : St W) ps :
  state s = Some ps -> getState s = (Returned ps, s).
Proof. intros Hs. unfold getState, bind, get. by rewrite Hs. Qed.

Lemma on_heap_same {A} h (c : M Heap.t A) (s : St W) obj r :
  heaps s !! h = Some obj -> c obj = (r, obj) -> on_heap h c s = (r, s).
Proof.
  intros Hobj Hc. unfold on_heap. rewrite Hobj, Hc.
  rewrite list_insert_id by done. by destruct s.
Qed.

Lemma tryAlloc_refused h size ro (s : St W) obj e :
  heaps s !! h = Some obj ->
  fst ((if ro : bool then Heap.allocReadonly size else Heap.alloc size) obj)
  = Thrown e ->
  tryAlloc h size ro s = (Returned None, s).
Proof.
  intros Hobj Hthrow. unfold tryAlloc, try_catch, bind.
  destruct ((if ro then Heap.allocReadonly size else Heap.alloc size) obj)
    as [r obj'] eqn:Hr.
  cbn in Hthrow. subst r. pose proof (HeapPool.alloc_thrown _ _ _ _ _ Hr) as ->.
  by rewrite (on_heap_same h _ s obj (Thrown e) Hobj Hr).
Qed.

Lemma request_invalid ro size obj :
  size <= 0 ->
  fst ((if ro : bool then Heap.allocReadonly size else Heap.alloc size) obj)
  = Thrown (PlainError "Invalid alloc size").
Proof.
  intros Hsize. destruct ro; unfold Heap.allocReadonly, Heap.alloc;
    by rewrite decide_True.
Qed.

(** [Heap.create] with valid sizes, by what [calloc] returns. *)
Lemma create_run totalSize0 roSize0 (p : NThread.St W) base0 w' :
  0 <= roSize0 <= totalSize0 ->
  proxy_call (calloc crt)
    [ArgNumber (JsInt 1); ArgNumber (JsInt totalSize0)] (NThread.world p)
  = (Returned base0, w') ->
  Heap.create totalSize0 (Some roSize0) p
  = if decide (base0 = 0)
    then (Thrown (PlainError "calloc returned NULL"),
          {| NThread.regions := NThread.regions p; NThread.world := w' |})
    else (Returned (Heap.make base0 totalSize0 roSize0 (totalSize0 - roSize0)
                      (length (NThread.regions p))),
          {| NThread.regions :=
               NThread.regions p
               ++ [{| Romem.remote := base0;
                      Romem.local := buffer_alloc roSize0 0 |}];
             NThread.world := w' |}).
Proof.
  intros Hsizes Hcall. unfold Heap.create. cbv zeta. cbn [default].
  unfold id. rewrite decide_False by lia.
  unfold bind at 1. unfold NThread.in_world. rewrite Hcall.
  destruct (decide (base0 = 0)); done.
Qed.

Lemma calcRoSize_bounds totalSize ro :
  0 <= totalSize -> 0 <= calcRoSize totalSize ro <= totalSize.
Proof.
  intros Ht. unfold calcRoSize.
  destruct ro; Z.to_euclidean_division_equations; lia.
Qed.

End Growth.

(** X23.  A request of no bytes grows the heap: with an active heap that
    is smaller than [maxSize], [allocFromHeap] for a size of zero or less
    is refused by the heap, and still a new heap of
    [min(2 * totalSize, maxSize)] bytes is created with [calloc] and made
    the active one, the old one joining the previous heaps; the new heap
    refuses the request as well, and "cannot serve" is returned. *)
Theorem allocFromHeap_empty_request_grows {W : Type} (P : ProxyThread W)
    (nt : NThreadHeap.t) (size : Z) (ro : bool) (s : NThreadHeap.St W)
    (ps : NThreadHeap.ProxyState) (h : nat) (obj : Heap.t)
    (base0 : Z) (w' : W) :
  NThreadHeap.state s = Some ps ->
  NThreadHeap.heap ps = Some h ->
  NThreadHeap.heaps s !! h = Some obj ->
  size <= 0 ->
  0 <= Heap.totalSize obj < NThreadHeap.maxSize nt ->
  let newSize := Z.min (Heap.totalSize obj * 2) (NThreadHeap.maxSize nt) in
  let roSize := NThreadHeap.calcRoSize newSize ro in
  proxy_call (calloc crt)
    [ArgNumber (JsInt 1); ArgNumber (JsInt newSize)]
    (NThread.world (NThreadHeap.process s))
  = (Returned base0, w') ->
  base0 <> 0 ->
  NThreadHeap.allocFromHeap nt size ro s
  = (Returned None,
     {| NThreadHeap.state :=
          Some {| NThreadHeap.heap := Some (length (NThreadHeap.heaps s));
                  NThreadHeap.prevHeaps := NThreadHeap.prevHeaps ps ++ [h];
                  NThreadHeap.allocations := NThreadHeap.allocations ps |};
        NThreadHeap.heaps :=
          NThreadHeap.heaps s
          ++ [Heap.make base0 newSize roSize (newSize - roSize)
                (length (NThread.regions (NThreadHeap.process s)))];
        NThreadHeap.process :=
          {| NThread.regions :=
               NThread.regions (NThreadHeap.process s)
               ++ [{| Romem.remote := base0;
                      Romem.local := buffer_alloc roSize 0 |}];
             NThread.world := w' |} |}).
Proof.
  intros Hstate Hheap Hobj Hsize Htotal newSize roSize Hcall Hbase.
  assert (Hnew : 0 <= newSize) by (subst newSize; lia).
  pose proof (calcRoSize_bounds newSize ro Hnew) as Hro. fold roSize in Hro.
  unfold NThreadHeap.allocFromHeap.
  rewrite (bind_run _ _ _ _ _ (getState_Some s ps Hstate)). rewrite Hheap.
  rewrite (bind_run _ _ _ _ _
             (tryAlloc_refused h size ro s obj _ Hobj
                (request_invalid ro size obj Hsize))).
  rewrite (bind_run _ _ _ _ _ (on_heap_same h get s obj (Returned obj) Hobj eq_refl)).
  rewrite decide_False by lia. cbv zeta. fold newSize. fold roSize.
  rewrite decide_False by lia.
  unfold bind at 1. unfold NThreadHeap.on_state at 1, modify. rewrite Hstate.
  cbn [fmap option_fmap option_map].
  unfold bind at 1. unfold NThreadHeap.new_heap.
  unfold bind at 1. unfold NThreadHeap.in_process.
  cbn [NThreadHeap.process NThreadHeap.state NThreadHeap.heaps].
  rewrite (create_run newSize roSize _ base0 w' Hro Hcall).
  rewrite decide_False by done.
  unfold NThreadHeap.on_state. unfold bind at 1 2 3. unfold get, modify, ret.
  cbn [NThreadHeap.process NThreadHeap.state NThreadHeap.heaps fmap
       option_fmap option_map NThreadHeap.push_prevHeap NThreadHeap.set_heap
       NThreadHeap.heap NThreadHeap.prevHeaps NThreadHeap.allocations].
  unfold NThreadHeap.allocFromFresh.
  match goal with
  | |- context [NThreadHeap.tryAlloc ?h' size ro] =>
      match goal with
      | |- _ ?s1 = _ =>
          assert (Hfresh : NThreadHeap.heaps s1 !! h'
                           = Some (Heap.make base0 newSize roSize
                                     (newSize - roSize)
                                     (length (NThread.regions
                                                (NThreadHeap.process s)))))
            by (cbn [NThreadHeap.heaps];
                by rewrite lookup_app_r, Nat.sub_diag by lia);
          rewrite (bind_run _ _ _ _ _
                     (tryAlloc_refused h' size ro s1 _ _ Hfresh
                        (request_invalid ro size _ Hsize)))
      end
  end.
  reflexivity.
Qed.

(** X24.  A growth that fails leaves the old heap listed twice: when the
    active heap refuses a request and may still grow, it is pushed to the
    previous heaps before the new block is requested, so when [calloc]
    returns NULL [allocFromHeap] throws with the old heap still the
    active one and also among the previous heaps; nothing else of the
    state changes. *)
Theorem allocFromHeap_failed_growth {W : Type} (P : ProxyThread W)
    (nt : NThreadHeap.t) (size : Z) (ro : bool) (s : NThreadHeap.St W)
    (ps : NThreadHeap.ProxyState) (h : nat) (obj : Heap.t)
    (e : Error) (w' : W) :
  NThreadHeap.state s = Some ps ->
  NThreadHeap.heap ps = Some h ->
  NThreadHeap.heaps s !! h = Some obj ->
  fst ((if ro then Heap.allocReadonly size else Heap.alloc size) obj)
  = Thrown e ->
  0 <= Heap.totalSize obj < NThreadHeap.maxSize nt ->
  let newSize := Z.min (Heap.totalSize obj * 2) (NThreadHeap.maxSize nt) in
  size <= newSize ->
  proxy_call (calloc crt)
    [ArgNumber (JsInt 1); ArgNumber (JsInt newSize)]
    (NThread.world (NThreadHeap.process s))
  = (Returned 0, w') ->
  NThreadHeap.allocFromHeap nt size ro s
  = (Thrown (PlainError "calloc returned NULL"),
     {| NThreadHeap.state :=
          Some {| NThreadHeap.heap := Some h;
                  NThreadHeap.prevHeaps := NThreadHeap.prevHeaps ps ++ [h];
                  NThreadHeap.allocations := NThreadHeap.allocations ps |};
        NThreadHeap.heaps := NThreadHeap.heaps s;
        NThreadHeap.process :=
          {| NThread.regions := NThread.regions (NThreadHeap.process s);
             NThread.world := w' |} |}).
Proof.
  intros Hstate Hheap Hobj Hrefused Htotal newSize Hfits Hcall.
  assert (Hnew : 0 <= newSize) by (subst newSize; lia).
  pose proof (calcRoSize_bounds newSize ro Hnew) as Hro.
  unfold NThreadHeap.allocFromHeap.
  rewrite (bind_run _ _ _ _ _ (getState_Some s ps Hstate)). rewrite Hheap.
  rewrite (bind_run _ _ _ _ _
             (tryAlloc_refused h size ro s obj _ Hobj Hrefused)).
  rewrite (bind_run _ _ _ _ _ (on_heap_same h get s obj (Returned obj) Hobj eq_refl)).
  rewrite decide_False by lia. cbv zeta. fold newSize.
  rewrite decide_False by lia.
  unfold bind at 1. unfold NThreadHeap.on_state at 1, modify. rewrite Hstate.
  cbn [fmap option_fmap option_map].
  unfold bind at 1. unfold NThreadHeap.new_heap.
  unfold bind at 1. unfold NThreadHeap.in_process.
  cbn [NThreadHeap.process NThreadHeap.state NThreadHeap.heaps].
  rewrite (create_run newSize _ _ 0 w' Hro Hcall).
  rewrite decide_True by done.
  unfold NThreadHeap.push_prevHeap. destruct ps; cbn in *. by subst.
Qed.

(** ** The gadget registry (globals.ts) *)

Module Gadgets.

Import Globals.

(** The gadgets registered for a register. *)
Definition class_of (reg : Reg.t) (values : list PushretEntry)
  : list PushretEntry :=
  filter (fun e => regKey e = reg) values.


Lemma random_index_bound (rnd : Q) (n : nat) :
  (0 <= rnd)%Q -> (rnd < 1)%Q -> (0 < n)%nat -> (random_index rnd n < n)%nat.
Proof.
  intros Hlo Hhi Hn. unfold random_index.
  set (x := (rnd * inject_Z (Z.of_nat n))%Q).
  assert (Hn' : (0 < inject_Z (Z.of_nat n))%Q).
  { rewrite <- (Zlt_Qlt 0). lia. }
  assert (Hx0 : (0 <= x)%Q).
  { subst x. apply Qmult_le_0_compat; [done | by apply Qlt_le_weak]. }
  assert (Hx1 : (x < inject_Z (Z.of_nat n))%Q).
  { subst x. rewrite <- (Qmult_1_l (inject_Z (Z.of_nat n))) at 2.
    by apply Qmult_lt_compat_r. }
  assert (Hge : 0 <= Qfloor x).
  { rewrite <- (Qfloor_Z 0). by apply Qfloor_resp_le. }
  assert (Hlt : Qfloor x < Z.of_nat n).
  { rewrite Zlt_Qlt. eapply Qle_lt_trans; [apply Qfloor_le | exact Hx1]. }
  lia.
Qed.


Lemma best_class_none regs values :
  (forall reg, reg ∈ regs -> class_of reg values = []) ->
  best_class regs values = values.
Proof.
  induction regs as [|r regs IH]; intros Hn; [done |].
  cbn. fold (class_of r values). rewrite (Hn r) by left. cbn.
  apply IH. intros reg Hin. apply Hn. by right.
Qed.

Section Selection.

Context `{Scanner}.

(** The registered gadgets as [getRandomPushretAddress] sees them: after
    the scan that an empty pool triggers. *)
Definition pool (g : t) : list PushretEntry :=
  snd <$> pushretAddresses
            (if decide (length (pushretAddresses g) = 0%nat)
             then autoDiscoverAddresses g else g).

(** The gadgets a call chooses among. *)
Definition candidates (regKey0 : option Reg.t) (g : t) : list PushretEntry :=
  match regKey0 with
  | Some key => class_of key (pool g)
  | None => best_class leastClobberedRegs (pool g)
  end.

Lemma getRandomPushretAddress_candidates regKey0 rnd g :
  fst (getRandomPushretAddress regKey0 rnd g) =
  candidates regKey0 g !! random_index rnd (length (candidates regKey0 g)).
Proof.
  unfold getRandomPushretAddress, candidates, pool. cbn zeta.
  set (g1 := if decide (length (pushretAddresses g) = 0%nat)
             then autoDiscoverAddresses g else g).
  destruct (decide (length (pushretAddresses g1) = 0%nat)) as [E|E].
  - apply length_zero_iff_nil in E. rewrite E, fmap_nil.
    destruct regKey0; [done |].
    rewrite best_class_none by done. done.
  - unfold class_of.
    set (c := match regKey0 with
              | Some key => filter (fun e => regKey e = key) (snd <$> pushretAddresses g1)
              | None => best_class leastClobberedRegs (snd <$> pushretAddresses g1)
              end).
    clearbody c.
    destruct (decide (length c = 0%nat)) as [E'|E']; cbn [fst]; [| done].
    apply length_zero_iff_nil in E'. subst c. done.
Qed.

End Selection.

End Gadgets.


(** ** The pools of gadgets (globals.ts) *)

Module Pools.

Import Globals.

Lemma map_set_keys key value m :
  (map_set key value m).*1
  = if decide (key ∈ m.*1) then m.*1 else m.*1 ++ [key].
Proof.
  induction m as [|[k v] m IH]; cbn.
  - rewrite decide_False; [done |]. apply not_elem_of_nil.
  - destruct (decide (k = key)) as [->|Hk]; cbn.
    + rewrite decide_True; [done |]. by left.
    + rewrite IH. destruct (decide (key ∈ m.*1)) as [Hin|Hout].
      * rewrite decide_True; [done |]. by right.
      * rewrite decide_False; [done |].
        intros Hin. apply elem_of_cons in Hin as [-> | Hin]; done.
Qed.

(** The addresses registered as pushret gadgets. *)
Definition keys (g : t) : list Z := (pushretAddresses g).*1.

Lemma keys_register a reg g x :
  x ∈ keys (registerPushretAddress a reg g) <-> x = a \/ x ∈ keys g.
Proof.
  unfold keys. cbn. rewrite map_set_keys.
  destruct (decide (a ∈ (pushretAddresses g).*1)) as [Hin|Hout].
  - split; [by right | by intros [-> | ?]].
  - rewrite elem_of_app, list_elem_of_singleton. tauto.
Qed.

Lemma foldl_registerSleep l g :
  foldl (fun g a => registerSleepAddress a g) g l
  = {| sleepAddresses := sleepAddresses g ++ l;
       pushretAddresses := pushretAddresses g;
       isAutoDiscovered := isAutoDiscovered g |}.
Proof.
  revert g. induction l as [|a l IH]; intros g; cbn.
  - rewrite app_nil_r. by destruct g.
  - rewrite IH. cbn. by rewrite <- app_assoc.
Qed.

Lemma foldl_registerPushret reg l g :
  let g' := foldl (fun g a => registerPushretAddress a reg g) g l in
  sleepAddresses g' = sleepAddresses g
  /\ isAutoDiscovered g' = isAutoDiscovered g
  /\ forall x, x ∈ keys g' <-> x ∈ keys g \/ x ∈ l.
Proof.
  revert g. induction l as [|a l IH]; intros g; cbn.
  - split; [done |]. split; [done |]. intros x. rewrite elem_of_nil. tauto.
  - destruct (IH (registerPushretAddress a reg g)) as (Hs & Hf & Hk).
    split; [by rewrite Hs |]. split; [by rewrite Hf |].
    intros x. rewrite Hk, keys_register, elem_of_cons. tauto.
Qed.

Section Scan.

Context `{Scanner}.

Lemma foldl_scan regs g :
  let g' :=
    foldl (fun g regKey0 =>
             foldl (fun g a => registerPushretAddress a regKey0 g) g
               (scan_pushret regKey0)) g regs in
  sleepAddresses g' = sleepAddresses g
  /\ isAutoDiscovered g' = isAutoDiscovered g
  /\ forall x, x ∈ keys g'
               <-> x ∈ keys g \/ exists reg, reg ∈ regs /\ x ∈ scan_pushret reg.
Proof.
  revert g. induction regs as [|reg regs IH]; intros g; cbn.
  - split; [done |]. split; [done |]. intros x. split; [by left |].
    intros [? | (reg & Hin & _)]; [done | by apply elem_of_nil in Hin].
  - destruct (foldl_registerPushret reg (scan_pushret reg) g) as (Hs1 & Hf1 & Hk1).
    cbn zeta in Hs1, Hf1, Hk1.
    destruct (IH (foldl (fun g a => registerPushretAddress a reg g) g
                    (scan_pushret reg))) as (Hs & Hf & Hk).
    split; [by rewrite Hs |]. split; [by rewrite Hf |].
    intros x. rewrite Hk, Hk1. split.
    + intros [[? | ?] | (r & Hin & Hx)]; [by left | ..].
      * right. exists reg. split; [by left | done].
      * right. exists r. split; [by right | done].
    + intros [? | (r & Hin & Hx)]; [by left; left |].
      apply elem_of_cons in Hin as [-> | Hin]; [by left; right |].
      right. eauto.
Qed.

(** The registry after the scan. *)
Lemma autoDiscoverAddresses_fresh g :
  isAutoDiscovered g = false ->
  let g1 := autoDiscoverAddresses g in
  isAutoDiscovered g1 = true
  /\ sleepAddresses g1 = sleepAddresses g ++ scan_sleep
  /\ forall x, x ∈ keys g1
               <-> x ∈ keys g
                   \/ exists reg, reg ∈ leastClobberedRegs /\ x ∈ scan_pushret reg.
Proof.
  intros Hflag. unfold autoDiscoverAddresses. rewrite Hflag. cbn zeta.
  rewrite foldl_registerSleep.
  match goal with
  | |- context [foldl _ ?g0 leastClobberedRegs] =>
      destruct (foldl_scan leastClobberedRegs g0) as (Hs & Hf & Hk)
  end.
  cbn zeta in Hs, Hf, Hk. split; [done |]. split; [exact Hs |].
  intros x. unfold keys at 1. cbn [pushretAddresses].
  exact (Hk x).
Qed.

End Scan.

End Pools.

(** X14.  The scan runs once: [autoDiscoverAddresses] sets its flag and a
    second run changes nothing.  The first run appends the scanned sleep
    addresses to the pool and registers the pushret gadgets scanned for
    [Rbx], [Rbp], [Rdi] and [Rsi], and those only, keeping the addresses
    registered before. *)
Theorem autoDiscoverAddresses_once `{Scanner} (g : Globals.t) :
  let g1 := Globals.autoDiscoverAddresses g in
  Globals.isAutoDiscovered g1 = true
  /\ Globals.autoDiscoverAddresses g1 = g1
  /\ (Globals.isAutoDiscovered g = true -> g1 = g)
  /\ (Globals.isAutoDiscovered g = false ->
      Globals.sleepAddresses g1 = Globals.sleepAddresses g ++ scan_sleep
      /\ forall x,
           x ∈ Pools.keys g1
           <-> x ∈ Pools.keys g
               \/ exists reg,
                    reg ∈ [Reg.Rbx; Reg.Rbp; Reg.Rdi; Reg.Rsi]
                    /\ x ∈ scan_pushret reg).
Proof.
  cbn zeta.
  assert (Hflag : Globals.isAutoDiscovered (Globals.autoDiscoverAddresses g)
                  = true).
  { destruct (Globals.isAutoDiscovered g) eqn:E.
    - unfold Globals.autoDiscoverAddresses. by rewrite E.
    - by destruct (Pools.autoDiscoverAddresses_fresh g E) as (? & _). }
  split; [exact Hflag |]. split.
  { unfold Globals.autoDiscoverAddresses at 1. by rewrite Hflag. }
  split.
  - intros E. unfold Globals.autoDiscoverAddresses. by rewrite E.
  - intros E. by destruct (Pools.autoDiscoverAddresses_fresh g E) as (_ & ? & ?).
Qed.

(** X15.  The sleep address comes from the pool: for a draw of
    [Math.random()] in [0, 1), [getRandomSleepAddress] returns the address
    at index [floor(rnd * n)] of the [n] addresses of the pool; it scans
    only when the pool is empty, and returns nothing only when the pool is
    empty after the scan. *)
Theorem getRandomSleepAddress_member `{Scanner} (rnd : Q) (g : Globals.t) :
  (0 <= rnd)%Q -> (rnd < 1)%Q ->
  let result := fst (Globals.getRandomSleepAddress rnd g) in
  let g' := snd (Globals.getRandomSleepAddress rnd g) in
  g' = (if decide (Globals.sleepAddresses g = [])
        then Globals.autoDiscoverAddresses g else g)
  /\ result
     = Globals.sleepAddresses g'
         !! Globals.random_index rnd (length (Globals.sleepAddresses g'))
  /\ (Globals.sleepAddresses g' <> [] ->
      exists a, result = Some a /\ a ∈ Globals.sleepAddresses g')
  /\ (Globals.sleepAddresses g' = [] -> result = None).
Proof.
  intros Hlo Hhi. cbn zeta. unfold Globals.getRandomSleepAddress.
  set (g1 := if decide (length (Globals.sleepAddresses g) = 0%nat)
             then Globals.autoDiscoverAddresses g else g).
  assert (Hg1 : g1 = if decide (Globals.sleepAddresses g = [])
                     then Globals.autoDiscoverAddresses g else g).
  { subst g1. destruct (Globals.sleepAddresses g); cbn; done. }
  destruct (decide (length (Globals.sleepAddresses g1) = 0%nat)) as [E|E];
    cbn [fst snd].
  - apply length_zero_iff_nil in E. split; [exact Hg1 |].
    rewrite E. split; [done |]. split; [done | done].
  - split; [exact Hg1 |]. split; [done |]. split; [| intros E'; by rewrite E' in E].
    intros _.
    destruct (lookup_lt_is_Some_2 (Globals.sleepAddresses g1)
                (Globals.random_index rnd (length (Globals.sleepAddresses g1))))
      as [a Ha].
    { apply Gadgets.random_index_bound; [done.. | lia]. }
    exists a. split; [done |]. by eapply list_elem_of_lookup_2.
Qed.

(** ** The constructor (nthread.ts) *)

Section Constructor.

Context `{Scanner}.

Lemma best_class_subset regs values e :
  e ∈ Globals.best_class regs values -> e ∈ values.
Proof.
  induction regs as [|r regs IH]; cbn; [done |].
  destruct (decide _); [| exact IH].
  intros Hin. by apply list_elem_of_filter in Hin as [_ ?].
Qed.

(** The registry grows only: a sleep address of the pool stays in it. *)
Lemma autoDiscoverAddresses_sleep g a :
  a ∈ Globals.sleepAddresses g ->
  a ∈ Globals.sleepAddresses (Globals.autoDiscoverAddresses g).
Proof.
  intros Hin. destruct (Globals.isAutoDiscovered g) eqn:E.
  - unfold Globals.autoDiscoverAddresses. by rewrite E.
  - destruct (Pools.autoDiscoverAddresses_fresh g E) as (_ & -> & _).
    apply elem_of_app. by left.
Qed.

Lemma getRandomPushretAddress_state regKey0 rnd g :
  snd (Globals.getRandomPushretAddress regKey0 rnd g)
  = if decide (length (Globals.pushretAddresses g) = 0%nat)
    then Globals.autoDiscoverAddresses g else g.
Proof.
  unfold Globals.getRandomPushretAddress. cbn zeta.
  repeat (destruct (decide _)); done.
Qed.

Lemma getRandomPushretAddress_Some regKey0 rnd g e :
  fst (Globals.getRandomPushretAddress regKey0 rnd g) = Some e ->
  e ∈ (Globals.pushretAddresses
         (snd (Globals.getRandomPushretAddress regKey0 rnd g))).*2
  /\ forall key, regKey0 = Some key -> Globals.regKey e = key.
Proof.
  rewrite Gadgets.getRandomPushretAddress_candidates,
    getRandomPushretAddress_state.
  intros He. apply list_elem_of_lookup_2 in He.
  unfold Gadgets.candidates, Gadgets.pool in He.
  destruct regKey0 as [key|].
  - apply list_elem_of_filter in He as [Hk Hin]. split; [done |].
    by intros key' [= <-].
  - apply best_class_subset in He. split; [done | done].
Qed.

End Constructor.

(** X16.  What the constructor resolves: an explicit sleep address is
    taken as it is, otherwise the address is one of the pool; an explicit
    pushret address is taken as it is, with the register given or [Rbp];
    otherwise address and register are those of one registered gadget, of
    the register asked for when one is.  With both addresses given the
    registry is not touched.  The constructor fails only with
    [NoSleepAddressError], when no sleep address was given and (for a draw
    in [0, 1)) the pool is empty after the scan, or with
    [NoPushretAddressError], when no pushret address was given. *)
Theorem create_resolves_gadgets `{Scanner}
    (sleepAddress0 pushretAddress0 : option Z) (regKey0 : option Reg.t)
    (rndSleep rndPushret : Q) (g : Globals.t) :
  (0 <= rndSleep)%Q -> (rndSleep < 1)%Q ->
  let run :=
    NThread.create sleepAddress0 pushretAddress0 regKey0 rndSleep rndPushret g in
  match fst run with
  | Returned nt =>
      match sleepAddress0 with
      | Some a => NThread.sleepAddress nt = a
      | None => NThread.sleepAddress nt ∈ Globals.sleepAddresses (snd run)
      end
      /\ match pushretAddress0 with
         | Some a =>
             NThread.pushretAddress nt = a
             /\ NThread.regKey nt = default Reg.Rbp regKey0
         | None =>
             (exists e,
                 e ∈ (Globals.pushretAddresses (snd run)).*2
                 /\ Globals.pointer e = NThread.pushretAddress nt
                 /\ Globals.regKey e = NThread.regKey nt)
             /\ forall key, regKey0 = Some key -> NThread.regKey nt = key
         end
  | Thrown e =>
      e = NoSleepAddressError /\ sleepAddress0 = None
      /\ Globals.sleepAddresses (snd run) = []
      \/ e = NoPushretAddressError /\ pushretAddress0 = None
  end
  /\ (is_Some sleepAddress0 -> is_Some pushretAddress0 -> snd run = g).
Proof.
  intros Hlo Hhi. cbn zeta. unfold NThread.create, bind.
  destruct sleepAddress0 as [sa|].
  - cbn [ret]. destruct pushretAddress0 as [pa|]; cbn [ret fst snd].
    + split; [done | done].
    + destruct (Globals.getRandomPushretAddress regKey0 rndPushret g)
        as [[e|] g'] eqn:Hp; cbn [fst snd].
      * pose proof (getRandomPushretAddress_Some regKey0 rndPushret g e) as He.
        rewrite Hp in He. cbn [fst snd] in He.
        destruct (He eq_refl) as [Hin Hkey].
        split; [| by intros _ [? [=]]]. split; [done |]. split; [by eauto |].
        exact Hkey.
      * split; [by right | by intros _ [? [=]]].
  - destruct (getRandomSleepAddress_member rndSleep g Hlo Hhi)
      as (Hg1 & Hres & Hsome & Hnone). cbn zeta in Hg1, Hres, Hsome, Hnone.
    destruct (Globals.getRandomSleepAddress rndSleep g) as [[a|] g1] eqn:Hs;
      cbn [fst snd] in *.
    + assert (Ha : a ∈ Globals.sleepAddresses g1).
      { symmetry in Hres. by apply list_elem_of_lookup_2 in Hres. }
      destruct pushretAddress0 as [pa|]; cbn [ret fst snd].
      * split; [done | by intros [? [=]]].
      * pose proof (getRandomPushretAddress_state regKey0 rndPushret g1) as Hst.
        destruct (Globals.getRandomPushretAddress regKey0 rndPushret g1)
          as [[e|] g'] eqn:Hp; cbn [fst snd] in *.
        -- pose proof (getRandomPushretAddress_Some regKey0 rndPushret g1 e) as He.
           rewrite Hp in He. cbn [fst snd] in He.
           destruct (He eq_refl) as [Hin Hkey].
           cbn [NThread.sleepAddress NThread.pushretAddress NThread.regKey].
           split; [| by intros [? [=]]]. split.
           { rewrite Hst.
             destruct (decide (length (Globals.pushretAddresses g1) = 0%nat));
               [| exact Ha].
             by apply autoDiscoverAddresses_sleep. }
           split; [by eauto | exact Hkey].
        -- split; [by right | by intros [? [=]]].
    + split; [| by intros [? [=]]]. left. split; [done |]. split; [done |].
      destruct (Globals.sleepAddresses g1) as [|x l] eqn:E; [done |].
      destruct (Hsome ltac:(done)) as (a & [=] & _).
Qed.

(** * Examples *)

(** A run is its outcome paired with its final state. *)
Lemma run_eta {A S} (p : Outcome A * S) (a : Outcome A) :
  fst p = a -> p = (a, snd p).
Proof. destruct p. cbn. by intros ->. Qed.

(** C6 on the simulated thread: [inject] parks it and stores a call stack
    pointer 8 below a 16-aligned address at least 8192 below its [Rsp]. *)
Lemma C6_stack_safety_witness :
  let run := NThread.inject Sim.orchestrator Sim.busy in
  fst run = Returned tt
  /\ CT.callRsp (CT.self (snd run)) = 0x7ffdeff8
  /\ CT.callRsp (CT.self (snd run)) `mod` 16 = 8.
Proof.
  intros run.
  assert (Hfst : fst run = Returned tt).
  { vm_compute. reflexivity. }
  pose proof (run_eta run (Returned tt) Hfst) as Hinj.
  destruct (proj2 C6_stack_safety Sim.Thread Sim.thread Sim.orchestrator
              Sim.busy (snd run) Hinj)
    as (r & orig & os1 & os2 & _ & _ & _ & _ & _ & Hmod).
  split; [exact Hfst |].
  split; [vm_compute; reflexivity | exact Hmod].
Defined.

(** C3 on the parked thread: a call of the adding function with three
    arguments loads them, jumps to the function on the call stack and
    returns the sum. *)
Lemma C3_threadCall_registers_witness :
  let args := [ArgBigInt 1; ArgNumber (JsInt 2); ArgPointer 3] in
  let call := NThread.threadCall Sim.orchestrator Sim.ADD4 args 1000 Sim.parked in
  (length args <= 4)%nat
  /\ fst call = Returned 6
  /\ exists fetched applied final,
       Rcx applied = 1 /\ Rdx applied = 2 /\ R8 applied = 3
       /\ R9 applied = R9 fetched
       /\ Rip applied = Sim.ADD4
       /\ Rsp applied = 0x7ffdeff8
       /\ Rip final = Sim.SLEEP
       /\ Rax final = 6.
Proof.
  intros args call.
  assert (Hlen : (length args <= 4)%nat) by (cbn; lia).
  assert (Hfst : fst call = Returned 6) by (vm_compute; reflexivity).
  pose proof (run_eta call (Returned 6) Hfst) as Hcall.
  split; [exact Hlen |]. split; [exact Hfst |].
  destruct (C3_threadCall_registers Sim.Thread Sim.thread Sim.orchestrator
              Sim.ADD4 args 1000 Sim.parked (snd call) 6 Hlen Hcall)
    as (r1 & os1 & fetched & os2 & applied & os3 & r2 & os4 & final & os5
        & _ & _ & _ & _ & Hrcx & Hrdx & Hr8 & Hr9 & Hrip & Hrsp & _ & Hsleep & Hrax).
  exists fetched, applied, final.
  cbn in Hrcx, Hrdx, Hr8, Hr9.
  injection Hrcx as Hrcx. injection Hrdx as Hrdx. injection Hr8 as Hr8.
  split; [symmetry; exact Hrcx |]. split; [symmetry; exact Hrdx |].
  split; [symmetry; exact Hr8 |]. split; [exact Hr9 |].
  split; [exact Hrip |].
  split; [rewrite Hrsp; vm_compute; reflexivity |].
  split; [rewrite Hsleep; vm_compute; reflexivity |].
  symmetry; exact Hrax.
Defined.

(** C4 on the simulated thread: five arguments are refused; a thread that
    was never parked is resumed and reported; a call of [ExitThread]
    ends the thread and is reported as such. *)
Lemma C4_threadCall_errors_witness :
  let five := replicate 5 (ArgBigInt 0) in
  let fresh := {| CT.self := CT.create Reg.Rbx Sim.SLEEP; CT.os := Sim.busy |} in
  NThread.threadCall Sim.orchestrator Sim.ADD4 five 1000 Sim.parked
  = (Thrown (CallTooManyArgsError 5), Sim.parked)
  /\ (exists s',
        NThread.threadCall Sim.orchestrator Sim.ADD4 [] 1000 fresh
        = (Thrown (CallRipMismatchError Sim.ADD4 0x1234 Sim.SLEEP), s')
        /\ CT.os s' = Sim.busy)
  /\ fst (NThread.threadCall Sim.orchestrator Sim.EXIT [ArgBigInt 0] 1000 Sim.parked)
     = Thrown (CallThreadDiedError Sim.EXIT).
Proof.
  intros five fresh. split; [| split].
  - destruct (C4_threadCall_errors Sim.Thread Sim.thread Sim.orchestrator
                Sim.ADD4 five 1000 Sim.parked) as (Hmany & _ & _).
    apply Hmany. cbn. lia.
  - destruct (C4_threadCall_errors Sim.Thread Sim.thread Sim.orchestrator
                Sim.ADD4 [] 1000 fresh) as (_ & Hmismatch & _).
    destruct (Hmismatch 1 Sim.busy (Sim.context Sim.busy) Sim.busy 1
                (Sim.run Sim.busy))
      as (s' & Hcall & Hos & _);
      [cbn; lia | reflexivity | reflexivity | vm_compute; discriminate
      | reflexivity |].
    exists s'. split; [exact Hcall | rewrite Hos; reflexivity].
  - destruct (C4_threadCall_errors Sim.Thread Sim.thread Sim.orchestrator
                Sim.EXIT [ArgBigInt 0] 1000 Sim.parked) as (_ & _ & Hdied).
    set (d := dispatch Sim.orchestrator Sim.EXIT [ArgBigInt 0] Sim.parked).
    assert (Hd : fst d = Returned tt) by (vm_compute; reflexivity).
    set (wt := CT.wait 1000 (snd d)).
    assert (Hw : fst wt = Returned FAILED) by (vm_compute; reflexivity).
    rewrite (Hdied (snd d) FAILED (snd wt) ltac:(cbn; lia)
               (run_eta d _ Hd) (run_eta wt _ Hw) ltac:(discriminate)).
    reflexivity.
Defined.

(** C8 on a heap of 1024 bytes: three neighbouring blocks freed in the
    order first, last, middle end up as one free block. *)
Lemma C8_free_list_coalescing_witness :
  let ops := [HeapRun.OpAlloc 16; HeapRun.OpAlloc 32; HeapRun.OpAlloc 16;
              HeapRun.OpAllocReadonly 8; HeapRun.OpFree 0; HeapRun.OpFree 2;
              HeapRun.OpFree 0; HeapRun.OpFree 0] in
  let h := fst (HeapRun.run ops (Heap.make 0x10000 1024 512 512 0, [])) in
  0 <= 512
  /\ Heap.rwFreeList h = [{| FreeBlock.offset := 0; FreeBlock.size := 64 |}]
  /\ HeapFacts.coalesced (Heap.roFreeList h)
  /\ HeapFacts.coalesced (Heap.rwFreeList h).
Proof.
  intros ops h. split; [lia |]. split; [vm_compute; reflexivity |].
  apply (C8_free_list_coalescing 0x10000 1024 512 512 0%nat ops); lia.
Defined.

(** The simulated [memset] fills its range when it does not give up. *)
Lemma sim_memset_writes : memset_writes (H := Sim.proxy) Sim.memory.
Proof.
  intros addr value runLen w a w'. unfold NThread.call_memset. cbn.
  unfold Sim.call. rewrite decide_True by done.
  destruct (decide (addr ∈ Sim.refused w)); [by intros [= <- _] |].
  intros [= <- <-] _ x. cbn. unfold Sim.fill, Sim.byte_of, byte_value.
  rewrite N2Z.id, Byte.of_to_N. done.
Qed.

(** The same for a run of the writer with its log. *)
Lemma traced_run_eta {W A} (p : Outcome A * NThread.St (W * list CallEvent))
    (a : Outcome A) :
  fst p = a ->
  p = (a, {| NThread.regions := NThread.regions (snd p);
             NThread.world := (fst (NThread.world (snd p)),
                               snd (NThread.world (snd p))) |}).
Proof. destruct p as [r [regs [w log]]]. cbn. by intros ->. Qed.





(** C2 on the simulated process: three bytes in two runs, written away
    from the region; two memsets are logged, one for each run, and the
    length of the buffer is returned. *)
Lemma C2_plain_run_length_witness :
  let data := [x01; x01; x02] in
  let run :=
    @NThread.writeMemory _ (traced Sim.proxy) 200 data
      {| NThread.regions := [six_zeros];
         NThread.world := (Sim.blank [], []) |} in
  let log := snd (NThread.world (snd run)) in
  maximal_runs data
  = [{| run_offset := 0; run_value := x01; run_length := 2 |};
     {| run_offset := 2; run_value := x02; run_length := 1 |}]
  /\ log = [memset_event Sim.proxy 200 x01 2 (Returned 200);
            memset_event Sim.proxy 202 x02 1 (Returned 202)]
  /\ Forall succeeded log
  /\ fst run = Returned (length data)
  /\ length log = length (maximal_runs data).
Proof.
  intros data run log.
  assert (Hlog : log = [memset_event Sim.proxy 200 x01 2 (Returned 200);
                        memset_event Sim.proxy 202 x02 1 (Returned 202)])
    by (vm_compute; reflexivity).
  assert (Hs : Forall succeeded log).
  { rewrite Hlog. repeat constructor; eexists; (split; [reflexivity | done]). }
  split; [vm_compute; reflexivity |]. split; [exact Hlog |].
  split; [exact Hs |].
  destruct (C2_plain_run_length Sim.proxy [six_zeros] 200 data (Sim.blank [])
              (fst run) _ ltac:(discriminate) ltac:(vm_compute; reflexivity)
              (traced_run_eta run _ eq_refl))
    as (_ & Hall & _).
  apply Hall. exact Hs.
Defined.



(** C7.  A request of 100 bytes to an orchestrator whose heap blocks hold
    at most 16: [allocFromHeap] cannot serve it, the address comes from
    the CRT [malloc], and afterwards the allocations map has no entry for
    it, CRT-backed or other; a [threadFree] of the address calls the CRT
    [free]. *)
Theorem C7_fallback_not_recorded :
  let fresh : NThreadHeap.St (Sim.Process * list CallEvent) :=
    {| NThreadHeap.state := None;
       NThreadHeap.heaps := [];
       NThreadHeap.process :=
         {| NThread.regions := []; NThread.world := (Sim.blank [], []) |} |} in
  let alloc :=
    @NThreadHeap.threadAlloc _ (traced Sim.proxy) small_heap 100 None fresh in
  let freed :=
    @NThreadHeap.threadFree _ (traced Sim.proxy) 0x100000 (snd alloc) in
  fst (@NThreadHeap.allocFromHeap _ (traced Sim.proxy) small_heap 100 false fresh)
  = Returned None
  /\ fst alloc = Returned 0x100000
  /\ HeapHooks.recorded (snd alloc) 0x100000 = None
  /\ HeapHooks.recorded (snd alloc) 0x100000 <> Some NThreadHeap.Super
  /\ fst freed = Returned tt
  /\ snd (NThread.world (NThreadHeap.process (snd freed)))
     = [{| called := malloc Sim.table; passed := [ArgBigInt 100];
           outcome := Returned 0x100000 |};
        {| called := free Sim.table; passed := [ArgBigInt 0x100000];
           outcome := Returned 0 |}].
Proof.
  intros fresh alloc freed.
  assert (Hnone : HeapHooks.recorded (snd alloc) 0x100000 = None)
    by (vm_compute; reflexivity).
  split; [vm_compute; reflexivity |]. split; [vm_compute; reflexivity |].
  split; [exact Hnone |]. split; [rewrite Hnone; discriminate |].
  split; vm_compute; reflexivity.
Qed.

(** The same request through the general statement. *)
Lemma threadAlloc_fallback_example :
  let heap := NThreadHeap.allocFromHeap small_heap 100 false untouched in
  let alloc := NThreadHeap.threadAlloc small_heap 100 None untouched in
  fst heap = Returned None
  /\ fst alloc = Returned 0x100000
  /\ HeapHooks.recorded (snd alloc) 0x100000 = None
  /\ fst (NThreadHeap.threadFree 0x100000 (snd alloc)) = Returned tt.
Proof.
  intros heap alloc.
  assert (Hheap : fst heap = Returned None) by (vm_compute; reflexivity).
  assert (Halloc : fst alloc = Returned 0x100000) by (vm_compute; reflexivity).
  split; [exact Hheap |]. split; [exact Halloc |].
  destruct (threadAlloc_fallback Sim.proxy small_heap 100 None untouched
              (snd heap) 0x100000 (snd alloc) eq_refl
              (run_eta heap _ Hheap) (run_eta alloc _ Halloc))
    as (_ & Hsame & Hfree).
  assert (Hnone : HeapHooks.recorded (snd alloc) 0x100000 = None).
  { rewrite Hsame. reflexivity. }
  split; [exact Hnone |].
  rewrite (Hfree (snd alloc) (or_introl Hnone)). vm_compute. reflexivity.
Qed.



(** ** More examples *)

(** The simulated thread is taken at [Rip = 0x1234]; the saved context
    holds that address and the original stack pointer. *)
Lemma inject_saves_original_context_witness :
  let inj := NThread.inject Sim.orchestrator Sim.busy in
  fst inj = Returned tt
  /\ exists k c,
       CT.savedContext (CT.self (snd inj)) = Some k
       /\ CT.latestContext (CT.self (snd inj)) = Some k
       /\ CT.contexts (CT.self (snd inj)) !! k = Some c
       /\ Rip c = 0x1234
       /\ Rsp c = 0x7ffe1004.
Proof.
  intros inj.
  assert (Hfst : fst inj = Returned tt) by (vm_compute; reflexivity).
  split; [exact Hfst |].
  destruct (inject_saves_original_context Sim.Thread Sim.thread
              Sim.orchestrator Sim.busy (snd inj) (run_eta inj _ Hfst))
    as (r & orig & os1 & os2 & k & c & Hsus & Hget & Hs & Hl & Hc
        & Hrip & Hrsp & _).
  injection Hsus as _ <-. injection Hget as <- _.
  exists k, c. split; [exact Hs |]. split; [exact Hl |]. split; [exact Hc |].
  split; [rewrite Hrip; reflexivity | rewrite Hrsp; reflexivity].
Defined.

(** The simulated thread after a call of the adding function and a
    release: it runs again at [Rip = 0x1234] on its own stack. *)
Lemma release_restores_original_witness :
  let inj := NThread.inject Sim.orchestrator Sim.busy in
  let cs := [(Sim.ADD4, [ArgBigInt 1; ArgBigInt 2], 1000)] in
  let rel := CT.release (calls Sim.orchestrator cs (snd inj)) in
  fst inj = Returned tt
  /\ fst rel = Returned tt
  /\ Rip (Sim.context (CT.os (snd rel))) = 0x1234
  /\ Rsp (Sim.context (CT.os (snd rel))) = 0x7ffe1004
  /\ exists applied os3 os4 r2,
       native_setContext applied os3 = (Returned tt, os4)
       /\ native_resume os4 = (Returned r2, CT.os (snd rel))
       /\ Rip applied = 0x1234
       /\ Rsp applied = 0x7ffe1004.
Proof.
  intros inj cs rel.
  assert (Hinj : fst inj = Returned tt) by (vm_compute; reflexivity).
  assert (Hrel : fst rel = Returned tt) by (vm_compute; reflexivity).
  split; [exact Hinj |]. split; [exact Hrel |].
  split; [vm_compute; reflexivity |]. split; [vm_compute; reflexivity |].
  destruct (release_restores_original Sim.Thread Sim.thread Sim.orchestrator
              Sim.busy cs (snd inj) (snd rel)
              (run_eta inj _ Hinj) (run_eta rel _ Hrel))
    as (r & orig & os1 & os2 & applied & r1 & os3 & os4 & r2
        & Hsus & Hget & _ & Hset & Hres & Hrip & Hrsp & _).
  injection Hsus as _ <-. injection Hget as <- _.
  exists applied, os3, os4, r2.
  split; [exact Hset |]. split; [exact Hres |].
  split; [rewrite Hrip; reflexivity | rewrite Hrsp; reflexivity].
Defined.

(** On the parked thread a call whose second argument is not an integer
    fails with a [RangeError] and leaves the thread as the suspend found
    it. *)
Lemma threadCall_non_integer_argument_witness :
  let args := [ArgBigInt 1; ArgNumber JsNonInt] in
  let call := NThread.threadCall Sim.orchestrator Sim.ADD4 args 1000 Sim.parked in
  (length args <= 4)%nat
  /\ ArgNumber JsNonInt ∈ args
  /\ fst call = Thrown RangeError
  /\ CT.os (snd call) = CT.os Sim.parked.
Proof.
  intros args call.
  assert (Hlen : (length args <= 4)%nat) by (cbn; lia).
  assert (Hin : ArgNumber JsNonInt ∈ args).
  { apply elem_of_cons. right. apply elem_of_cons. by left. }
  split; [exact Hlen |]. split; [exact Hin |].
  set (os0 := CT.os Sim.parked).
  assert (Hget : native_getContext os0 = (Returned (Sim.context os0), os0))
    by (vm_compute; reflexivity).
  assert (Hrip : Rip (Sim.context os0) = NThread.sleepAddress Sim.orchestrator)
    by (vm_compute; reflexivity).
  destruct (threadCall_non_integer_argument Sim.Thread Sim.thread
              Sim.orchestrator Sim.ADD4 args 1000 Sim.parked 1 os0
              (Sim.context os0) os0 Hlen Hin eq_refl Hget Hrip)
    as (s' & Hcall & Hos & _).
  fold call in Hcall. rewrite Hcall. split; [reflexivity | exact Hos].
Defined.

(** X4 on a heap of 256 bytes with two blocks in each zone. *)
Lemma heap_allocations_apart_witness :
  let ops := [HeapRun.OpAllocReadonly 32; HeapRun.OpAllocReadonly 32;
              HeapRun.OpAlloc 48; HeapRun.OpAlloc 32] in
  let live := snd (HeapRun.run ops (Heap.make 0x10000 256 128 128 0, [])) in
  0 <= 128
  /\ length live = 4%nat
  /\ (forall a, a ∈ live ->
        0 < HeapAlloc.size a
        /\ (0x10000 <= HeapAlloc.remote a
            /\ HeapAlloc.remote a + HeapAlloc.size a <= 0x10000 + 128
            \/ 0x10000 + 128 <= HeapAlloc.remote a
               /\ HeapAlloc.remote a + HeapAlloc.size a
                  <= 0x10000 + 128 + 128))
  /\ (forall i j a b,
        i ≠ j -> live !! i = Some a -> live !! j = Some b ->
        HeapAlloc.remote a + HeapAlloc.size a <= HeapAlloc.remote b
        \/ HeapAlloc.remote b + HeapAlloc.size b <= HeapAlloc.remote a).
Proof.
  intros ops live. split; [lia |]. split; [vm_compute; reflexivity |].
  apply (heap_allocations_apart 0x10000 256 128 128 0%nat ops); lia.
Defined.

(** X5 on the same heap after its first readonly block is freed: 32 + 64
    bytes are available in the readonly zone and 32 are outstanding. *)
Lemma heap_accounting_witness :
  let ops := [HeapRun.OpAllocReadonly 32; HeapRun.OpAllocReadonly 32;
              HeapRun.OpAlloc 48; HeapRun.OpAlloc 32; HeapRun.OpFree 3] in
  let r := HeapRun.run ops (Heap.make 0x10000 256 128 128 0, []) in
  0 <= 128
  /\ Heap.roAvailable (fst r) = 96
  /\ Heap.roAvailable (fst r)
     + HeapMore.live_bytes 0x10000 (0x10000 + 128) (snd r) = 128
  /\ Heap.rwAvailable (fst r)
     + HeapMore.live_bytes (0x10000 + 128) (0x10000 + 128 + 128) (snd r)
     = 128.
Proof.
  intros ops r. split; [lia |]. split; [vm_compute; reflexivity |].
  apply (heap_accounting 0x10000 256 128 128 0%nat ops); lia.
Defined.

(** X6 on the same heap: the first readonly block, of 32 bytes at the
    base, is freed and a request of 16 bytes gets the base again. *)
Lemma heap_reuse_after_free_witness :
  let ops := [HeapRun.OpAllocReadonly 32; HeapRun.OpAllocReadonly 32;
              HeapRun.OpAlloc 48; HeapRun.OpAlloc 32] in
  let r := HeapRun.run ops (Heap.make 0x10000 256 128 128 0, []) in
  let a := {| HeapAlloc.remote := 0x10000; HeapAlloc.size := 32 |} in
  snd r !! 3%nat = Some a
  /\ 0 < 16 <= HeapAlloc.size a
  /\ fst (Heap.free a (fst r)) = Returned tt
  /\ exists c h2,
       Heap.allocReadonly 16 (snd (Heap.free a (fst r))) = (Returned c, h2)
       /\ HeapAlloc.size c = 16
       /\ 0x10000 <= HeapAlloc.remote c <= HeapAlloc.remote a
       /\ Heap.roRemaining h2 = Heap.roRemaining (fst r).
Proof.
  intros ops r a.
  assert (Hk : snd r !! 3%nat = Some a) by (vm_compute; reflexivity).
  assert (Hreq : 0 < 16 <= HeapAlloc.size a) by (cbn; lia).
  split; [done |]. split; [done |].
  exact (heap_reuse_after_free 0x10000 256 128 128 0%nat ops 3%nat a 16
           ltac:(lia) ltac:(lia) Hk Hreq).
Defined.

(** A heap of 256 bytes, half of them readonly, on the simulated process:
    the block starts at the break, and the registry holds its first 128
    bytes as zeros. *)
Lemma heap_create_outcome_witness :
  let s := {| NThread.regions := [six_zeros]; NThread.world := Sim.blank [] |} in
  let run := @Heap.create _ heap_proxy 256 None s in
  exists h,
    fst run = Returned h
    /\ Heap.base h = 0x100000
    /\ Heap.roAvailable h = 128
    /\ Heap.rwAvailable h = 128
    /\ NThread.regions (snd run)
       = [six_zeros;
          {| Romem.remote := 0x100000; Romem.local := replicate 128 x00 |}].
Proof.
  intros s run.
  set (h := Heap.make 0x100000 256 128 128 1).
  assert (Hfst : fst run = Returned h) by (vm_compute; reflexivity).
  pose proof (heap_create_outcome heap_proxy 256 None s (Returned h) (snd run)
                (run_eta run _ Hfst)) as Hout.
  cbn zeta in Hout. destruct Hout as (_ & _ & _ & _ & Hro & Hrw & Hregs).
  exists h. split; [exact Hfst |]. split; [reflexivity |].
  split; [exact Hro |]. split; [exact Hrw |]. exact Hregs.
Defined.

(** The fill value 0 on the zeroed process: of the source [0; 1; 1] at
    address 100 only the run of ones is written. *)
Lemma writeMemorySafe_memory_witness :
  let source := [x00; x01; x01] in
  let run :=
    @NThread.writeMemorySafe _ (traced Sim.proxy) 100 source
      (NThread.LastFill (JsInt 0)) (Sim.blank [], []) in
  fst run = Returned 3%nat
  /\ length (snd (snd run)) = 1%nat
  /\ written (fun wl => Sim.memory (fst wl)) 100 source 100 (100 + 3)
       (Sim.blank [], []) (snd run).
Proof.
  intros source run.
  assert (Hfst : fst run = Returned 3%nat) by (vm_compute; reflexivity).
  split; [exact Hfst |]. split; [vm_compute; reflexivity |].
  apply (writeMemorySafe_memory (traced Sim.proxy)
           (fun wl => Sim.memory (fst wl)) 100 source
           (NThread.LastFill (JsInt 0))).
  - exact (traced_memset_writes Sim.proxy Sim.memory sim_memset_writes).
  - intros k Hk. reflexivity.
  - exact (run_eta run _ Hfst).
Defined.

(** A write of four bytes from address 98 on, the last two of which fall
    in the region: two memsets, both inside [98, 102). *)
Lemma writeMemory_stays_in_range_witness :
  let data := [x01; x01; x02; x02] in
  let run :=
    @NThread.writeMemory _ (traced Sim.proxy) 98 data
      {| NThread.regions := [six_zeros];
         NThread.world := (Sim.blank [], []) |} in
  fst run = Returned 4%nat
  /\ length (snd (NThread.world (snd run))) = 2%nat
  /\ Forall (fun e => exists addr value runLen r,
               e = memset_event Sim.proxy addr value runLen r
               /\ 98 <= addr /\ (0 < runLen)%nat
               /\ addr + Z.of_nat runLen <= 98 + Z.of_nat (length data))
       (snd (NThread.world (snd run))).
Proof.
  intros data run.
  assert (Hfst : fst run = Returned 4%nat) by (vm_compute; reflexivity).
  split; [exact Hfst |]. split; [vm_compute; reflexivity |].
  exact (proj1 (proj2 (writeMemory_stays_in_range Sim.proxy [six_zeros] 98
                         data (Sim.blank []) 4%nat _
                         (traced_run_eta run _ Hfst)))).
Defined.



(** Three zero bytes read from the local process and written into the
    region of six zeros: one memset of three bytes is logged, although the
    snapshot already holds them, and the region is as it was. *)
Lemma writeMemoryWithPointer_runs_witness :
  let buf := [x00; x00; x00] in
  let run :=
    @NThread.writeMemoryWithPointer _ (traced Sim.proxy) 100 300 3
      {| NThread.regions := [six_zeros];
         NThread.world := (Sim.blank [], []) |} in
  let log := snd (NThread.world (snd run)) in
  @memory_read _ Sim.proxy 300 3 (Sim.blank []) = (Returned buf, Sim.blank [])
  /\ buf <> []
  /\ log = [memset_event Sim.proxy 100 x00 3 (Returned 100)]
  /\ NThread.regions (snd run) = [six_zeros]
  /\ fst run = Returned (length buf)
  /\ length log = length (maximal_runs buf).
Proof.
  intros buf run log.
  assert (Hread : @memory_read _ Sim.proxy 300 3 (Sim.blank [])
                  = (Returned buf, Sim.blank [])) by reflexivity.
  assert (Hne : buf <> []) by discriminate.
  assert (Hlog : log = [memset_event Sim.proxy 100 x00 3 (Returned 100)])
    by (vm_compute; reflexivity).
  assert (Hs : Forall succeeded log).
  { rewrite Hlog. repeat constructor; eexists; (split; [reflexivity | done]). }
  split; [exact Hread |]. split; [exact Hne |]. split; [exact Hlog |].
  destruct (writeMemoryWithPointer_runs Sim.proxy [six_zeros] 100 300 3
              (Sim.blank []) buf (Sim.blank []) (fst run) _ Hread Hne
              (traced_run_eta run _ eq_refl))
    as (Hregs & _ & Hall & _).
  split; [exact Hregs |]. apply Hall. exact Hs.
Defined.

(** The scan of the simulated module from the empty registry: one sleep
    address and one pushret gadget. *)
Lemma autoDiscoverAddresses_once_witness :
  let g1 := Globals.autoDiscoverAddresses Globals.empty in
  Globals.isAutoDiscovered Globals.empty = false
  /\ Globals.sleepAddresses g1 = [Sim.SLEEP]
  /\ Pools.keys g1 = [Sim.PUSHRET]
  /\ Globals.autoDiscoverAddresses g1 = g1
  /\ (forall x,
        x ∈ Pools.keys g1
        <-> x ∈ Pools.keys Globals.empty
            \/ exists reg,
                 reg ∈ [Reg.Rbx; Reg.Rbp; Reg.Rdi; Reg.Rsi]
                 /\ x ∈ scan_pushret reg).
Proof.
  intros g1.
  destruct (autoDiscoverAddresses_once Globals.empty)
    as (_ & Hagain & _ & Hfresh).
  destruct (Hfresh eq_refl) as [_ Hkeys].
  split; [reflexivity |]. split; [reflexivity |]. split; [reflexivity |].
  split; [exact Hagain | exact Hkeys].
Defined.

(** From the empty registry the sleep address of the simulated module is
    found by the scan and returned. *)
Lemma getRandomSleepAddress_member_witness :
  let run := Globals.getRandomSleepAddress (1 # 2) Globals.empty in
  (0 <= 1 # 2)%Q /\ (1 # 2 < 1)%Q
  /\ fst run = Some Sim.SLEEP
  /\ snd run = Globals.autoDiscoverAddresses Globals.empty
  /\ exists a, fst run = Some a /\ a ∈ Globals.sleepAddresses (snd run).
Proof.
  intros run.
  assert (Hlo : (0 <= 1 # 2)%Q) by (vm_compute; discriminate).
  assert (Hhi : (1 # 2 < 1)%Q) by (vm_compute; reflexivity).
  split; [exact Hlo |]. split; [exact Hhi |].
  split; [vm_compute; reflexivity |].
  destruct (getRandomSleepAddress_member (1 # 2) Globals.empty Hlo Hhi)
    as (Hstate & _ & Hsome & _).
  split; [exact Hstate |]. apply Hsome. vm_compute. discriminate.
Defined.

(** A constructor without arguments on the simulated module: the sleep
    address and the [Rbx] gadget found by the scan. *)
Lemma create_resolves_gadgets_witness :
  let run := NThread.create None None None (1 # 2) (1 # 2) Globals.empty in
  (0 <= 1 # 2)%Q /\ (1 # 2 < 1)%Q
  /\ fst run = Returned Sim.orchestrator
  /\ NThread.sleepAddress Sim.orchestrator ∈ Globals.sleepAddresses (snd run)
  /\ exists e,
       e ∈ (Globals.pushretAddresses (snd run)).*2
       /\ Globals.pointer e = NThread.pushretAddress Sim.orchestrator
       /\ Globals.regKey e = NThread.regKey Sim.orchestrator.
Proof.
  intros run.
  assert (Hlo : (0 <= 1 # 2)%Q) by (vm_compute; discriminate).
  assert (Hhi : (1 # 2 < 1)%Q) by (vm_compute; reflexivity).
  split; [exact Hlo |]. split; [exact Hhi |].
  assert (Hfst : fst run = Returned Sim.orchestrator) by (vm_compute; reflexivity).
  split; [exact Hfst |].
  pose proof (create_resolves_gadgets None None None (1 # 2) (1 # 2)
                Globals.empty Hlo Hhi) as [Hres _].
  cbn zeta in Hres. fold run in Hres. rewrite Hfst in Hres.
  destruct Hres as [Hsleep [Hgadget _]]. split; [exact Hsleep | exact Hgadget].
Defined.

(** X18 on the region of six zeros: a write of four bytes from address 98
    on meets it in its first two bytes, which are read back. *)
Lemma getOverlapInfo_reads_back_witness :
  let source := [x01; x01; x02; x03] in
  let info :=
    Romem.getOverlapInfo 98 4 (Romem.updateSnapshot six_zeros source 98) in
  source <> []
  /\ Romem.overlaps 98 (Z.of_nat (length source)) six_zeros
  /\ Romem.writeOffset info = 2
  /\ Romem.overlapLen info = 2
  /\ Romem.snapshot info = [x02; x03]
  /\ Romem.snapshot info
     = subarray source (Romem.writeOffset info)
         (Romem.writeOffset info + Romem.overlapLen info).
Proof.
  intros source info.
  assert (Hne : source <> []) by discriminate.
  assert (Hov : Romem.overlaps 98 (Z.of_nat (length source)) six_zeros)
    by (unfold Romem.overlaps; cbn; lia).
  split; [exact Hne |]. split; [exact Hov |].
  split; [reflexivity |]. split; [reflexivity |]. split; [reflexivity |].
  exact (proj2 (proj2 (proj2 (proj2 (proj2 (proj2 (proj2
           (getOverlapInfo_reads_back six_zeros source 98 Hne Hov)))))))).
Defined.

(** X19 on the simulated thread: parked, it is found at the sleep address
    at the first poll; once it has ended, the wait reports [FAILED]. *)
Lemma wait_outcomes_witness :
  let parked := CT.wait 10 Sim.parked in
  let gone :=
    CT.wait 10
      {| CT.self := CT.self Sim.parked;
         CT.os := {| Sim.context := Sim.context Sim.busy; Sim.exited := true |} |} in
  fst parked = Returned OBJECT_0
  /\ fst gone = Returned FAILED
  /\ (exists os_before c,
         native_getContext os_before = (Returned c, CT.os (snd parked))
         /\ Rip c = CT.sleepAddress (CT.self Sim.parked))
  /\ exists os_before e os_gone w,
       native_getContext os_before = (Thrown e, os_gone)
       /\ native_wait 0 os_gone = (Returned w, CT.os (snd gone))
       /\ FAILED = (if decide (w = OBJECT_0) then FAILED else w).
Proof.
  intros parked gone.
  assert (Hp : fst parked = Returned OBJECT_0) by (vm_compute; reflexivity).
  assert (Hg : fst gone = Returned FAILED) by (vm_compute; reflexivity).
  split; [exact Hp |]. split; [exact Hg |]. split.
  - exact (proj1 (proj2 (proj2
             (wait_outcomes Sim.Thread Sim.thread 10 Sim.parked OBJECT_0
                (snd parked) (run_eta parked _ Hp))))).
  - exact (proj1 (proj2 (proj2
             (wait_outcomes Sim.Thread Sim.thread 10 _ FAILED
                (snd gone) (run_eta gone _ Hg))))).
Defined.

(** X20 on the two blocks: 16 bytes at the start of the readwrite zone
    and 24 bytes after them. *)
Lemma heap_backed_blocks_apart_witness :
  let a := {| HeapAlloc.remote := 0x100010; HeapAlloc.size := 16 |} in
  let b := {| HeapAlloc.remote := 0x100020; HeapAlloc.size := 24 |} in
  HeapHooks.recorded two_blocks 0x100010 = Some (NThreadHeap.HeapBacked a 0)
  /\ HeapHooks.recorded two_blocks 0x100020 = Some (NThreadHeap.HeapBacked b 0)
  /\ (0x100010 + HeapAlloc.size a <= 0x100020
      \/ 0x100020 + HeapAlloc.size b <= 0x100010).
Proof.
  intros a b.
  assert (Ha : HeapHooks.recorded two_blocks 0x100010
               = Some (NThreadHeap.HeapBacked a 0)) by (vm_compute; reflexivity).
  assert (Hb : HeapHooks.recorded two_blocks 0x100020
               = Some (NThreadHeap.HeapBacked b 0)) by (vm_compute; reflexivity).
  split; [exact Ha |]. split; [exact Hb |].
  destruct (heap_backed_blocks_apart heap_proxy
              (NThreadHeap.create (Some 64) (Some 128))
              [HeapRequests.ReqAlloc 16 None; HeapRequests.ReqAlloc 24 None]
              {| NThread.regions := []; NThread.world := Sim.blank [] |}
              0x100010 a 0%nat Ha) as (_ & _ & _ & Hapart).
  apply (Hapart 0x100020 b); [lia | exact Hb].
Defined.

(** X21 on the two blocks: the first one is freed without a call. *)
Lemma threadFree_heap_backed_witness :
  let a := {| HeapAlloc.remote := 0x100010; HeapAlloc.size := 16 |} in
  HeapHooks.recorded two_blocks 0x100010 = Some (NThreadHeap.HeapBacked a 0)
  /\ exists s',
       @NThreadHeap.threadFree _ heap_proxy 0x100010 two_blocks = (Returned tt, s')
       /\ NThreadHeap.process s' = NThreadHeap.process two_blocks
       /\ HeapHooks.recorded s' 0x100010 = None.
Proof.
  intros a.
  assert (Ha : HeapHooks.recorded two_blocks 0x100010
               = Some (NThreadHeap.HeapBacked a 0)) by (vm_compute; reflexivity).
  split; [exact Ha |].
  destruct (threadFree_heap_backed heap_proxy
              (NThreadHeap.create (Some 64) (Some 128))
              [HeapRequests.ReqAlloc 16 None; HeapRequests.ReqAlloc 24 None]
              {| NThread.regions := []; NThread.world := Sim.blank [] |}
              0x100010 a 0%nat Ha) as (s' & Hf & Hp & Hr & _).
  exists s'. split; [exact Hf |]. split; [exact Hp | exact Hr].
Defined.

(** X22 on the process whose [calloc] takes numbers: a first request of
    16 readonly bytes filled with zeros is served at the base of a new
    heap. *)
Lemma threadAlloc_served_recorded_witness :
  let opts := Some {| NThread.fill := Some 0; NThread.readonly := Some true;
                      NThread.address := None |} in
  let run :=
    @NThreadHeap.threadAlloc _ heap_proxy
      (NThreadHeap.create (Some 64) (Some 128)) 16 opts
      (HeapRequests.fresh {| NThread.regions := []; NThread.world := Sim.blank [] |}) in
  NThread.opt_field NThread.address opts = None
  /\ fst run = Returned 0x100000
  /\ exists a h,
       HeapHooks.recorded (snd run) 0x100000 = Some (NThreadHeap.HeapBacked a h)
       /\ HeapAlloc.remote a = 0x100000 /\ HeapAlloc.size a = 16.
Proof.
  intros opts run.
  assert (Haddr : NThread.opt_field NThread.address opts = None) by reflexivity.
  assert (Hfst : fst run = Returned 0x100000) by (vm_compute; reflexivity).
  split; [exact Haddr |]. split; [exact Hfst |].
  destruct (threadAlloc_served_recorded heap_proxy _ 16 opts _ 0x100000 (snd run)
              Haddr (run_eta run _ Hfst))
    as [Hserved | (s1 & Hnone & _)]; [exact Hserved |].
  exfalso. revert Hnone. vm_compute. discriminate.
Defined.

(** X23 on the one block: a request of zero bytes makes a second heap of
    128 bytes at [0x100040], and is not served from it. *)
Lemma allocFromHeap_empty_request_grows_witness :
  let nt := NThreadHeap.create (Some 64) (Some 128) in
  let run := @NThreadHeap.allocFromHeap _ heap_proxy nt 0 false one_block in
  fst run = Returned None
  /\ NThreadHeap.heap <$> NThreadHeap.state (snd run) = Some (Some 1%nat)
  /\ NThreadHeap.prevHeaps <$> NThreadHeap.state (snd run) = Some [0%nat]
  /\ NThreadHeap.heaps (snd run)
     = [first_heap; Heap.make 0x100040 128 32 96 1].
Proof.
  intros nt run.
  assert (Hstate : NThreadHeap.state one_block = Some one_block_state)
    by (vm_compute; reflexivity).
  assert (Hobj : NThreadHeap.heaps one_block !! 0%nat = Some first_heap)
    by (vm_compute; reflexivity).
  pose (w' := snd (@proxy_call _ heap_proxy (@calloc (@crt _ heap_proxy))
                     [ArgNumber (JsInt 1); ArgNumber (JsInt 128)]
                     (NThread.world (NThreadHeap.process one_block)))).
  assert (Hcall : @proxy_call _ heap_proxy (@calloc (@crt _ heap_proxy))
                    [ArgNumber (JsInt 1);
                     ArgNumber (JsInt (Z.min (Heap.totalSize first_heap * 2)
                                         (NThreadHeap.maxSize nt)))]
                    (NThread.world (NThreadHeap.process one_block))
                  = (Returned 0x100040, w'))
    by (vm_compute; reflexivity).
  assert (Htotal : 0 <= Heap.totalSize first_heap < NThreadHeap.maxSize nt)
    by (vm_compute; split; [discriminate | reflexivity]).
  assert (Hheaps : NThreadHeap.heaps one_block = [first_heap])
    by (vm_compute; reflexivity).
  pose proof (allocFromHeap_empty_request_grows heap_proxy nt 0 false one_block
                one_block_state 0%nat first_heap 0x100040 w'
                Hstate eq_refl Hobj ltac:(lia) Htotal Hcall ltac:(lia)) as Hrun.
  fold run in Hrun. rewrite Hrun.
  cbn [fst snd NThreadHeap.state NThreadHeap.heaps fmap option_fmap option_map
       NThreadHeap.heap NThreadHeap.prevHeaps].
  split; [done |]. split; [done |]. split; [done |].
  rewrite Hheaps. vm_compute. reflexivity.
Defined.

(** X24 on the one block, in a process whose [calloc] returns NULL for
    the arguments [Heap.create] passes: 100 bytes do not fit the heap,
    the growth fails, and heap 0 is the active heap and a previous one. *)
Lemma allocFromHeap_failed_growth_witness :
  let nt := NThreadHeap.create (Some 64) (Some 128) in
  let run := @NThreadHeap.allocFromHeap _ Sim.proxy nt 100 false one_block in
  fst run = Thrown (PlainError "calloc returned NULL")
  /\ NThreadHeap.heap <$> NThreadHeap.state (snd run) = Some (Some 0%nat)
  /\ NThreadHeap.prevHeaps <$> NThreadHeap.state (snd run) = Some [0%nat]
  /\ NThreadHeap.heaps (snd run) = NThreadHeap.heaps one_block.
Proof.
  intros nt run.
  assert (Hstate : NThreadHeap.state one_block = Some one_block_state)
    by (vm_compute; reflexivity).
  assert (Hobj : NThreadHeap.heaps one_block !! 0%nat = Some first_heap)
    by (vm_compute; reflexivity).
  assert (Hrefused : fst (Heap.alloc 100 first_heap)
                     = Thrown (PlainError "ReadWrite zone exhausted"))
    by (vm_compute; reflexivity).
  pose (w' := snd (@proxy_call _ Sim.proxy (@calloc (@crt _ Sim.proxy))
                     [ArgNumber (JsInt 1); ArgNumber (JsInt 128)]
                     (NThread.world (NThreadHeap.process one_block)))).
  assert (Hcall : @proxy_call _ Sim.proxy (@calloc (@crt _ Sim.proxy))
                    [ArgNumber (JsInt 1);
                     ArgNumber (JsInt (Z.min (Heap.totalSize first_heap * 2)
                                         (NThreadHeap.maxSize nt)))]
                    (NThread.world (NThreadHeap.process one_block))
                  = (Returned 0, w'))
    by (vm_compute; reflexivity).
  assert (Htotal : 0 <= Heap.totalSize first_heap < NThreadHeap.maxSize nt)
    by (vm_compute; split; [discriminate | reflexivity]).
  assert (Hfits : 100 <= Z.min (Heap.totalSize first_heap * 2)
                           (NThreadHeap.maxSize nt))
    by (vm_compute; discriminate).
  pose proof (allocFromHeap_failed_growth Sim.proxy nt 100 false one_block
                one_block_state 0%nat first_heap _ w'
                Hstate eq_refl Hobj Hrefused Htotal Hfits Hcall) as Hrun.
  fold run in Hrun. rewrite Hrun.
  cbn [fst snd NThreadHeap.state NThreadHeap.heaps fmap option_fmap option_map
       NThreadHeap.heap NThreadHeap.prevHeaps].
  done.
Defined.
